(** * A shallow embedding of the superword-level vectorizer search engine

    The development follows [gslp/Solver.cpp] (frontier transitions, seed
    enumeration, the UCT search driver, the dynamic-programming bottom-up
    optimizer), the heuristic solver [Heuristic::solve] and the pack helpers
    of [VectorPack.cpp].

    Conventions.
    - An [llvm::Instruction *], a [BasicBlock *], a [Type *], an interned
      [const OperandPack *] and a [const VectorPack *] are addresses,
      modelled as natural numbers; [std::sort] on a vector of pointers
      orders these numbers. What the code reads through such a pointer is an
      accessor of the class [Packer] below.
    - An [llvm::BitVector] is the list of its bits.
    - A [float] is a carrier [F] with the operations of the class
      [FloatOps]; no law of arithmetic is assumed unless a theorem lists it
      as a hypothesis.
    - An [int] is an integer of [Z]; the product of two [int]s wraps around
      at 32 bits ([int_mul]).
    - A failed [assert] aborts the computation: the embedded function
      returns [None]. A loop that may not terminate takes a fuel argument
      and also returns [None] when it runs out.
    - A local variable that is read without having been assigned holds a
      value that the program does not determine: the accessor
      [VecTy_uninit] of the class [Packer] stands for it, and the theorems
      hold whatever it is.

    - [cast<T>] is the identity on pointers: the access DAGs of the packer
      hold loads (stores) only.

    Part I holds the embedding and the vocabulary of the statements,
    Part II the lemmas and the theorems, with the invariants their proofs
    go through, and Part III runs the embedding on concrete blocks. *)

From Stdlib Require Import ZArith QArith Lia.
From stdpp Require Import base option list sorting relations gmap.

Set Default Proof Using "Type".
Open Scope nat_scope.

(** * Part I: the embedding *)

(** ** Floating point costs *)

Class FloatOps (F : Type) := {
  fadd : F → F → F;
  fmul : F → F → F;
  fdiv : F → F → F;
  of_int : Z → F;          (* conversion of an [int] or an [unsigned] *)
  of_Q : Q → F;            (* a literal such as [0.5] *)
  fltb : F → F → bool;     (* [a < b] *)
  feqb : F → F → bool      (* [a == b] *)
}.

(** Exact rational arithmetic is one instance; it is used to run the
    embedding on concrete inputs. *)
#[global] Instance Q_FloatOps : FloatOps Q := {|
  fadd := Qplus; fmul := Qmult; fdiv := Qdiv;
  of_int := inject_Z; of_Q := λ q, q;
  fltb := λ a b, negb (Qle_bool b a);
  feqb := Qeq_bool |}.

(** ** Machine integers *)

(** The value of a 32-bit pattern read as an [int]. *)
Definition to_int (z : Z) : Z := ((z + 2 ^ 31) mod 2 ^ 32 - 2 ^ 31)%Z.

(** The product of two [int]s. *)
Definition int_mul (a b : Z) : Z := to_int (a * b).

(** ** llvm::BitVector *)

Module BitVector.
Abbreviation t := (list bool) (only parsing).

(** [BitVector(N, b)] *)
Definition make (n : nat) (b : bool) : t := replicate n b.
Definition test (bv : t) (i : nat) : bool := default false (bv !! i).
Definition set (bv : t) (i : nat) : t := <[i:=true]> bv.
Definition reset (bv : t) (i : nat) : t := <[i:=false]> bv.

(** [count()]: the number of set bits *)
Fixpoint count (bv : t) : nat :=
  match bv with
  | [] => 0
  | b :: bv' => (if b then 1 else 0) + count bv'
  end.

(** [operator|=]: the left operand grows to the size of the right one *)
Fixpoint or (a b : t) : t :=
  match a, b with
  | [], _ => b
  | _, [] => a
  | x :: a', y :: b' => (x || y) :: or a' b'
  end.

(** [operator&=]: the bits of the left operand beyond the right one are
    cleared, the size of the left operand is kept *)
Fixpoint and (a b : t) : t :=
  match a, b with
  | [], _ => []
  | x :: a', [] => false :: and a' []
  | x :: a', y :: b' => (x && y) :: and a' b'
  end.

Fixpoint anyCommon (a b : t) : bool :=
  match a, b with
  | x :: a', y :: b' => (x && y) || anyCommon a' b'
  | _, _ => false
  end.

(** [set_bits()]: the indices of the set bits, in increasing order *)
Fixpoint set_bits_from (i : nat) (bv : t) : list nat :=
  match bv with
  | [] => []
  | b :: bv' => (if b then [i] else []) ++ set_bits_from (S i) bv'
  end.
Definition set_bits (bv : t) : list nat := set_bits_from 0 bv.
End BitVector.

(** ** STL and ADT helpers *)

(** [llvm::is_splat]: the range is not empty and [std::equal] holds between
    the range without its first element and the range. *)
Definition is_splat {A} `{EqDecision A} (l : list A) : bool :=
  match l with
  | [] => false
  | _ :: l' => forallb (λ p : A * A, bool_decide (p.1 = p.2)) (zip l' l)
  end.

(** [std::is_permutation]: every element occurs as often in one range as
    in the other. *)
Definition is_permutation {A} `{EqDecision A} (l1 l2 : list A) : bool :=
  forallb (λ x, count_occ (decide_rel (=)) l1 x =? count_occ (decide_rel (=)) l2 x)
          (l1 ++ l2).

(** [std::lower_bound] on a vector of pointers: [count] elements from
    [first] are still to be searched. *)
Fixpoint lower_bound_loop (fuel : nat) (l : list nat) (x first count : nat) : nat :=
  match fuel with
  | 0 => first
  | S fuel =>
      if count =? 0 then first
      else
        let step := count / 2 in
        let it := first + step in
        if default 0 (l !! it) <? x
        then lower_bound_loop fuel l x (it + 1) (count - (step + 1))
        else lower_bound_loop fuel l x first step
  end.
Definition lower_bound (l : list nat) (x : nat) : nat :=
  lower_bound_loop (length l) l x 0 (length l).

(** [std::binary_search] *)
Definition binary_search (l : list nat) (x : nat) : bool :=
  let i := lower_bound l x in
  bool_decide (i ≠ length l) && negb (x <? default 0 (l !! i)).

(** [std::sort] on a vector of pointers *)
Definition sort_ptrs (l : list nat) : list nat := merge_sort (≤) l.

(** Modelled from the spec: the helper [remove(X, ToRemove)] that the two
    [advanceInplace] call on the unresolved packs is defined in no file at
    hand. Section 4.5 says that a pack whose index was recorded is "marked
    resolved", that is, it leaves [unresolved_packs]: the elements at the
    recorded indices are dropped. The list is sorted right after, so the
    order in which the helper leaves the others is immaterial. *)
Fixpoint remove_from (i : nat) (X : list nat) (ToRemove : list nat) : list nat :=
  match X with
  | [] => []
  | x :: X' =>
      if bool_decide (i ∈ ToRemove) then remove_from (S i) X' ToRemove
      else x :: remove_from (S i) X' ToRemove
  end.
Definition remove (X : list nat) (ToRemove : list nat) : list nat :=
  remove_from 0 X ToRemove.

(** ** The IR as the search sees it *)

Definition InstPtr := nat.
Definition BlockPtr := nat.
Definition TypePtr := nat.
Definition OperandPackPtr := nat.
Definition VectorPackPtr := nat.

(** An [llvm::Value *]: an instruction, a constant, or any other value (an
    argument, ...). [dyn_cast<Instruction>] succeeds on the first,
    [isa<Constant>] on the second. *)
Inductive Value :=
| VInst (Inst : InstPtr)
| VConst (c : nat)
| VArg (a : nat).

#[global] Instance Value_eq_dec : EqDecision Value.
Proof. solve_decision. Defined.

Inductive Opcode := OpLoad | OpStore | OpPHI | OpOther.

#[global] Instance Opcode_eq_dec : EqDecision Opcode.
Proof. solve_decision. Defined.

Definition dyn_cast_Instruction (V : Value) : option InstPtr :=
  match V with VInst Inst => Some Inst | _ => None end.

Definition isa_Constant (V : Value) : bool :=
  match V with VConst _ => true | _ => false end.

(** A [FixedVectorType]: element type and number of elements. *)
Definition VectorType : Type := TypePtr * nat.

(** An operand pack: its lanes (a null lane is a don't-care) and the lazily
    computed vector type [Ty]. *)
Record OperandPack := {
  lanes : list (option Value);
  Ty : option VectorType
}.

Inductive ShuffleKind := SK_Broadcast | SK_PermuteSingleSrc.
Inductive VectorInstr := InsertElement | ExtractElement.

(** The target cost interface; its costs are [int]s. *)
Record TargetTransformInfo := {
  getShuffleCost : ShuffleKind → VectorType → Z → Z;
  getVectorInstrCost : VectorInstr → VectorType → nat → Z
}.

(** [OperandProducerInfo], the result of [Packer::getProducerInfo]. *)
Record OperandProducerInfo := {
  Feasible : bool;
  Elements : BitVector.t;
  getProducers : list VectorPackPtr
}.

(** The [Packer] of a function, read at one block [BB]: the IR of the
    block, its [VectorPackContext] (value index, interned packs), the
    dependence analysis, the two access DAGs and the target. The classes
    behind these accessors are declared in headers that are not part of the
    sources at hand; the search only goes through the accessors. *)
Class Packer (F : Type) := {
  (* the function and the block *)
  getParent : InstPtr → BlockPtr;
  operands : InstPtr → list Value;
  users : InstPtr → list Value;
  getOpcode : InstPtr → Opcode;
  getType : Value → TypePtr;
  BB : BlockPtr;
  insts : list InstPtr;                   (* [for (auto &I : *BB)] *)
  (* VectorPackContext *)
  getScalarId : InstPtr → nat;
  getNumValues : nat;
  getScalar : nat → Value;
  getOperandPack : OperandPackPtr → OperandPack;
  (* VectorPack accessors *)
  getCost : VectorPackPtr → F;
  getProducingCost : VectorPackPtr → F;
  isStore : VectorPackPtr → bool;
  isLoad : VectorPackPtr → bool;
  getElements : VectorPackPtr → BitVector.t;
  getOrderedValues : VectorPackPtr → list (option Value);
  getOperandPacks : VectorPackPtr → list OperandPackPtr;
  getReplacedInsts : VectorPackPtr → list InstPtr;
  (* VectorPackContext factories *)
  createLoadPack : list (option InstPtr) → BitVector.t → BitVector.t → VectorPackPtr;
  createStorePack : list (option InstPtr) → BitVector.t → BitVector.t → VectorPackPtr;
  dedup : OperandPackPtr → OperandPackPtr;
  (* LocalDependenceAnalysis *)
  getDepended : InstPtr → BitVector.t;
  (* ConsecutiveAccessDAG: [find], and the keys in iteration order *)
  LoadDAG : InstPtr → option (list InstPtr);
  StoreDAG : InstPtr → option (list InstPtr);
  StoreDAG_keys : list InstPtr;
  (* the target and the scalar cost model *)
  getTTI : TargetTransformInfo;
  getScalarCost : InstPtr → F;
  getProducerInfo : OperandPackPtr → OperandProducerInfo;
  (* what the local [Type *VecTy] of [Frontier::advanceInplace] holds while
     it is not assigned *)
  VecTy_uninit : VectorType
}.

(** ** Frontier *)

Record Frontier := mkFrontier {
  (** the reverse iterator [BBIt]: the instructions from the cursor back to
      the head of the block; the empty list is [BB->rend()] *)
  BBIt : list InstPtr;
  UnresolvedPacks : list OperandPackPtr;
  UnresolvedScalars : BitVector.t;
  FreeInsts : BitVector.t;
  UsableInsts : BitVector.t
}.

(** A [ShuffleTask]: the unresolved pack it produces, the packs it reads,
    and its cost on a target. *)
Record ShuffleTask (F : Type) := {
  Output : OperandPackPtr;
  Inputs : list OperandPackPtr;
  getCost_ST : TargetTransformInfo → F
}.
Arguments Output {F}.
Arguments Inputs {F}.
Arguments getCost_ST {F}.

(** An [int] converted to [unsigned]. *)
Definition to_unsigned (z : Z) : Z := (z mod 2 ^ 32)%Z.

Section FrontierDefs.
Context {F : Type} `{FloatOps F} {Pkr : Packer F}.

Definition isPHI (Inst : InstPtr) : bool := bool_decide (getOpcode Inst = OpPHI).
Definition isLoadInst (Inst : InstPtr) : bool := bool_decide (getOpcode Inst = OpLoad).
Definition isStoreInst (Inst : InstPtr) : bool := bool_decide (getOpcode Inst = OpStore).
(** [I->getParent() == BB] *)
Definition inBB (Inst : InstPtr) : bool := bool_decide (getParent Inst = BB).

(** The loop over [I.users()] in the constructor: it marks [I] as an
    unresolved scalar for every user outside the block and clears
    [AllUsersResolved] for every user inside. *)
Definition scanUsers (Inst : InstPtr) (US : BitVector.t) : BitVector.t * bool :=
  fold_left
    (λ (st : BitVector.t * bool) (U : Value),
       match dyn_cast_Instruction U with
       | Some UserInst =>
           if inBB UserInst then (st.1, false)
           else (BitVector.set st.1 (getScalarId Inst), st.2)
       | None => st
       end)
    (users Inst) (US, true).

(** The state of the constructor's loop after the instructions [l]. *)
Definition ctor_loop (l : list InstPtr) (st : BitVector.t * BitVector.t)
  : BitVector.t * BitVector.t :=
  fold_left
    (λ (st : BitVector.t * BitVector.t) (Inst : InstPtr),
       let '(US, AllUsersResolved) := scanUsers Inst st.1 in
       let InstId := getScalarId Inst in
       (US, if AllUsersResolved || isPHI Inst
            then BitVector.set st.2 InstId else st.2))
    l st.

(** [Frontier::Frontier], the constructor from a block *)
Definition Frontier_ctor : Frontier :=
  let N := getNumValues in
  let st := ctor_loop insts (BitVector.make N false, BitVector.make N false) in
  {| BBIt := reverse insts;
     UnresolvedPacks := [];
     UnresolvedScalars := st.1;
     FreeInsts := BitVector.make N true;
     UsableInsts := st.2 |}.

(** [Frontier::getNextFreeInst] *)
Definition getNextFreeInst (Frt : Frontier) : option InstPtr := head (BBIt Frt).

Definition isFree (Frt : Frontier) (Inst : InstPtr) : bool :=
  BitVector.test (FreeInsts Frt) (getScalarId Inst).
Definition isUsable (Frt : Frontier) (Inst : InstPtr) : bool :=
  BitVector.test (UsableInsts Frt) (getScalarId Inst).
Definition numUnresolvedScalars (Frt : Frontier) : nat :=
  BitVector.count (UnresolvedScalars Frt).
(** [usableInsts()]: the values of the set bits of [UsableInsts] *)
Definition usableInsts (Frt : Frontier) : list Value :=
  getScalar <$> BitVector.set_bits (UsableInsts Frt).

(** "An instruction is usable if all of its users are frozen": no user of
    [OI] is a free instruction of the block. *)
Definition allUsersFrozen (Frt : Frontier) (OI : InstPtr) : bool :=
  forallb (λ U, match dyn_cast_Instruction U with
                | Some UserInst => negb (inBB UserInst && isFree Frt UserInst)
                | None => true
                end) (users OI).

(** [Frontier::freezeOneInst] *)
Definition freezeOneInst (Inst : InstPtr) (Frt : Frontier) : option Frontier :=
  let InstId := getScalarId Inst in
  if BitVector.test (FreeInsts Frt) InstId then
    let Frt1 := {| BBIt := BBIt Frt;
                   UnresolvedPacks := UnresolvedPacks Frt;
                   UnresolvedScalars := BitVector.reset (UnresolvedScalars Frt) InstId;
                   FreeInsts := BitVector.reset (FreeInsts Frt) InstId;
                   UsableInsts := BitVector.reset (UsableInsts Frt) InstId |} in
    Some (fold_left
            (λ (Frt' : Frontier) (Operand : Value),
               match dyn_cast_Instruction Operand with
               | Some OI =>
                   if inBB OI && isFree Frt' OI && allUsersFrozen Frt' OI
                   then {| BBIt := BBIt Frt';
                           UnresolvedPacks := UnresolvedPacks Frt';
                           UnresolvedScalars := UnresolvedScalars Frt';
                           FreeInsts := FreeInsts Frt';
                           UsableInsts := BitVector.set (UsableInsts Frt') (getScalarId OI) |}
                   else Frt'
               | None => Frt'
               end)
            (operands Inst) Frt1)
  else None.

(** The loop of [Frontier::advanceBBIt] on the iterator. *)
Fixpoint skipFrozen (Free : BitVector.t) (It : list InstPtr) : list InstPtr :=
  match It with
  | [] => []
  | Inst :: It' =>
      if BitVector.test Free (getScalarId Inst) then It else skipFrozen Free It'
  end.

(** [Frontier::advanceBBIt] *)
Definition advanceBBIt (Frt : Frontier) : Frontier :=
  {| BBIt := skipFrozen (FreeInsts Frt) (BBIt Frt);
     UnresolvedPacks := UnresolvedPacks Frt;
     UnresolvedScalars := UnresolvedScalars Frt;
     FreeInsts := FreeInsts Frt;
     UsableInsts := UsableInsts Frt |}.

(** A lane holds a free instruction of the block. *)
Definition laneIsFree (Frt : Frontier) (V : option Value) : bool :=
  match V with
  | Some (VInst Inst) => inBB Inst && isFree Frt Inst
  | _ => false
  end.

(** [Frontier::resolved] *)
Definition resolved (Frt : Frontier) (OP : OperandPack) : bool :=
  forallb (λ V, negb (laneIsFree Frt V)) (lanes OP).

(** [getVectorType] of an operand pack; [None] when the assertion
    "Operand pack can't be all empty" fails. *)
Definition getVectorType_OP (OP : OperandPack) : option VectorType :=
  match Ty OP with
  | Some T => Some T
  | None =>
      V ← head (omap (λ V, V) (lanes OP));
      Some (getType V, length (lanes OP))
  end.

(** [getVectorType] of a vector pack: the type of its first element and
    the number of its elements. On a pack without elements the code reads
    the first of an empty range, which no assertion guards; the model has
    no result there, and the theorems on the commit of a pack that is not
    a store take a pack with an element. *)
Definition getVectorType_VP (VP : VectorPackPtr) : option VectorType :=
  k ← head (BitVector.set_bits (getElements VP));
  Some (getType (getScalar k), BitVector.count (getElements VP)).

(** The lanes of [OP] that are [I] pay twice the insert cost; the product
    is a product of [int]s. *)
Fixpoint insertLoop (TTI : TargetTransformInfo) (VecTy : VectorType)
    (Inst : InstPtr) (i : nat) (ls : list (option Value)) (Cost : F) : F :=
  match ls with
  | [] => Cost
  | V :: ls' =>
      insertLoop TTI VecTy Inst (S i) ls'
        (if bool_decide (V = Some (VInst Inst))
         then fadd Cost (of_int (int_mul 2 (getVectorInstrCost TTI InsertElement VecTy i)))
         else Cost)
  end.

(** "Go over unresolved packs and see if we've resolved any lanes": the
    loop of [advanceInplace] on an instruction, from index [i] on. *)
Fixpoint scalarizeLoop (TTI : TargetTransformInfo) (Frt : Frontier)
    (Inst : InstPtr) (i : nat) (packs : list OperandPackPtr)
    (Cost : F) (ResolvedPackIds : list nat) : option (F * list nat) :=
  match packs with
  | [] => Some (Cost, ResolvedPackIds)
  | p :: packs' =>
      let OP := getOperandPack p in
      VecTy ← getVectorType_OP OP;
      if negb (VecTy.2 =? length (lanes OP)) then None
      else if is_splat (lanes OP) && bool_decide (head (lanes OP) = Some (Some (VInst Inst)))
      then scalarizeLoop TTI Frt Inst (S i) packs'
             (fadd Cost (of_int (getShuffleCost TTI SK_Broadcast VecTy 0)))
             (ResolvedPackIds ++ [i])
      else scalarizeLoop TTI Frt Inst (S i) packs'
             (insertLoop TTI VecTy Inst 0 (lanes OP) Cost)
             (if resolved Frt OP then ResolvedPackIds ++ [i] else ResolvedPackIds)
  end.

(** "If [I] uses any free instructions, add those to the set of unresolved
    scalars." *)
Definition markOperands (Inst : InstPtr) (Free US : BitVector.t) : BitVector.t :=
  fold_left
    (λ (US : BitVector.t) (Operand : Value),
       match dyn_cast_Instruction Operand with
       | Some I2 =>
           if inBB I2 && BitVector.test Free (getScalarId I2)
           then BitVector.set US (getScalarId I2) else US
       | None => US
       end)
    (operands Inst) US.

(** [Frontier::advanceInplace], the overload on an [Instruction] *)
Definition advanceInplace_Inst (Inst : InstPtr) (TTI : TargetTransformInfo)
    (Frt : Frontier) : option (F * Frontier) :=
  Frt1 ← freezeOneInst Inst Frt;
  let Frt2 := advanceBBIt Frt1 in
  '(Cost, ResolvedPackIds) ←
    scalarizeLoop TTI Frt2 Inst 0 (UnresolvedPacks Frt2) (of_int 0) [];
  Some (Cost,
        {| BBIt := BBIt Frt2;
           UnresolvedPacks := sort_ptrs (remove (UnresolvedPacks Frt2) ResolvedPackIds);
           UnresolvedScalars := markOperands Inst (FreeInsts Frt2) (UnresolvedScalars Frt2);
           FreeInsts := FreeInsts Frt2;
           UsableInsts := UsableInsts Frt2 |}).

(** [Frontier::resolveOperandPack]: some lane of [OP] is produced by [VP]. *)
Definition resolveOperandPack (VP : VectorPackPtr) (OP : OperandPack) : bool :=
  existsb (λ V, match V with
                | Some (VInst Inst) =>
                    inBB Inst && BitVector.test (getElements VP) (getScalarId Inst)
                | _ => false
                end) (lanes OP).

(** [isConstantPack] *)
Definition isConstantPack (OP : OperandPack) : bool :=
  forallb (λ V, match V with Some V => isa_Constant V | None => true end) (lanes OP).

(** [getGatherCost]; the result is an [unsigned]. *)
Definition getGatherCost (VP : VectorPackPtr) (OpndPack : OperandPack)
    (TTI : TargetTransformInfo) : option Z :=
  if isConstantPack OpndPack then Some 0%Z
  else
    let VPVals := getOrderedValues VP in
    if length VPVals =? length (lanes OpndPack) then
      let Exact := forallb (λ p : option Value * option Value, bool_decide (p.1 = p.2))
                           (zip VPVals (lanes OpndPack)) in
      if Exact then Some 0%Z
      else if is_permutation VPVals (lanes OpndPack) then
        VecTy ← getVectorType_VP VP;
        Some (to_unsigned (getShuffleCost TTI SK_PermuteSingleSrc VecTy 0))
      else Some 2%Z
    else Some 2%Z.

(** "Tick off instructions taking part in [VP] and pay the scalar extract
    cost." The loop runs for every pack, a store pack included, and charges
    the extract cost on whatever [VecTy] holds. *)
Fixpoint extractLoop (TTI : TargetTransformInfo) (VecTy : VectorType)
    (US : BitVector.t) (LaneId : nat) (OutputLanes : list (option Value))
    (Cost : F) : F :=
  match OutputLanes with
  | [] => Cost
  | V :: rest =>
      match V with
      | Some (VInst Inst) =>
          if BitVector.test US (getScalarId Inst) then
            extractLoop TTI VecTy US (S LaneId) rest
              (fadd Cost (of_int (getVectorInstrCost TTI ExtractElement VecTy LaneId)))
          else extractLoop TTI VecTy US (S LaneId) rest Cost
      | _ => extractLoop TTI VecTy US (S LaneId) rest Cost
      end
  end.

(** The position of an instruction in the block; [J->comesBefore(I)]
    compares positions. *)
Definition instPos (Inst : InstPtr) : nat :=
  default (length insts) (fst <$> list_find (λ J, J = Inst) insts).

(** [std::sort(ReplacedInsts, [](I, J) { return J->comesBefore(I); })] *)
Definition laterFirst (Inst J : InstPtr) : Prop := instPos J ≤ instPos Inst.

#[global] Instance laterFirst_dec : RelDecision laterFirst.
Proof. intros x y. unfold laterFirst. apply _. Defined.

Definition sortReplaced (l : list InstPtr) : list InstPtr :=
  merge_sort laterFirst l.

Fixpoint freezeAll (l : list InstPtr) (Frt : Frontier) : option Frontier :=
  match l with
  | [] => Some Frt
  | Inst :: l' => Frt' ← freezeOneInst Inst Frt; freezeAll l' Frt'
  end.

(** The loop over the unresolved packs of [advanceInplace] on a vector
    pack, entered for a pack that is not a store. *)
Fixpoint gatherLoop (TTI : TargetTransformInfo) (Frt : Frontier)
    (VP : VectorPackPtr) (i : nat) (packs : list OperandPackPtr)
    (Cost : F) (ResolvedPackIds : list nat) : option (F * list nat) :=
  match packs with
  | [] => Some (Cost, ResolvedPackIds)
  | p :: packs' =>
      let OP := getOperandPack p in
      if resolveOperandPack VP OP then
        g ← getGatherCost VP OP TTI;
        gatherLoop TTI Frt VP (S i) packs' (fadd Cost (of_int g))
          (if resolved Frt OP then ResolvedPackIds ++ [i] else ResolvedPackIds)
      else gatherLoop TTI Frt VP (S i) packs' Cost ResolvedPackIds
  end.

(** "Assume I is always scalar and pay the insert cost": the lanes of an
    operand pack of [VP] that hold neither a constant nor an instruction of
    the block. *)
Fixpoint foreignInsertLoop (TTI : TargetTransformInfo) (OperandTy : VectorType)
    (LaneId : nat) (ls : list (option Value)) (Cost : F) : F :=
  match ls with
  | [] => Cost
  | V :: ls' =>
      foreignInsertLoop TTI OperandTy (S LaneId) ls'
        (match V with
         | None => Cost
         | Some V =>
             if isa_Constant V then Cost
             else match dyn_cast_Instruction V with
                  | Some Inst =>
                      if inBB Inst then Cost
                      else fadd Cost (of_int (int_mul 2 (getVectorInstrCost TTI InsertElement
                                                           OperandTy LaneId)))
                  | None =>
                      fadd Cost (of_int (int_mul 2 (getVectorInstrCost TTI InsertElement
                                                      OperandTy LaneId)))
                  end
         end)
  end.

(** "Track the unresolved operand packs used by [VP]" *)
Fixpoint trackOperandPacks (TTI : TargetTransformInfo) (Frt : Frontier)
    (OpndPacks : list OperandPackPtr) (Cost : F)
    (Unresolved : list OperandPackPtr) : option (F * list OperandPackPtr) :=
  match OpndPacks with
  | [] => Some (Cost, Unresolved)
  | p :: rest =>
      let OpndPack := getOperandPack p in
      OperandTy ← getVectorType_OP OpndPack;
      trackOperandPacks TTI Frt rest
        (foreignInsertLoop TTI OperandTy 0 (lanes OpndPack) Cost)
        (if negb (resolved Frt OpndPack) && negb (binary_search Unresolved p)
         then Unresolved ++ [p] else Unresolved)
  end.

(** [Frontier::advanceInplace], the overload on a [VectorPack]. The local
    [VecTy] is assigned for a pack that is not a store; for a store pack it
    keeps what it held, [VecTy_uninit]. *)
Definition advanceInplace_VP (VP : VectorPackPtr) (TTI : TargetTransformInfo)
    (Frt : Frontier) : option (F * Frontier) :=
  VecTy ← (if isStore VP then Some VecTy_uninit else getVectorType_VP VP);
  let Cost1 :=
    extractLoop TTI VecTy (UnresolvedScalars Frt) 0 (getOrderedValues VP) (getCost VP) in
  Frt1 ← freezeAll (sortReplaced (getReplacedInsts VP)) Frt;
  let Frt2 := advanceBBIt Frt1 in
  '(Cost2, ResolvedPackIds) ←
    (if isStore VP then Some (Cost1, [])
     else gatherLoop TTI Frt2 VP 0 (UnresolvedPacks Frt2) Cost1 []);
  '(Cost3, Unresolved) ←
    trackOperandPacks TTI Frt2 (getOperandPacks VP) Cost2 (UnresolvedPacks Frt2);
  Some (Cost3,
        {| BBIt := BBIt Frt2;
           UnresolvedPacks := sort_ptrs (remove Unresolved ResolvedPackIds);
           UnresolvedScalars := UnresolvedScalars Frt2;
           FreeInsts := FreeInsts Frt2;
           UsableInsts := UsableInsts Frt2 |}).

(** [Frontier::advanceInplace], the overload on a [ShuffleTask] *)
Definition advanceInplace_ST (ST : ShuffleTask F) (TTI : TargetTransformInfo)
    (Frt : Frontier) : option (F * Frontier) :=
  let UP := UnresolvedPacks Frt in
  let It := lower_bound UP (Output ST) in
  if bool_decide (It = length UP) then None
  else if negb (bool_decide (UP !! It = Some (Output ST))) then None
  else
    (* swap with the back, drop the back, append the inputs *)
    let UP1 := take (length UP - 1) (<[It := default 0 (last UP)]> UP) in
    Some (getCost_ST ST TTI,
          {| BBIt := BBIt Frt;
             UnresolvedPacks := sort_ptrs (UP1 ++ Inputs ST);
             UnresolvedScalars := UnresolvedScalars Frt;
             FreeInsts := FreeInsts Frt;
             UsableInsts := UsableInsts Frt |}).

(** [Frontier::advance]: the three overloads copy the frontier and advance
    the copy in place. *)
Definition advance_VP (VP : VectorPackPtr) (TTI : TargetTransformInfo)
    (Frt : Frontier) : option (F * Frontier) := advanceInplace_VP VP TTI Frt.
Definition advance_Inst (Inst : InstPtr) (TTI : TargetTransformInfo)
    (Frt : Frontier) : option (F * Frontier) := advanceInplace_Inst Inst TTI Frt.
Definition advance_ST (ST : ShuffleTask F) (TTI : TargetTransformInfo)
    (Frt : Frontier) : option (F * Frontier) := advanceInplace_ST ST TTI Frt.

End FrontierDefs.

(** ** Seed memory packs *)

(** [mapM] followed by a concatenation: the packs pushed by the calls made
    for the elements of [l], in order. *)
Fixpoint concatMapM {A B} (f : A → option (list B)) (l : list A) : option (list B) :=
  match l with
  | [] => Some []
  | x :: l' => ys ← f x; zs ← concatMapM f l'; Some (ys ++ zs)
  end.

Section Seeds.
Context {F : Type} {Pkr : Packer F}.

(** Modelled from the spec: [checkIndependence] is declared in a header
    that is not part of the sources at hand. Section 4.6 asks that "the
    lane-elements must be pairwise independent and none may depend on
    already-packed values", and the glossary calls two instructions
    independent when neither is in the dependence closure of the other.
    [sampleAccesses] spells the same test out on its bit sets: the
    candidate is rejected when [Elements.anyCommon(Depended2) ||
    Depended.test(AccessId)]. *)
Definition checkIndependence (Inst : InstPtr) (Elements Depended : BitVector.t) : bool :=
  negb (BitVector.anyCommon Elements (getDepended Inst))
  && negb (BitVector.test Depended (getScalarId Inst)).

(** The DAG of the stores or of the loads. *)
Definition AccessDAG (IsStore : bool) : InstPtr → option (list InstPtr) :=
  if IsStore then StoreDAG else LoadDAG.

(** [createMemPack<AccessType>] *)
Definition createMemPack (IsStore : bool) (Accesses : list InstPtr)
    (Elements Depended : BitVector.t) : VectorPackPtr :=
  if IsStore then createStorePack (Some <$> Accesses) Elements Depended
  else createLoadPack (Some <$> Accesses) Elements Depended.

(** The recursive lambda [Enumerate] of [getSeedMemPacks]; the result is
    what the call pushes to [Seeds]. *)
Fixpoint Enumerate (fuel : nat) (IsStore : bool) (VL : nat) (Accesses : list InstPtr)
    (Elements Depended : BitVector.t) : option (list VectorPackPtr) :=
  match fuel with
  | 0 => None
  | S fuel =>
      if length Accesses =? VL
      then Some [createMemPack IsStore Accesses Elements Depended]
      else
        back ← last Accesses;
        match AccessDAG IsStore back with
        | None => Some []
        | Some nexts =>
            concatMapM
              (λ NextAccess,
                 if negb (checkIndependence NextAccess Elements Depended) then Some []
                 else Enumerate fuel IsStore VL
                        (Accesses ++ [NextAccess])
                        (BitVector.set Elements (getScalarId NextAccess))
                        (BitVector.or Depended (getDepended NextAccess)))
              nexts
        end
  end.

(** [getSeedMemPacks<AccessType>(Pkr, BB, Access, VL)] *)
Definition getSeedMemPacks (fuel : nat) (IsStore : bool) (Access : InstPtr) (VL : nat)
  : option (list VectorPackPtr) :=
  Enumerate fuel IsStore VL [Access]
    (BitVector.set (BitVector.make getNumValues false) (getScalarId Access))
    (BitVector.or (BitVector.make getNumValues false) (getDepended Access)).

(** [enumerate(BB, Pkr)]: the candidate load packs. *)
Definition enumerate (fuel : nat) : option (list VectorPackPtr) :=
  concatMapM
    (λ Inst,
       if bool_decide (getOpcode Inst = OpLoad)
       then concatMapM (λ VL, getSeedMemPacks fuel false Inst VL) [2; 4; 8; 16]
       else Some [])
    insts.

(** The first loop of [improvePlan]: the seed store packs. *)
Definition improvePlan_Seeds (fuel : nat) : option (list VectorPackPtr) :=
  concatMapM
    (λ Inst,
       if bool_decide (getOpcode Inst = OpStore)
       then concatMapM (λ VL, getSeedMemPacks fuel true Inst VL) [2; 4; 8; 16; 32]
       else Some [])
    insts.

(** *** The chains, as section 4.6 words them *)

(** Neither instruction is in the dependence closure of the other. *)
Definition independent (x y : InstPtr) : Prop :=
  BitVector.test (getDepended y) (getScalarId x) = false ∧
  BitVector.test (getDepended x) (getScalarId y) = false.

#[global] Instance independent_dec x y : Decision (independent x y).
Proof. unfold independent. apply _. Defined.

(** Each element of the chain is followed by one of its successors in the
    DAG. *)
Definition consecutiveIn (IsStore : bool) (c : list InstPtr) : Prop :=
  ∀ i x y, c !! i = Some x → c !! S i = Some y →
           ∃ nexts, AccessDAG IsStore x = Some nexts ∧ y ∈ nexts.

Definition pairwiseIndependent (c : list InstPtr) : Prop :=
  ∀ i j x y, i < j → c !! i = Some x → c !! j = Some y → independent x y.

(** A chain of [VL] accesses that starts at [A]. *)
Definition isSeedChain (IsStore : bool) (A : InstPtr) (VL : nat) (c : list InstPtr) : Prop :=
  head c = Some A ∧ length c = VL ∧ consecutiveIn IsStore c ∧ pairwiseIndependent c.

(** The chains that extend [Accesses] by [n] accesses, depth first. *)
Fixpoint extensions (IsStore : bool) (n : nat) (Accesses : list InstPtr)
  : list (list InstPtr) :=
  match n with
  | 0 => [Accesses]
  | S n =>
      match last Accesses with
      | None => []
      | Some back =>
          match AccessDAG IsStore back with
          | None => []
          | Some nexts =>
              concat ((λ y, extensions IsStore n (Accesses ++ [y]))
                        <$> filter (λ y, Forall (λ x, independent x y) Accesses) nexts)
          end
      end
  end.

(** The chains of [VL] accesses from [A]. *)
Definition seedChains (IsStore : bool) (A : InstPtr) (VL : nat) : list (list InstPtr) :=
  extensions IsStore (VL - 1) [A].

(** The bit sets [getSeedMemPacks] keeps for a chain. *)
Definition elementsOf (c : list InstPtr) : BitVector.t :=
  fold_left (λ E x, BitVector.set E (getScalarId x)) c (BitVector.make getNumValues false).
Definition dependedOf (c : list InstPtr) : BitVector.t :=
  fold_left (λ D x, BitVector.or D (getDepended x)) c (BitVector.make getNumValues false).

(** The seed pack of a chain. *)
Definition seedPack (IsStore : bool) (c : list InstPtr) : VectorPackPtr :=
  createMemPack IsStore c (elementsOf c) (dependedOf c).

(** The seed packs of the chains of the lane counts [VLs] from the
    accesses of opcode [op] of the block, in the order of the block. *)
Definition seedsOf (IsStore : bool) (op : Opcode) (VLs : list nat) : list VectorPackPtr :=
  concat ((λ A, concat ((λ VL, seedPack IsStore <$> seedChains IsStore A VL) <$> VLs))
            <$> filter (λ Inst, getOpcode Inst = op) insts).

(** The ids of the accesses of the DAG are in the range of the value
    index. *)
Definition dag_ids_ok (IsStore : bool) : Prop :=
  ∀ x nexts, AccessDAG IsStore x = Some nexts →
             Forall (λ y, getScalarId y < getNumValues) nexts.

End Seeds.

(** ** The UCT search driver *)

Definition UCTNodePtr := nat.

(** What [UCTSearch::run] reads and writes through a [UCTNode *]: the
    nodes, their transitions, the evaluator and the policy. The node class
    is declared in a header that is not part of the sources at hand; [St] is
    the state of everything the search owns, and a transition of a node is
    named by its index in [transitions()]. *)
Class UCTNodeOps (F St : Type) := {
  expanded : St → UCTNodePtr → bool;
  isTerminal : St → UCTNodePtr → bool;
  visitCount : St → UCTNodePtr → nat;
  numTransitions : St → UCTNodePtr → nat;            (* [transitions().size()] *)
  transitionWeight : St → UCTNodePtr → list F;
  score : St → UCTNodePtr → nat → F → F;              (* [score(Transitions[i], C)] *)
  update : St → UCTNodePtr → F → St;
  T_visited : St → UCTNodePtr → nat → bool;
  T_visitCount : St → UCTNodePtr → nat → nat;
  T_Next : St → UCTNodePtr → nat → UCTNodePtr;
  T_Cost : St → UCTNodePtr → nat → F;
  T_incrCount : St → UCTNodePtr → nat → St;            (* [T->Count += 1] *)
  evalLeafNode : St → UCTNodePtr → F * St;
  expand : St → UCTNodePtr → nat → St;
  Policy_getMaxNumLanes : option nat;                (* [None]: no policy *)
  predictAsync : St → UCTNodePtr → St
}.

Section UCTSearch.
Context {F St : Type} `{FloatOps F} {Ops : UCTNodeOps F St}.
Variables (C W : F) (ExpandThreshold : nat).

(** The lambda [ScoreTransition] of the selection; reading a weight that
    the node does not have aborts. *)
Definition ScoreTransition (s : St) (CurNode : UCTNodePtr) (i : nat) : option F :=
  let Score := score s CurNode i C in
  match transitionWeight s CurNode with
  | [] => Some Score
  | TransitionWeight =>
      w ← TransitionWeight !! i;
      Some (fadd Score (fdiv (fmul W w) (of_int (Z.of_nat (T_visitCount s CurNode i + 1)))))
  end.

(** The loop over the transitions of [CurNode]: [n] transitions are left
    from index [i]; the first transition that was never visited is taken
    at once. *)
Fixpoint pickTransition (s : St) (CurNode : UCTNodePtr) (n i : nat)
    (BestT : nat) (MaxUCTScore : F) : option nat :=
  match n with
  | 0 => Some BestT
  | S n =>
      if negb (T_visited s CurNode i) then Some i
      else
        UCTScore ← ScoreTransition s CurNode i;
        if fltb MaxUCTScore UCTScore
        then pickTransition s CurNode n (S i) i UCTScore
        else pickTransition s CurNode n (S i) BestT MaxUCTScore
  end.

(** 1) Selection: traverse down to a node that is not expanded; the result
    is that node and the path to it. Taking the address of [Transitions[0]]
    of a node without transitions aborts. *)
Fixpoint select (fuel : nat) (s : St) (CurNode : UCTNodePtr)
    (Path : list (UCTNodePtr * nat)) : option (UCTNodePtr * list (UCTNodePtr * nat)) :=
  match fuel with
  | 0 => None
  | S fuel =>
      if expanded s CurNode then
        if numTransitions s CurNode =? 0 then None
        else
          MaxUCTScore ←
            (if T_visited s CurNode 0 then ScoreTransition s CurNode 0
             else Some (of_int 0));
          BestT ← pickTransition s CurNode (numTransitions s CurNode) 0 0 MaxUCTScore;
          select fuel s (T_Next s CurNode BestT) (Path ++ [(CurNode, BestT)])
      else Some (CurNode, Path)
  end.

(** 4) Backpropagation along the reversed path. *)
Fixpoint backprop (RPath : list (UCTNodePtr * nat)) (TotalCost : F) (s : St) : St :=
  match RPath with
  | [] => s
  | (Parent, T) :: RPath =>
      let TotalCost := fadd TotalCost (T_Cost s Parent T) in
      let s := update s Parent TotalCost in
      let s := T_incrCount s Parent T in
      backprop RPath TotalCost s
  end.

(** The body of the loop of [run]: one iteration of the search. *)
Definition iteration (fuel : nat) (Root : UCTNodePtr) (s : St) : option St :=
  '(CurNode, Path) ← select fuel s Root [];
  let '(LeafCost, s) :=
    if negb (isTerminal s CurNode) then
      let '(LeafCost, s) := evalLeafNode s CurNode in
      if ExpandThreshold <=? visitCount s CurNode then
        let s := expand s CurNode (default 8 Policy_getMaxNumLanes) in
        if bool_decide (Policy_getMaxNumLanes ≠ None) && (1 <? numTransitions s CurNode)
        then (LeafCost, predictAsync s CurNode)
        else (LeafCost, s)
      else (LeafCost, s)
    else (of_int 0, s) in
  let s := update s CurNode LeafCost in
  Some (backprop (reverse Path) LeafCost s).

(** [for (unsigned Iter = 0; Iter < NumIters; Iter++)]; the result also
    counts the iterations that were executed. *)
Fixpoint for_iters (NumIters : nat) (body : St → option St) (s : St) : option (nat * St) :=
  match NumIters with
  | 0 => Some (0, s)
  | S NumIters =>
      s ← body s;
      '(k, s) ← for_iters NumIters body s;
      Some (S k, s)
  end.

(** [UCTSearch::run(Root, NumIters)]: the number of iterations executed and
    the state they leave. *)
Definition run (fuel : nat) (Root : UCTNodePtr) (NumIters : nat) (s : St) : option (nat * St) :=
  let NumIters :=
    if expanded s Root && (numTransitions s Root =? 1) then 1 else NumIters in
  for_iters NumIters (iteration fuel Root) s.

End UCTSearch.

(** ** The node factory *)

Definition PartialPackPtr := nat.

(** What the factory knows of a node: the frontier it was made for and its
    partial pack, if it has one. *)
Record UCTNode := {
  getFrontier : Frontier;
  getPartialPack : option PartialPackPtr
}.

(** [UCTNodeFactory]. The nodes are owned through [unique_ptr]s that are
    only ever pushed to [Nodes], so a [UCTNode *] is modelled as the index
    of the node in [Nodes]. The [DenseMap] is the list of its entries in
    the order of their insertion; its keys are pointers to the frontiers
    that [Frontiers] owns, compared by the frontiers they point to. *)
Record UCTNodeFactory := {
  FrontierToNodeMap : list (Frontier * UCTNodePtr);
  Nodes : list UCTNode;
  Frontiers : list Frontier
}.

Definition emptyFactory : UCTNodeFactory :=
  {| FrontierToNodeMap := []; Nodes := []; Frontiers := [] |}.

Section Factory.
(** [FrontierHashInfo::isEqual], the equality of the keys of the map. *)
Variable isEqual : Frontier → Frontier → bool.

(** [DenseMap::find]: the entry whose key is equal to [Frt]. *)
Definition findEntry (M : list (Frontier * UCTNodePtr)) (Frt : Frontier)
  : option (Frontier * UCTNodePtr) :=
  List.find (λ kv, isEqual kv.1 Frt) M.

(** [UCTNodeFactory::getNode(std::unique_ptr<Frontier>)]: the node and the
    factory after the call. [try_emplace] inserts nothing when the map has
    an entry for an equal frontier; the [assert] then reads the node of the
    entry. *)
Definition getNode (Frt : Frontier) (fac : UCTNodeFactory)
  : option (UCTNodePtr * UCTNodeFactory) :=
  match findEntry (FrontierToNodeMap fac) Frt with
  | Some (_, Node) =>
      N ← Nodes fac !! Node;
      match getPartialPack N with
      | Some _ => None
      | None => Some (Node, fac)
      end
  | None =>
      let NewNode := length (Nodes fac) in
      Some (NewNode,
            {| FrontierToNodeMap := FrontierToNodeMap fac ++ [(Frt, NewNode)];
               Nodes := Nodes fac ++ [{| getFrontier := Frt; getPartialPack := None |}];
               Frontiers := Frontiers fac ++ [Frt] |})
  end.

(** [UCTNodeFactory::getNode(const Frontier *, std::unique_ptr<PartialPack>)] *)
Definition getNode_PP (Frt : Frontier) (PP : PartialPackPtr) (fac : UCTNodeFactory)
  : UCTNodePtr * UCTNodeFactory :=
  (length (Nodes fac),
   {| FrontierToNodeMap := FrontierToNodeMap fac;
      Nodes := Nodes fac ++ [{| getFrontier := Frt; getPartialPack := Some PP |}];
      Frontiers := Frontiers fac |}).

(** One call of either [getNode]. *)
Inductive FactoryStep : UCTNodeFactory → UCTNodeFactory → Prop :=
| step_getNode Frt fac n fac' :
    getNode Frt fac = Some (n, fac') → FactoryStep fac fac'
| step_getNode_PP Frt PP fac n fac' :
    getNode_PP Frt PP fac = (n, fac') → FactoryStep fac fac'.

(** The factories a search can hold: those reached from the empty one by
    calls of [getNode]. *)
Definition reachableFactory (fac : UCTNodeFactory) : Prop :=
  rtc FactoryStep emptyFactory fac.

End Factory.

(** ** The heuristic solver *)

(** [Heuristic::Solution]: a cost and the packs that realise it. *)
Record Solution (F : Type) := mkSolution {
  Cost : F;
  Packs : list VectorPackPtr
}.
Arguments mkSolution {F}.
Arguments Cost {F}.
Arguments Packs {F}.

(** Modelled from the spec: [Solution::update] is declared in a header
    that is not part of the sources at hand. Section 4.7 lists the
    alternatives of [solve] and says that "the minimum is memoized": the
    solution is replaced by a strictly cheaper one. *)
Definition Solution_update {F} `{FloatOps F} (Sol New : Solution F) : Solution F :=
  if fltb (Cost New) (Cost Sol) then New else Sol.

(** [CandidatePackSet]: the candidate packs, and for every value id the
    candidates that have the value among their elements. *)
Record CandidatePackSet := {
  CandidatePacks : list VectorPackPtr;
  Inst2Packs : list (list VectorPackPtr)
}.

(** The memo tables of a [Heuristic]. *)
Record Heuristic (F : Type) := mkHeuristic {
  Solutions : gmap OperandPackPtr (Solution F);
  ScalarCosts : gmap InstPtr F
}.
Arguments mkHeuristic {F}.
Arguments Solutions {F}.
Arguments ScalarCosts {F}.

(** A method of [Heuristic]: it reads and writes the memo tables, and it
    may abort. *)
Definition HM (F A : Type) : Type := Heuristic F → option (A * Heuristic F).

#[global] Instance HM_ret {F} : MRet (HM F) := λ A a H, Some (a, H).
#[global] Instance HM_bind {F} : MBind (HM F) :=
  λ A B k m H, match m H with Some (a, H') => k a H' | None => None end.

Definition HM_abort {F A} : HM F A := λ _, None.

(** A loop over [l] that threads the value [b]. *)
Fixpoint foldM {F A B} (f : B → A → HM F B) (l : list A) (b : B) : HM F B :=
  match l with
  | [] => mret b
  | x :: l => b' ← f b x; foldM f l b'
  end.

(** The same without memo tables. *)
Fixpoint foldO {A B} (f : B → A → option B) (l : list A) (b : B) : option B :=
  match l with
  | [] => Some b
  | x :: l => b' ← f b x; foldO f l b'
  end.

Section HeuristicDefs.
Context {F : Type} `{FloatOps F} {Pkr : Packer F}.

Definition C_Splat : F := of_Q 1.
Definition C_Insert : F := of_int 2.
Definition C_Perm : F := of_Q (1 # 2).
Definition C_Shuffle : F := of_Q (1 # 2).

(** [CandidateSet] as [optimizeBottomUp] fills it from the enumerated
    packs: [Inst2Packs] has an entry for every value id, and every pack is
    pushed to the entries of its elements. *)
Definition CandidateSet_of (Packs : list VectorPackPtr) : CandidatePackSet :=
  {| CandidatePacks := Packs;
     Inst2Packs :=
       fold_left
         (λ I2P VP, fold_left (λ I2P i, alter (λ l, l ++ [VP]) i I2P)
                              (BitVector.set_bits (getElements VP)) I2P)
         Packs (replicate getNumValues []) |}.

Definition getScalarCostMemo (Inst : InstPtr) : HM F (option F) :=
  λ H, Some (ScalarCosts H !! Inst, H).
Definition setScalarCostMemo (Inst : InstPtr) (c : F) : HM F F :=
  λ H, Some (c, mkHeuristic (Solutions H) (<[Inst := c]> (ScalarCosts H))).
Definition getSolutionMemo (OP : OperandPackPtr) : HM F (option (Solution F)) :=
  λ H, Some (Solutions H !! OP, H).
Definition setSolutionMemo (OP : OperandPackPtr) (Sol : Solution F) : HM F (Solution F) :=
  λ H, Some (Sol, mkHeuristic (<[OP := Sol]> (Solutions H)) (ScalarCosts H)).

(** [Heuristic::getCost] on a value; a null value is [None]. *)
Fixpoint getCost_V (fuel : nat) (V : option Value) : HM F F :=
  match fuel with
  | 0 => HM_abort
  | S fuel =>
      match V ≫= dyn_cast_Instruction with
      | None => mret (of_int 0)
      | Some Inst =>
          if bool_decide (getParent Inst ≠ BB) then mret (of_int 0)
          else
            It ← getScalarCostMemo Inst;
            match It with
            | Some c => mret c
            | None =>
                Cost ← foldM (λ Cost V, c ← getCost_V fuel (Some V); mret (fadd Cost c))
                             (operands Inst) (getScalarCost Inst);
                setScalarCostMemo Inst Cost
            end
      end
  end.

Section Solve.
Variable Candidates : option CandidatePackSet.

(** The loop of [solve] that builds the pack by explicit insertion; the
    state of the loop is the cost and the set [Inserted]. *)
Definition insertStep (fuel : nat) (acc : F * list Value) (V : option Value)
  : HM F (F * list Value) :=
  match V with
  | Some V' =>
      if negb (isa_Constant V') && bool_decide (V' ∉ acc.2)
      then c ← getCost_V fuel V; mret (fadd acc.1 (fadd c C_Insert), V' :: acc.2)
      else mret acc
  | None => mret acc
  end.

(** What the loop over the candidates compares the loaded values with:
    [std::is_permutation] reads as many lanes of [OP] as there are
    values. *)
Definition permutesOperand (Vals OPLanes : list (option Value)) : option bool :=
  if length OPLanes <? length Vals then None
  else Some (is_permutation Vals (take (length Vals) OPLanes)).

Definition Discount (OPI : OperandProducerInfo) (VP : VectorPackPtr) : F :=
  let Intersection := BitVector.and (Elements OPI) (getElements VP) in
  fdiv (of_int (Z.of_nat (BitVector.count (Elements OPI))))
       (of_int (Z.of_nat (BitVector.count Intersection))).

(** Modelled from the spec: [Heuristic::getCost] on an operand pack is
    declared in [Heuristic.h] and defined in no file at hand. Section 4.7
    gives the cost of a vector pack as its producing cost plus the sum of
    [solve] over its operand packs: the cost of an operand pack is the cost
    of its solution. *)
Definition getCost_OP_with (solve : OperandPackPtr → HM F (Solution F))
    (OP : OperandPackPtr) : HM F F :=
  Sol ← solve OP; mret (Cost Sol).

(** [Heuristic::getCost] on a vector pack, given [getCost] on operand
    packs. *)
Definition getCost_VP_with (getCost_OP : OperandPackPtr → HM F F) (VP : VectorPackPtr)
  : HM F F :=
  foldM (λ Cost OP, c ← getCost_OP OP; mret (fadd Cost c))
        (getOperandPacks VP) (getProducingCost VP).

(** The cost that the candidate load pack [VP] offers for [OP]: that of a
    permutation when the values of [VP] are a permutation of [OP], a cost
    pro-rated by the share of the elements that [VP] covers otherwise. *)
Definition candidateCost (getCost_OP : OperandPackPtr → HM F F)
    (OP : OperandPack) (OPI : OperandProducerInfo) (ExtraCost : F)
    (VP : VectorPackPtr) : HM F F :=
  let Vals := getOrderedValues VP in
  match (if length Vals =? BitVector.count (Elements OPI)
         then permutesOperand Vals (lanes OP) else Some false) with
  | None => HM_abort
  | Some true =>
      c ← getCost_VP_with getCost_OP VP;
      mret (fadd (fadd c C_Perm) ExtraCost)
  | Some false =>
      c ← getCost_VP_with getCost_OP VP;
      mret (fadd (fadd (fmul c (Discount OPI VP)) C_Shuffle) ExtraCost)
  end.

(** The body of the loop of [solve] over the candidates of one element;
    the state of the loop is the solution and the set [Visited]. *)
Definition candidateStep (getCost_OP : OperandPackPtr → HM F F)
    (OP : OperandPack) (OPI : OperandProducerInfo) (ExtraCost : F)
    (acc : Solution F * list VectorPackPtr) (VP : VectorPackPtr)
  : HM F (Solution F * list VectorPackPtr) :=
  if bool_decide (VP ∈ acc.2) then mret acc
  else if negb (isLoad VP) then mret (acc.1, VP :: acc.2)
  else
    c ← candidateCost getCost_OP OP OPI ExtraCost VP;
    mret (Solution_update acc.1 (mkSolution c [VP]), VP :: acc.2).

(** The body of the loop of [solve] over the producers of the operand
    pack. *)
Definition producerStep (getCost_OP : OperandPackPtr → HM F F) (ExtraCost : F)
    (Sol : Solution F) (VP : VectorPackPtr) : HM F (Solution F) :=
  c ← getCost_VP_with getCost_OP VP;
  mret (Solution_update Sol (mkSolution (fadd c ExtraCost) [VP])).

(** The body of the loop of [solve] over the elements of the operand
    pack. *)
Definition elementStep (getCost_OP : OperandPackPtr → HM F F) (Cands : CandidatePackSet)
    (OP : OperandPack) (OPI : OperandProducerInfo) (ExtraCost : F)
    (acc : Solution F * list VectorPackPtr) (InstId : nat)
  : HM F (Solution F * list VectorPackPtr) :=
  match Inst2Packs Cands !! InstId with
  | None => HM_abort
  | Some VPs => foldM (candidateStep getCost_OP OP OPI ExtraCost) VPs acc
  end.

(** [Heuristic::solve]. *)
Fixpoint solve (fuel : nat) (OP : OperandPackPtr) : HM F (Solution F) :=
  match fuel with
  | 0 => HM_abort
  | S fuel =>
      It ← getSolutionMemo OP;
      match It with
      | Some Sol => mret Sol
      | None =>
          let getCost_OP := getCost_OP_with (solve fuel) in
          (* build by explicit insertion *)
          acc ← foldM (insertStep fuel) (lanes (getOperandPack OP)) (of_int 0, []);
          let Cost0 := acc.1 in
          let Sol := mkSolution Cost0 [] in
          if feqb Cost0 (of_int 0) then setSolutionMemo OP Sol
          else
            (* build by broadcast *)
            match head (lanes (getOperandPack OP)) with
            | None => HM_abort
            | Some front =>
                c ← getCost_V fuel front;
                let BroadcastCast := fadd c C_Splat in
                let Sol :=
                  if is_splat (lanes (getOperandPack OP)) && fltb BroadcastCast Cost0
                  then mkSolution BroadcastCast [] else Sol in
                let Deduped := dedup OP in
                let ExtraCost := if bool_decide (Deduped ≠ OP) then C_Shuffle else of_int 0 in
                let OPI := getProducerInfo Deduped in
                Sol ← foldM (producerStep getCost_OP ExtraCost) (getProducers OPI) Sol;
                match Candidates with
                | None => setSolutionMemo OP Sol
                | Some Cands =>
                    acc ← foldM (elementStep getCost_OP Cands (getOperandPack OP)
                                             OPI ExtraCost)
                                (BitVector.set_bits (Elements OPI)) (Sol, []);
                    setSolutionMemo OP acc.1
                end
            end
      end
  end.

End Solve.

(** *** The costs without the memo tables

    The same functions with every call computed afresh. A memo table of a
    [Heuristic] is consistent when each of its entries is what these
    functions return. *)

Fixpoint costV (fuel : nat) (V : option Value) : option F :=
  match fuel with
  | 0 => None
  | S fuel =>
      match V ≫= dyn_cast_Instruction with
      | None => Some (of_int 0)
      | Some Inst =>
          if bool_decide (getParent Inst ≠ BB) then Some (of_int 0)
          else foldO (λ Cost V, c ← costV fuel (Some V); Some (fadd Cost c))
                     (operands Inst) (getScalarCost Inst)
      end
  end.

Section SolveO.
Variable Candidates : option CandidatePackSet.

Definition insertStepO (costV : option Value → option F)
    (acc : F * list Value) (V : option Value) : option (F * list Value) :=
  match V with
  | Some V' =>
      if negb (isa_Constant V') && bool_decide (V' ∉ acc.2)
      then c ← costV V; Some (fadd acc.1 (fadd c C_Insert), V' :: acc.2)
      else Some acc
  | None => Some acc
  end.

Definition costOP_with (solve : OperandPackPtr → option (Solution F))
    (OP : OperandPackPtr) : option F :=
  Sol ← solve OP; Some (Cost Sol).

Definition costVP_with (costOP : OperandPackPtr → option F) (VP : VectorPackPtr)
  : option F :=
  foldO (λ Cost OP, c ← costOP OP; Some (fadd Cost c))
        (getOperandPacks VP) (getProducingCost VP).

Definition candidateCostO (costOP : OperandPackPtr → option F)
    (OP : OperandPack) (OPI : OperandProducerInfo) (ExtraCost : F)
    (VP : VectorPackPtr) : option F :=
  let Vals := getOrderedValues VP in
  match (if length Vals =? BitVector.count (Elements OPI)
         then permutesOperand Vals (lanes OP) else Some false) with
  | None => None
  | Some true =>
      c ← costVP_with costOP VP;
      Some (fadd (fadd c C_Perm) ExtraCost)
  | Some false =>
      c ← costVP_with costOP VP;
      Some (fadd (fadd (fmul c (Discount OPI VP)) C_Shuffle) ExtraCost)
  end.

Definition candidateStepO (costOP : OperandPackPtr → option F)
    (OP : OperandPack) (OPI : OperandProducerInfo) (ExtraCost : F)
    (acc : Solution F * list VectorPackPtr) (VP : VectorPackPtr)
  : option (Solution F * list VectorPackPtr) :=
  if bool_decide (VP ∈ acc.2) then Some acc
  else if negb (isLoad VP) then Some (acc.1, VP :: acc.2)
  else
    c ← candidateCostO costOP OP OPI ExtraCost VP;
    Some (Solution_update acc.1 (mkSolution c [VP]), VP :: acc.2).

Definition producerStepO (costOP : OperandPackPtr → option F) (ExtraCost : F)
    (Sol : Solution F) (VP : VectorPackPtr) : option (Solution F) :=
  c ← costVP_with costOP VP;
  Some (Solution_update Sol (mkSolution (fadd c ExtraCost) [VP])).

Definition elementStepO (costOP : OperandPackPtr → option F) (Cands : CandidatePackSet)
    (OP : OperandPack) (OPI : OperandProducerInfo) (ExtraCost : F)
    (acc : Solution F * list VectorPackPtr) (InstId : nat)
  : option (Solution F * list VectorPackPtr) :=
  VPs ← Inst2Packs Cands !! InstId;
  foldO (candidateStepO costOP OP OPI ExtraCost) VPs acc.

(** The loop over the candidates, from the solution [Sol]. *)
Definition candidatesLoopO (costOP : OperandPackPtr → option F)
    (OP : OperandPack) (OPI : OperandProducerInfo) (ExtraCost : F)
    (Sol : Solution F) : option (Solution F) :=
  match Candidates with
  | None => Some Sol
  | Some Cands =>
      acc ← foldO (elementStepO costOP Cands OP OPI ExtraCost)
                  (BitVector.set_bits (Elements OPI)) (Sol, []);
      Some acc.1
  end.

(** The solution before the producers and the candidates are looked at:
    explicit insertion, or a broadcast when it is cheaper. [None] is an
    abort; a cost of zero ends [solve]. *)
Definition baseSolution (costV : option Value → option F) (OP : OperandPack)
  : option (Solution F * bool) :=
  acc ← foldO (insertStepO costV) (lanes OP) (of_int 0, []);
  let Cost0 := acc.1 in
  if feqb Cost0 (of_int 0) then Some (mkSolution Cost0 [], true)
  else
    front ← head (lanes OP);
    c ← costV front;
    let BroadcastCast := fadd c C_Splat in
    Some (if is_splat (lanes OP) && fltb BroadcastCast Cost0
          then mkSolution BroadcastCast [] else mkSolution Cost0 [],
          false).

(** One call of [solve], given the costs of the values and the solutions
    of the operand packs it asks for. *)
Definition solveBodyO (costV : option Value → option F)
    (solve : OperandPackPtr → option (Solution F)) (OP : OperandPackPtr)
  : option (Solution F) :=
  let costOP := costOP_with solve in
  '(Base, Done) ← baseSolution costV (getOperandPack OP);
  if Done : bool then Some Base
  else
    let Deduped := dedup OP in
    let ExtraCost := if bool_decide (Deduped ≠ OP) then C_Shuffle else of_int 0 in
    let OPI := getProducerInfo Deduped in
    Sol ← foldO (producerStepO costOP ExtraCost) (getProducers OPI) Base;
    candidatesLoopO costOP (getOperandPack OP) OPI ExtraCost Sol.

Fixpoint solveO (fuel : nat) (OP : OperandPackPtr) : option (Solution F) :=
  match fuel with
  | 0 => None
  | S fuel => solveBodyO (costV fuel) (solveO fuel) OP
  end.

(** The memo tables hold what the functions return. *)
Definition memo_ok (H : Heuristic F) : Prop :=
  (∀ Inst c, ScalarCosts H !! Inst = Some c →
             ∃ fuel, costV fuel (Some (VInst Inst)) = Some c) ∧
  (∀ OP Sol, Solutions H !! OP = Some Sol → ∃ fuel, solveO fuel OP = Some Sol).

End SolveO.

(** The tables of a new [Heuristic]. *)
Definition newHeuristic : Heuristic F := mkHeuristic ∅ ∅.

(** [a <= b] on costs: [b < a] does not hold. *)
Definition fle (a b : F) : Prop := fltb b a = false.

(** The candidates of [C] for the value id [i]; no candidate set has no
    candidates. *)
Definition candidatesAt (C : option CandidatePackSet) (i : nat) : list VectorPackPtr :=
  match C with
  | None => []
  | Some Cands => default [] (Inst2Packs Cands !! i)
  end.

(** Every candidate of [C] is a candidate of [C'], for the same values. *)
Definition candidates_subset (C C' : option CandidatePackSet) : Prop :=
  ∀ i VP, VP ∈ candidatesAt C i → VP ∈ candidatesAt C' i.

End HeuristicDefs.

(** The laws of an ordered field that the monotonicity of [solve] rests
    on: the comparison is asymmetric and its complement is transitive,
    addition is monotone, and so is the multiplication by the ratio of two
    counts. They hold of the rationals, and of the floating point numbers
    that are not NaN. *)
Class CostLaws (F : Type) `{FloatOps F} : Prop := {
  fltb_asym : ∀ a b : F, fltb a b = true → fltb b a = false;
  fle_trans : ∀ a b c : F, fle a b → fle b c → fle a c;
  fadd_mono : ∀ a a' b b' : F, fle a a' → fle b b' → fle (fadd a b) (fadd a' b');
  fmul_ratio_mono :
    ∀ (a a' : F) (n m : nat),
      fle a a' →
      fle (fmul a (fdiv (of_int (Z.of_nat n)) (of_int (Z.of_nat m))))
          (fmul a' (fdiv (of_int (Z.of_nat n)) (of_int (Z.of_nat m))))
}.

(** ** The bottom-up optimizer *)

(** The searches that [findExtensionPacks2] delegates: the load pack that
    extends an operand pack of loads ([findExtendingLoadPack]), the packs
    that the loop over the vector instructions of the target builds for an
    operand pack from the matches of the [MatchManager], and
    [tryCoalesceLoads]. They go through the match manager and the load
    layout, whose classes are declared in headers that are not part of the
    sources at hand. *)
Class ExtensionSearch := {
  findExtendingLoadPack : OperandPackPtr → option VectorPackPtr;
  matchedPacks : OperandPackPtr → BitVector.t → BitVector.t → list VectorPackPtr;
  tryCoalesceLoads : VectorPackPtr → list VectorPackPtr → option VectorPackPtr
}.

(** The [VectorPackSet] the optimizer adds the committed packs to. *)
Class PackSet (VPS : Type) := {
  tryAdd : VPS → VectorPackPtr → VPS
}.

(** A [DenseMap] with the key equality [isEqual]: the list of its entries
    in the order of their insertion. *)
Definition denseFind {K V} (isEqual : K → K → bool) (M : list (K * V)) (k : K) : option V :=
  snd <$> List.find (λ kv, isEqual kv.1 k) M.

(** [M[k] = v] *)
Fixpoint denseSet {K V} (isEqual : K → K → bool) (M : list (K * V)) (k : K) (v : V)
  : list (K * V) :=
  match M with
  | [] => [(k, v)]
  | kv :: M' => if isEqual kv.1 k then (kv.1, v) :: M' else kv :: denseSet isEqual M' k v
  end.

(** What the loop of [findExtensionPacks2] over the lanes of an operand
    pack computes. *)
Record LaneScan := {
  Extensible : bool;
  AllLoads : bool;
  HasUndef : bool;
  ScanElements : BitVector.t;
  ScanDepended : BitVector.t
}.

Module DPSolver.
(** [DPSolver::Solution]: the default solution is no extension. *)
Record Solution (F : Type) := mkSolution {
  Cost : F;
  VP : option VectorPackPtr
}.
Arguments mkSolution {F}.
Arguments Cost {F}.
Arguments VP {F}.
End DPSolver.

Section BottomUp.
Context {F : Type} `{FloatOps F} {Pkr : Packer F} {Ext : ExtensionSearch}.
Context {VPS : Type} {PS : PackSet VPS}.
(** [FrontierHashInfo::isEqual] *)
Variable isEqual : Frontier → Frontier → bool.

(** The loop of [estimateAllScalarCost] over the lanes of an unresolved
    pack, from the lane [i] on. *)
Fixpoint estimateLanes (TTI : TargetTransformInfo) (Frt : Frontier)
    (VecTy : VectorType) (OP : OperandPack) (i : nat) (ls : list (option Value))
    (Cost : F) : F :=
  match ls with
  | [] => Cost
  | V :: ls' =>
      match V ≫= dyn_cast_Instruction with
      | Some Inst =>
          if negb (inBB Inst) || negb (isFree Frt Inst)
          then estimateLanes TTI Frt VecTy OP (S i) ls' Cost
          else if (i =? 0) && is_splat (lanes OP)
          then fadd Cost (of_int (getShuffleCost TTI SK_Broadcast VecTy 0))
          else estimateLanes TTI Frt VecTy OP (S i) ls'
                 (fadd Cost (of_int (int_mul 2 (getVectorInstrCost TTI InsertElement VecTy i))))
      | None => estimateLanes TTI Frt VecTy OP (S i) ls' Cost
      end
  end.

(** [estimateAllScalarCost] *)
Definition estimateAllScalarCost (Frt : Frontier) (TTI : TargetTransformInfo) : option F :=
  foldO (λ Cost p,
           let OP := getOperandPack p in
           VecTy ← getVectorType_OP OP;
           Some (estimateLanes TTI Frt VecTy OP 0 (lanes OP) Cost))
        (UnresolvedPacks Frt) (of_int 0).

(** The loop of [findExtensionPacks2] over the lanes of an operand pack. *)
Fixpoint scanLanes (Frt : Frontier) (ls : list (option Value)) (st : LaneScan) : LaneScan :=
  match ls with
  | [] => st
  | None :: ls' =>
      scanLanes Frt ls'
        {| Extensible := Extensible st; AllLoads := AllLoads st; HasUndef := true;
           ScanElements := ScanElements st; ScanDepended := ScanDepended st |}
  | Some V :: ls' =>
      match dyn_cast_Instruction V with
      | None =>
          scanLanes Frt ls'
            {| Extensible := Extensible st; AllLoads := false; HasUndef := HasUndef st;
               ScanElements := ScanElements st; ScanDepended := ScanDepended st |}
      | Some Inst =>
          if negb (inBB Inst) || negb (isUsable Frt Inst)
             || negb (checkIndependence Inst (ScanElements st) (ScanDepended st))
          then {| Extensible := false; AllLoads := AllLoads st; HasUndef := HasUndef st;
                  ScanElements := ScanElements st; ScanDepended := ScanDepended st |}
          else
            scanLanes Frt ls'
              {| Extensible := Extensible st;
                 AllLoads := AllLoads st && isLoadInst Inst;
                 HasUndef := HasUndef st;
                 ScanElements := BitVector.set (ScanElements st) (getScalarId Inst);
                 ScanDepended := BitVector.or (ScanDepended st) (getDepended Inst) |}
      end
  end.

(** The loop of [findExtensionPacks2] over the unresolved packs; the state
    is [Extensions] and [LoadExtensions]. *)
Fixpoint extensionLoop (Frt : Frontier) (packs : list OperandPackPtr)
    (Extensions LoadExtensions : list VectorPackPtr)
  : list VectorPackPtr * list VectorPackPtr :=
  match packs with
  | [] => (Extensions, LoadExtensions)
  | p :: packs' =>
      if negb (bool_decide (Extensions = [])) then (Extensions, LoadExtensions)
      else
        let N := getNumValues in
        let sc := scanLanes Frt (lanes (getOperandPack p))
                    {| Extensible := true; AllLoads := true; HasUndef := false;
                       ScanElements := BitVector.make N false;
                       ScanDepended := BitVector.make N false |} in
        if negb (Extensible sc) then extensionLoop Frt packs' Extensions LoadExtensions
        else if AllLoads sc then
          extensionLoop Frt packs' Extensions
            (LoadExtensions ++ option_list (findExtendingLoadPack p))
        else if HasUndef sc then extensionLoop Frt packs' Extensions LoadExtensions
        else
          extensionLoop Frt packs'
            (Extensions ++ matchedPacks p (ScanElements sc) (ScanDepended sc))
            LoadExtensions
  end.

(** [findExtensionPacks2] *)
Definition findExtensionPacks2 (Frt : Frontier) : list VectorPackPtr :=
  let '(Extensions, LoadExtensions) := extensionLoop Frt (UnresolvedPacks Frt) [] [] in
  if negb (bool_decide (Extensions = [])) then Extensions
  else
    match LoadExtensions with
    | LoadVP :: Others =>
        match tryCoalesceLoads LoadVP Others with
        | Some Coalesced => [Coalesced; LoadVP]
        | None => [LoadVP]
        end
    | [] => []
    end.

(** [DPSolver::solve], with [solveImpl] inlined; the solver is the map
    [Solutions]. *)
Fixpoint DP_solve (fuel : nat) (TTI : TargetTransformInfo) (Frt : Frontier)
    (Solutions : list (Frontier * DPSolver.Solution F))
  : option (DPSolver.Solution F * list (Frontier * DPSolver.Solution F)) :=
  match fuel with
  | 0 => None
  | S fuel =>
      match denseFind isEqual Solutions Frt with
      | Some Sol => Some (Sol, Solutions)
      | None =>
          (* the cost of not adding any extension *)
          Cost0 ← estimateAllScalarCost Frt TTI;
          (* the cost of adding one extension *)
          '(Sol, Solutions) ←
            foldO (λ (st : DPSolver.Solution F * list (Frontier * DPSolver.Solution F)) ExtVP,
                     '(LocalCost, NextFrt) ← advance_VP ExtVP TTI Frt;
                     '(Sub, Solutions) ← DP_solve fuel TTI NextFrt st.2;
                     let TotalCost := fadd (DPSolver.Cost Sub) LocalCost in
                     Some (if fltb TotalCost (DPSolver.Cost st.1)
                           then DPSolver.mkSolution TotalCost (Some ExtVP) else st.1,
                           Solutions))
                  (findExtensionPacks2 Frt) (DPSolver.mkSolution Cost0 None, Solutions);
          Some (Sol, denseSet isEqual Solutions Frt Sol)
      end
  end.

(** The lambda [Enumerate] of [getSeedStorePacks]. *)
Fixpoint EnumerateStores (fuel : nat) (Frt : Frontier) (VL : nat) (Stores : list InstPtr)
    (Elements Depended : BitVector.t) : option (list VectorPackPtr) :=
  match fuel with
  | 0 => None
  | S fuel =>
      if length Stores =? VL
      then Some [createStorePack (Some <$> Stores) Elements Depended]
      else
        back ← last Stores;
        match StoreDAG back with
        | None => Some []
        | Some nexts =>
            concatMapM
              (λ NextSI,
                 if negb (isUsable Frt NextSI) then Some []
                 else if negb (checkIndependence NextSI Elements Depended) then Some []
                 else EnumerateStores fuel Frt VL
                        (Stores ++ [NextSI])
                        (BitVector.set Elements (getScalarId NextSI))
                        (BitVector.or Depended (getDepended NextSI)))
              nexts
        end
  end.

(** [getSeedStorePacks] *)
Definition getSeedStorePacks (fuel : nat) (Frt : Frontier) (SI : InstPtr) (VL : nat)
  : option (list VectorPackPtr) :=
  if negb (isUsable Frt SI) then Some []
  else
    EnumerateStores fuel Frt VL [SI]
      (BitVector.set (BitVector.make getNumValues false) (getScalarId SI))
      (BitVector.or (BitVector.make getNumValues false) (getDepended SI)).

(** [getSeedStorePack]: the first seed, or a null pointer. *)
Definition getSeedStorePack (fuel : nat) (Frt : Frontier) (SI : InstPtr) (VL : nat)
  : option (option VectorPackPtr) :=
  Seeds ← getSeedStorePacks fuel Frt SI VL;
  Some (head Seeds).

(** The lambda [GetChainLen] of [optimizeBottomUp], with its memo table
    [StoreChainLen]. *)
Fixpoint GetChainLen (fuel : nat) (Inst : InstPtr) (StoreChainLen : gmap InstPtr nat)
  : option (nat * gmap InstPtr nat) :=
  match fuel with
  | 0 => None
  | S fuel =>
      match StoreChainLen !! Inst with
      | Some n => Some (n, StoreChainLen)
      | None =>
          match StoreDAG Inst with
          | None => Some (1, <[Inst := 1]> StoreChainLen)
          | Some nexts =>
              '(MaxLen, StoreChainLen) ←
                foldO (λ (st : nat * gmap InstPtr nat) Next,
                         '(n, StoreChainLen) ← GetChainLen fuel Next st.2;
                         Some (st.1 `max` n, StoreChainLen))
                      nexts (0, StoreChainLen);
              Some (MaxLen + 1, <[Inst := MaxLen + 1]> StoreChainLen)
          end
      end
  end.

(** The comparison of [std::sort]: the longer chain first. *)
Definition longerFirst (a b : InstPtr * nat) : Prop := b.2 ≤ a.2.

#[global] Instance longerFirst_dec a b : Decision (longerFirst a b).
Proof. unfold longerFirst. apply _. Defined.

(** The stores of the DAG, sorted by the length of their chains. The
    lengths are computed before the sort; the comparison of the source
    computes them on demand, through the same memo table. *)
Definition sortedStores (fuel : nat) : option (list InstPtr) :=
  '(lens, _) ←
    foldO (λ (st : list (InstPtr * nat) * gmap InstPtr nat) SI,
             '(n, StoreChainLen) ← GetChainLen fuel SI st.2;
             Some (st.1 ++ [(SI, n)], StoreChainLen))
          StoreDAG_keys ([], ∅);
  Some (fst <$> merge_sort longerFirst lens).

(** The variables of [optimizeBottomUp] that its loops update. *)
Record BUState := mkBUState {
  BU_Frt : Frontier;
  BU_Solver : list (Frontier * DPSolver.Solution F);
  BU_Packs : VPS;
  BU_Cost : F;
  BU_BestEst : F
}.

(** [while (auto *ExtVP = Solver.solve(Frt).VP)], and the loop [for (;;)]
    after the seeds, which is the same loop. *)
Fixpoint extendLoop (fuel : nat) (TTI : TargetTransformInfo) (st : BUState)
  : option BUState :=
  match fuel with
  | 0 => None
  | S fuel' =>
      '(Sol, Solver) ← DP_solve fuel TTI (BU_Frt st) (BU_Solver st);
      match DPSolver.VP Sol with
      | None => Some (mkBUState (BU_Frt st) Solver (BU_Packs st) (BU_Cost st) (BU_BestEst st))
      | Some ExtVP =>
          '(c, Frt) ← advanceInplace_VP ExtVP TTI (BU_Frt st);
          extendLoop fuel' TTI
            (mkBUState Frt Solver (tryAdd (BU_Packs st) ExtVP) (fadd (BU_Cost st) c)
                       (BU_BestEst st))
      end
  end.

(** The body of the loops over the lane counts and the stores. *)
Definition seedStep (fuel : nat) (TTI : TargetTransformInfo) (VL : nat)
    (st : BUState) (SI : InstPtr) : option BUState :=
  SeedVP ← getSeedStorePack fuel (BU_Frt st) SI VL;
  match SeedVP with
  | None => Some st
  | Some SeedVP =>
      '(LocalCost, NextFrt) ← advance_VP SeedVP TTI (BU_Frt st);
      '(Sol, Solver) ← DP_solve fuel TTI NextFrt (BU_Solver st);
      let Est := fadd LocalCost (DPSolver.Cost Sol) in
      if fltb Est (BU_BestEst st) then
        '(c, Frt) ← advanceInplace_VP SeedVP TTI (BU_Frt st);
        st ← extendLoop fuel TTI
               (mkBUState Frt Solver (tryAdd (BU_Packs st) SeedVP) (fadd (BU_Cost st) c)
                          (BU_BestEst st));
        BestEst ← estimateAllScalarCost (BU_Frt st) TTI;
        Some (mkBUState (BU_Frt st) (BU_Solver st) (BU_Packs st) (BU_Cost st) BestEst)
      else
        Some (mkBUState (BU_Frt st) Solver (BU_Packs st) (BU_Cost st) (BU_BestEst st))
  end.

(** The first instruction among [Frt.usableInsts()]. *)
Definition firstUsableInst (Frt : Frontier) : option InstPtr :=
  head (omap dyn_cast_Instruction (usableInsts Frt)).

(** The last loop of [optimizeBottomUp]: the instructions that are left
    are scalarized one at a time. *)
Fixpoint scalarizeAll (fuel : nat) (TTI : TargetTransformInfo) (Frt : Frontier) (Cost : F)
  : option (Frontier * F) :=
  match fuel with
  | 0 => None
  | S fuel =>
      if negb (numUnresolvedScalars Frt =? 0) || negb (length (UnresolvedPacks Frt) =? 0)
      then
        match firstUsableInst Frt with
        | Some Inst =>
            '(c, Frt) ← advanceInplace_Inst Inst TTI Frt;
            scalarizeAll fuel TTI Frt (fadd Cost c)
        | None => scalarizeAll fuel TTI Frt Cost
        end
      else Some (Frt, Cost)
  end.

(** [optimizeBottomUp(Packs, Pkr, BB)], the optimizer on frontiers: the
    packs and the cost it returns. *)
Definition optimizeBottomUp (fuel : nat) (Packs : VPS) : option (VPS * F) :=
  let Frt := Frontier_ctor in
  Stores ← sortedStores fuel;
  let TTI := getTTI in
  let VL := [64; 32; 16; 8; 4; 2] in
  st ← foldO (λ st i, foldO (seedStep fuel TTI i) Stores st) VL
             (mkBUState Frt [] Packs (of_int 0) (of_int 0));
  st ← extendLoop fuel TTI st;
  '(Frt, Cost) ← scalarizeAll fuel TTI (BU_Frt st) (BU_Cost st);
  Some (BU_Packs st, Cost).

End BottomUp.

(** The definitions and the uses of the block agree, and a user that is no
    phi comes after the instruction it uses. *)
Definition def_use_ok {F} {Pkr : Packer F} : Prop :=
  (∀ Inst User, Inst ∈ insts → User ∈ insts →
                VInst User ∈ users Inst → VInst Inst ∈ operands User) ∧
  (∀ Inst User, Inst ∈ insts → User ∈ insts →
                VInst User ∈ users Inst → getOpcode User ≠ OpPHI →
                ∃ i j, insts !! i = Some Inst ∧ insts !! j = Some User ∧ i < j).

(** The DAG of the stores has no cycle: [rank] decreases along its
    edges. *)
Definition StoreDAG_ranked {F} {Pkr : Packer F} (rank : InstPtr → nat) : Prop :=
  ∀ x nexts y, StoreDAG x = Some nexts → y ∈ nexts → rank y < rank x.

(** ** Well-formedness of the inputs *)

Section WellFormed.
Context {F : Type} {Pkr : Packer F}.

(** The value index is sound for the block: distinct instructions have
    distinct ids below [getNumValues], and [getScalar] inverts the index. *)
Definition index_ok : Prop :=
  NoDup (getScalarId <$> insts) ∧
  Forall (λ Inst, getScalarId Inst < getNumValues
                  ∧ getScalar (getScalarId Inst) = VInst Inst) insts.

(** [insts] lists the instructions whose parent is the block. *)
Definition block_ok : Prop := ∀ Inst, Inst ∈ insts ↔ getParent Inst = BB.

(** A store defines no value: it has no user, and it is the operand of no
    instruction. *)
Definition stores_unused : Prop :=
  ∀ Inst, getOpcode Inst = OpStore →
          users Inst = [] ∧ ∀ J, VInst Inst ∉ operands J.

(** [I] has a user instruction outside (inside) the block. *)
Definition hasUserOutside (Inst : InstPtr) : bool :=
  existsb (λ U, match dyn_cast_Instruction U with
                | Some UserInst => negb (bool_decide (getParent UserInst = BB))
                | None => false
                end) (users Inst).
Definition hasUserInside (Inst : InstPtr) : bool :=
  existsb (λ U, match dyn_cast_Instruction U with
                | Some UserInst => bool_decide (getParent UserInst = BB)
                | None => false
                end) (users Inst).

End WellFormed.

(** ** The charges of a transition, as the specification words them *)

Section Charges.
Context {F : Type} `{FloatOps F} {Pkr : Packer F}.

(** [OP] is a splat of [I]: it has a lane and every lane is [I]. *)
Definition splatOf (Inst : InstPtr) (OP : OperandPack) : Prop :=
  lanes OP ≠ [] ∧ Forall (λ V, V = Some (VInst Inst)) (lanes OP).

#[global] Instance splatOf_dec Inst OP : Decision (splatOf Inst OP).
Proof. unfold splatOf. apply _. Defined.

(** The lanes of [ls] that hold [I], numbered from [i]. *)
Fixpoint lanesEqual_from (Inst : InstPtr) (i : nat) (ls : list (option Value)) : list nat :=
  match ls with
  | [] => []
  | V :: ls' =>
      (if bool_decide (V = Some (VInst Inst)) then [i] else [])
      ++ lanesEqual_from Inst (S i) ls'
  end.
Definition lanesEqual (Inst : InstPtr) (OP : OperandPack) : list nat :=
  lanesEqual_from Inst 0 (lanes OP).

(** The vector type of a pack that has one. *)
Definition vectorTypeOf (OP : OperandPack) : VectorType :=
  default (0, 0) (getVectorType_OP OP).

(** What scalarizing [I] adds to the running cost [c] for the unresolved
    pack [OP]: the broadcast cost when [OP] is a splat of [I], otherwise
    [k] times the insert cost of each lane of [OP] that holds [I]. *)
Definition scalarizeCharge (k : Z) (TTI : TargetTransformInfo) (Inst : InstPtr)
    (OP : OperandPack) (c : F) : F :=
  if bool_decide (splatOf Inst OP)
  then fadd c (of_int (getShuffleCost TTI SK_Broadcast (vectorTypeOf OP) 0))
  else fold_left
         (λ c i, fadd c (of_int (k * getVectorInstrCost TTI InsertElement (vectorTypeOf OP) i)))
         (lanesEqual Inst OP) c.

(** What the loop of [advanceInplace] on an instruction adds to the
    running cost [c] for the unresolved pack [OP], as the code computes
    it. *)
Definition scalarizeStep (TTI : TargetTransformInfo) (Inst : InstPtr)
    (OP : OperandPack) (c : F) : F :=
  if bool_decide (splatOf Inst OP)
  then fadd c (of_int (getShuffleCost TTI SK_Broadcast (vectorTypeOf OP) 0))
  else insertLoop TTI (vectorTypeOf OP) Inst 0 (lanes OP) c.

(** Twice an insert cost of the target is an [int]: the product at the
    three places that charge it does not wrap around. *)
Definition insertCostsFit (TTI : TargetTransformInfo) : Prop :=
  ∀ vt i, (- 2 ^ 30 ≤ getVectorInstrCost TTI InsertElement vt i < 2 ^ 30)%Z.

(** The same over all the unresolved packs, from a cost of zero. *)
Definition scalarizeCost (k : Z) (TTI : TargetTransformInfo) (Inst : InstPtr)
    (packs : list OperandPackPtr) : F :=
  fold_left (λ c p, scalarizeCharge k TTI Inst (getOperandPack p) c) packs (of_int 0).

(** Every unresolved pack of the frontier has a vector type, of as many
    elements as the pack has lanes. *)
Definition packTyped (p : OperandPackPtr) : Prop :=
  ∃ vt, getVectorType_OP (getOperandPack p) = Some vt
        ∧ vt.2 = length (lanes (getOperandPack p)).

(** Whether the loop of [advanceInplace] on an instruction records the
    index of the pack [p]: the pack is a splat of [I], or none of its lanes
    holds a free instruction of the block. *)
Definition leavesOnScalarize (Frt : Frontier) (Inst : InstPtr) (p : OperandPackPtr) : bool :=
  bool_decide (splatOf Inst (getOperandPack p)) || resolved Frt (getOperandPack p).

(** Whether the gather loop of [advanceInplace] on a vector pack records the
    index of the pack [p]: [VP] produces one of its lanes and none of its
    lanes holds a free instruction of the block. *)
Definition leavesOnCommit (Frt : Frontier) (VP : VectorPackPtr) (p : OperandPackPtr) : bool :=
  resolveOperandPack VP (getOperandPack p) && resolved Frt (getOperandPack p).

(** The gather cost of section 4.5: nothing when the ordered values of the
    committed pack are the operand pack, the cost of a single-source
    permutation when they are a permutation of it, and the constant 2
    otherwise. *)
Definition vectorTypeOf_VP (VP : VectorPackPtr) : VectorType :=
  default (0, 0) (getVectorType_VP VP).

Definition permuteCost (TTI : TargetTransformInfo) (VP : VectorPackPtr) : Z :=
  getShuffleCost TTI SK_PermuteSingleSrc (vectorTypeOf_VP VP) 0.

(** The vector type on which the extract costs of [VP] are charged: the
    vector type of [VP], and for a store pack what the local held before,
    since it is not assigned then. *)
Definition extractTypeOf (VP : VectorPackPtr) : VectorType :=
  if isStore VP then VecTy_uninit else vectorTypeOf_VP VP.

Definition gatherCharge (TTI : TargetTransformInfo) (VP : VectorPackPtr)
    (OP : OperandPack) : Z :=
  if bool_decide (getOrderedValues VP = lanes OP) then 0%Z
  else if bool_decide (getOrderedValues VP ≡ₚ lanes OP)
       then permuteCost TTI VP
       else 2%Z.

(** The gather costs of the unresolved packs of which [VP] produces a
    lane, added to [c] in the order of the packs. *)
Definition gatherTotal (TTI : TargetTransformInfo) (VP : VectorPackPtr)
    (packs : list OperandPackPtr) (c : F) : F :=
  fold_left
    (λ c p, if resolveOperandPack VP (getOperandPack p)
            then fadd c (of_int (gatherCharge TTI VP (getOperandPack p)))
            else c)
    packs c.

(** The ordered values of a store pack are store instructions, which is
    how [computeOrderedValues] fills them. *)
Definition storeLanes (VP : VectorPackPtr) : Prop :=
  Forall (λ V, match V with
               | Some (VInst Inst) => getOpcode Inst = OpStore
               | _ => True
               end) (getOrderedValues VP).

(** The insert costs of the foreign lanes of the operand packs [packs],
    added to [c]. *)
Definition operandInsertTotal (TTI : TargetTransformInfo)
    (packs : list OperandPackPtr) (c : F) : F :=
  fold_left
    (λ c p, foreignInsertLoop TTI (vectorTypeOf (getOperandPack p)) 0
              (lanes (getOperandPack p)) c)
    packs c.

(** The extract costs of the lanes of [VP] that are unresolved scalars of
    the frontier, added to [c]; [vt] is the vector type of [VP]. *)
Fixpoint extractTotal (TTI : TargetTransformInfo) (vt : VectorType)
    (US : BitVector.t) (LaneId : nat) (OutputLanes : list (option Value))
    (c : F) : F :=
  match OutputLanes with
  | [] => c
  | V :: rest =>
      extractTotal TTI vt US (S LaneId) rest
        (match V with
         | Some (VInst Inst) =>
             if BitVector.test US (getScalarId Inst)
             then fadd c (of_int (getVectorInstrCost TTI ExtractElement vt LaneId))
             else c
         | _ => c
         end)
  end.

End Charges.

Arguments leavesOnScalarize : simpl never.
Arguments leavesOnCommit : simpl never.

(** ** The frontiers of a search *)

Section Reachable.
Context {F : Type} `{FloatOps F} {Pkr : Packer F}.

(** A pack whose commit at [Frt] keeps the invariant of the unresolved
    packs: it freezes no instruction besides its own elements, and, when
    it is a store pack, it produces no lane of an unresolved pack (a store
    defines no value). *)
Definition packOk (Frt : Frontier) (VP : VectorPackPtr) : Prop :=
  Forall (λ Inst, BitVector.test (getElements VP) (getScalarId Inst) = true)
         (getReplacedInsts VP) ∧
  (isStore VP = true →
   Forall (λ p, resolveOperandPack VP (getOperandPack p) = false)
          (UnresolvedPacks Frt)).

(** A shuffle that keeps the invariant: its inputs are packs that still
    have to be produced. *)
Definition shuffleOk (Frt : Frontier) (ST : ShuffleTask F) : Prop :=
  Forall (λ p, resolved Frt (getOperandPack p) = false) (Inputs ST).

(** One transition: a successful [advance], whatever instruction, pack or
    shuffle task it is given. *)
Inductive AdvanceStep (TTI : TargetTransformInfo) : Frontier → Frontier → Prop :=
| adv_scalarize Inst c Frt Frt' :
    advance_Inst Inst TTI Frt = Some (c, Frt') →
    AdvanceStep TTI Frt Frt'
| adv_commit VP c Frt Frt' :
    advance_VP VP TTI Frt = Some (c, Frt') →
    AdvanceStep TTI Frt Frt'
| adv_shuffle (ST : ShuffleTask F) c Frt Frt' :
    advance_ST ST TTI Frt = Some (c, Frt') →
    AdvanceStep TTI Frt Frt'.

(** The frontiers of a search: those reached from the initial frontier of
    the block by successful transitions. *)
Definition searched (TTI : TargetTransformInfo) (Frt : Frontier) : Prop :=
  rtc (AdvanceStep TTI) Frontier_ctor Frt.

(** A restricted transition: a scalarization, the commit of a pack that is
    [packOk], or a shuffle that is [shuffleOk]. The search also commits
    packs that freeze instructions besides their elements; the invariant
    of the unresolved packs holds along the restricted transitions
    only. *)
Inductive RestrictedStep (TTI : TargetTransformInfo) : Frontier → Frontier → Prop :=
| step_scalarize Inst c Frt Frt' :
    advance_Inst Inst TTI Frt = Some (c, Frt') →
    RestrictedStep TTI Frt Frt'
| step_commit VP c Frt Frt' :
    packOk Frt VP →
    advance_VP VP TTI Frt = Some (c, Frt') →
    RestrictedStep TTI Frt Frt'
| step_shuffle ST c Frt Frt' :
    shuffleOk Frt ST →
    advance_ST ST TTI Frt = Some (c, Frt') →
    RestrictedStep TTI Frt Frt'.

(** The frontiers reached from the initial frontier of the block by
    restricted transitions. *)
Definition restricted (TTI : TargetTransformInfo) (Frt : Frontier) : Prop :=
  rtc (RestrictedStep TTI) Frontier_ctor Frt.

(** The invariant as section 3 words it: every instruction of the block
    that is a lane of an unresolved pack is free. *)
Definition elementsSubsetFree (Frt : Frontier) : Prop :=
  ∀ p Inst, p ∈ UnresolvedPacks Frt →
            Some (VInst Inst) ∈ lanes (getOperandPack p) →
            inBB Inst = true → isFree Frt Inst = true.

(** The invariant the transitions keep: every unresolved pack still has a
    lane that holds a free instruction of the block. *)
Definition unresolvedHaveFreeLane (Frt : Frontier) : Prop :=
  ∀ p, p ∈ UnresolvedPacks Frt →
       ∃ Inst, Some (VInst Inst) ∈ lanes (getOperandPack p)
               ∧ inBB Inst = true ∧ isFree Frt Inst = true.

End Reachable.

(** ** What the transitions keep *)

Section FrontierInvariants.
Context {F : Type} `{FloatOps F} {Pkr : Packer F}.

(** Only the instructions of the block have a value id: the index of a
    [VectorPackContext] is built from the instructions of its block. *)
Definition index_closed : Prop :=
  ∀ Inst, getScalarId Inst < getNumValues → Inst ∈ insts.

(** A cached vector type of an operand pack has as many elements as the
    pack has lanes, which is how [getVectorType] fills the cache. *)
Definition types_ok : Prop :=
  ∀ p T, Ty (getOperandPack p) = Some T → T.2 = length (lanes (getOperandPack p)).

(** [o] is the free instruction that comes last in the block, or null when
    no instruction of the block is free. *)
Definition isLastFree (Frt : Frontier) (o : option InstPtr) : Prop :=
  match o with
  | Some Inst =>
      ∃ i, insts !! i = Some Inst ∧ isFree Frt Inst = true ∧
           ∀ j J, i < j → insts !! j = Some J → isFree Frt J = false
  | None => ∀ Inst, Inst ∈ insts → isFree Frt Inst = false
  end.

(** The number of bits of [FreeInsts] that are set. *)
Definition numFree (Frt : Frontier) : nat := BitVector.count (FreeInsts Frt).

End FrontierInvariants.

Section FrontierInvariantDefs.
Context {F : Type} `{FloatOps F} {Pkr : Packer F}.

(** The cursor of a frontier: the instructions that the reverse iterator
    has passed are frozen, and the iterator is on a free instruction or at
    the end. *)
Definition cursor_inv (Frt : Frontier) : Prop :=
  ∃ passed, reverse insts = passed ++ BBIt Frt ∧
            Forall (λ J, isFree Frt J = false) passed ∧
            match BBIt Frt with
            | Inst :: _ => isFree Frt Inst = true
            | [] => True
            end.

(** The bit sets of a frontier: they have a bit for every value id; an
    unresolved scalar is a free instruction of the block; an instruction of
    the block is usable when it is free and either a phi or without a free
    user in the block; and only instructions of the block are usable. *)
Definition bits_inv (Frt : Frontier) : Prop :=
  length (UnresolvedScalars Frt) = getNumValues ∧
  length (FreeInsts Frt) = getNumValues ∧
  length (UsableInsts Frt) = getNumValues ∧
  (∀ k, BitVector.test (UnresolvedScalars Frt) k = true →
        ∃ Inst, Inst ∈ insts ∧ getScalarId Inst = k ∧ isFree Frt Inst = true) ∧
  (∀ Inst, Inst ∈ insts →
           isUsable Frt Inst
           = isFree Frt Inst && (isPHI Inst || allUsersFrozen Frt Inst)) ∧
  (∀ k, BitVector.test (UsableInsts Frt) k = true →
        ∃ Inst, Inst ∈ insts ∧ getScalarId Inst = k).

End FrontierInvariantDefs.

(** ** The paths of the selection *)

Section UCTPaths.
Context {F St : Type} {Ops : UCTNodeOps F St}.

(** [Path] leads from the node [from] to the node [to]: each of its
    transitions starts where the one before ends. *)
Fixpoint isPath (s : St) (from : UCTNodePtr) (Path : list (UCTNodePtr * nat))
    (to : UCTNodePtr) : Prop :=
  match Path with
  | [] => from = to
  | (Parent, T) :: Path => Parent = from ∧ isPath s (T_Next s Parent T) Path to
  end.

End UCTPaths.

(** ** The memo tables of the heuristic *)

(** Every entry of the tables [H0] is an entry of the tables [H1]. *)
Definition memo_le {F} (H0 H1 : Heuristic F) : Prop :=
  Solutions H0 ⊆ Solutions H1 ∧ ScalarCosts H0 ⊆ ScalarCosts H1.

(** A method that only adds entries to the tables it is run on. *)
Definition Grows {F A} (m : HM F A) : Prop :=
  ∀ H a H', m H = Some (a, H') → memo_le H H'.

Section HeuristicVocabulary.
Context {F : Type} `{FloatOps F} {Pkr : Packer F}.

(** The cost of building the operand pack [OP] by explicit insertion: two
    for each of its distinct values that is not a constant, and the cost of
    the value. [None] is an abort. *)
Definition insertionCost (fuel : nat) (OP : OperandPackPtr) : option F :=
  acc ← foldO (insertStepO (costV fuel)) (lanes (getOperandPack OP)) (of_int 0, []);
  Some acc.1.

(** The packs that [solve] looks at for the operand pack [OP]: the
    producers of the pack, and the candidate load packs of its elements. *)
Definition consideredFor (C : option CandidatePackSet) (OP : OperandPackPtr)
    (VP : VectorPackPtr) : Prop :=
  VP ∈ getProducers (getProducerInfo (dedup OP)) ∨
  ∃ i, i ∈ BitVector.set_bits (Elements (getProducerInfo (dedup OP))) ∧
       VP ∈ candidatesAt C i ∧ isLoad VP = true.

End HeuristicVocabulary.

(** ** The table of the dynamic-programming solver *)

Section DPVocabulary.
Context {F : Type} `{FloatOps F} {Pkr : Packer F} {Ext : ExtensionSearch}.

(** The extension of every solution of the table is an extension pack of
    the frontier the solution was computed for, and it can be committed
    there. *)
Definition dp_ok (TTI : TargetTransformInfo)
    (Solutions : list (Frontier * DPSolver.Solution F)) : Prop :=
  ∀ k Sol E, (k, Sol) ∈ Solutions → DPSolver.VP Sol = Some E →
             E ∈ findExtensionPacks2 k ∧ is_Some (advanceInplace_VP E TTI k).

(** The frontiers that the table has a solution for are frontiers of a
    search. *)
Definition dp_searched (TTI : TargetTransformInfo)
    (Solutions : list (Frontier * DPSolver.Solution F)) : Prop :=
  ∀ k Sol, (k, Sol) ∈ Solutions → searched TTI k.

End DPVocabulary.

(** ** The estimate of scalarizing everything *)

Section EstimateVocabulary.
Context {F : Type} `{FloatOps F} {Pkr : Packer F}.

(** What [estimateAllScalarCost] adds to the cost [c] for the packs
    [packs], for packs that have a vector type. *)
Definition estimatePacks (TTI : TargetTransformInfo) (Frt : Frontier)
    (packs : list OperandPackPtr) (c : F) : F :=
  fold_left
    (λ c p, estimateLanes TTI Frt (vectorTypeOf (getOperandPack p)) (getOperandPack p)
              0 (lanes (getOperandPack p)) c)
    packs c.

End EstimateVocabulary.

(** ** The unresolved scalars have a use *)

Section ScalarsUsed.
Context {F : Type} `{FloatOps F} {Pkr : Packer F}.

(** Every unresolved scalar is an instruction of the block that has a user
    outside the block or is an operand of an instruction: the constructor
    sets the bit of the first, a scalarization the bit of the second, and
    nothing else sets a bit. *)
Definition scalars_used (Frt : Frontier) : Prop :=
  length (UnresolvedScalars Frt) = getNumValues ∧
  ∀ k, BitVector.test (UnresolvedScalars Frt) k = true →
       ∃ Inst, Inst ∈ insts ∧ getScalarId Inst = k ∧
               (hasUserOutside Inst = true ∨ ∃ J, VInst Inst ∈ operands J).

End ScalarsUsed.

(** ** SlotSet *)

Module SlotSet.

(** The class [SlotSet] of [tryCoalesceLoads]: the loads by slot, the
    lowest and the highest slot that were inserted into (not initialised
    until [HasValue] is set), and the number of insertions. *)
Record t := mk {
  Slots : list (option InstPtr);
  MinId : nat;
  MaxId : nat;
  NumElems : nat;
  HasValue : bool
}.

(** The members [MinId] and [MaxId] of a new set hold no defined value;
    they are not read before [HasValue] is set. *)
Definition empty : t :=
  {| Slots := []; MinId := 0; MaxId := 0; NumElems := 0; HasValue := false |}.

(** [operator[]]: reading beyond the end of the vector aborts. *)
Definition get (s : t) (i : nat) : option (option InstPtr) := Slots s !! i.

(** [Slots.resize(i + 1)] when [i >= Slots.size()] *)
Definition grow (l : list (option InstPtr)) (i : nat) : list (option InstPtr) :=
  if length l <=? i then l ++ replicate (i + 1 - length l) None else l.

(** [try_insert]: the result and the set after the call. *)
Definition try_insert (i : nat) (LI : InstPtr) (s : t) : bool * t :=
  let Slots1 := grow (Slots s) i in
  let slot := default None (Slots1 !! i) in
  if bool_decide (slot = None) || bool_decide (slot = Some LI) then
    (true,
     {| Slots := <[i := Some LI]> Slots1;
        MinId := if HasValue s then i `min` MinId s else i;
        MaxId := if HasValue s then i `max` MaxId s else i;
        NumElems := NumElems s + 1;
        HasValue := true |})
  else
    (false,
     {| Slots := Slots1; MinId := MinId s; MaxId := MaxId s;
        NumElems := NumElems s; HasValue := HasValue s |}).

(** [num_elems], [minId] and [maxId]; reading a bound that was never set
    has no defined result. *)
Definition num_elems (s : t) : nat := NumElems s.
Definition minId (s : t) : option nat := if HasValue s then Some (MinId s) else None.
Definition maxId (s : t) : option nat := if HasValue s then Some (MaxId s) else None.

(** [utilization] *)
Definition utilization {F} `{FloatOps F} (s : t) : option F :=
  if HasValue s
  then Some (fdiv (of_int (Z.of_nat (NumElems s)))
                  (of_int (Z.of_nat (MaxId s - MinId s + 1))))
  else None.

(** The set after the insertions [l], made one after the other into a new
    set, whether they succeed or not. *)
Definition inserted (l : list (nat * InstPtr)) : t :=
  fold_left (λ s a, (try_insert a.1 a.2 s).2) l empty.

(** The slot [i] holds a load. *)
Definition occupied (s : t) (i : nat) : Prop := ∃ LI, Slots s !! i = Some (Some LI).

(** What the insertions keep: before the first successful insertion every
    slot is empty; after it, the slots [MinId] and [MaxId] hold a load and
    every load is in a slot between the two. *)
Definition bounds_inv (s : t) : Prop :=
  if HasValue s
  then occupied s (MinId s) ∧ occupied s (MaxId s) ∧
       ∀ i, occupied s i → MinId s ≤ i ≤ MaxId s
  else NumElems s = 0 ∧ ∀ i, ¬ occupied s i.

End SlotSet.

(** * Part II: lemmas and theorems *)

(** ** Facts about bit vectors *)

Module BitVectorFacts.
Import BitVector.

Lemma test_nil i : test [] i = false.
Proof. unfold test. by rewrite lookup_nil. Qed.

Lemma test_cons_0 b bv : test (b :: bv) 0 = b.
Proof. done. Qed.

Lemma test_cons_S b bv i : test (b :: bv) (S i) = test bv i.
Proof. done. Qed.

Lemma test_make n b i : test (make n b) i = if decide (i < n) then b else false.
Proof.
  unfold test, make. case_decide as Hi.
  - by rewrite lookup_replicate_2.
  - rewrite (proj1 (lookup_replicate_None n b i)); [done | lia].
Qed.

Lemma length_make n b : length (make n b) = n.
Proof. apply length_replicate. Qed.

Lemma length_set bv i : length (set bv i) = length bv.
Proof. apply length_insert. Qed.

Lemma length_reset bv i : length (reset bv i) = length bv.
Proof. apply length_insert. Qed.

Lemma test_set bv i j :
  test (set bv i) j = if decide (i = j ∧ i < length bv) then true else test bv j.
Proof.
  unfold test, set. case_decide as Hd.
  - destruct Hd as [-> Hd]. by rewrite list_lookup_insert_eq.
  - destruct (decide (i = j)) as [->|Hne].
    + rewrite list_insert_ge; [done | lia].
    + by rewrite list_lookup_insert_ne.
Qed.

Lemma test_reset bv i j :
  test (reset bv i) j = if decide (i = j) then false else test bv j.
Proof.
  unfold test, reset. case_decide as Hd.
  - subst. destruct (decide (j < length bv)).
    + by rewrite list_lookup_insert_eq.
    + rewrite list_insert_ge; [|lia]. rewrite lookup_ge_None_2; [done | lia].
  - by rewrite list_lookup_insert_ne.
Qed.

Lemma test_lt bv i : test bv i = true → i < length bv.
Proof.
  unfold test. destruct (bv !! i) eqn:E; [|done].
  intros _. by eapply lookup_lt_Some.
Qed.

Lemma test_or a b i : test (or a b) i = test a i || test b i.
Proof.
  revert b i. induction a as [|x a IH]; intros [|y b] i; simpl;
    rewrite ?test_nil, ?orb_false_r; try done.
  destruct i as [|i]; [done|]. rewrite !test_cons_S. apply IH.
Qed.

Lemma length_or a b : length (or a b) = length a `max` length b.
Proof.
  revert b. induction a as [|x a IH]; intros [|y b]; simpl; try done.
  by rewrite IH.
Qed.

Lemma test_and a b i : test (and a b) i = test a i && test b i.
Proof.
  revert b i. induction a as [|x a IH]; intros [|y b] i; simpl;
    rewrite ?test_nil, ?andb_false_r; try done.
  - destruct i as [|i]; [done|]. rewrite test_cons_S, IH, test_nil.
    by rewrite andb_false_r.
  - destruct i as [|i]; [done|]. rewrite !test_cons_S. apply IH.
Qed.

Lemma anyCommon_true a b :
  anyCommon a b = true ↔ ∃ i, test a i = true ∧ test b i = true.
Proof.
  revert b. induction a as [|x a IH]; intros [|y b]; simpl.
  - split; [done | intros [i [Hi _]]; by rewrite test_nil in Hi].
  - split; [done | intros [i [Hi _]]; by rewrite test_nil in Hi].
  - split; [done | intros [i [_ Hi]]; by rewrite test_nil in Hi].
  - rewrite orb_true_iff, andb_true_iff, IH. split.
    + intros [[-> ->] | [i Hi]]; [by exists 0 | by exists (S i)].
    + intros [[|i] Hi]; [left; exact Hi | right; by exists i].
Qed.

Lemma anyCommon_false a b :
  anyCommon a b = false ↔ ∀ i, test a i = true → test b i = false.
Proof.
  rewrite <- not_true_iff_false, anyCommon_true. split.
  - intros Hn i Ha. destruct (test b i) eqn:E; [|done].
    exfalso. apply Hn. by exists i.
  - intros Hn [i [Ha Hb]]. specialize (Hn i Ha). congruence.
Qed.

Lemma elem_of_set_bits_from k i bv :
  k ∈ set_bits_from i bv ↔ i ≤ k ∧ test bv (k - i) = true.
Proof.
  revert i. induction bv as [|b bv IH]; intros i; simpl.
  - rewrite elem_of_nil, test_nil. split; [done | by intros [_ ?]].
  - rewrite elem_of_app, IH. destruct (decide (k = i)) as [->|Hne].
    + replace (i - i) with 0 by lia. rewrite test_cons_0. split.
      * intros [Hin | [Hle _]]; [|lia]. split; [lia|].
        destruct b; [done | by apply elem_of_nil in Hin].
      * intros [_ ->]. left. by apply list_elem_of_singleton.
    + split.
      * intros [Hin | [Hle Ht]].
        { destruct b; [apply list_elem_of_singleton in Hin; lia |
                       by apply elem_of_nil in Hin]. }
        split; [lia|]. replace (k - i) with (S (k - S i)) by lia. exact Ht.
      * intros [Hle Ht]. right. split; [lia|].
        replace (k - i) with (S (k - S i)) in Ht by lia. exact Ht.
Qed.

Lemma elem_of_set_bits k bv : k ∈ set_bits bv ↔ test bv k = true.
Proof.
  unfold set_bits. rewrite elem_of_set_bits_from.
  replace (k - 0) with k by lia. split; [by intros [_ ?] | intros; split; [lia | done]].
Qed.

Lemma count_zero bv : count bv = 0 ↔ ∀ i, test bv i = false.
Proof.
  induction bv as [|b bv IH]; simpl.
  - split; [intros _ i; apply test_nil | done].
  - split.
    + intros Hc [|i]; [destruct b; [done | done] |].
      rewrite test_cons_S. apply IH. destruct b; simpl in Hc; lia.
    + intros Ht. pose proof (Ht 0) as H0. rewrite test_cons_0 in H0. subst b.
      simpl. apply IH. intros i. apply (Ht (S i)).
Qed.
End BitVectorFacts.

(** ** The initial frontier *)

Section InitialFrontier.
Context {F : Type} `{FloatOps F} {Pkr : Packer F}.
Import BitVectorFacts.

Lemma scanUsers_length Inst US : length (scanUsers Inst US).1 = length US.
Proof.
  unfold scanUsers. generalize true. revert US.
  induction (users Inst) as [|U l IH]; intros US b; simpl; [done|].
  destruct (dyn_cast_Instruction U) as [u|]; simpl; [|apply IH].
  destruct (inBB u); simpl; rewrite IH; [done|].
  apply length_set.
Qed.

Lemma scanUsers_spec Inst US k :
  BitVector.test (scanUsers Inst US).1 k
  = BitVector.test US k
    || (hasUserOutside Inst
        && bool_decide (getScalarId Inst = k ∧ getScalarId Inst < length US))
  ∧ (scanUsers Inst US).2 = negb (hasUserInside Inst).
Proof.
  unfold scanUsers, hasUserOutside, hasUserInside.
  assert (∀ l US0 b0,
    let r := fold_left
      (λ (st : list bool * bool) (U : Value),
         match dyn_cast_Instruction U with
         | Some UserInst =>
             if inBB UserInst then (st.1, false)
             else (BitVector.set st.1 (getScalarId Inst), st.2)
         | None => st
         end) l (US0, b0) in
    BitVector.test r.1 k
    = BitVector.test US0 k
      || (existsb (λ U, match dyn_cast_Instruction U with
                        | Some u => negb (bool_decide (getParent u = BB))
                        | None => false end) l
          && bool_decide (getScalarId Inst = k ∧ getScalarId Inst < length US0))
    ∧ r.2 = b0 && negb (existsb (λ U, match dyn_cast_Instruction U with
                        | Some u => bool_decide (getParent u = BB)
                        | None => false end) l)) as Hgen.
  { induction l as [|U l IH]; intros US0 b0; simpl.
    - by rewrite orb_false_r, andb_true_r.
    - destruct (dyn_cast_Instruction U) as [u|]; simpl; [|apply IH].
      change (bool_decide (getParent u = BB)) with (inBB u).
      destruct (inBB u); simpl.
      + destruct (IH US0 false) as [-> ->]. by rewrite andb_false_r.
      + destruct (IH (BitVector.set US0 (getScalarId Inst)) b0) as [-> ->].
        split; [|done].
        rewrite test_set, length_set.
        destruct (decide (getScalarId Inst = k ∧ getScalarId Inst < length US0))
          as [Hd|Hd];
          [rewrite (bool_decide_eq_true_2 _ Hd)
          |rewrite (bool_decide_eq_false_2 _ Hd)];
          simpl; rewrite ?andb_true_r, ?andb_false_r, ?orb_true_r, ?orb_false_r;
          done. }
  apply Hgen.
Qed.

Lemma ctor_loop_spec l US Us n m k :
  length US = n → length Us = m →
  let r := ctor_loop l (US, Us) in
  length r.1 = n ∧ length r.2 = m ∧
  BitVector.test r.1 k
  = BitVector.test US k
    || existsb (λ Inst, hasUserOutside Inst
                        && bool_decide (getScalarId Inst = k
                                        ∧ getScalarId Inst < n)) l ∧
  BitVector.test r.2 k
  = BitVector.test Us k
    || existsb (λ Inst, (negb (hasUserInside Inst) || isPHI Inst)
                        && bool_decide (getScalarId Inst = k
                                        ∧ getScalarId Inst < m)) l.
Proof.
  unfold ctor_loop.
  revert US Us. induction l as [|Inst l IH]; intros US Us HUS HUs; simpl.
  - by rewrite !orb_false_r.
  - destruct (scanUsers Inst US) as [US1 b] eqn:E.
    pose proof (scanUsers_spec Inst US k) as [Ht Hb].
    pose proof (scanUsers_length Inst US) as Hl.
    rewrite E in Ht, Hb, Hl. simpl in Ht, Hb, Hl. subst b.
    rewrite HUS in Ht, Hl.
    destruct (negb (hasUserInside Inst) || isPHI Inst) eqn:Ec; simpl.
    + destruct (IH US1 (BitVector.set Us (getScalarId Inst)))
        as (-> & -> & -> & ->); [done | by rewrite length_set |].
      rewrite Ht. split; [done|]. split; [done|].
      split; [by rewrite orb_assoc|].
      rewrite test_set, HUs.
      destruct (decide (getScalarId Inst = k ∧ getScalarId Inst < m)) as [Hd|Hd];
        [rewrite (bool_decide_eq_true_2 _ Hd)
        |rewrite (bool_decide_eq_false_2 _ Hd)];
        simpl; rewrite ?orb_true_r, ?orb_false_r; done.
    + destruct (IH US1 Us) as (-> & -> & -> & ->); [done | done |].
      rewrite Ht. split; [done|]. split; [done|].
      split; [by rewrite orb_assoc | done].
Qed.

(** Exactly one instruction of the block carries a given id. *)
Lemma existsb_id_unique (P : InstPtr → bool) n Inst :
  NoDup (getScalarId <$> insts) → Inst ∈ insts → getScalarId Inst < n →
  existsb (λ J, P J && bool_decide (getScalarId J = getScalarId Inst
                                    ∧ getScalarId J < n)) insts = P Inst.
Proof.
  intros Hnd Hin Hlt. apply eq_true_iff_eq. rewrite existsb_exists. split.
  - intros [J [HJ HP]]. apply andb_true_iff in HP as [HP Hid].
    apply bool_decide_eq_true in Hid as [Hid _].
    apply list_elem_of_In in HJ.
    assert (J = Inst) as ->; [|done].
    apply list_elem_of_lookup in HJ as [a Ha].
    apply list_elem_of_lookup in Hin as [b Hb].
    assert (a = b) as ->.
    { eapply NoDup_lookup; [exact Hnd | |].
      - rewrite list_lookup_fmap, Ha. done.
      - rewrite list_lookup_fmap, Hb. simpl. by rewrite Hid. }
    congruence.
  - intros HP. exists Inst. split; [by apply list_elem_of_In|].
    rewrite HP. simpl. by apply bool_decide_eq_true.
Qed.

(** C3. The freshly constructed frontier: the cursor is at the last
    instruction of the block, every instruction of the block is free, the
    unresolved scalars are exactly the instructions with a user outside the
    block, and the usable instructions are exactly those without a user
    inside the block, together with the phi nodes. No other bit of the two
    sets is set, and no operand pack is unresolved. *)
Theorem Frontier_ctor_initial_state :
  index_ok →
  getNextFreeInst Frontier_ctor = last insts ∧
  UnresolvedPacks Frontier_ctor = [] ∧
  (∀ Inst, Inst ∈ insts → isFree Frontier_ctor Inst = true) ∧
  (∀ Inst, Inst ∈ insts →
     BitVector.test (UnresolvedScalars Frontier_ctor) (getScalarId Inst)
     = hasUserOutside Inst) ∧
  (∀ Inst, Inst ∈ insts →
     isUsable Frontier_ctor Inst = negb (hasUserInside Inst) || isPHI Inst) ∧
  (∀ k, BitVector.test (UnresolvedScalars Frontier_ctor) k = true →
     ∃ Inst, Inst ∈ insts ∧ getScalarId Inst = k ∧ hasUserOutside Inst = true) ∧
  (∀ k, BitVector.test (UsableInsts Frontier_ctor) k = true →
     ∃ Inst, Inst ∈ insts ∧ getScalarId Inst = k ∧
             (hasUserInside Inst = false ∨ isPHI Inst = true)).
Proof.
  intros [Hnd Hlt]. unfold Frontier_ctor. simpl.
  set (N := getNumValues).
  pose proof (λ k, ctor_loop_spec insts (BitVector.make N false)
                     (BitVector.make N false) N N k
                     (length_make N false) (length_make N false)) as Hspec.
  simpl in Hspec.
  rewrite Forall_forall in Hlt.
  split; [|split; [done|split; [|split; [|split; [|split]]]]].
  - unfold getNextFreeInst. simpl. by rewrite head_reverse.
  - intros Inst Hin. unfold isFree. simpl. rewrite test_make.
    case_decide as Hn; [done|]. destruct Hn. by apply Hlt.
  - intros Inst Hin. destruct (Hspec (getScalarId Inst)) as (_ & _ & -> & _).
    rewrite test_make. destruct (decide _); simpl;
      apply existsb_id_unique; try done; by apply Hlt.
  - intros Inst Hin. unfold isUsable. simpl.
    destruct (Hspec (getScalarId Inst)) as (_ & _ & _ & ->).
    rewrite test_make. destruct (decide _); simpl;
      apply (existsb_id_unique (λ J, negb (hasUserInside J) || isPHI J));
      try done; by apply Hlt.
  - intros k. destruct (Hspec k) as (_ & _ & -> & _).
    rewrite test_make. destruct (decide _); simpl;
      rewrite existsb_exists; intros [J [HJ HP]];
      apply andb_true_iff in HP as [HP Hid];
      apply bool_decide_eq_true in Hid as [Hid _];
      exists J; (split; [by apply list_elem_of_In | done]).
  - intros k. destruct (Hspec k) as (_ & _ & _ & ->).
    rewrite test_make. destruct (decide _); simpl;
      rewrite existsb_exists; intros [J [HJ HP]];
      apply andb_true_iff in HP as [HP Hid];
      apply bool_decide_eq_true in Hid as [Hid _];
      exists J; (split; [by apply list_elem_of_In |]); (split; [done|]);
      apply orb_true_iff in HP as [HP|HP]; [left|right|left|right];
      try done; by apply negb_true_iff.
Qed.

End InitialFrontier.

(** ** Helpers: splats, removal by index, sorting *)

Section ListHelpers.

Lemma is_splat_spec {A} `{EqDecision A} (l : list A) :
  is_splat l = true ↔ ∃ x l', l = x :: l' ∧ Forall (λ y, y = x) l'.
Proof.
  destruct l as [|x l]; simpl.
  - split; [done | by intros (? & ? & ? & _)].
  - split.
    + intros Hall. exists x, l. split; [done|].
      revert x Hall. induction l as [|y l IH]; intros x Hall; [constructor|].
      simpl in Hall. apply andb_true_iff in Hall as [Hxy Hall].
      apply bool_decide_eq_true in Hxy. simpl in Hxy. subst y.
      constructor; [done|]. by apply IH.
    + intros (x' & l' & [= <- <-] & Hall).
      revert x Hall. induction l as [|y l IH]; intros x Hall; [done|].
      apply Forall_cons in Hall as [-> Hall]. simpl.
      rewrite bool_decide_eq_true_2 by done. simpl. by apply IH.
Qed.

Lemma remove_from_app_flagged (pred : nat → bool) i X R :
  Forall (λ j, j < i) R →
  remove_from i X
    (R ++ (snd <$> filter (λ a : nat * nat, pred a.1 = true)
                          (zip X (seq i (length X)))))
  = filter (λ p, pred p = false) X.
Proof.
  revert i R. induction X as [|x X IH]; intros i R HR; simpl; [done|].
  rewrite filter_cons. simpl. destruct (decide (pred x = true)) as [Hp|Hp].
  - rewrite fmap_cons. simpl.
    rewrite bool_decide_eq_true_2 by (rewrite elem_of_app, elem_of_cons; tauto).
    rewrite filter_cons. rewrite decide_False by congruence.
    replace (R ++ i :: _) with ((R ++ [i]) ++
      (snd <$> filter (λ a : nat * nat, pred a.1 = true) (zip X (seq (S i) (length X)))))
      by (by rewrite <- app_assoc).
    apply IH. apply Forall_app. split.
    + eapply Forall_impl; [exact HR | simpl; lia].
    + repeat constructor.
  - rewrite bool_decide_eq_false_2.
    + rewrite filter_cons. rewrite decide_True by (by destruct (pred x)).
      f_equal. apply IH. eapply Forall_impl; [exact HR | simpl; lia].
    + rewrite elem_of_app. intros [Hin | Hin].
      * rewrite Forall_forall in HR. specialize (HR _ Hin). lia.
      * apply list_elem_of_fmap in Hin as [[a b] [-> Hin]].
        apply list_elem_of_filter in Hin as [_ Hin].
        apply elem_of_zip_r in Hin. simpl in Hin.
        apply elem_of_seq in Hin. simpl. lia.
Qed.

Lemma remove_flagged (pred : nat → bool) X :
  remove X (snd <$> filter (λ a : nat * nat, pred a.1 = true)
                           (zip X (seq 0 (length X))))
  = filter (λ p, pred p = false) X.
Proof. apply (remove_from_app_flagged pred 0 X []). constructor. Qed.

Lemma sort_ptrs_Permutation l : sort_ptrs l ≡ₚ l.
Proof. apply merge_sort_Permutation. Qed.

Lemma elem_of_sort_ptrs x l : x ∈ sort_ptrs l ↔ x ∈ l.
Proof. by rewrite sort_ptrs_Permutation. Qed.

Lemma sort_ptrs_Sorted l : Sorted (≤) (sort_ptrs l).
Proof. apply (Sorted_merge_sort (≤)). Qed.

End ListHelpers.

(** ** Scalarizing an instruction *)

Section Scalarize.
Context {F : Type} `{FloatOps F} {Pkr : Packer F}.
Import BitVectorFacts.

Lemma isSplatOf_spec Inst OP :
  is_splat (lanes OP) && bool_decide (head (lanes OP) = Some (Some (VInst Inst)))
  = bool_decide (splatOf Inst OP).
Proof.
  apply eq_true_iff_eq. rewrite andb_true_iff, !bool_decide_eq_true, is_splat_spec.
  unfold splatOf. split.
  - intros [(x & l' & Hl & Hall) Hh]. rewrite Hl in *. simpl in Hh.
    injection Hh as ->. split; [done|]. by constructor.
  - intros [Hne Hall]. destruct (lanes OP) as [|x l']; [done|].
    apply Forall_cons in Hall as [-> Hall]. split; [|done].
    by exists (Some (VInst Inst)), l'.
Qed.

(** The product of two [int]s is their product when it is an [int]. *)
Lemma int_mul_fits (a b : Z) :
  (- 2 ^ 31 ≤ a * b < 2 ^ 31)%Z → int_mul a b = (a * b)%Z.
Proof.
  intros Hr. unfold int_mul, to_int. rewrite Z.mod_small by lia. lia.
Qed.

Lemma insertLoop_spec TTI vt Inst i ls c :
  insertCostsFit TTI →
  insertLoop TTI vt Inst i ls c
  = fold_left (λ c j, fadd c (of_int (2 * getVectorInstrCost TTI InsertElement vt j)))
              (lanesEqual_from Inst i ls) c.
Proof.
  intros Hfit. revert i c. induction ls as [|V ls IH]; intros i c; simpl; [done|].
  rewrite IH, fold_left_app. destruct (bool_decide _); [|done]. simpl.
  rewrite int_mul_fits; [done|]. specialize (Hfit vt i). lia.
Qed.

(** The loop over the unresolved packs, as the code computes it. *)
Lemma scalarizeLoop_code TTI Frt Inst i packs c R :
  Forall packTyped packs →
  scalarizeLoop TTI Frt Inst i packs c R
  = Some (fold_left (λ c p, scalarizeStep TTI Inst (getOperandPack p) c) packs c,
          R ++ (snd <$> filter (λ a : nat * nat, leavesOnScalarize Frt Inst a.1 = true)
                               (zip packs (seq i (length packs))))).
Proof.
  revert i c R. induction packs as [|p packs IH]; intros i c R Hty; simpl.
  - by rewrite app_nil_r.
  - apply Forall_cons in Hty as [(vt & Hvt & Hsz) Hty].
    rewrite Hvt. simpl. rewrite Hsz, Nat.eqb_refl. simpl.
    rewrite isSplatOf_spec. rewrite filter_cons. simpl.
    assert (leavesOnScalarize Frt Inst p
            = bool_decide (splatOf Inst (getOperandPack p))
              || resolved Frt (getOperandPack p)) as Hl by done.
    assert (scalarizeStep TTI Inst (getOperandPack p) c
            = if bool_decide (splatOf Inst (getOperandPack p))
              then fadd c (of_int (getShuffleCost TTI SK_Broadcast vt 0))
              else insertLoop TTI vt Inst 0 (lanes (getOperandPack p)) c) as ->.
    { unfold scalarizeStep, vectorTypeOf. by rewrite Hvt. }
    destruct (bool_decide (splatOf Inst (getOperandPack p))); simpl in Hl.
    + rewrite IH by done. rewrite decide_True by done.
      rewrite fmap_cons. simpl. by rewrite <- app_assoc.
    + rewrite IH by done.
      destruct (resolved Frt (getOperandPack p)).
      * rewrite decide_True by done. rewrite fmap_cons. simpl.
        by rewrite <- app_assoc.
      * by rewrite decide_False by (rewrite Hl; done).
Qed.

(** When twice an insert cost is an [int], the code charges what the
    specification words. *)
Lemma scalarizeStep_charge TTI Inst OP c :
  insertCostsFit TTI →
  scalarizeStep TTI Inst OP c = scalarizeCharge 2 TTI Inst OP c.
Proof.
  intros Hfit. unfold scalarizeStep, scalarizeCharge.
  destruct (bool_decide (splatOf Inst OP)); [done|]. by apply insertLoop_spec.
Qed.

Lemma scalarizeLoop_spec TTI Frt Inst i packs c R :
  insertCostsFit TTI →
  Forall packTyped packs →
  scalarizeLoop TTI Frt Inst i packs c R
  = Some (fold_left (λ c p, scalarizeCharge 2 TTI Inst (getOperandPack p) c) packs c,
          R ++ (snd <$> filter (λ a : nat * nat, leavesOnScalarize Frt Inst a.1 = true)
                               (zip packs (seq i (length packs))))).
Proof.
  intros Hfit Hty. rewrite scalarizeLoop_code by done. do 2 f_equal.
  clear Hty. revert c. induction packs as [|p packs IH]; intros c; simpl; [done|].
  rewrite scalarizeStep_charge by done. apply IH.
Qed.

Lemma freezeOneInst_fold_fields l Frt1 :
  let r := fold_left
    (λ (Frt' : Frontier) (Operand : Value),
       match dyn_cast_Instruction Operand with
       | Some OI =>
           if inBB OI && isFree Frt' OI && allUsersFrozen Frt' OI
           then {| BBIt := BBIt Frt';
                   UnresolvedPacks := UnresolvedPacks Frt';
                   UnresolvedScalars := UnresolvedScalars Frt';
                   FreeInsts := FreeInsts Frt';
                   UsableInsts := BitVector.set (UsableInsts Frt') (getScalarId OI) |}
           else Frt'
       | None => Frt'
       end) l Frt1 in
  BBIt r = BBIt Frt1 ∧ UnresolvedPacks r = UnresolvedPacks Frt1 ∧
  UnresolvedScalars r = UnresolvedScalars Frt1 ∧ FreeInsts r = FreeInsts Frt1 ∧
  length (UsableInsts r) = length (UsableInsts Frt1).
Proof.
  simpl. revert Frt1. induction l as [|V l IH]; intros Frt1; simpl; [done|].
  destruct (dyn_cast_Instruction V) as [OI|]; [|by apply IH].
  destruct (inBB OI && isFree Frt1 OI && allUsersFrozen Frt1 OI); [|by apply IH].
  match goal with |- context [fold_left _ l ?f] =>
    destruct (IH f) as (-> & -> & -> & -> & ->) end.
  simpl. by rewrite length_set.
Qed.

Lemma freezeOneInst_Some Inst Frt :
  isFree Frt Inst = true →
  ∃ Frt', freezeOneInst Inst Frt = Some Frt'
          ∧ BBIt Frt' = BBIt Frt
          ∧ UnresolvedPacks Frt' = UnresolvedPacks Frt
          ∧ UnresolvedScalars Frt'
            = BitVector.reset (UnresolvedScalars Frt) (getScalarId Inst)
          ∧ FreeInsts Frt' = BitVector.reset (FreeInsts Frt) (getScalarId Inst)
          ∧ length (UsableInsts Frt') = length (UsableInsts Frt).
Proof.
  intros Hfree. unfold freezeOneInst. unfold isFree in Hfree. rewrite Hfree.
  eexists. split; [done|].
  match goal with |- context [fold_left _ ?l ?f] =>
    destruct (freezeOneInst_fold_fields l f) as (-> & -> & -> & -> & ->) end.
  simpl. by rewrite length_reset.
Qed.

Lemma freezeOneInst_inv Inst Frt Frt' :
  freezeOneInst Inst Frt = Some Frt' →
  isFree Frt Inst = true
  ∧ BBIt Frt' = BBIt Frt
  ∧ UnresolvedPacks Frt' = UnresolvedPacks Frt
  ∧ UnresolvedScalars Frt'
    = BitVector.reset (UnresolvedScalars Frt) (getScalarId Inst)
  ∧ FreeInsts Frt' = BitVector.reset (FreeInsts Frt) (getScalarId Inst)
  ∧ length (UsableInsts Frt') = length (UsableInsts Frt).
Proof.
  intros Hfr. destruct (isFree Frt Inst) eqn:Hfree.
  - destruct (freezeOneInst_Some Inst Frt Hfree) as (Frt'' & Heq & Hrest).
    rewrite Hfr in Heq. injection Heq as <-. by split.
  - unfold freezeOneInst in Hfr. unfold isFree in Hfree. by rewrite Hfree in Hfr.
Qed.

Lemma resolved_ext Frt Frt' OP :
  FreeInsts Frt = FreeInsts Frt' → resolved Frt OP = resolved Frt' OP.
Proof.
  intros Heq. unfold resolved, laneIsFree, isFree. by rewrite Heq.
Qed.

(** C1, as the code has it. Scalarizing a free instruction [I] succeeds when
    every unresolved pack has a vector type. Its cost is accumulated over
    the unresolved packs in order: a pack that is a splat of [I] adds the
    broadcast cost of its vector type, any other pack adds TWICE the insert
    cost of each lane that holds [I] (nothing when [I] is not a lane). The
    packs that stay unresolved are those that are no splat of [I] and still
    hold a free instruction of the block; a splat of [I] is marked resolved,
    and another pack is marked resolved exactly when none of its slots holds
    a free instruction afterwards. The cost of the code is the product of
    two [int]s: it is twice the insert cost when that is an [int]. *)
Theorem advanceInplace_Inst_charges TTI Inst Frt :
  insertCostsFit TTI →
  isFree Frt Inst = true →
  Forall packTyped (UnresolvedPacks Frt) →
  ∃ Frt',
    advanceInplace_Inst Inst TTI Frt
    = Some (scalarizeCost 2 TTI Inst (UnresolvedPacks Frt), Frt') ∧
    FreeInsts Frt' = BitVector.reset (FreeInsts Frt) (getScalarId Inst) ∧
    UnresolvedPacks Frt'
    = sort_ptrs (filter (λ p, leavesOnScalarize Frt' Inst p = false)
                        (UnresolvedPacks Frt)) ∧
    ∀ p, p ∈ UnresolvedPacks Frt →
         (p ∉ UnresolvedPacks Frt'
          ↔ splatOf Inst (getOperandPack p)
            ∨ resolved Frt' (getOperandPack p) = true).
Proof.
  intros Hfit Hfree Hty.
  destruct (freezeOneInst_Some Inst Frt Hfree)
    as (Frt1 & Hfr & HIt & HUP & HUS & HFree & HUs).
  unfold advanceInplace_Inst. rewrite Hfr. simpl.
  rewrite HUP, scalarizeLoop_spec by done. simpl.
  eexists. split; [reflexivity|]. simpl. split; [done|].
  rewrite (remove_flagged (leavesOnScalarize (advanceBBIt Frt1) Inst)).
  split.
  - reflexivity.
  - intros p Hp. rewrite elem_of_sort_ptrs, list_elem_of_filter.
    unfold leavesOnScalarize.
    match goal with |- context [resolved ?f (getOperandPack p) = true] =>
      change (resolved f (getOperandPack p))
        with (resolved (advanceBBIt Frt1) (getOperandPack p)) end.
    destruct (decide (splatOf Inst (getOperandPack p))) as [Hs|Hs].
    + rewrite bool_decide_eq_true_2 by done. simpl. split; [by left|].
      intros _ [? _]. done.
    + rewrite bool_decide_eq_false_2 by done. simpl.
      destruct (resolved (advanceBBIt Frt1) (getOperandPack p)).
      * split; [by right | intros _ [? _]; done].
      * split; [intros Hn; by destruct Hn | intros [?|?]; done].
Qed.

End Scalarize.

(** ** Committing a vector pack *)

Section Commit.
Context {F : Type} `{FloatOps F} {Pkr : Packer F}.
Import BitVectorFacts.

Lemma is_permutation_spec {A} `{EqDecision A} (l1 l2 : list A) :
  is_permutation l1 l2 = true ↔ l1 ≡ₚ l2.
Proof.
  unfold is_permutation. rewrite forallb_forall.
  rewrite (Permutation_count_occ (decide_rel (=))). split.
  - intros Hall x. destruct (decide (x ∈ l1 ++ l2)) as [Hin|Hin].
    + apply Nat.eqb_eq, Hall. by apply list_elem_of_In.
    + rewrite elem_of_app in Hin.
      rewrite (proj1 (count_occ_not_In _ l1 x)), (proj1 (count_occ_not_In _ l2 x));
        [done | |]; rewrite <- list_elem_of_In; tauto.
  - intros Hall x _. apply Nat.eqb_eq, Hall.
Qed.

Lemma exact_spec {A} `{EqDecision A} (l1 l2 : list A) :
  length l1 = length l2 →
  forallb (λ p : A * A, bool_decide (p.1 = p.2)) (zip l1 l2) = bool_decide (l1 = l2).
Proof.
  revert l2. induction l1 as [|x l1 IH]; intros [|y l2] Hlen; simpl in *; try done.
  rewrite IH by lia. apply eq_true_iff_eq.
  rewrite andb_true_iff, !bool_decide_eq_true. split.
  - by intros [-> ->].
  - by intros [= -> ->].
Qed.

Lemma produced_not_constant VP OP :
  resolveOperandPack VP OP = true → isConstantPack OP = false.
Proof.
  unfold resolveOperandPack, isConstantPack. rewrite existsb_exists.
  intros (V & Hin & HV). apply not_true_iff_false. rewrite forallb_forall.
  intros Hall. specialize (Hall V Hin). by destruct V as [[| |]|].
Qed.

Lemma to_unsigned_id z : (0 ≤ z < 2 ^ 32)%Z → to_unsigned z = z.
Proof. intros Hz. unfold to_unsigned. by apply Z.mod_small. Qed.

Lemma getGatherCost_spec TTI VP OP g :
  resolveOperandPack VP OP = true →
  (0 ≤ permuteCost TTI VP < 2 ^ 32)%Z →
  getGatherCost VP OP TTI = Some g →
  g = gatherCharge TTI VP OP.
Proof.
  intros Hprod Hrange. unfold getGatherCost, gatherCharge.
  unfold permuteCost, vectorTypeOf_VP in *.
  rewrite (produced_not_constant VP OP Hprod).
  destruct (length (getOrderedValues VP) =? length (lanes OP)) eqn:Hlen.
  - apply Nat.eqb_eq in Hlen. rewrite exact_spec by done.
    destruct (bool_decide (getOrderedValues VP = lanes OP)); [congruence|].
    destruct (is_permutation (getOrderedValues VP) (lanes OP)) eqn:Hperm.
    + apply is_permutation_spec in Hperm.
      rewrite bool_decide_eq_true_2 by done.
      destruct (getVectorType_VP VP) as [vt|]; simpl in *; [|done].
      intros [= <-]. by apply to_unsigned_id.
    + rewrite bool_decide_eq_false_2; [congruence|].
      intros Hp. apply is_permutation_spec in Hp. congruence.
  - apply Nat.eqb_neq in Hlen.
    rewrite bool_decide_eq_false_2 by congruence.
    rewrite bool_decide_eq_false_2; [congruence|].
    intros Hp. apply Permutation_length in Hp. done.
Qed.

Lemma gatherLoop_spec TTI Frt VP i packs c R c' R' :
  (0 ≤ permuteCost TTI VP < 2 ^ 32)%Z →
  gatherLoop TTI Frt VP i packs c R = Some (c', R') →
  c' = gatherTotal TTI VP packs c ∧
  R' = R ++ (snd <$> filter (λ a : nat * nat, leavesOnCommit Frt VP a.1 = true)
                            (zip packs (seq i (length packs)))).
Proof.
  intros Hrange. unfold gatherTotal.
  revert i c R. induction packs as [|p packs IH]; intros i c R; simpl.
  - intros [= <- <-]. by rewrite app_nil_r.
  - rewrite filter_cons. simpl.
    assert (leavesOnCommit Frt VP p
            = resolveOperandPack VP (getOperandPack p)
              && resolved Frt (getOperandPack p)) as Hl by done.
    destruct (resolveOperandPack VP (getOperandPack p)) eqn:Hprod; simpl in Hl.
    + destruct (getGatherCost VP (getOperandPack p) TTI) as [g|] eqn:Hg; [|done].
      simpl. apply getGatherCost_spec in Hg; [|done|done]. subst g.
      intros Hloop. apply IH in Hloop as [-> ->]. split; [done|].
      destruct (resolved Frt (getOperandPack p)).
      * rewrite decide_True by done. rewrite fmap_cons. simpl.
        by rewrite <- app_assoc.
      * by rewrite decide_False by (rewrite Hl; done).
    + intros Hloop. apply IH in Hloop as [-> ->]. split; [done|].
      by rewrite decide_False by (rewrite Hl; done).
Qed.

Lemma reset_step (t : bool) (i k : nat) (l : list nat) :
  (if decide (i = k) then false else t) && bool_decide (k ∉ l)
  = t && bool_decide (k ∉ i :: l).
Proof.
  destruct (decide (i = k)) as [->|Hne]; simpl.
  - rewrite (bool_decide_eq_false_2 (k ∉ k :: l)); [by rewrite andb_false_r|].
    intros Hn. apply Hn. by left.
  - f_equal. apply bool_decide_ext. rewrite not_elem_of_cons.
    split; [intros Hn; split; [congruence | done] | by intros [_ Hn]].
Qed.

Lemma freezeAll_inv l Frt Frt1 :
  freezeAll l Frt = Some Frt1 →
  UnresolvedPacks Frt1 = UnresolvedPacks Frt ∧
  BBIt Frt1 = BBIt Frt ∧
  length (FreeInsts Frt1) = length (FreeInsts Frt) ∧
  (∀ k, BitVector.test (FreeInsts Frt1) k
        = BitVector.test (FreeInsts Frt) k
          && bool_decide (k ∉ (getScalarId <$> l))) ∧
  (∀ k, BitVector.test (UnresolvedScalars Frt1) k
        = BitVector.test (UnresolvedScalars Frt) k
          && bool_decide (k ∉ (getScalarId <$> l))) ∧
  Forall (λ Inst, isFree Frt Inst = true) l.
Proof.
  revert Frt. induction l as [|Inst l IH]; intros Frt; simpl.
  - intros [= <-]. repeat split; try done; intros k; by rewrite andb_true_r.
  - destruct (freezeOneInst Inst Frt) as [Frt0|] eqn:Hfr; [|done]. simpl.
    apply freezeOneInst_inv in Hfr as (Hfree & HIt & HUP & HUS & HFr & HUs).
    intros Hall. apply IH in Hall as (-> & -> & Hlen & HF & HU & Hall).
    rewrite HFr, length_reset in Hlen.
    repeat split; try done.
    + intros k. rewrite HF, HFr, test_reset. apply reset_step.
    + intros k. rewrite HU, HUS, test_reset. apply reset_step.
    + constructor; [done|].
      eapply Forall_impl; [exact Hall|]. simpl. intros J HJ.
      unfold isFree in *. rewrite HFr, test_reset in HJ.
      by destruct (decide (getScalarId Inst = getScalarId J)).
Qed.

Lemma trackOperandPacks_spec TTI Frt packs c U c' U' :
  trackOperandPacks TTI Frt packs c U = Some (c', U') →
  c' = operandInsertTotal TTI packs c ∧
  ∃ added, U' = U ++ added ∧ added ⊆ packs ∧
           Forall (λ p, resolved Frt (getOperandPack p) = false) added.
Proof.
  unfold operandInsertTotal.
  revert c U. induction packs as [|p packs IH]; intros c U; simpl.
  - intros [= <- <-]. split; [done|]. exists []. by rewrite app_nil_r.
  - destruct (getVectorType_OP (getOperandPack p)) as [vt|] eqn:Hvt; [|done].
    simpl. intros Htr. apply IH in Htr as (-> & added & -> & Hsub & Hall).
    split; [by unfold vectorTypeOf; rewrite Hvt|].
    destruct (resolved Frt (getOperandPack p)) eqn:Hres; simpl.
    + exists added. split; [done|]. split; [|done].
      intros x Hx. right. by apply Hsub.
    + destruct (binary_search U p); simpl.
      * exists added. split; [done|]. split; [|done].
        intros x Hx. right. by apply Hsub.
      * exists (p :: added). split; [by rewrite <- app_assoc|]. split.
        -- intros x Hx. apply elem_of_cons in Hx as [->|Hx]; [by left|].
           right. by apply Hsub.
        -- by constructor.
Qed.

(** The extract loop of the code charges what [extractTotal] words. *)
Lemma extractLoop_total TTI vt US i ls c :
  extractLoop TTI vt US i ls c = extractTotal TTI vt US i ls c.
Proof.
  revert i c. induction ls as [|V ls IH]; intros i c; simpl; [done|].
  destruct V as [[Inst| |]|]; try apply IH.
  destruct (BitVector.test US (getScalarId Inst)); simpl; apply IH.
Qed.

Lemma extractTotal_none TTI vt US i ls c :
  Forall (λ V, match V with
               | Some (VInst Inst) => BitVector.test US (getScalarId Inst) = false
               | _ => True
               end) ls →
  extractTotal TTI vt US i ls c = c.
Proof.
  revert i c. induction ls as [|V ls IH]; intros i c Hall; simpl; [done|].
  apply Forall_cons in Hall as [HV Hall]. rewrite IH by done.
  destruct V as [[Inst| |]|]; try done. by rewrite HV.
Qed.

Lemma remove_from_none i Y R :
  Forall (λ j, j < i) R → remove_from i Y R = Y.
Proof.
  revert i. induction Y as [|y Y IH]; intros i HR; simpl; [done|].
  rewrite bool_decide_eq_false_2.
  - f_equal. apply IH. eapply Forall_impl; [exact HR | simpl; lia].
  - intros Hin. rewrite Forall_forall in HR. specialize (HR _ Hin). lia.
Qed.

Lemma remove_from_app_flagged_tail (pred : nat → bool) i X Y R :
  Forall (λ j, j < i) R →
  remove_from i (X ++ Y)
    (R ++ (snd <$> filter (λ a : nat * nat, pred a.1 = true)
                          (zip X (seq i (length X)))))
  = filter (λ p, pred p = false) X ++ Y.
Proof.
  revert i R. induction X as [|x X IH]; intros i R HR; simpl.
  - rewrite app_nil_r. by apply remove_from_none.
  - rewrite filter_cons. simpl. destruct (decide (pred x = true)) as [Hp|Hp].
    + rewrite fmap_cons. simpl.
      rewrite bool_decide_eq_true_2 by (rewrite elem_of_app, elem_of_cons; tauto).
      rewrite filter_cons. rewrite decide_False by congruence.
      replace (R ++ i :: _) with ((R ++ [i]) ++
        (snd <$> filter (λ a : nat * nat, pred a.1 = true) (zip X (seq (S i) (length X)))))
        by (by rewrite <- app_assoc).
      apply IH. apply Forall_app. split.
      * eapply Forall_impl; [exact HR | simpl; lia].
      * repeat constructor.
    + rewrite bool_decide_eq_false_2.
      * rewrite filter_cons. rewrite decide_True by (by destruct (pred x)).
        simpl. f_equal. apply IH. eapply Forall_impl; [exact HR | simpl; lia].
      * rewrite elem_of_app. intros [Hin | Hin].
        -- rewrite Forall_forall in HR. specialize (HR _ Hin). lia.
        -- apply list_elem_of_fmap in Hin as [[a b] [-> Hin]].
           apply list_elem_of_filter in Hin as [_ Hin].
           apply elem_of_zip_r in Hin. simpl in Hin.
           apply elem_of_seq in Hin. simpl. lia.
Qed.

Lemma remove_flagged_tail (pred : nat → bool) X Y :
  remove (X ++ Y) (snd <$> filter (λ a : nat * nat, pred a.1 = true)
                                  (zip X (seq 0 (length X))))
  = filter (λ p, pred p = false) X ++ Y.
Proof. apply (remove_from_app_flagged_tail pred 0 X Y []). constructor. Qed.

Lemma remove_nil Y : remove Y [] = Y.
Proof. apply remove_from_none. constructor. Qed.

(** The shape of a successful commit: the three parts of its cost and the
    unresolved packs it leaves. *)
Lemma advanceInplace_VP_inv TTI VP Frt c Frt' :
  (0 ≤ permuteCost TTI VP < 2 ^ 32)%Z →
  advanceInplace_VP VP TTI Frt = Some (c, Frt') →
  ∃ Frt1 added,
    (isStore VP = false → is_Some (getVectorType_VP VP)) ∧
    freezeAll (sortReplaced (getReplacedInsts VP)) Frt = Some Frt1 ∧
    FreeInsts Frt' = FreeInsts Frt1 ∧
    UnresolvedScalars Frt' = UnresolvedScalars Frt1 ∧
    c = operandInsertTotal TTI (getOperandPacks VP)
          (if isStore VP
           then extractTotal TTI (extractTypeOf VP) (UnresolvedScalars Frt) 0
                  (getOrderedValues VP) (getCost VP)
           else gatherTotal TTI VP (UnresolvedPacks Frt)
                  (extractTotal TTI (extractTypeOf VP) (UnresolvedScalars Frt) 0
                     (getOrderedValues VP) (getCost VP))) ∧
    added ⊆ getOperandPacks VP ∧
    Forall (λ p, resolved Frt' (getOperandPack p) = false) added ∧
    UnresolvedPacks Frt'
    = sort_ptrs
        ((if isStore VP then UnresolvedPacks Frt
          else filter (λ p, leavesOnCommit Frt' VP p = false) (UnresolvedPacks Frt))
         ++ added).
Proof.
  intros Hrange. unfold advanceInplace_VP, extractTypeOf, vectorTypeOf_VP.
  destruct (isStore VP) eqn:Hst; simpl.
  - destruct (freezeAll _ Frt) as [Frt1|] eqn:Hfr; [|done]. simpl.
    destruct (trackOperandPacks TTI _ _ _ _) as [[c3 U]|] eqn:Htr; [|done]. simpl.
    intros [= <- <-]. simpl.
    apply trackOperandPacks_spec in Htr as (-> & added & -> & Hsub & Hall).
    apply freezeAll_inv in Hfr as Hinv. destruct Hinv as (HUP & _).
    simpl in *. rewrite HUP, extractLoop_total.
    exists Frt1, added. repeat split; try done.
    by rewrite remove_nil.
  - destruct (getVectorType_VP VP) as [vt|] eqn:Hvt; [|done]. simpl.
    destruct (freezeAll _ Frt) as [Frt1|] eqn:Hfr; [|done]. simpl.
    destruct (gatherLoop TTI _ VP 0 _ _ []) as [[c2 R]|] eqn:Hga; [|done]. simpl.
    destruct (trackOperandPacks TTI _ _ c2 _) as [[c3 U]|] eqn:Htr; [|done]. simpl.
    intros [= <- <-]. simpl.
    apply trackOperandPacks_spec in Htr as (-> & added & -> & Hsub & Hall).
    apply gatherLoop_spec in Hga as [-> ->]; [|done].
    apply freezeAll_inv in Hfr as Hinv. destruct Hinv as (HUP & _).
    simpl in *. rewrite HUP, extractLoop_total.
    exists Frt1, added. repeat split; try done.
    by rewrite (remove_flagged_tail (leavesOnCommit (advanceBBIt Frt1) VP)).
Qed.

(** C2. When a pack [VP] was committed to the frontier, the cost returned
    is the cost of [VP] with its extract costs, then the gather cost of
    the unresolved packs of which [VP] produces a lane (in their order),
    then the insert costs of the foreign lanes of the operand packs of
    [VP]. For such an unresolved pack [OP] the gather cost is 0 when the
    ordered values of [VP] equal [OP] lane by lane, the target's
    single-source permute cost when they are another permutation of [OP],
    and the constant 2 otherwise; and [OP] is marked resolved (it is not
    unresolved any more) when none of its lanes holds a free instruction
    after the commit. A store pack defines no value: it produces no lane of
    an operand pack. The extract costs are charged on the vector type of
    [VP], and for a store pack on what the local [VecTy] holds. The commit
    is defined when its asserts hold, see [advanceInplace_VP_defined]. *)
Theorem advanceInplace_VP_gather TTI VP Frt c Frt' :
  advanceInplace_VP VP TTI Frt = Some (c, Frt') →
  (isStore VP = true →
   Forall (λ p, resolveOperandPack VP (getOperandPack p) = false)
          (UnresolvedPacks Frt)) →
  (0 ≤ permuteCost TTI VP < 2 ^ 32)%Z →
  c = operandInsertTotal TTI (getOperandPacks VP)
        (gatherTotal TTI VP (UnresolvedPacks Frt)
           (extractTotal TTI (extractTypeOf VP)
              (UnresolvedScalars Frt) 0 (getOrderedValues VP) (getCost VP))) ∧
  ∀ p, p ∈ UnresolvedPacks Frt →
       resolveOperandPack VP (getOperandPack p) = true →
       let OP := getOperandPack p in
       (getOrderedValues VP = lanes OP → gatherCharge TTI VP OP = 0%Z) ∧
       (getOrderedValues VP ≠ lanes OP → getOrderedValues VP ≡ₚ lanes OP →
        gatherCharge TTI VP OP = permuteCost TTI VP) ∧
       (¬ getOrderedValues VP ≡ₚ lanes OP → gatherCharge TTI VP OP = 2%Z) ∧
       (resolved Frt' OP = true → p ∉ UnresolvedPacks Frt').
Proof.
  intros Hadv Hstore Hrange.
  destruct (advanceInplace_VP_inv TTI VP Frt c Frt' Hrange Hadv)
    as (Frt1 & added & Hty & Hfr & HFree & HUS & Hc & Hsub & Hadded & HUP).
  split.
  - rewrite Hc. f_equal. destruct (isStore VP) eqn:Hst; [|done].
    specialize (Hstore eq_refl). unfold gatherTotal.
    clear -Hstore. revert Hstore.
    generalize (extractTotal TTI (extractTypeOf VP) (UnresolvedScalars Frt) 0
                  (getOrderedValues VP) (getCost VP)).
    induction (UnresolvedPacks Frt) as [|p packs IH]; intros c0 Hall; [done|].
    apply Forall_cons in Hall as [Hp Hall]. simpl. rewrite Hp. by apply IH.
  - intros p Hp Hprod OP. subst OP. unfold gatherCharge.
    repeat split.
    + intros Heq. by rewrite bool_decide_eq_true_2.
    + intros Hne Hperm. rewrite bool_decide_eq_false_2 by done.
      by rewrite bool_decide_eq_true_2.
    + intros Hnp. rewrite bool_decide_eq_false_2.
      * by rewrite bool_decide_eq_false_2.
      * intros Heq. apply Hnp. by rewrite Heq.
    + intros Hres. rewrite HUP, elem_of_sort_ptrs, elem_of_app.
      intros [Hin | Hin].
      * destruct (isStore VP) eqn:Hst.
        -- specialize (Hstore eq_refl). rewrite Forall_forall in Hstore.
           specialize (Hstore p Hp). congruence.
        -- apply list_elem_of_filter in Hin as [Hl _].
           unfold leavesOnCommit in Hl. by rewrite Hprod, Hres in Hl.
      * rewrite Forall_forall in Hadded. specialize (Hadded p Hin). congruence.
Qed.

(** What a store pack leaves when it was committed: its cost, the extract
    costs that the loop over its lanes charged, the insert costs of the
    foreign lanes of its operand packs; no gather cost, and no unresolved
    pack is marked resolved. *)
Lemma advanceInplace_VP_store_inv TTI VP Frt c Frt' :
  isStore VP = true →
  advanceInplace_VP VP TTI Frt = Some (c, Frt') →
  c = operandInsertTotal TTI (getOperandPacks VP)
        (extractTotal TTI VecTy_uninit (UnresolvedScalars Frt) 0
           (getOrderedValues VP) (getCost VP)) ∧
  (∃ added, added ⊆ getOperandPacks VP ∧
            UnresolvedPacks Frt' = sort_ptrs (UnresolvedPacks Frt ++ added)) ∧
  ∀ p, p ∈ UnresolvedPacks Frt → p ∈ UnresolvedPacks Frt'.
Proof.
  intros Hst. unfold advanceInplace_VP. rewrite Hst. simpl.
  destruct (freezeAll _ Frt) as [Frt1|] eqn:Hfr; [|done]. simpl.
  destruct (trackOperandPacks TTI _ _ _ _) as [[c3 U]|] eqn:Htr; [|done]. simpl.
  intros [= <- <-]. simpl.
  apply trackOperandPacks_spec in Htr as (-> & added & -> & Hsub & Hall).
  apply freezeAll_inv in Hfr as Hinv. destruct Hinv as (HUP & _).
  simpl in *. rewrite HUP, remove_nil, extractLoop_total.
  repeat split; try done.
  - by exists added.
  - intros p Hp. rewrite elem_of_sort_ptrs, elem_of_app. by left.
Qed.

End Commit.

(** ** The invariant of the unresolved packs *)

Section Invariant.
Context {F : Type} `{FloatOps F} {Pkr : Packer F}.
Import BitVectorFacts.

Lemma resolved_false Frt OP :
  resolved Frt OP = false ↔
  ∃ Inst, Some (VInst Inst) ∈ lanes OP ∧ inBB Inst = true ∧ isFree Frt Inst = true.
Proof.
  unfold resolved. induction (lanes OP) as [|V l IH]; simpl.
  - split; [done | intros (Inst & Hin & _); by apply elem_of_nil in Hin].
  - rewrite andb_false_iff, IH, negb_false_iff. split.
    + intros [Hl | (Inst & Hin & Hrest)].
      * destruct V as [[Inst| |]|]; simpl in Hl; try done.
        apply andb_true_iff in Hl as [Hbb Hfree]. exists Inst.
        split; [by left | done].
      * exists Inst. split; [by right | done].
    + intros (Inst & Hin & Hbb & Hfree).
      apply elem_of_cons in Hin as [<- | Hin].
      * left. simpl. by rewrite Hbb, Hfree.
      * right. by exists Inst.
Qed.

Lemma scalarizeLoop_inv TTI Frt Inst i packs c R c' R' :
  scalarizeLoop TTI Frt Inst i packs c R = Some (c', R') →
  R' = R ++ (snd <$> filter (λ a : nat * nat, leavesOnScalarize Frt Inst a.1 = true)
                            (zip packs (seq i (length packs)))).
Proof.
  revert i c R. induction packs as [|p packs IH]; intros i c R; simpl.
  - intros [= <- <-]. by rewrite app_nil_r.
  - destruct (getVectorType_OP (getOperandPack p)) as [vt|]; [|done]. simpl.
    destruct (negb (vt.2 =? length (lanes (getOperandPack p)))); [done|].
    rewrite isSplatOf_spec, filter_cons. simpl.
    assert (leavesOnScalarize Frt Inst p
            = bool_decide (splatOf Inst (getOperandPack p))
              || resolved Frt (getOperandPack p)) as Hl by done.
    destruct (bool_decide (splatOf Inst (getOperandPack p))); simpl in Hl.
    + intros Hloop. apply IH in Hloop as ->. rewrite decide_True by done.
      rewrite fmap_cons. simpl. by rewrite <- app_assoc.
    + intros Hloop. apply IH in Hloop as ->.
      destruct (resolved Frt (getOperandPack p)).
      * rewrite decide_True by done. rewrite fmap_cons. simpl.
        by rewrite <- app_assoc.
      * by rewrite decide_False by (rewrite Hl; done).
Qed.

Lemma advanceInplace_Inst_inv TTI Inst Frt c Frt' :
  advanceInplace_Inst Inst TTI Frt = Some (c, Frt') →
  isFree Frt Inst = true ∧
  FreeInsts Frt' = BitVector.reset (FreeInsts Frt) (getScalarId Inst) ∧
  UnresolvedPacks Frt'
  = sort_ptrs (filter (λ p, leavesOnScalarize Frt' Inst p = false)
                      (UnresolvedPacks Frt)).
Proof.
  unfold advanceInplace_Inst.
  destruct (freezeOneInst Inst Frt) as [Frt1|] eqn:Hfr; [|done]. simpl.
  apply freezeOneInst_inv in Hfr as (Hfree & HIt & HUP & HUS & HFree & HUs).
  destruct (scalarizeLoop TTI _ Inst 0 _ _ []) as [[c1 R]|] eqn:Hloop; [|done].
  simpl. intros [= <- <-]. simpl. split; [done|]. split; [done|].
  apply scalarizeLoop_inv in Hloop. simpl in Hloop. subst R.
  rewrite HUP. by rewrite (remove_flagged (leavesOnScalarize (advanceBBIt Frt1) Inst)).
Qed.

Lemma gatherLoop_ids TTI Frt VP i packs c R c' R' :
  gatherLoop TTI Frt VP i packs c R = Some (c', R') →
  R' = R ++ (snd <$> filter (λ a : nat * nat, leavesOnCommit Frt VP a.1 = true)
                            (zip packs (seq i (length packs)))).
Proof.
  revert i c R. induction packs as [|p packs IH]; intros i c R; simpl.
  - intros [= <- <-]. by rewrite app_nil_r.
  - rewrite filter_cons. simpl.
    assert (leavesOnCommit Frt VP p
            = resolveOperandPack VP (getOperandPack p)
              && resolved Frt (getOperandPack p)) as Hl by done.
    destruct (resolveOperandPack VP (getOperandPack p)); simpl in Hl.
    + destruct (getGatherCost VP (getOperandPack p) TTI) as [g|]; [|done].
      simpl. intros Hloop. apply IH in Hloop as ->.
      destruct (resolved Frt (getOperandPack p)).
      * rewrite decide_True by done. rewrite fmap_cons. simpl.
        by rewrite <- app_assoc.
      * by rewrite decide_False by (rewrite Hl; done).
    + intros Hloop. apply IH in Hloop as ->.
      by rewrite decide_False by (rewrite Hl; done).
Qed.

(** The unresolved packs after a successful commit. *)
Lemma advanceInplace_VP_packs TTI VP Frt c Frt' :
  advanceInplace_VP VP TTI Frt = Some (c, Frt') →
  ∃ Frt1 added,
    freezeAll (sortReplaced (getReplacedInsts VP)) Frt = Some Frt1 ∧
    FreeInsts Frt' = FreeInsts Frt1 ∧
    Forall (λ p, resolved Frt' (getOperandPack p) = false) added ∧
    UnresolvedPacks Frt'
    = sort_ptrs
        ((if isStore VP then UnresolvedPacks Frt
          else filter (λ p, leavesOnCommit Frt' VP p = false) (UnresolvedPacks Frt))
         ++ added).
Proof.
  unfold advanceInplace_VP.
  destruct (if isStore VP then _ else _) as [VecTy|]; [|done]. simpl.
  destruct (freezeAll _ Frt) as [Frt1|] eqn:Hfr; [|done]. simpl.
  apply freezeAll_inv in Hfr as Hinv. destruct Hinv as (HUP & _).
  destruct (isStore VP) eqn:Hstore; simpl.
  - destruct (trackOperandPacks TTI _ _ _ _) as [[c3 U]|] eqn:Htr; [|done].
    simpl. intros [= <- <-]. simpl.
    apply trackOperandPacks_spec in Htr as (_ & added & -> & _ & Hadded).
    simpl in *. rewrite HUP, remove_nil. by exists Frt1, added.
  - destruct (gatherLoop TTI _ VP 0 _ _ []) as [[c2 R]|] eqn:Hga; [|done].
    simpl.
    destruct (trackOperandPacks TTI _ _ c2 _) as [[c3 U]|] eqn:Htr; [|done].
    simpl. intros [= <- <-]. simpl.
    apply trackOperandPacks_spec in Htr as (_ & added & -> & _ & Hadded).
    apply gatherLoop_ids in Hga. simpl in *. subst R. rewrite HUP.
    rewrite (remove_flagged_tail (leavesOnCommit (advanceBBIt Frt1) VP)).
    by exists Frt1, added.
Qed.

(** A pack that was unresolved and of which the commit freezes no lane is
    still unresolved. *)
Lemma resolved_false_frozen_others Frt Frt1 (l : list InstPtr) OP :
  (∀ k, BitVector.test (FreeInsts Frt1) k
        = BitVector.test (FreeInsts Frt) k && bool_decide (k ∉ (getScalarId <$> l))) →
  (∀ Inst, Some (VInst Inst) ∈ lanes OP → inBB Inst = true →
           getScalarId Inst ∉ (getScalarId <$> l)) →
  resolved Frt OP = false → resolved Frt1 OP = false.
Proof.
  intros HF Hnot. rewrite !resolved_false.
  intros (Inst & Hin & Hbb & Hfree). exists Inst. split; [done|]. split; [done|].
  unfold isFree in *. rewrite HF, Hfree. simpl.
  apply bool_decide_eq_true. by apply Hnot.
Qed.

Lemma not_produced_lane VP OP Inst :
  resolveOperandPack VP OP = false →
  Some (VInst Inst) ∈ lanes OP → inBB Inst = true →
  BitVector.test (getElements VP) (getScalarId Inst) = false.
Proof.
  unfold resolveOperandPack. intros Hn Hin Hbb.
  destruct (BitVector.test _ _) eqn:Ht; [|done].
  apply not_true_iff_false in Hn. exfalso. apply Hn.
  apply existsb_exists. exists (Some (VInst Inst)).
  split; [by apply list_elem_of_In|]. by rewrite Hbb, Ht.
Qed.

Lemma advanceInplace_ST_inv TTI (ST : ShuffleTask F) Frt c Frt' :
  advanceInplace_ST ST TTI Frt = Some (c, Frt') →
  FreeInsts Frt' = FreeInsts Frt ∧
  ∀ p, p ∈ UnresolvedPacks Frt' → p ∈ UnresolvedPacks Frt ∨ p ∈ Inputs ST.
Proof.
  unfold advanceInplace_ST. cbv zeta.
  destruct (bool_decide (lower_bound _ _ = _)); [done|].
  destruct (bool_decide (UnresolvedPacks Frt !! _ = Some (Output ST))) eqn:Hlk;
    [|done].
  simpl. intros [= <- <-]. simpl. split; [done|].
  apply bool_decide_eq_true in Hlk.
  intros p Hp. apply elem_of_sort_ptrs, elem_of_app in Hp as [Hp|Hp]; [|by right].
  left. apply elem_of_take in Hp as (i & Hi & _).
  apply list_lookup_insert_Some in Hi as [(Heq & Hx & Hlt) | (Hne & Hi)].
  - subst p. destruct (last (UnresolvedPacks Frt)) as [x|] eqn:Hlast; simpl.
    + by eapply last_Some_elem_of.
    + apply last_None in Hlast. rewrite Hlast in Hlt. simpl in Hlt. lia.
  - by eapply list_elem_of_lookup_2.
Qed.

Lemma step_keeps_invariant TTI Frt Frt' :
  RestrictedStep TTI Frt Frt' →
  Forall (λ p, resolved Frt (getOperandPack p) = false) (UnresolvedPacks Frt) →
  Forall (λ p, resolved Frt' (getOperandPack p) = false) (UnresolvedPacks Frt').
Proof.
  intros Hstep Hinv. rewrite Forall_forall in Hinv.
  destruct Hstep as [Inst c Frt Frt' Hadv
                    |VP c Frt Frt' [Hrep Hst] Hadv
                    |ST c Frt Frt' Hok Hadv].
  - (* scalarize: every pack that stays has a free lane *)
    apply advanceInplace_Inst_inv in Hadv as (_ & _ & HUP).
    apply Forall_forall. intros p Hp. rewrite HUP in Hp.
    apply elem_of_sort_ptrs, list_elem_of_filter in Hp as [Hl _].
    unfold leavesOnScalarize in Hl. by apply orb_false_iff in Hl as [_ ?].
  - (* commit *)
    apply advanceInplace_VP_packs in Hadv
      as (Frt1 & added & Hfr & HFree & Hadded & HUP).
    apply freezeAll_inv in Hfr as (_ & _ & _ & HF & _ & _).
    assert (∀ p, p ∈ UnresolvedPacks Frt →
                 resolveOperandPack VP (getOperandPack p) = false →
                 resolved Frt' (getOperandPack p) = false) as Hkeep.
    { intros p Hp Hnp.
      apply (resolved_false_frozen_others Frt _ (sortReplaced (getReplacedInsts VP)));
        [by rewrite HFree | | by apply Hinv].
      intros Inst Hin Hbb Hid.
      pose proof (not_produced_lane VP _ Inst Hnp Hin Hbb) as Hne.
      apply list_elem_of_fmap in Hid as (J & Hid & HJ).
      unfold sortReplaced in HJ. rewrite merge_sort_Permutation in HJ.
      rewrite Forall_forall in Hrep. specialize (Hrep J HJ).
      rewrite <- Hid in Hrep. congruence. }
    apply Forall_forall. intros p Hp. rewrite HUP in Hp.
    apply elem_of_sort_ptrs, elem_of_app in Hp as [Hp|Hp].
    + destruct (isStore VP) eqn:Hstore.
      * apply Hkeep; [done|].
        specialize (Hst eq_refl). rewrite Forall_forall in Hst. by apply Hst.
      * apply list_elem_of_filter in Hp as [Hl Hp].
        unfold leavesOnCommit in Hl.
        destruct (resolveOperandPack VP (getOperandPack p)) eqn:Hprod;
          [done | by apply Hkeep].
    + rewrite Forall_forall in Hadded. by apply Hadded.
  - (* shuffle *)
    apply advanceInplace_ST_inv in Hadv as (HFree & HUP).
    apply Forall_forall. intros p Hp. apply HUP in Hp as [Hp|Hp].
    + rewrite <- (resolved_ext Frt Frt') by done. by apply Hinv.
    + rewrite <- (resolved_ext Frt Frt') by done.
      unfold shuffleOk in Hok. rewrite Forall_forall in Hok. by apply Hok.
Qed.

(** C5, as the code keeps it. In every frontier reached from the initial
    frontier of the block by scalarizing instructions, by committing packs
    that freeze their own elements only and, when they are store packs,
    produce no lane of an unresolved pack, and by shuffles whose inputs
    each hold a free instruction of the block, every unresolved operand
    pack has a lane that holds a free instruction of the block. It may
    hold frozen instructions as well. *)
Theorem reachable_unresolved_have_free_lane TTI Frt :
  restricted TTI Frt → unresolvedHaveFreeLane Frt.
Proof.
  intros Hreach p Hp. apply resolved_false.
  revert p Hp. apply Forall_forall.
  revert Frt Hreach.
  apply (rtc_ind_r (λ Frt, Forall (λ p, resolved Frt (getOperandPack p) = false)
                                  (UnresolvedPacks Frt))).
  - by constructor.
  - intros y z _ Hstep IH. by eapply step_keeps_invariant.
Qed.

End Invariant.

(** ** Seed memory packs *)

Lemma concatMapM_Some {A B} (f : A → option (list B)) (g : A → list B) (l : list A) :
  (∀ x, x ∈ l → f x = Some (g x)) → concatMapM f l = Some (concat (g <$> l)).
Proof.
  induction l as [|x l IH]; intros Hf; simpl; [done|].
  rewrite (Hf x) by left. simpl.
  rewrite IH by (intros y Hy; apply Hf; by right). done.
Qed.

Lemma elem_of_concat {A} (x : A) (ls : list (list A)) :
  x ∈ concat ls ↔ ∃ l, x ∈ l ∧ l ∈ ls.
Proof.
  induction ls as [|l ls IH]; simpl.
  - split; [intros H; by apply elem_of_nil in H | intros (l & _ & H); by apply elem_of_nil in H].
  - rewrite elem_of_app, IH. split.
    + intros [H|(l' & H1 & H2)]; [exists l; split; [done|left] | exists l'; split; [done|by right]].
    + intros (l' & H1 & H2). apply elem_of_cons in H2 as [->|H2]; [by left | right; by exists l'].
Qed.

Lemma concat_fmap_filter {A B} (P : A → Prop) `{∀ x, Decision (P x)}
    (g : A → list B) (l : list A) :
  concat ((λ x, if bool_decide (P x) then g x else []) <$> l) = concat (g <$> filter P l).
Proof.
  induction l as [|x l IH]; [done|].
  rewrite filter_cons, fmap_cons. simpl. case_bool_decide as Hd.
  - rewrite decide_True by done. rewrite fmap_cons. simpl. by f_equal.
  - rewrite decide_False by done. done.
Qed.

Section SeedFacts.
Context {F : Type} {Pkr : Packer F}.
Import BitVector BitVectorFacts.

Lemma elementsOf_snoc c y :
  elementsOf (c ++ [y]) = set (elementsOf c) (getScalarId y).
Proof. unfold elementsOf. by rewrite fold_left_app. Qed.

Lemma dependedOf_snoc c y :
  dependedOf (c ++ [y]) = or (dependedOf c) (getDepended y).
Proof. unfold dependedOf. by rewrite fold_left_app. Qed.

Lemma length_elementsOf c : length (elementsOf c) = getNumValues.
Proof.
  induction c as [|y c IH] using rev_ind.
  - apply length_make.
  - by rewrite elementsOf_snoc, length_set.
Qed.

Lemma test_elementsOf c k :
  Forall (λ x, getScalarId x < getNumValues) c →
  test (elementsOf c) k = true ↔ ∃ x, x ∈ c ∧ getScalarId x = k.
Proof.
  induction c as [|y c IH] using rev_ind; intros Hc.
  - unfold elementsOf. simpl. rewrite test_make.
    split; [by case_decide | intros (x & Hx & _); by apply elem_of_nil in Hx].
  - apply Forall_app in Hc as [Hc Hy]. rewrite Forall_singleton in Hy.
    rewrite elementsOf_snoc, test_set, length_elementsOf.
    destruct (decide (getScalarId y = k ∧ getScalarId y < getNumValues)) as [[Hk _]|Hn].
    + split; [|done]. intros _. exists y. split; [|done].
      apply elem_of_app. right. by apply list_elem_of_singleton.
    + rewrite (IH Hc). split.
      * intros (x & Hx & Hk). exists x. split; [|done]. apply elem_of_app. by left.
      * intros (x & Hx & Hk). apply elem_of_app in Hx as [Hx|Hx]; [by exists x|].
        apply list_elem_of_singleton in Hx. subst x. destruct Hn. done.
Qed.

Lemma test_dependedOf c k :
  test (dependedOf c) k = true ↔ ∃ x, x ∈ c ∧ test (getDepended x) k = true.
Proof.
  induction c as [|y c IH] using rev_ind.
  - unfold dependedOf. simpl. rewrite test_make.
    split; [by case_decide | intros (x & Hx & _); by apply elem_of_nil in Hx].
  - rewrite dependedOf_snoc, test_or, orb_true_iff, IH. split.
    + intros [(x & Hx & Hk)|Hk].
      * exists x. split; [|done]. apply elem_of_app. by left.
      * exists y. split; [|done]. apply elem_of_app. right. by apply list_elem_of_singleton.
    + intros (x & Hx & Hk). apply elem_of_app in Hx as [Hx|Hx]; [left; by exists x|].
      apply list_elem_of_singleton in Hx. subst x. by right.
Qed.

(** The test of [checkIndependence] on the bit sets of a chain is the
    independence of the candidate from every access of the chain. *)
Lemma checkIndependence_spec c y :
  Forall (λ x, getScalarId x < getNumValues) c →
  checkIndependence y (elementsOf c) (dependedOf c)
  = bool_decide (Forall (λ x, independent x y) c).
Proof.
  intros Hc. unfold checkIndependence.
  destruct (decide (Forall (λ x, independent x y) c)) as [Hi|Hi].
  - rewrite (bool_decide_eq_true_2 _ Hi). rewrite Forall_forall in Hi.
    apply andb_true_iff. split; apply negb_true_iff.
    + apply anyCommon_false. intros k Hk. apply (test_elementsOf _ _ Hc) in Hk as (x & Hx & <-).
      by destruct (Hi x Hx).
    + apply not_true_iff_false. intros Hk. apply test_dependedOf in Hk as (x & Hx & Hk).
      destruct (Hi x Hx) as [_ Hf]. congruence.
  - rewrite (bool_decide_eq_false_2 _ Hi). apply not_true_iff_false. intros Hk.
    apply andb_true_iff in Hk as [H1 H2]. apply negb_true_iff in H1, H2.
    apply Hi, Forall_forall. intros x Hx. split.
    + rewrite anyCommon_false in H1. apply H1. apply (test_elementsOf _ _ Hc). by exists x.
    + apply not_true_iff_false. intros Hk. apply not_true_iff_false in H2. apply H2.
      apply test_dependedOf. by exists x.
Qed.

(** [Enumerate] pushes the seed packs of the extensions of its chain. *)
Lemma Enumerate_extensions IsStore VL n :
  dag_ids_ok IsStore →
  ∀ fuel c,
    n < fuel → length c + n = VL → c ≠ [] →
    Forall (λ x, getScalarId x < getNumValues) c →
    Enumerate fuel IsStore VL c (elementsOf c) (dependedOf c)
    = Some (seedPack IsStore <$> extensions IsStore n c).
Proof.
  intros Hdag. induction n as [|n IH]; intros fuel c Hfuel Hlen Hne Hc.
  - destruct fuel as [|fuel]; [lia|]. simpl.
    rewrite (proj2 (Nat.eqb_eq _ _)) by lia. done.
  - destruct fuel as [|fuel]; [lia|]. simpl.
    rewrite (proj2 (Nat.eqb_neq _ _)) by lia.
    destruct (last c) as [back|] eqn:Hlast; [|by apply last_None in Hlast].
    simpl. destruct (AccessDAG IsStore back) as [nexts|] eqn:HD; [|done].
    specialize (Hdag _ _ HD).
    rewrite (concatMapM_Some _
               (λ y, if bool_decide (Forall (λ x, independent x y) c)
                     then seedPack IsStore <$> extensions IsStore n (c ++ [y])
                     else [])).
    + f_equal. clear HD Hdag. induction nexts as [|y nexts IHn]; [done|].
      simpl. rewrite filter_cons. case_bool_decide as Hd.
      * rewrite decide_True by done. simpl. rewrite fmap_app. by f_equal.
      * rewrite decide_False by done. done.
    + intros y Hy. rewrite Forall_forall in Hdag. specialize (Hdag y Hy).
      rewrite (checkIndependence_spec _ _ Hc).
      case_bool_decide as Hd; simpl; [|done].
      rewrite <- elementsOf_snoc, <- dependedOf_snoc.
      apply IH.
      * lia.
      * rewrite length_app. simpl. lia.
      * by destruct c.
      * apply Forall_app. split; [done|]. by apply Forall_singleton.
Qed.

(** The chains [extensions] lists: the last [n] accesses follow one
    another in the DAG and each is independent of all the accesses before
    it. *)
Lemma elem_of_extensions IsStore n :
  ∀ c c', c ≠ [] →
    c' ∈ extensions IsStore n c ↔
    c `prefix_of` c' ∧ length c' = length c + n ∧
    (∀ i x y, length c ≤ S i → c' !! i = Some x → c' !! S i = Some y →
              ∃ nexts, AccessDAG IsStore x = Some nexts ∧ y ∈ nexts) ∧
    (∀ i j x y, i < j → length c ≤ j → c' !! i = Some x → c' !! j = Some y →
                independent x y).
Proof.
  induction n as [|n IH]; intros c c' Hne.
  - simpl. rewrite list_elem_of_singleton. split.
    + intros ->. split; [done|]. split; [lia|]. split.
      * intros i x y Hi _ Hy. apply lookup_lt_Some in Hy. lia.
      * intros i j x y _ Hj _ Hy. apply lookup_lt_Some in Hy. lia.
    + intros (Hp & Hl & _). symmetry. apply prefix_length_eq; [done|lia].
  - simpl. destruct (last c) as [back|] eqn:Hlast; [|by apply last_None in Hlast].
    assert (c !! (length c - 1) = Some back) as Hback.
    { rewrite last_lookup in Hlast. by replace (length c - 1) with (pred (length c)) by lia. }
    assert (0 < length c) as Hpos by (destruct c; [done | simpl; lia]).
    destruct (AccessDAG IsStore back) as [nexts|] eqn:HD.
    + rewrite elem_of_concat. split.
      * intros (l & Hc' & Hl). apply list_elem_of_fmap in Hl as (y & -> & Hy).
        apply list_elem_of_filter in Hy as [Hind Hy].
        apply IH in Hc' as (Hp & Hlen & Hcons & Hpair); [|by destruct c].
        rewrite length_app in Hlen, Hcons, Hpair. simpl in Hlen, Hcons, Hpair.
        destruct Hp as [ext ->].
        split; [exists ([y] ++ ext); by rewrite app_assoc|].
        split; [lia|]. split.
        -- intros i x z Hi Hx Hz.
           destruct (decide (S i = length c)) as [He|He].
           ++ exists nexts. rewrite <- app_assoc in Hx, Hz.
              rewrite lookup_app_l in Hx by lia.
              replace i with (length c - 1) in Hx by lia.
              rewrite Hback in Hx. injection Hx as <-.
              rewrite He in Hz. rewrite lookup_app_r in Hz by lia.
              replace (length c - length c) with 0 in Hz by lia.
              simpl in Hz. injection Hz as <-. done.
           ++ apply (Hcons i); [lia|done|done].
        -- intros i j x z Hij Hj Hx Hz.
           destruct (decide (j = length c)) as [He|He].
           ++ subst j. rewrite <- app_assoc in Hx, Hz.
              rewrite lookup_app_l in Hx by lia.
              rewrite lookup_app_r in Hz by lia.
              replace (length c - length c) with 0 in Hz by lia.
              simpl in Hz. injection Hz as <-.
              rewrite Forall_forall in Hind. apply Hind.
              by eapply list_elem_of_lookup_2.
           ++ apply (Hpair i j); [lia|lia|done|done].
      * intros ([ext ->] & Hlen & Hcons & Hpair).
        rewrite length_app in Hlen.
        destruct ext as [|y ext]; [simpl in Hlen; lia|].
        assert ((c ++ y :: ext) !! (length c - 1) = Some back) as Hx
          by (rewrite lookup_app_l by lia; done).
        assert ((c ++ y :: ext) !! length c = Some y) as Hy.
        { rewrite lookup_app_r by lia. by replace (length c - length c) with 0 by lia. }
        exists (extensions IsStore n (c ++ [y])). split.
        -- apply IH; [by destruct c|]. rewrite !length_app. simpl.
           split; [exists ext; by rewrite <- app_assoc|].
           split; [simpl in Hlen; lia|]. split.
           ++ intros i x z Hi. apply Hcons. lia.
           ++ intros i j x z Hij Hj. apply Hpair; lia.
        -- apply list_elem_of_fmap. exists y. split; [done|].
           apply list_elem_of_filter. split.
           ++ apply Forall_forall. intros x Hxc.
              apply list_elem_of_lookup_1 in Hxc as [i Hi].
              assert (i < length c) by (by eapply lookup_lt_Some).
              apply (Hpair i (length c)); [lia|lia| |done].
              by rewrite lookup_app_l by lia.
           ++ destruct (Hcons (length c - 1) back y) as (nexts' & HD' & Hin); [lia|done| |].
              { by replace (S (length c - 1)) with (length c) by lia. }
              rewrite HD in HD'. by injection HD' as <-.
    + split; [intros Hin; by apply elem_of_nil in Hin|].
      intros ([ext ->] & Hlen & Hcons & _).
      rewrite length_app in Hlen.
      destruct ext as [|y ext]; [simpl in Hlen; lia|].
      destruct (Hcons (length c - 1) back y) as (nexts' & HD' & _); [lia| | |].
      * by rewrite lookup_app_l by lia.
      * replace (S (length c - 1)) with (length c) by lia.
        rewrite lookup_app_r by lia. by replace (length c - length c) with 0 by lia.
      * congruence.
Qed.

Lemma elem_of_seedChains IsStore A VL c :
  1 ≤ VL → c ∈ seedChains IsStore A VL ↔ isSeedChain IsStore A VL c.
Proof.
  intros HVL. unfold seedChains, isSeedChain.
  rewrite elem_of_extensions by done. simpl. split.
  - intros ([ext ->] & Hlen & Hcons & Hpair).
    split; [done|]. split; [lia|]. split.
    + intros i x y. apply Hcons. lia.
    + intros i j x y Hij. apply Hpair; lia.
  - intros (Hhead & Hlen & Hcons & Hpair).
    destruct c as [|x c]; [done|]. simpl in Hhead. injection Hhead as ->.
    split; [by exists c|]. split; [lia|]. split.
    + intros i x y _. apply Hcons.
    + intros i j x y Hij _. by apply Hpair.
Qed.

Lemma getSeedMemPacks_seedChains IsStore A VL fuel :
  dag_ids_ok IsStore → getScalarId A < getNumValues → 1 ≤ VL → VL ≤ fuel →
  getSeedMemPacks fuel IsStore A VL = Some (seedPack IsStore <$> seedChains IsStore A VL).
Proof.
  intros Hdag HA HVL Hfuel. unfold getSeedMemPacks, seedChains.
  apply (Enumerate_extensions IsStore VL (VL - 1) Hdag fuel [A]).
  - lia.
  - simpl. lia.
  - done.
  - by apply Forall_singleton.
Qed.

Lemma seeds_loop IsStore op VLs fuel :
  dag_ids_ok IsStore →
  Forall (λ Inst, getScalarId Inst < getNumValues) insts →
  Forall (λ VL, 1 ≤ VL ≤ fuel) VLs →
  concatMapM
    (λ Inst,
       if bool_decide (getOpcode Inst = op)
       then concatMapM (λ VL, getSeedMemPacks fuel IsStore Inst VL) VLs
       else Some [])
    insts
  = Some (seedsOf IsStore op VLs).
Proof.
  intros Hdag Hids HVLs. unfold seedsOf.
  rewrite (concatMapM_Some _
             (λ A, if bool_decide (getOpcode A = op)
                   then concat ((λ VL, seedPack IsStore <$> seedChains IsStore A VL) <$> VLs)
                   else [])).
  - f_equal. apply (concat_fmap_filter (λ Inst, getOpcode Inst = op)).
  - intros x Hx. case_bool_decide; [|done].
    apply concatMapM_Some. intros VL HVL.
    rewrite Forall_forall in Hids, HVLs.
    apply getSeedMemPacks_seedChains; [done|by apply Hids|apply HVLs, HVL..].
Qed.

(** C4 (amended). When the ids of the accesses are in the range of the
    value index, [getSeedMemPacks] on an access [A] and a lane count [VL]
    returns, given fuel for [VL] nested calls, the seed packs of the chains
    of [seedChains], and these are exactly the lists of [VL] accesses that
    start at [A], in which every access is followed by one of its successors
    in the access DAG and any two accesses are independent. The callers ask
    for different lane counts: [improvePlan] seeds the store packs of 2, 4,
    8, 16 and 32 lanes from every store of the block, [enumerate] the load
    packs of 2, 4, 8 and 16 lanes from every load; no load pack of 32 lanes
    is enumerated. *)
Theorem getSeedMemPacks_chains :
  dag_ids_ok true → dag_ids_ok false →
  Forall (λ Inst, getScalarId Inst < getNumValues) insts →
  (∀ IsStore A VL,
     1 ≤ VL → getScalarId A < getNumValues →
     (∀ fuel, VL ≤ fuel →
        getSeedMemPacks fuel IsStore A VL
        = Some (seedPack IsStore <$> seedChains IsStore A VL)) ∧
     (∀ c, c ∈ seedChains IsStore A VL ↔ isSeedChain IsStore A VL c)) ∧
  (∀ fuel, 32 ≤ fuel →
     improvePlan_Seeds fuel = Some (seedsOf true OpStore [2; 4; 8; 16; 32])) ∧
  (∀ fuel, 16 ≤ fuel →
     enumerate fuel = Some (seedsOf false OpLoad [2; 4; 8; 16])).
Proof.
  intros Hst Hld Hids. split; [|split].
  - intros IsStore A VL HVL HA. split.
    + intros fuel Hfuel. apply getSeedMemPacks_seedChains; try done.
      by destruct IsStore.
    + intros c. by apply elem_of_seedChains.
  - intros fuel Hfuel. apply seeds_loop; [done..|].
    repeat constructor; lia.
  - intros fuel Hfuel. apply seeds_loop; [done..|].
    repeat constructor; lia.
Qed.

End SeedFacts.

(** ** The UCT search driver *)

Section UCTSearchFacts.
Context {F St : Type} `{FloatOps F} {Ops : UCTNodeOps F St}.
Variables (C W : F) (ExpandThreshold : nat).

Lemma for_iters_count NumIters body (s s' : St) k :
  for_iters NumIters body s = Some (k, s') → k = NumIters.
Proof.
  revert s s' k. induction NumIters as [|n IH]; intros s s' k; simpl.
  - by intros [= <- _].
  - destruct (body s) as [s1|]; [|done]. simpl.
    destruct (for_iters n body s1) as [[k1 s2]|] eqn:E; [|done]. simpl.
    intros [= <- _]. f_equal. by eapply IH.
Qed.

(** Without the forced move, [run] executes the iterations it was asked
    for. *)
Lemma run_count fuel Root NumIters (s s' : St) k :
  expanded s Root && (numTransitions s Root =? 1) = false →
  run C W ExpandThreshold fuel Root NumIters s = Some (k, s') → k = NumIters.
Proof. unfold run. intros ->. apply for_iters_count. Qed.

(** C6. When the root is expanded and has exactly one transition,
    [run(Root, NumIters)] executes exactly one iteration of the search,
    whatever [NumIters] is (zero included): it does what one execution of
    the loop body does, and it returns when that execution does. *)
Theorem run_forced_move fuel Root (s : St) :
  expanded s Root = true →
  numTransitions s Root = 1 →
  ∀ NumIters,
    run C W ExpandThreshold fuel Root NumIters s
    = (s' ← iteration C W ExpandThreshold fuel Root s; Some (1, s')).
Proof.
  intros Hexp Hone NumIters. unfold run. rewrite Hexp, Hone. simpl.
  by destruct (iteration C W ExpandThreshold fuel Root s).
Qed.

End UCTSearchFacts.

(** ** The node factory *)

Section FactoryFacts.
Variable isEqual : Frontier → Frontier → bool.
Hypothesis isEqual_refl : ∀ a, isEqual a a = true.
Hypothesis isEqual_sym : ∀ a b, isEqual a b = isEqual b a.
Hypothesis isEqual_trans :
  ∀ a b c, isEqual a b = true → isEqual b c = true → isEqual a c = true.

Lemma isEqual_congr a b k : isEqual a b = true → isEqual k a = isEqual k b.
Proof using isEqual_sym isEqual_trans.
  intros Hab. destruct (isEqual k b) eqn:E.
  - apply (isEqual_trans k b a); [done|]. by rewrite isEqual_sym.
  - apply not_true_iff_false. intros Hka. apply not_true_iff_false in E. apply E.
    by apply (isEqual_trans k a b).
Qed.

Lemma findEntry_congr M a b :
  isEqual a b = true → findEntry isEqual M a = findEntry isEqual M b.
Proof using isEqual_sym isEqual_trans.
  intros Hab. unfold findEntry. induction M as [|kv M IH]; simpl; [done|].
  rewrite (isEqual_congr a b _ Hab). by rewrite IH.
Qed.

Lemma findEntry_app_Some M M' Frt e :
  findEntry isEqual M Frt = Some e → findEntry isEqual (M ++ M') Frt = Some e.
Proof.
  unfold findEntry. induction M as [|kv M IH]; simpl; [done|].
  by destruct (isEqual kv.1 Frt).
Qed.

Lemma findEntry_app_None M M' Frt :
  findEntry isEqual M Frt = None →
  findEntry isEqual (M ++ M') Frt = findEntry isEqual M' Frt.
Proof.
  unfold findEntry. induction M as [|kv M IH]; simpl; [done|].
  by destruct (isEqual kv.1 Frt).
Qed.

Lemma findEntry_Some M Frt k n :
  findEntry isEqual M Frt = Some (k, n) → (k, n) ∈ M ∧ isEqual k Frt = true.
Proof.
  unfold findEntry. intros Hf. apply find_some in Hf as [Hin Heq].
  split; [by apply list_elem_of_In | done].
Qed.

Lemma findEntry_None M Frt k n :
  findEntry isEqual M Frt = None → (k, n) ∈ M → isEqual k Frt = false.
Proof.
  unfold findEntry. intros Hf Hin. apply list_elem_of_In in Hin.
  apply (find_none _ _ Hf _ Hin).
Qed.

(** What every reachable factory satisfies: the entries of the map point
    to nodes without a partial pack made for their key, the keys are
    pairwise different, and every node without a partial pack has its
    entry. *)
Definition factory_ok (fac : UCTNodeFactory) : Prop :=
  (∀ k n, (k, n) ∈ FrontierToNodeMap fac →
          Nodes fac !! n = Some {| getFrontier := k; getPartialPack := None |}) ∧
  (∀ i j k n k' n', FrontierToNodeMap fac !! i = Some (k, n) →
                    FrontierToNodeMap fac !! j = Some (k', n') →
                    isEqual k k' = true → i = j) ∧
  (∀ n N, Nodes fac !! n = Some N → getPartialPack N = None →
          (getFrontier N, n) ∈ FrontierToNodeMap fac).

Lemma factory_ok_empty : factory_ok emptyFactory.
Proof.
  split; [|split].
  - intros k n Hin. by apply elem_of_nil in Hin.
  - intros i j k n k' n' Hi. done.
  - intros n N Hn. done.
Qed.

Lemma getNode_ok Frt fac :
  factory_ok fac → ∃ n fac', getNode isEqual Frt fac = Some (n, fac').
Proof.
  intros (Hmap & _ & _). unfold getNode.
  destruct (findEntry isEqual (FrontierToNodeMap fac) Frt) as [[k n]|] eqn:E.
  - apply findEntry_Some in E as [Hin _]. rewrite (Hmap _ _ Hin). simpl. by eexists _, _.
  - by eexists _, _.
Qed.

Lemma getNode_inv Frt fac n fac' :
  factory_ok fac → getNode isEqual Frt fac = Some (n, fac') →
  factory_ok fac' ∧
  FrontierToNodeMap fac `prefix_of` FrontierToNodeMap fac' ∧
  ∃ k, findEntry isEqual (FrontierToNodeMap fac') Frt = Some (k, n).
Proof using isEqual_refl isEqual_sym.
  intros (Hmap & Huniq & Hall) Hget. unfold getNode in Hget.
  destruct (findEntry isEqual (FrontierToNodeMap fac) Frt) as [[k m]|] eqn:E.
  - pose proof E as E'. apply findEntry_Some in E' as [Hin _].
    rewrite (Hmap _ _ Hin) in Hget. simpl in Hget. injection Hget as <- <-.
    split; [done|]. split; [done|]. by exists k.
  - injection Hget as <- <-. simpl. split; [|split].
    + split; [|split]; simpl.
      * intros k n Hin. apply elem_of_app in Hin as [Hin|Hin].
        -- apply lookup_app_l_Some. by apply Hmap.
        -- apply list_elem_of_singleton in Hin. injection Hin as -> ->.
           rewrite lookup_app_r by lia. by replace (_ - _) with 0 by lia.
      * intros i j k n k' n' Hi Hj Heq.
        apply lookup_app_Some in Hi as [Hi|[Hli Hi]];
          apply lookup_app_Some in Hj as [Hj|[Hlj Hj]].
        -- by eapply Huniq.
        -- apply list_lookup_singleton_Some in Hj as [_ [= <- <-]].
           apply list_elem_of_lookup_2 in Hi.
           rewrite (findEntry_None _ _ _ _ E Hi) in Heq. done.
        -- apply list_lookup_singleton_Some in Hi as [_ [= <- <-]].
           apply list_elem_of_lookup_2 in Hj. rewrite isEqual_sym in Heq.
           rewrite (findEntry_None _ _ _ _ E Hj) in Heq. done.
        -- apply list_lookup_singleton_Some in Hi as [Hi _].
           apply list_lookup_singleton_Some in Hj as [Hj _]. lia.
      * intros n N Hn HPP. apply elem_of_app.
        apply lookup_app_Some in Hn as [Hn|[Hln Hn]].
        -- left. by apply Hall.
        -- right. apply list_lookup_singleton_Some in Hn as [Hn <-]. simpl.
           apply list_elem_of_singleton. f_equal. lia.
    + by apply prefix_app_r.
    + exists Frt. rewrite (findEntry_app_None _ _ _ E).
      unfold findEntry. simpl. by rewrite isEqual_refl.
Qed.

Lemma getNode_PP_inv Frt PP fac n fac' :
  factory_ok fac → getNode_PP Frt PP fac = (n, fac') →
  factory_ok fac' ∧ FrontierToNodeMap fac' = FrontierToNodeMap fac.
Proof.
  intros (Hmap & Huniq & Hall) [= <- <-]. split; [|done].
  split; [|split]; simpl.
  - intros k n Hin. apply lookup_app_l_Some. by apply Hmap.
  - done.
  - intros n N Hn HPP. apply lookup_app_Some in Hn as [Hn|[Hln Hn]].
    + by apply Hall.
    + apply list_lookup_singleton_Some in Hn as [_ <-]. done.
Qed.

Lemma FactoryStep_inv fac fac' :
  factory_ok fac → FactoryStep isEqual fac fac' →
  factory_ok fac' ∧ FrontierToNodeMap fac `prefix_of` FrontierToNodeMap fac'.
Proof using isEqual_refl isEqual_sym.
  intros Hok Hstep. destruct Hstep as [Frt fac n fac' Hget | Frt PP fac n fac' Hget].
  - destruct (getNode_inv _ _ _ _ Hok Hget) as (? & ? & _). done.
  - destruct (getNode_PP_inv _ _ _ _ _ Hok Hget) as (? & ->). done.
Qed.

Lemma FactorySteps_inv fac fac' :
  factory_ok fac → rtc (FactoryStep isEqual) fac fac' →
  factory_ok fac' ∧ FrontierToNodeMap fac `prefix_of` FrontierToNodeMap fac'.
Proof using isEqual_refl isEqual_sym.
  intros Hok Hsteps. induction Hsteps as [fac|fac fac1 fac2 Hstep _ IH]; [done|].
  destruct (FactoryStep_inv _ _ Hok Hstep) as [Hok1 Hpre1].
  destruct (IH Hok1) as [Hok2 Hpre2]. split; [done|]. by etrans.
Qed.

Lemma reachableFactory_ok fac : reachableFactory isEqual fac → factory_ok fac.
Proof using isEqual_refl isEqual_sym.
  intros Hr. by destruct (FactorySteps_inv _ _ factory_ok_empty Hr).
Qed.

(** C10. In a factory reached by calls of [getNode], [getNode] on a
    frontier without a partial pack returns a node; a later call, after any
    number of calls of either [getNode], on a frontier that compares equal
    returns the same node and leaves the factory as it is; and two nodes
    without a partial pack whose frontiers compare equal are the same
    node. The equality of the frontiers is assumed to be an equivalence. *)
Theorem getNode_same_node fac :
  reachableFactory isEqual fac →
  (∀ Frt, ∃ n fac', getNode isEqual Frt fac = Some (n, fac')) ∧
  (∀ Frt1 Frt2 n1 fac1 fac2,
     getNode isEqual Frt1 fac = Some (n1, fac1) →
     rtc (FactoryStep isEqual) fac1 fac2 →
     isEqual Frt1 Frt2 = true →
     getNode isEqual Frt2 fac2 = Some (n1, fac2)) ∧
  (∀ n n' N N',
     Nodes fac !! n = Some N → Nodes fac !! n' = Some N' →
     getPartialPack N = None → getPartialPack N' = None →
     isEqual (getFrontier N) (getFrontier N') = true → n = n').
Proof using isEqual_refl isEqual_sym isEqual_trans.
  intros Hr. pose proof (reachableFactory_ok _ Hr) as Hok. split; [|split].
  - intros Frt. by apply getNode_ok.
  - intros Frt1 Frt2 n1 fac1 fac2 Hget Hsteps Heq.
    destruct (getNode_inv _ _ _ _ Hok Hget) as (Hok1 & _ & k & Hfind).
    destruct (FactorySteps_inv _ _ Hok1 Hsteps) as [Hok2 [M' HM]].
    assert (findEntry isEqual (FrontierToNodeMap fac2) Frt2 = Some (k, n1)) as Hfind2.
    { rewrite <- (findEntry_congr _ Frt1 Frt2 Heq), HM. by apply findEntry_app_Some. }
    unfold getNode. rewrite Hfind2.
    apply findEntry_Some in Hfind2 as [Hin _].
    destruct Hok2 as (Hmap & _ & _). by rewrite (Hmap _ _ Hin).
  - intros n n' N N' Hn Hn' HPP HPP' Heq.
    destruct Hok as (Hmap & Huniq & Hall).
    pose proof (Hall _ _ Hn HPP) as Hin. pose proof (Hall _ _ Hn' HPP') as Hin'.
    apply list_elem_of_lookup_1 in Hin as [i Hi].
    apply list_elem_of_lookup_1 in Hin' as [j Hj].
    pose proof (Huniq _ _ _ _ _ _ Hi Hj Heq) as ->.
    rewrite Hi in Hj. by injection Hj.
Qed.

End FactoryFacts.

(** ** The heuristic solver *)

Section FoldFacts.
Context {A B : Type}.

Lemma foldO_ext (g g' : B → A → option B) l :
  (∀ b x b', x ∈ l → g b x = Some b' → g' b x = Some b') →
  ∀ b b', foldO g l b = Some b' → foldO g' l b = Some b'.
Proof.
  induction l as [|x l IH]; intros Hg b b'; simpl; [done|].
  destruct (g b x) as [b1|] eqn:E; [|done]. simpl.
  rewrite (Hg b x b1) by (done || left). simpl.
  apply IH. intros ??? Hin. apply Hg. by right.
Qed.

Lemma foldO_inv (P : B → Prop) (g : B → A → option B) l :
  (∀ b x c, x ∈ l → P b → g b x = Some c → P c) →
  ∀ b c, P b → foldO g l b = Some c → P c.
Proof.
  induction l as [|x l IH]; intros Hg b c Hb; simpl.
  - by intros [= <-].
  - destruct (g b x) as [b1|] eqn:E; [|done]. simpl.
    apply IH; [intros ??? Hin; apply Hg; by right|].
    apply (Hg b x); [left|done|done].
Qed.

Lemma foldO_rel {B' : Type} (R : B → B' → Prop)
    (g : B → A → option B) (g' : B' → A → option B') l :
  (∀ b b' x c c', x ∈ l → R b b' → g b x = Some c → g' b' x = Some c' → R c c') →
  ∀ b b' c c', R b b' → foldO g l b = Some c → foldO g' l b' = Some c' → R c c'.
Proof.
  induction l as [|x l IH]; intros Hg b b' c c' Hb; simpl.
  - by intros [= <-] [= <-].
  - destruct (g b x) as [b1|] eqn:E; [|done].
    destruct (g' b' x) as [b1'|] eqn:E'; [|done]. simpl.
    apply IH; [intros ????? Hin; apply Hg; by right|].
    apply (Hg b b' x); [left|done..].
Qed.

End FoldFacts.

Section MemoFacts.
Context {F : Type} `{FloatOps F} {Pkr : Packer F}.

(** A method run on consistent memo tables leaves them consistent and
    returns a value that satisfies [P]. *)
Definition Computes {A} (Inv : Heuristic F → Prop) (m : HM F A) (P : A → Prop) : Prop :=
  ∀ H a H', Inv H → m H = Some (a, H') → Inv H' ∧ P a.

Lemma Computes_ret {A} Inv (a : A) (P : A → Prop) : P a → Computes Inv (mret a) P.
Proof. intros Ha H0 a' H' HI [= <- <-]. done. Qed.

Lemma Computes_bind {A B} Inv (m : HM F A) (k : A → HM F B) P Q :
  Computes Inv m P → (∀ a, P a → Computes Inv (k a) Q) → Computes Inv (m ≫= k) Q.
Proof.
  intros Hm Hk H0 b H' HI Hrun. unfold mbind, HM_bind in Hrun.
  destruct (m H0) as [[a H1]|] eqn:E; [|done].
  destruct (Hm _ _ _ HI E) as [HI1 Ha]. by apply (Hk a Ha H1).
Qed.

Lemma Computes_weaken {A} Inv (m : HM F A) (P Q : A → Prop) :
  Computes Inv m P → (∀ a, P a → Q a) → Computes Inv m Q.
Proof. intros Hm HPQ H0 a H' HI Hrun. destruct (Hm _ _ _ HI Hrun). auto. Qed.

(** A loop of a method computes what the loop without the tables computes,
    at some fuel. *)
Lemma Computes_foldM {A B} Inv (f : B → A → HM F B) (g : nat → B → A → option B) l :
  (∀ n n' b x b', n ≤ n' → g n b x = Some b' → g n' b x = Some b') →
  (∀ b x, x ∈ l → Computes Inv (f b x) (λ b', ∃ n, g n b x = Some b')) →
  ∀ b, Computes Inv (foldM f l b) (λ b', ∃ n, foldO (g n) l b = Some b').
Proof.
  intros Hmono. induction l as [|x l IH]; intros Hf b; simpl.
  - apply Computes_ret. by exists 0.
  - eapply Computes_bind; [apply Hf; left|].
    intros b1 [n1 Hb1]. eapply Computes_weaken.
    { apply IH. intros ?? Hin. apply Hf. by right. }
    intros b' [n2 Hb']. exists (n1 `max` n2).
    rewrite (Hmono n1 _ _ _ _ (Nat.le_max_l _ _) Hb1). simpl.
    apply (foldO_ext (g n2)); [|done].
    intros ??? _. apply Hmono. lia.
Qed.

(** *** The costs of the values *)

Lemma costV_mono n n' V c : n ≤ n' → costV n V = Some c → costV n' V = Some c.
Proof.
  revert n' V c. induction n as [|n IH]; intros n' V c Hle; [done|].
  destruct n' as [|n']; [lia|]. simpl.
  destruct (V ≫= dyn_cast_Instruction) as [Inst|]; [|done].
  case_bool_decide; [done|].
  apply foldO_ext. intros Cost V' b' _.
  destruct (costV n (Some V')) as [c'|] eqn:E; [|done].
  rewrite (IH n' _ _ ltac:(lia) E). done.
Qed.

Section Memo.
Variable Candidates : option CandidatePackSet.

Lemma Computes_getScalarCostMemo Inst :
  Computes (memo_ok Candidates) (getScalarCostMemo Inst)
    (λ It, ∀ c, It = Some c → ∃ n, costV n (Some (VInst Inst)) = Some c).
Proof.
  intros H0 It H' HI [= <- <-]. split; [done|]. destruct HI as [HS _]. apply HS.
Qed.

Lemma Computes_setScalarCostMemo Inst c :
  (∃ n, costV n (Some (VInst Inst)) = Some c) →
  Computes (memo_ok Candidates) (setScalarCostMemo Inst c) (λ c', c' = c).
Proof.
  intros Hc H0 c' H' [HS HO] [= <- <-]. split; [|done]. split; [|done]. simpl.
  intros Inst' c'. destruct (decide (Inst' = Inst)) as [->|Hne].
  - rewrite lookup_insert_eq. by intros [= <-].
  - rewrite lookup_insert_ne by done. apply HS.
Qed.

Lemma Computes_getSolutionMemo OP :
  Computes (memo_ok Candidates) (getSolutionMemo OP)
    (λ It, ∀ Sol, It = Some Sol → ∃ n, solveO Candidates n OP = Some Sol).
Proof.
  intros H0 It H' HI [= <- <-]. split; [done|]. destruct HI as [_ HO]. apply HO.
Qed.

Lemma Computes_setSolutionMemo OP Sol :
  (∃ n, solveO Candidates n OP = Some Sol) →
  Computes (memo_ok Candidates) (setSolutionMemo OP Sol) (λ Sol', Sol' = Sol).
Proof.
  intros Hc H0 c' H' [HS HO] [= <- <-]. split; [|done]. split; [done|]. simpl.
  intros OP' Sol'. destruct (decide (OP' = OP)) as [->|Hne].
  - rewrite lookup_insert_eq. by intros [= <-].
  - rewrite lookup_insert_ne by done. apply HO.
Qed.

Lemma Computes_abort {A} (P : A → Prop) : Computes (memo_ok Candidates) HM_abort P.
Proof. by intros ????. Qed.

Lemma getCost_V_sound fuel V :
  Computes (memo_ok Candidates) (getCost_V fuel V) (λ c, ∃ n, costV n V = Some c).
Proof.
  revert V. induction fuel as [|fuel IH]; intros V; [apply Computes_abort|].
  simpl. destruct (V ≫= dyn_cast_Instruction) as [Inst|] eqn:EV.
  - case_bool_decide as Hbb.
    + apply Computes_ret. exists 1. simpl. rewrite EV.
      by rewrite bool_decide_eq_true_2.
    + assert (V = Some (VInst Inst)) as ->.
      { destruct V as [[]|]; simpl in EV; by simplify_eq. }
      eapply Computes_bind; [apply Computes_getScalarCostMemo|].
      intros [c0|] Hmemo; [apply Computes_ret; by apply Hmemo|].
      eapply Computes_bind.
      { apply (Computes_foldM _ _ (λ n Cost V, c ← costV n (Some V); Some (fadd Cost c))).
        - intros n n' b x b' Hle. destruct (costV n (Some x)) as [c'|] eqn:E; [|done].
          by rewrite (costV_mono _ _ _ _ Hle E).
        - intros b x _. eapply Computes_bind; [apply IH|].
          intros c [n Hc]. apply Computes_ret. exists n. by rewrite Hc. }
      intros Cost [n Hn]. simpl in Hn.
      assert (costV (S n) (Some (VInst Inst)) = Some Cost) as Hc.
      { simpl. rewrite bool_decide_eq_false_2 by (intros Hx; by apply Hx). done. }
      eapply Computes_weaken; [apply Computes_setScalarCostMemo; by exists (S n)|].
      intros c' ->. by exists (S n).
  - apply Computes_ret. exists 1. simpl. by rewrite EV.
Qed.

(** *** The steps of [solve] *)

(** [g] returns what [f] returns, wherever [f] returns. *)
Definition ext {A B} (f g : A → option B) : Prop := ∀ x y, f x = Some y → g x = Some y.

Lemma costV_ext n n' : n ≤ n' → ext (costV n) (costV n').
Proof. intros Hle V c. by apply costV_mono. Qed.

Lemma insertStepO_ext cv cv' acc :
  ext cv cv' → ext (insertStepO cv acc) (insertStepO cv' acc).
Proof.
  intros Hext [V|] acc'; simpl; [|done].
  destruct (negb (isa_Constant V) && bool_decide (V ∉ acc.2)); [|done].
  destruct (cv (Some V)) as [c|] eqn:E; [|done]. by rewrite (Hext _ _ E).
Qed.

Lemma baseSolution_ext cv cv' : ext cv cv' → ext (baseSolution cv) (baseSolution cv').
Proof.
  intros Hext OP r. unfold baseSolution.
  destruct (foldO (insertStepO cv) (lanes OP) (of_int 0, [])) as [acc|] eqn:E; [|done].
  rewrite (foldO_ext _ (insertStepO cv') _ (λ b x b' _, insertStepO_ext cv cv' b Hext x b') _ _ E).
  simpl. destruct (feqb acc.1 (of_int 0)); [done|].
  destruct (head (lanes OP)) as [front|]; [|done]. simpl.
  destruct (cv front) as [c|] eqn:Ec; [|done]. by rewrite (Hext _ _ Ec).
Qed.

Lemma costOP_with_ext (s s' : OperandPackPtr → option (Solution F)) :
  ext s s' → ext (costOP_with s) (costOP_with s').
Proof.
  intros Hext OP c. unfold costOP_with.
  destruct (s OP) as [Sol|] eqn:E; [|done]. by rewrite (Hext _ _ E).
Qed.

Lemma costVP_with_ext (co co' : OperandPackPtr → option F) :
  ext co co' → ext (costVP_with co) (costVP_with co').
Proof.
  intros Hext VP c. unfold costVP_with. apply foldO_ext.
  intros Cost OP b' _. destruct (co OP) as [c'|] eqn:E; [|done]. by rewrite (Hext _ _ E).
Qed.

Lemma candidateCostO_ext co co' OP OPI ExtraCost :
  ext co co' →
  ext (candidateCostO co OP OPI ExtraCost) (candidateCostO co' OP OPI ExtraCost).
Proof.
  intros Hext VP c. unfold candidateCostO.
  destruct (if length (getOrderedValues VP) =? BitVector.count (Elements OPI)
            then permutesOperand (getOrderedValues VP) (lanes OP) else Some false)
    as [[]|]; [| |done];
    (destruct (costVP_with co VP) as [c'|] eqn:E; [|done];
     by rewrite (costVP_with_ext _ _ Hext _ _ E)).
Qed.

Lemma candidateStepO_ext co co' OP OPI ExtraCost acc :
  ext co co' →
  ext (candidateStepO co OP OPI ExtraCost acc) (candidateStepO co' OP OPI ExtraCost acc).
Proof.
  intros Hext VP acc'. unfold candidateStepO.
  case_bool_decide; [done|]. destruct (negb (isLoad VP)); [done|].
  destruct (candidateCostO co OP OPI ExtraCost VP) as [c|] eqn:E; [|done].
  by rewrite (candidateCostO_ext _ _ _ _ _ Hext _ _ E).
Qed.

Lemma producerStepO_ext co co' ExtraCost Sol :
  ext co co' → ext (producerStepO co ExtraCost Sol) (producerStepO co' ExtraCost Sol).
Proof.
  intros Hext VP Sol'. unfold producerStepO.
  destruct (costVP_with co VP) as [c|] eqn:E; [|done].
  by rewrite (costVP_with_ext _ _ Hext _ _ E).
Qed.

Lemma elementStepO_ext co co' Cands OP OPI ExtraCost acc :
  ext co co' →
  ext (elementStepO co Cands OP OPI ExtraCost acc)
      (elementStepO co' Cands OP OPI ExtraCost acc).
Proof.
  intros Hext InstId acc'. unfold elementStepO.
  destruct (Inst2Packs Cands !! InstId) as [VPs|]; [|done]. simpl.
  apply foldO_ext. intros b VP b' _. by apply candidateStepO_ext.
Qed.

Lemma solveBodyO_ext cv cv' s s' :
  ext cv cv' → ext s s' →
  ext (solveBodyO Candidates cv s) (solveBodyO Candidates cv' s').
Proof.
  intros Hcv Hs OP Sol. unfold solveBodyO.
  destruct (baseSolution cv (getOperandPack OP)) as [[Base Done]|] eqn:Eb; [|done].
  rewrite (baseSolution_ext _ _ Hcv _ _ Eb). simpl.
  destruct Done; [done|].
  pose proof (costOP_with_ext _ _ Hs) as Hco.
  destruct (foldO _ (getProducers _) Base) as [Sol1|] eqn:Ep; [|done].
  rewrite (foldO_ext _ (producerStepO (costOP_with s') _) _
             (λ b x b' _, producerStepO_ext _ _ _ b Hco x b') _ _ Ep). simpl.
  unfold candidatesLoopO. destruct Candidates as [Cands|]; [|done].
  destruct (foldO _ (BitVector.set_bits _) (Sol1, [])) as [acc|] eqn:Ee; [|done].
  rewrite (foldO_ext _ (elementStepO (costOP_with s') _ _ _ _) _
             (λ b x b' _, elementStepO_ext _ _ _ _ _ _ b Hco x b') _ _ Ee). done.
Qed.

Lemma solveO_mono n n' : n ≤ n' → ext (solveO Candidates n) (solveO Candidates n').
Proof.
  revert n'. induction n as [|n IH]; intros n' Hle OP Sol; [done|].
  destruct n' as [|n']; [lia|]. simpl.
  apply solveBodyO_ext; [apply costV_ext; lia | apply IH; lia].
Qed.

(** *** The memo tables are transparent *)

Section Steps.
(** [getCost] on operand packs as a method, and without the tables at a
    given fuel. *)
Variable gM : OperandPackPtr → HM F F.
Variable gO : nat → OperandPackPtr → option F.
Hypothesis gO_mono : ∀ n n', n ≤ n' → ext (gO n) (gO n').
Hypothesis gM_sound :
  ∀ OP, Computes (memo_ok Candidates) (gM OP) (λ c, ∃ n, gO n OP = Some c).

Lemma getCost_VP_with_sound VP :
  Computes (memo_ok Candidates) (getCost_VP_with gM VP)
    (λ c, ∃ n, costVP_with (gO n) VP = Some c).
Proof using gO_mono gM_sound.
  unfold getCost_VP_with, costVP_with.
  apply (Computes_foldM _ _ (λ n Cost OP, c ← gO n OP; Some (fadd Cost c))).
  - intros n n' b x b' Hle. destruct (gO n x) as [c|] eqn:E; [|done].
    by rewrite (gO_mono _ _ Hle _ _ E).
  - intros b x _. eapply Computes_bind; [apply gM_sound|].
    intros c [n Hc]. apply Computes_ret. exists n. by rewrite Hc.
Qed.

Lemma candidateCost_sound OP OPI ExtraCost VP :
  Computes (memo_ok Candidates) (candidateCost gM OP OPI ExtraCost VP)
    (λ c, ∃ n, candidateCostO (gO n) OP OPI ExtraCost VP = Some c).
Proof using gO_mono gM_sound.
  unfold candidateCost, candidateCostO.
  destruct (if length (getOrderedValues VP) =? BitVector.count (Elements OPI)
            then permutesOperand (getOrderedValues VP) (lanes OP) else Some false)
    as [[]|]; [| |apply Computes_abort];
    (eapply Computes_bind; [apply getCost_VP_with_sound|];
     intros c [n Hc]; apply Computes_ret; exists n; by rewrite Hc).
Qed.

Lemma candidateStep_sound OP OPI ExtraCost acc VP :
  Computes (memo_ok Candidates) (candidateStep gM OP OPI ExtraCost acc VP)
    (λ acc', ∃ n, candidateStepO (gO n) OP OPI ExtraCost acc VP = Some acc').
Proof using gO_mono gM_sound.
  unfold candidateStep, candidateStepO.
  case_bool_decide; [apply Computes_ret; by exists 0|].
  destruct (negb (isLoad VP)); [apply Computes_ret; by exists 0|].
  eapply Computes_bind; [apply candidateCost_sound|].
  intros c [n Hc]. apply Computes_ret. exists n. by rewrite Hc.
Qed.

Lemma producerStep_sound ExtraCost Sol VP :
  Computes (memo_ok Candidates) (producerStep gM ExtraCost Sol VP)
    (λ Sol', ∃ n, producerStepO (gO n) ExtraCost Sol VP = Some Sol').
Proof using gO_mono gM_sound.
  unfold producerStep, producerStepO.
  eapply Computes_bind; [apply getCost_VP_with_sound|].
  intros c [n Hc]. apply Computes_ret. exists n. by rewrite Hc.
Qed.

Lemma elementStep_sound Cands OP OPI ExtraCost acc InstId :
  Computes (memo_ok Candidates) (elementStep gM Cands OP OPI ExtraCost acc InstId)
    (λ acc', ∃ n, elementStepO (gO n) Cands OP OPI ExtraCost acc InstId = Some acc').
Proof using gO_mono gM_sound.
  unfold elementStep, elementStepO.
  destruct (Inst2Packs Cands !! InstId) as [VPs|]; [|apply Computes_abort]. simpl.
  apply (Computes_foldM _ _ (λ n, candidateStepO (gO n) OP OPI ExtraCost)).
  - intros n n' b x b' Hle. apply candidateStepO_ext. by apply gO_mono.
  - intros b x _. apply candidateStep_sound.
Qed.

End Steps.

Lemma insertStep_sound fuel acc V :
  Computes (memo_ok Candidates) (insertStep fuel acc V)
    (λ acc', ∃ n, insertStepO (costV n) acc V = Some acc').
Proof.
  unfold insertStep, insertStepO. destruct V as [V|]; [|apply Computes_ret; by exists 0].
  destruct (negb (isa_Constant V) && bool_decide (V ∉ acc.2));
    [|apply Computes_ret; by exists 0].
  eapply Computes_bind; [apply getCost_V_sound|].
  intros c [n Hc]. apply Computes_ret. exists n. by rewrite Hc.
Qed.

End Memo.

(** [solve] on consistent memo tables returns what [solveO] returns. *)
Lemma solve_sound Candidates fuel OP :
  Computes (memo_ok Candidates) (solve Candidates fuel OP)
    (λ Sol, ∃ n, solveO Candidates n OP = Some Sol).
Proof.
  revert OP. induction fuel as [|fuel IH]; intros OP; [apply Computes_abort|].
  simpl.
  eapply Computes_bind; [apply Computes_getSolutionMemo|].
  intros [Sol0|] Hmemo; [apply Computes_ret; by apply Hmemo|]. clear Hmemo.
  pose (gO := λ n, costOP_with (solveO Candidates n)).
  assert (∀ n n', n ≤ n' → ext (gO n) (gO n')) as HgO.
  { intros n n' Hle. apply costOP_with_ext. by apply solveO_mono. }
  assert (∀ OP', Computes (memo_ok Candidates) (getCost_OP_with (solve Candidates fuel) OP')
                   (λ c, ∃ n, gO n OP' = Some c)) as HgM.
  { intros OP'. unfold getCost_OP_with. eapply Computes_bind; [apply IH|].
    intros Sol [n Hn]. apply Computes_ret. exists n. unfold gO, costOP_with. by rewrite Hn. }
  eapply Computes_bind.
  { apply (Computes_foldM _ _ (λ n, insertStepO (costV n))).
    - intros n n' b x b' Hle. apply insertStepO_ext. by apply costV_ext.
    - intros b x _. apply insertStep_sound. }
  intros acc [n1 Hins]. simpl.
  destruct (feqb acc.1 (of_int 0)) eqn:Ezero.
  { eapply Computes_weaken.
    - apply Computes_setSolutionMemo. exists (S n1). simpl.
      unfold solveBodyO, baseSolution. rewrite Hins. simpl. by rewrite Ezero.
    - intros Sol' ->. exists (S n1). simpl.
      unfold solveBodyO, baseSolution. rewrite Hins. simpl. by rewrite Ezero. }
  destruct (head (lanes (getOperandPack OP))) as [front|] eqn:Efront;
    [|apply Computes_abort].
  eapply Computes_bind; [apply getCost_V_sound|].
  intros c [n2 Hfront].
  pose (ExtraCost := if bool_decide (dedup OP ≠ OP) then C_Shuffle else of_int 0).
  pose (OPI := getProducerInfo (dedup OP)).
  eapply Computes_bind.
  { apply (Computes_foldM _ _ (λ n, producerStepO (gO n) ExtraCost)).
    - intros n n' b x b' Hle. apply producerStepO_ext. by apply HgO.
    - intros b x _. by apply producerStep_sound. }
  intros Sol1 [n3 Hprod].
  assert (∀ N, n1 ≤ N → n2 ≤ N →
               baseSolution (costV N) (getOperandPack OP)
               = Some (if is_splat (lanes (getOperandPack OP))
                          && fltb (fadd c C_Splat) acc.1
                       then mkSolution (fadd c C_Splat) []
                       else mkSolution acc.1 [], false)) as Hbase.
  { intros N H1 H2. unfold baseSolution.
    rewrite (foldO_ext _ (insertStepO (costV N)) _
               (λ b x b' _, insertStepO_ext _ _ b (costV_ext _ _ H1) x b') _ _ Hins).
    simpl. rewrite Ezero, Efront. simpl. by rewrite (costV_mono _ _ _ _ H2 Hfront). }
  destruct Candidates as [Cands|].
  - eapply Computes_bind.
    { apply (Computes_foldM _ _ (λ n, elementStepO (gO n) Cands (getOperandPack OP)
                                                   OPI ExtraCost)).
      - intros n n' b x b' Hle. apply elementStepO_ext. by apply HgO.
      - intros b x _. by apply elementStep_sound. }
    intros acc2 [n4 Helem].
    assert (solveO (Some Cands) (S (Nat.max (Nat.max n1 n2) (Nat.max n3 n4))) OP = Some acc2.1) as Hres.
    { subst ExtraCost OPI gO. simpl. unfold solveBodyO, candidatesLoopO.
      rewrite Hbase by lia. simpl.
      rewrite (foldO_ext _ (producerStepO (costOP_with (solveO (Some Cands) _)) _) _
                 (λ b x b' _, producerStepO_ext _ _ _ b
                                (HgO n3 (Nat.max (Nat.max n1 n2) (Nat.max n3 n4)) ltac:(lia)) x b')
                 _ _ Hprod). simpl.
      rewrite (foldO_ext _ (elementStepO (costOP_with (solveO (Some Cands) _)) _ _ _ _) _
                 (λ b x b' _, elementStepO_ext _ _ _ _ _ _ b
                                (HgO n4 (Nat.max (Nat.max n1 n2) (Nat.max n3 n4)) ltac:(lia)) x b')
                 _ _ Helem). done. }
    eapply Computes_weaken; [apply Computes_setSolutionMemo; by eexists|].
    intros Sol' ->. by eexists.
  - assert (solveO None (S (Nat.max (Nat.max n1 n2) n3)) OP = Some Sol1) as Hres.
    { subst ExtraCost OPI gO. simpl. unfold solveBodyO, candidatesLoopO.
      rewrite Hbase by lia. simpl.
      rewrite (foldO_ext _ (producerStepO (costOP_with (solveO None _)) _) _
                 (λ b x b' _, producerStepO_ext _ _ _ b
                                (HgO n3 (Nat.max (Nat.max n1 n2) n3) ltac:(lia)) x b')
                 _ _ Hprod). done. }
    eapply Computes_weaken; [apply Computes_setSolutionMemo; by eexists|].
    intros Sol' ->. by eexists.
Qed.

Lemma memo_ok_new Candidates : memo_ok Candidates newHeuristic.
Proof. split; intros ??; simpl; by rewrite lookup_empty. Qed.

End MemoFacts.

(** *** [solve] answers *)

Section Returns.
Context {F : Type} `{FloatOps F} {Pkr : Packer F}.

(** The method returns, whatever the memo tables hold. *)
Definition Returns {A} (m : HM F A) : Prop := ∀ Hr, ∃ a Hr', m Hr = Some (a, Hr').

Lemma Returns_ret {A} (a : A) : Returns (mret a).
Proof. intros Hr. by eexists _, _. Qed.

Lemma Returns_bind {A B} (m : HM F A) (k : A → HM F B) :
  Returns m → (∀ a, Returns (k a)) → Returns (m ≫= k).
Proof.
  intros Hm Hk Hr. destruct (Hm Hr) as (a & Hr1 & E).
  unfold mbind, HM_bind. rewrite E. apply Hk.
Qed.

Lemma Returns_foldM {A B} (f : B → A → HM F B) l :
  (∀ b x, x ∈ l → Returns (f b x)) → ∀ b, Returns (foldM f l b).
Proof.
  induction l as [|x l IH]; intros Hf b; simpl; [apply Returns_ret|].
  apply Returns_bind; [apply Hf; left|].
  intros b'. apply IH. intros ?? Hin. apply Hf. by right.
Qed.

(** The instructions of the block are ranked, below [R]: an operand in
    the block has a lower rank than the instruction that uses it, so the
    definitions of the block have no cycle. *)
Variable rankV : InstPtr → nat.
Variable R : nat.
Hypothesis rankV_bound : ∀ Inst, rankV Inst < R.
Hypothesis rankV_operands :
  ∀ Inst J, getParent Inst = BB → VInst J ∈ operands Inst → getParent J = BB →
            rankV J < rankV Inst.

(** The fuel that [getCost] needs on a value. *)
Definition fuelOfValue (V : option Value) : nat :=
  match V ≫= dyn_cast_Instruction with
  | Some Inst => if bool_decide (getParent Inst = BB) then S (rankV Inst) else 0
  | None => 0
  end.

Lemma fuelOfValue_le V : fuelOfValue V ≤ R.
Proof using rankV_bound.
  unfold fuelOfValue. destruct (V ≫= dyn_cast_Instruction) as [Inst|]; [|lia].
  case_bool_decide; [|lia]. pose proof (rankV_bound Inst). lia.
Qed.

Lemma getCost_V_returns fuel V : fuelOfValue V < fuel → Returns (getCost_V fuel V).
Proof using rankV_operands.
  revert V. induction fuel as [|fuel IH]; intros V Hfuel; [lia|].
  simpl. unfold fuelOfValue in Hfuel.
  destruct (V ≫= dyn_cast_Instruction) as [Inst|] eqn:EV; [|apply Returns_ret].
  destruct (decide (getParent Inst = BB)) as [Hbb|Hbb].
  - rewrite bool_decide_eq_true_2 in Hfuel by done.
    rewrite bool_decide_eq_false_2 by (intros Hx; by apply Hx).
    apply Returns_bind; [intros Hr; by eexists _, _|].
    intros [c|]; [apply Returns_ret|].
    apply Returns_bind; [|intros Cost Hr; by eexists _, _].
    apply Returns_foldM. intros Cost V' Hin.
    apply Returns_bind; [|intros c; apply Returns_ret].
    apply IH. unfold fuelOfValue. simpl.
    destruct (dyn_cast_Instruction V') as [J|] eqn:EJ; [|lia].
    case_bool_decide as HJ; [|lia].
    destruct V' as [J'| |]; simpl in EJ; try done. injection EJ as ->.
    pose proof (rankV_operands Inst J Hbb Hin HJ). lia.
  - rewrite bool_decide_eq_true_2 by done. apply Returns_ret.
Qed.

(** The operand packs are ranked as well: the operand packs of the packs
    that [solve] looks at for [OP] have a lower rank than [OP]. The map
    [Inst2Packs] has an entry for every element of a producer info, and
    [std::is_permutation] is only asked about candidates that are not
    longer than the operand pack. *)
Variable C : option CandidatePackSet.
Variable rankOP : OperandPackPtr → nat.
Hypothesis rankOP_producers :
  ∀ OP VP OP', VP ∈ getProducers (getProducerInfo (dedup OP)) →
               OP' ∈ getOperandPacks VP → rankOP OP' < rankOP OP.
Hypothesis rankOP_candidates :
  ∀ OP i VP OP', i ∈ BitVector.set_bits (Elements (getProducerInfo (dedup OP))) →
                 VP ∈ candidatesAt C i →
                 OP' ∈ getOperandPacks VP → rankOP OP' < rankOP OP.
Hypothesis Inst2Packs_range :
  ∀ Cands OP i, C = Some Cands →
                i ∈ BitVector.set_bits (Elements (getProducerInfo (dedup OP))) →
                is_Some (Inst2Packs Cands !! i).
Hypothesis candidates_fit :
  ∀ OP i VP, i ∈ BitVector.set_bits (Elements (getProducerInfo (dedup OP))) →
             VP ∈ candidatesAt C i →
             length (getOrderedValues VP) ≤ length (lanes (getOperandPack OP)).
Hypothesis feqb_zero : feqb (of_int 0) (of_int 0) = true.

Lemma getCost_VP_with_returns (g : OperandPackPtr → HM F F) VP :
  (∀ OP', OP' ∈ getOperandPacks VP → Returns (g OP')) →
  Returns (getCost_VP_with g VP).
Proof.
  intros Hg. unfold getCost_VP_with. apply Returns_foldM.
  intros Cost OP' Hin. apply Returns_bind; [by apply Hg|]. intros c. apply Returns_ret.
Qed.

(** [solve] answers, given fuel for the ranks. *)
Lemma solve_returns fuel OP : S (R + rankOP OP) < fuel → Returns (solve C fuel OP).
Proof using rankV_bound rankV_operands rankOP_producers rankOP_candidates
            Inst2Packs_range candidates_fit feqb_zero.
  revert OP. induction fuel as [|fuel IH]; intros OP Hfuel; [lia|].
  assert (∀ V, Returns (getCost_V fuel V)) as HV.
  { intros V. apply getCost_V_returns. pose proof (fuelOfValue_le V). lia. }
  assert (∀ OP', rankOP OP' < rankOP OP →
                 Returns (getCost_OP_with (solve C fuel) OP')) as HOP.
  { intros OP' Hlt. unfold getCost_OP_with.
    apply Returns_bind; [apply IH; lia|]. intros Sol. apply Returns_ret. }
  simpl. apply Returns_bind; [intros Hr; by eexists _, _|].
  intros [Sol|]; [apply Returns_ret|].
  destruct (lanes (getOperandPack OP)) as [|front ls] eqn:Elanes.
  { simpl. intros Hr. unfold mbind, HM_bind, mret, HM_ret. simpl.
    rewrite feqb_zero. by eexists _, _. }
  apply Returns_bind.
  { apply Returns_foldM. intros acc V _. unfold insertStep.
    destruct V as [V|]; [|apply Returns_ret].
    destruct (negb (isa_Constant V) && bool_decide (V ∉ acc.2)); [|apply Returns_ret].
    apply Returns_bind; [apply HV|]. intros c. apply Returns_ret. }
  intros acc. destruct (feqb acc.1 (of_int 0)); [intros Hr; by eexists _, _|].
  simpl. apply Returns_bind; [apply HV|]. intros c.
  apply Returns_bind.
  { apply Returns_foldM. intros Sol VP Hin. unfold producerStep.
    apply Returns_bind; [|intros c'; apply Returns_ret].
    apply getCost_VP_with_returns. intros OP' HOP'. apply HOP.
    by eapply rankOP_producers. }
  intros Sol. destruct C as [Cands|] eqn:EC; [|intros Hr; by eexists _, _].
  apply Returns_bind; [|intros acc2 Hr; by eexists _, _].
  apply Returns_foldM. intros acc2 InstId Hid. unfold elementStep.
  destruct (Inst2Packs_range Cands OP InstId eq_refl Hid) as [VPs EVPs].
  rewrite EVPs. apply Returns_foldM. intros acc3 VP HVP. unfold candidateStep.
  case_bool_decide; [apply Returns_ret|].
  destruct (negb (isLoad VP)); [apply Returns_ret|].
  assert (VP ∈ candidatesAt (Some Cands) InstId) as Hcand.
  { simpl. by rewrite EVPs. }
  apply Returns_bind; [|intros c'; apply Returns_ret].
  unfold candidateCost, permutesOperand.
  pose proof (candidates_fit OP InstId VP Hid Hcand) as Hfit.
  rewrite (proj2 (Nat.ltb_ge _ _) Hfit).
  assert (Returns (getCost_VP_with (getCost_OP_with (solve (Some Cands) fuel)) VP)) as HVP'.
  { apply getCost_VP_with_returns. intros OP' HOP'. apply HOP.
    by eapply rankOP_candidates. }
  destruct (length (getOrderedValues VP) =? BitVector.count _);
    [destruct (is_permutation _ _)|];
    (apply Returns_bind; [exact HVP'|intros c'; apply Returns_ret]).
Qed.

End Returns.

(** *** More candidates, lower cost *)

Section Monotone.
Context {F : Type} {FO : FloatOps F} {Laws : CostLaws F} {Pkr : Packer F}.

Lemma fle_refl (a : F) : fle a a.
Proof using Laws.
  unfold fle. destruct (fltb a a) eqn:E; [|done].
  pose proof (fltb_asym _ _ E). congruence.
Qed.

Lemma fltb_fle (a b : F) : fltb a b = true → fle a b.
Proof using Laws. apply fltb_asym. Qed.

Lemma update_le_l (Sol New : Solution F) : fle (Cost (Solution_update Sol New)) (Cost Sol).
Proof using Laws.
  unfold Solution_update. destruct (fltb (Cost New) (Cost Sol)) eqn:E.
  - by apply fltb_fle.
  - apply fle_refl.
Qed.

Lemma update_le_r (Sol New : Solution F) : fle (Cost (Solution_update Sol New)) (Cost New).
Proof using Laws.
  unfold Solution_update. destruct (fltb (Cost New) (Cost Sol)) eqn:E.
  - apply fle_refl.
  - exact E.
Qed.

Lemma update_cases (Sol New : Solution F) :
  Solution_update Sol New = Sol ∨ Solution_update Sol New = New.
Proof using Laws. unfold Solution_update. destruct (fltb _ _); auto. Qed.

Lemma update_mono (Sol Sol' New New' : Solution F) :
  fle (Cost Sol') (Cost Sol) → fle (Cost New') (Cost New) →
  fle (Cost (Solution_update Sol' New')) (Cost (Solution_update Sol New)).
Proof using Laws.
  intros HS HN. destruct (update_cases Sol New) as [->| ->].
  - eapply fle_trans; [apply update_le_l | done].
  - eapply fle_trans; [apply update_le_r | done].
Qed.

(** The costs of the operand packs that the second solver asks for are
    not above those of the first. *)
Definition below (co co' : OperandPackPtr → option F) : Prop :=
  ∀ OP c c', co OP = Some c → co' OP = Some c' → fle c' c.

Lemma costVP_with_below co co' VP c c' :
  below co co' →
  costVP_with co VP = Some c → costVP_with co' VP = Some c' → fle c' c.
Proof using Laws.
  intros Hb. unfold costVP_with.
  apply (foldO_rel (λ a a', fle a' a)); [|apply fle_refl].
  intros b b' OP r r' _ Hbb Hr Hr'.
  destruct (co OP) as [x|] eqn:E; [|done]. destruct (co' OP) as [x'|] eqn:E'; [|done].
  simpl in Hr, Hr'. injection Hr as <-. injection Hr' as <-.
  apply fadd_mono; [done|]. by eapply Hb.
Qed.

Lemma candidateCostO_below co co' OP OPI ExtraCost VP c c' :
  below co co' →
  candidateCostO co OP OPI ExtraCost VP = Some c →
  candidateCostO co' OP OPI ExtraCost VP = Some c' → fle c' c.
Proof using Laws.
  intros Hb. unfold candidateCostO.
  destruct (if length (getOrderedValues VP) =? BitVector.count (Elements OPI)
            then permutesOperand (getOrderedValues VP) (lanes OP) else Some false)
    as [[]|]; [| |done];
    (destruct (costVP_with co VP) as [x|] eqn:E; [|done];
     destruct (costVP_with co' VP) as [x'|] eqn:E'; [|done]; simpl;
     intros [= <-] [= <-];
     pose proof (costVP_with_below _ _ _ _ _ Hb E E') as Hx).
  - apply fadd_mono; [|apply fle_refl]. apply fadd_mono; [done|apply fle_refl].
  - apply fadd_mono; [|apply fle_refl]. apply fadd_mono; [|apply fle_refl].
    unfold Discount. by apply fmul_ratio_mono.
Qed.

Lemma producers_below co co' ExtraCost VPs Sol0 Sol0' Sol Sol' :
  below co co' → fle (Cost Sol0') (Cost Sol0) →
  foldO (producerStepO co ExtraCost) VPs Sol0 = Some Sol →
  foldO (producerStepO co' ExtraCost) VPs Sol0' = Some Sol' →
  fle (Cost Sol') (Cost Sol).
Proof using Laws.
  intros Hb. apply (foldO_rel (λ S S' : Solution F, fle (Cost S') (Cost S))).
  intros S S' VP r r' _ HS. unfold producerStepO.
  destruct (costVP_with co VP) as [x|] eqn:E; [|done].
  destruct (costVP_with co' VP) as [x'|] eqn:E'; [|done]. simpl.
  intros [= <-] [= <-]. apply update_mono; [done|]. simpl.
  apply fadd_mono; [|apply fle_refl]. by eapply costVP_with_below.
Qed.

(** **** The loop over the candidates returns a minimum *)

Section Loop.
Variables (co : OperandPackPtr → option F) (Cands : CandidatePackSet).
Variables (OP : OperandPack) (OPI : OperandProducerInfo) (ExtraCost : F).
Variables (ids : list nat) (Sol0 : Solution F).

(** What holds of the solution and of the visited packs all along. *)
Definition loop_inv (acc : Solution F * list VectorPackPtr) : Prop :=
  fle (Cost acc.1) (Cost Sol0) ∧
  (∀ VP, VP ∈ acc.2 → isLoad VP = true →
         ∃ c, candidateCostO co OP OPI ExtraCost VP = Some c ∧ fle (Cost acc.1) c) ∧
  (acc.1 = Sol0 ∨
   ∃ i VP c, i ∈ ids ∧ VP ∈ candidatesAt (Some Cands) i ∧ isLoad VP = true ∧
             candidateCostO co OP OPI ExtraCost VP = Some c ∧ Cost acc.1 = c).

Lemma candidateStepO_inv i VPs acc VP acc' :
  i ∈ ids → Inst2Packs Cands !! i = Some VPs → VP ∈ VPs →
  loop_inv acc → candidateStepO co OP OPI ExtraCost acc VP = Some acc' → loop_inv acc'.
Proof using Laws.
  intros Hi HVPs HVP (H1 & H2 & H3). unfold candidateStepO.
  case_bool_decide as Hvis; [by intros [= <-]|].
  destruct (isLoad VP) eqn:Hload; simpl.
  - destruct (candidateCostO co OP OPI ExtraCost VP) as [c|] eqn:Ec; [|done]. simpl.
    intros [= <-]. split; [|split]; simpl.
    + eapply fle_trans; [apply update_le_l | done].
    + intros VP' Hin Hl. apply elem_of_cons in Hin as [->|Hin].
      * exists c. split; [done|]. apply (update_le_r _ (mkSolution c [VP])).
      * destruct (H2 VP' Hin Hl) as (c' & Hc' & Hle). exists c'. split; [done|].
        eapply fle_trans; [apply update_le_l | done].
    + destruct (update_cases acc.1 (mkSolution c [VP])) as [-> | ->]; [done|].
      right. exists i, VP, c. simpl. rewrite HVPs. simpl. done.
  - intros [= <-]. split; [done|]. split; [|done]. simpl.
    intros VP' Hin Hl. apply elem_of_cons in Hin as [->|Hin]; [congruence|]. by apply H2.
Qed.

Lemma candidateStepO_visited acc VP acc' :
  candidateStepO co OP OPI ExtraCost acc VP = Some acc' →
  VP ∈ acc'.2 ∧ ∀ VP', VP' ∈ acc.2 → VP' ∈ acc'.2.
Proof using Laws.
  unfold candidateStepO. case_bool_decide as Hvis; [by intros [= <-]|].
  destruct (negb (isLoad VP)).
  - intros [= <-]. simpl. split; [left | by right].
  - destruct (candidateCostO co OP OPI ExtraCost VP) as [c|]; [|done]. simpl.
    intros [= <-]. simpl. split; [left | by right].
Qed.

Lemma candidates_visited VPs acc acc' :
  foldO (candidateStepO co OP OPI ExtraCost) VPs acc = Some acc' →
  (∀ VP, VP ∈ VPs → VP ∈ acc'.2) ∧ ∀ VP, VP ∈ acc.2 → VP ∈ acc'.2.
Proof using Laws.
  revert acc. induction VPs as [|VP VPs IH]; intros acc; simpl.
  - intros [= <-]. split; [intros ? Hin; by apply elem_of_nil in Hin | done].
  - destruct (candidateStepO co OP OPI ExtraCost acc VP) as [acc1|] eqn:E; [|done]. simpl.
    intros Hf. destruct (candidateStepO_visited _ _ _ E) as [Hin Hkeep].
    destruct (IH _ Hf) as [Hall Hkeep']. split.
    + intros VP' HVP'. apply elem_of_cons in HVP' as [->|HVP']; auto.
    + auto.
Qed.

Lemma elements_visited l acc acc' :
  foldO (elementStepO co Cands OP OPI ExtraCost) l acc = Some acc' →
  (∀ i VP, i ∈ l → VP ∈ candidatesAt (Some Cands) i → VP ∈ acc'.2) ∧
  ∀ VP, VP ∈ acc.2 → VP ∈ acc'.2.
Proof using Laws.
  revert acc. induction l as [|i l IH]; intros acc Hf.
  - injection Hf as <-. split; [intros ?? Hin; by apply elem_of_nil in Hin | done].
  - change (foldO (elementStepO co Cands OP OPI ExtraCost) (i :: l) acc)
      with (elementStepO co Cands OP OPI ExtraCost acc i
            ≫= foldO (elementStepO co Cands OP OPI ExtraCost) l) in Hf.
    destruct (elementStepO co Cands OP OPI ExtraCost acc i) as [acc1|] eqn:E; [|done].
    simpl in Hf. unfold elementStepO in E.
    destruct (Inst2Packs Cands !! i) as [VPs|] eqn:EV; [|done]. simpl in E.
    destruct (candidates_visited _ _ _ E) as [Hall Hkeep].
    destruct (IH _ Hf) as [Hall' Hkeep']. split.
    + intros j VP Hj HVP. apply elem_of_cons in Hj as [->|Hj].
      * simpl in HVP. rewrite EV in HVP. simpl in HVP. auto.
      * by eapply Hall'.
    + auto.
Qed.

Lemma elements_inv acc :
  foldO (elementStepO co Cands OP OPI ExtraCost) ids (Sol0, []) = Some acc → loop_inv acc.
Proof using Laws.
  apply (foldO_inv loop_inv).
  - intros b i c Hi Hb. unfold elementStepO.
    destruct (Inst2Packs Cands !! i) as [VPs|] eqn:EV; [|done]. simpl.
    revert Hb. apply (foldO_inv loop_inv).
    intros b' VP c' HVP. by apply (candidateStepO_inv i VPs).
  - split; [apply fle_refl|]. split; [|by left].
    intros VP Hin. by apply elem_of_nil in Hin.
Qed.

End Loop.

(** The solution that the loop over the candidates returns is not above
    the solution it starts from nor above the cost that any candidate load
    pack offers, and it is one of these. *)
Lemma candidatesLoopO_min C co OP OPI ExtraCost Sol0 Sol :
  candidatesLoopO C co OP OPI ExtraCost Sol0 = Some Sol →
  fle (Cost Sol) (Cost Sol0) ∧
  (∀ i VP, i ∈ BitVector.set_bits (Elements OPI) → VP ∈ candidatesAt C i →
           isLoad VP = true →
           ∃ c, candidateCostO co OP OPI ExtraCost VP = Some c ∧ fle (Cost Sol) c) ∧
  (Sol = Sol0 ∨
   ∃ i VP c, i ∈ BitVector.set_bits (Elements OPI) ∧ VP ∈ candidatesAt C i ∧
             isLoad VP = true ∧
             candidateCostO co OP OPI ExtraCost VP = Some c ∧ Cost Sol = c).
Proof using Laws.
  unfold candidatesLoopO. destruct C as [Cands|].
  - destruct (foldO _ _ (Sol0, [])) as [acc|] eqn:E; [|done]. simpl.
    intros [= <-].
    destruct (elements_inv _ _ _ _ _ _ _ _ E) as (H1 & H2 & H3).
    destruct (elements_visited _ _ _ _ _ _ _ _ E) as [Hvis _].
    split; [done|]. split; [|done].
    intros i VP Hi HVP Hload. apply H2; [|done]. by eapply Hvis.
  - intros [= <-]. split; [apply fle_refl|]. split; [|by left].
    intros i VP _ Hin. by apply elem_of_nil in Hin.
Qed.

Lemma solveBodyO_below C C' cv (s s' : OperandPackPtr → option (Solution F)) OP Sol Sol' :
  candidates_subset C C' →
  (∀ OP' S S', s OP' = Some S → s' OP' = Some S' → fle (Cost S') (Cost S)) →
  solveBodyO C cv s OP = Some Sol → solveBodyO C' cv s' OP = Some Sol' →
  fle (Cost Sol') (Cost Sol).
Proof using Laws.
  intros Hsub Hs. unfold solveBodyO.
  destruct (baseSolution cv (getOperandPack OP)) as [[Base Done]|]; [|done]. simpl.
  destruct Done; [intros [= <-] [= <-]; apply fle_refl|].
  assert (below (costOP_with s) (costOP_with s')) as Hb.
  { intros OP' c c'. unfold costOP_with.
    destruct (s OP') as [S|] eqn:E; [|done]. destruct (s' OP') as [S'|] eqn:E'; [|done].
    simpl. intros [= <-] [= <-]. by eapply Hs. }
  destruct (foldO (producerStepO (costOP_with s) _) _ Base) as [Sol1|] eqn:Ep; [|done].
  destruct (foldO (producerStepO (costOP_with s') _) _ Base) as [Sol1'|] eqn:Ep'; [|done].
  simpl. intros HC HC'.
  pose proof (producers_below _ _ _ _ _ _ _ _ Hb (fle_refl _) Ep Ep') as H1.
  apply candidatesLoopO_min in HC as (_ & _ & Hone).
  apply candidatesLoopO_min in HC' as (Hle' & Hall' & _).
  destruct Hone as [->|(i & VP & c & Hi & HVP & Hload & Hc & <-)].
  - by eapply fle_trans.
  - destruct (Hall' i VP Hi (Hsub _ _ HVP) Hload) as (c' & Hc' & Hle).
    eapply fle_trans; [done|]. by eapply candidateCostO_below.
Qed.

Lemma solveO_below C C' n OP Sol Sol' :
  candidates_subset C C' →
  solveO C n OP = Some Sol → solveO C' n OP = Some Sol' → fle (Cost Sol') (Cost Sol).
Proof using Laws.
  intros Hsub. revert OP Sol Sol'. induction n as [|n IH]; intros OP Sol Sol'; [done|].
  simpl. apply solveBodyO_below; [done|]. intros OP' S S'. apply IH.
Qed.

(** C7. [solve] is monotone in the candidate set. Let every candidate of
    [C] be a candidate of [C'] for the same values, and let the costs obey
    the laws of an ordered field. Two solvers with consistent memo tables
    (those of a new [Heuristic], or of one that has answered earlier
    calls), the one with the candidates [C] and the other with [C'], are
    asked for the same operand pack; when both answer (they do when the
    block and the packs have no cycle, see [solve_returns]), the solver
    with the larger candidate set returns a cost that is not above the cost
    the other returns, and both leave their tables consistent. *)
Theorem solve_monotone C C' fuel fuel' OP (Hr Hr' Hr1 Hr1' : Heuristic F) Sol Sol' :
  candidates_subset C C' →
  memo_ok C Hr → memo_ok C' Hr' →
  solve C fuel OP Hr = Some (Sol, Hr1) →
  solve C' fuel' OP Hr' = Some (Sol', Hr1') →
  fle (Cost Sol') (Cost Sol) ∧ memo_ok C Hr1 ∧ memo_ok C' Hr1'.
Proof using Laws.
  intros Hsub Hok Hok' Hrun Hrun'.
  destruct (solve_sound C fuel OP _ _ _ Hok Hrun) as [Hok1 [n Hn]].
  destruct (solve_sound C' fuel' OP _ _ _ Hok' Hrun') as [Hok1' [n' Hn']].
  split; [|done].
  apply (solveO_below C C' (Nat.max n n') OP); [done| |].
  - apply (solveO_mono C n); [lia|done].
  - apply (solveO_mono C' n'); [lia|done].
Qed.

End Monotone.

(** The rationals obey the laws. *)
Lemma Q_fle (a b : Q) : fle a b ↔ (a <= b)%Q.
Proof.
  unfold fle. simpl. rewrite negb_false_iff. apply Qle_bool_iff.
Qed.

#[global] Instance Q_CostLaws : CostLaws Q.
Proof.
  split.
  - intros a b Hlt. apply Q_fle. simpl in Hlt. apply negb_true_iff in Hlt.
    apply Qlt_le_weak, Qnot_le_lt. intros Hle. apply Qle_bool_iff in Hle. congruence.
  - intros a b c. rewrite !Q_fle. apply Qle_trans.
  - intros a a' b b'. rewrite !Q_fle. apply Qplus_le_compat.
  - intros a a' n m. rewrite !Q_fle. intros Hle. simpl.
    apply Qmult_le_compat_r; [done|].
    apply Qmult_le_0_compat.
    + change 0%Q with (inject_Z 0). rewrite <- Zle_Qle. lia.
    + apply Qinv_le_0_compat. change 0%Q with (inject_Z 0). rewrite <- Zle_Qle. lia.
Qed.

(** *** The candidate set of a list of packs *)

Section CandidateSets.
Context {F : Type} {Pkr : Packer F}.

Lemma push_elements_spec (VP : VectorPackPtr) (bits : list nat)
    (I2P : list (list VectorPackPtr)) i VP' :
  VP' ∈ default [] (fold_left (λ I2P i, alter (λ l, l ++ [VP]) i I2P) bits I2P !! i)
  ↔ VP' ∈ default [] (I2P !! i) ∨ (VP' = VP ∧ i ∈ bits ∧ i < length I2P).
Proof.
  revert I2P. induction bits as [|j bits IH]; intros I2P; simpl.
  - split; [by left|]. intros [?|(_ & Hin & _)]; [done|]. by apply elem_of_nil in Hin.
  - rewrite IH, length_alter. destruct (decide (i = j)) as [->|Hne].
    + rewrite list_lookup_alter_eq. destruct (I2P !! j) as [l|] eqn:E; simpl.
      * apply lookup_lt_Some in E. rewrite elem_of_app, list_elem_of_singleton.
        rewrite elem_of_cons. intuition (subst; auto with lia).
      * apply lookup_ge_None in E. rewrite elem_of_cons. split.
        -- intros [Hin|(_ & _ & Hlt)]; [by apply elem_of_nil in Hin | lia].
        -- intros [Hin|(_ & _ & Hlt)]; [by apply elem_of_nil in Hin | lia].
    + rewrite list_lookup_alter_ne by done. rewrite elem_of_cons. intuition (subst; auto with lia).
Qed.

Lemma push_elements_length (VP : VectorPackPtr) (bits : list nat)
    (I2P : list (list VectorPackPtr)) :
  length (fold_left (λ I2P i, alter (λ l, l ++ [VP]) i I2P) bits I2P) = length I2P.
Proof.
  revert I2P. induction bits as [|j bits IH]; intros I2P; simpl; [done|].
  by rewrite IH, length_alter.
Qed.

Lemma Inst2Packs_spec (Packs : list VectorPackPtr) (I2P : list (list VectorPackPtr))
    i VP :
  VP ∈ default []
         (fold_left
            (λ I2P VP, fold_left (λ I2P i, alter (λ l, l ++ [VP]) i I2P)
                                 (BitVector.set_bits (getElements VP)) I2P)
            Packs I2P !! i)
  ↔ VP ∈ default [] (I2P !! i)
    ∨ (VP ∈ Packs ∧ BitVector.test (getElements VP) i = true ∧ i < length I2P).
Proof.
  revert I2P. induction Packs as [|P Packs IH]; intros I2P; simpl.
  - split; [by left|]. intros [?|(Hin & _)]; [done|]. by apply elem_of_nil in Hin.
  - rewrite IH, push_elements_length, push_elements_spec.
    rewrite BitVectorFacts.elem_of_set_bits, elem_of_cons. intuition (subst; auto).
Qed.

(** The candidates for a value are the packs of the list that have the
    value among their elements. *)
Lemma candidatesAt_CandidateSet_of Packs i VP :
  VP ∈ candidatesAt (Some (CandidateSet_of Packs)) i
  ↔ VP ∈ Packs ∧ BitVector.test (getElements VP) i = true ∧ i < getNumValues.
Proof.
  unfold candidatesAt, CandidateSet_of. simpl. rewrite Inst2Packs_spec.
  rewrite length_replicate. split; [|by right].
  intros [Hin|?]; [|done]. destruct (replicate getNumValues [] !! i) as [l|] eqn:E.
  - apply lookup_replicate in E as [-> _]. by apply elem_of_nil in Hin.
  - by apply elem_of_nil in Hin.
Qed.

(** A larger list of packs makes a larger candidate set. *)
Lemma CandidateSet_of_subset Packs Packs' :
  Packs ⊆ Packs' →
  candidates_subset (Some (CandidateSet_of Packs)) (Some (CandidateSet_of Packs')).
Proof.
  intros Hsub i VP. rewrite !candidatesAt_CandidateSet_of.
  intros (Hin & Ht & Hi). split; [by apply Hsub | done].
Qed.

End CandidateSets.

(** ** When a commit is defined *)

Section CommitDefined.
Context {F : Type} `{FloatOps F} {Pkr : Packer F}.
Import BitVector BitVectorFacts.

Lemma freezeAll_Some l Frt :
  Forall (λ Inst, isFree Frt Inst = true) l → NoDup (getScalarId <$> l) →
  ∃ Frt1, freezeAll l Frt = Some Frt1.
Proof.
  revert Frt. induction l as [|Inst l IH]; intros Frt Hfree Hnd; [by eexists|].
  apply Forall_cons in Hfree as [HI Hfree]. rewrite fmap_cons in Hnd.
  apply NoDup_cons in Hnd as [Hnin Hnd]. simpl.
  destruct (freezeOneInst_Some _ _ HI) as (Frt' & -> & _ & _ & _ & HF & _). simpl.
  apply IH; [|done]. rewrite Forall_forall in Hfree. apply Forall_forall.
  intros J HJ. unfold isFree. rewrite HF, test_reset.
  rewrite decide_False; [by apply Hfree|].
  intros Heq. apply Hnin. rewrite Heq. apply list_elem_of_fmap. by exists J.
Qed.

Lemma gatherLoop_Some TTI Frt VP i packs c R :
  is_Some (getVectorType_VP VP) →
  ∃ r, gatherLoop TTI Frt VP i packs c R = Some r.
Proof.
  intros [vt Hvt]. revert i c R. induction packs as [|p packs IH]; intros i c R; simpl.
  - by eexists.
  - destruct (resolveOperandPack VP (getOperandPack p)); [|apply IH].
    assert (∃ g, getGatherCost VP (getOperandPack p) TTI = Some g) as [g ->].
    { unfold getGatherCost. rewrite Hvt. simpl.
      repeat (match goal with |- context [if ?b then _ else _] => destruct b end;
              try by eexists). }
    simpl. apply IH.
Qed.

Lemma trackOperandPacks_Some TTI Frt packs c U :
  Forall (λ p, is_Some (getVectorType_OP (getOperandPack p))) packs →
  ∃ r, trackOperandPacks TTI Frt packs c U = Some r.
Proof.
  revert c U. induction packs as [|p packs IH]; intros c U Hty; simpl; [by eexists|].
  apply Forall_cons in Hty as [[vt ->] Hty]. simpl. by apply IH.
Qed.

(** A commit is defined when its asserts hold: the instructions that the
    pack replaces are free (and listed once) and the operand packs of the
    pack have a vector type; a pack that is no store has an element, from
    which its vector type is read. *)
Lemma advanceInplace_VP_defined TTI VP Frt :
  (isStore VP = false → is_Some (getVectorType_VP VP)) →
  Forall (λ Inst, isFree Frt Inst = true) (getReplacedInsts VP) →
  NoDup (getScalarId <$> getReplacedInsts VP) →
  Forall (λ p, is_Some (getVectorType_OP (getOperandPack p))) (getOperandPacks VP) →
  ∃ c Frt', advanceInplace_VP VP TTI Frt = Some (c, Frt').
Proof.
  intros Hty Hfree Hnd Hops. unfold advanceInplace_VP.
  assert (∃ Frt1, freezeAll (sortReplaced (getReplacedInsts VP)) Frt = Some Frt1)
    as [Frt1 HFrt1].
  { apply freezeAll_Some.
    - unfold sortReplaced. by rewrite merge_sort_Permutation.
    - unfold sortReplaced. by rewrite merge_sort_Permutation. }
  destruct (isStore VP) eqn:Est; simpl.
  - rewrite HFrt1. simpl.
    match goal with |- context [trackOperandPacks ?a ?b ?c ?d ?e] =>
      destruct (trackOperandPacks_Some a b c d e Hops) as [[c3 U] ->] end.
    simpl. by eexists _, _.
  - destruct (Hty eq_refl) as [vt Hvt]. rewrite Hvt. simpl.
    rewrite HFrt1. simpl.
    match goal with |- context [gatherLoop ?a ?b ?c ?d ?e ?f ?g] =>
      destruct (gatherLoop_Some a b c d e f g (ex_intro _ vt Hvt)) as [[c2 Rs] ->] end.
    simpl.
    match goal with |- context [trackOperandPacks ?a ?b ?c ?d ?e] =>
      destruct (trackOperandPacks_Some a b c d e Hops) as [[c3 U] ->] end.
    simpl. by eexists _, _.
Qed.

End CommitDefined.

(** ** The bottom-up optimizer *)

Lemma count_pos bv : BitVector.count bv ≠ 0 → ∃ i, BitVector.test bv i = true.
Proof.
  induction bv as [|b bv IH]; simpl; [done|].
  destruct b.
  - intros _. by exists 0.
  - intros Hc. destruct (IH Hc) as [i Hi]. by exists (S i).
Qed.

Lemma filter_length_le {A} (P Q : A → Prop) `{∀ x, Decision (P x)} `{∀ x, Decision (Q x)}
    (l : list A) :
  (∀ y, y ∈ l → Q y → P y) → length (filter Q l) ≤ length (filter P l).
Proof.
  induction l as [|z l IH]; intros HQP; [done|]. rewrite !filter_cons.
  assert (length (filter Q l) ≤ length (filter P l)) as Hle.
  { apply IH. intros y Hy. apply HQP. by right. }
  destruct (decide (Q z)) as [Hq|Hq].
  - rewrite decide_True by (apply HQP; [left|done]). simpl. lia.
  - destruct (decide (P z)); simpl; lia.
Qed.

Lemma filter_length_lt {A} (P Q : A → Prop) `{∀ x, Decision (P x)} `{∀ x, Decision (Q x)}
    (l : list A) x :
  (∀ y, y ∈ l → Q y → P y) → x ∈ l → P x → ¬ Q x →
  length (filter Q l) < length (filter P l).
Proof.
  induction l as [|y l IH]; intros HQP Hx HP HnQ; [by apply elem_of_nil in Hx|].
  rewrite !filter_cons.
  assert (∀ z, z ∈ l → Q z → P z) as HQP' by (intros z Hz; apply HQP; by right).
  pose proof (filter_length_le P Q l HQP') as Hle.
  apply elem_of_cons in Hx as [<-|Hx].
  - rewrite decide_False by done. rewrite decide_True by done. simpl. lia.
  - specialize (IH HQP' Hx HP HnQ).
    destruct (decide (Q y)) as [Hq|Hq].
    + rewrite decide_True by (apply HQP; [left|done]). simpl. lia.
    + destruct (decide (P y)); simpl; lia.
Qed.

Section ScalarizeAll.
Context {F : Type} `{FloatOps F} {Pkr : Packer F}.
Import BitVector BitVectorFacts.

Hypothesis Hidx : index_ok.
Hypothesis Hblk : block_ok.
Hypothesis Hdu : def_use_ok.

Lemma id_lt Inst : Inst ∈ insts → getScalarId Inst < getNumValues.
Proof using Hidx.
  intros Hin. destruct Hidx as [_ Hall]. rewrite Forall_forall in Hall.
  by destruct (Hall _ Hin).
Qed.

Lemma getScalar_id Inst : Inst ∈ insts → getScalar (getScalarId Inst) = VInst Inst.
Proof using Hidx.
  intros Hin. destruct Hidx as [_ Hall]. rewrite Forall_forall in Hall.
  by destruct (Hall _ Hin).
Qed.

Lemma id_inj Inst J : Inst ∈ insts → J ∈ insts → getScalarId Inst = getScalarId J → Inst = J.
Proof using Hidx.
  intros HI HJ Heq. destruct Hidx as [Hnd _].
  apply list_elem_of_lookup_1 in HI as [i Hi]. apply list_elem_of_lookup_1 in HJ as [j Hj].
  assert (i = j) as ->.
  { eapply (NoDup_lookup _ _ _ _ Hnd); rewrite list_lookup_fmap.
    - by rewrite Hi.
    - rewrite Hj. simpl. by rewrite Heq. }
  congruence.
Qed.

Lemma inBB_insts Inst : inBB Inst = true ↔ Inst ∈ insts.
Proof using Hblk. unfold inBB. rewrite bool_decide_eq_true. symmetry. apply Hblk. Qed.

Lemma allUsersFrozen_ext Frt Frt' OI :
  FreeInsts Frt = FreeInsts Frt' → allUsersFrozen Frt OI = allUsersFrozen Frt' OI.
Proof. intros Heq. unfold allUsersFrozen, isFree. by rewrite Heq. Qed.

Lemma allUsersFrozen_spec Frt OI :
  allUsersFrozen Frt OI = true ↔
  ∀ User, VInst User ∈ users OI → User ∈ insts → isFree Frt User = false.
Proof using Hblk.
  unfold allUsersFrozen. rewrite forallb_forall. split.
  - intros Hall User Hin HU. apply list_elem_of_In in Hin. specialize (Hall _ Hin).
    simpl in Hall. apply negb_true_iff, andb_false_iff in Hall as [Hb|Hf]; [|done].
    apply inBB_insts in HU. congruence.
  - intros Hall U Hin. apply list_elem_of_In in Hin. destruct U as [User| |]; simpl; try done.
    apply negb_true_iff, andb_false_iff.
    destruct (inBB User) eqn:Hb; [right|by left].
    apply Hall; [done|]. by apply inBB_insts.
Qed.

(** The operand [Operand] of an instruction that was just frozen becomes
    the usable instruction of id [k]. *)
Definition becomesUsable (Frt : Frontier) (k : nat) (Operand : Value) : bool :=
  match dyn_cast_Instruction Operand with
  | Some OI =>
      inBB OI && isFree Frt OI && allUsersFrozen Frt OI
      && bool_decide (getScalarId OI = k ∧ getScalarId OI < length (UsableInsts Frt))
  | None => false
  end.

Lemma becomesUsable_ext Frt Frt' k l :
  FreeInsts Frt = FreeInsts Frt' →
  length (UsableInsts Frt) = length (UsableInsts Frt') →
  existsb (becomesUsable Frt k) l = existsb (becomesUsable Frt' k) l.
Proof.
  intros HF HL. induction l as [|O l IH]; [done|]. simpl. rewrite IH. f_equal.
  unfold becomesUsable. destruct (dyn_cast_Instruction O) as [OI|]; [|done].
  unfold isFree. rewrite HF, HL. by rewrite (allUsersFrozen_ext Frt Frt').
Qed.

(** The usable instructions after the loop of [freezeOneInst] over the
    operands. *)
Lemma freezeOneInst_fold_usable l Frt1 k :
  let r := fold_left
    (λ (Frt' : Frontier) (Operand : Value),
       match dyn_cast_Instruction Operand with
       | Some OI =>
           if inBB OI && isFree Frt' OI && allUsersFrozen Frt' OI
           then {| BBIt := BBIt Frt';
                   UnresolvedPacks := UnresolvedPacks Frt';
                   UnresolvedScalars := UnresolvedScalars Frt';
                   FreeInsts := FreeInsts Frt';
                   UsableInsts := BitVector.set (UsableInsts Frt') (getScalarId OI) |}
           else Frt'
       | None => Frt'
       end) l Frt1 in
  test (UsableInsts r) k
  = test (UsableInsts Frt1) k || existsb (becomesUsable Frt1 k) l.
Proof.
  revert Frt1. induction l as [|Operand l IH]; intros Frt1; simpl.
  - by rewrite orb_false_r.
  - unfold becomesUsable at 1.
    destruct (dyn_cast_Instruction Operand) as [OI|]; [|by rewrite IH].
    destruct (inBB OI && isFree Frt1 OI && allUsersFrozen Frt1 OI) eqn:E.
    + rewrite IH. simpl. rewrite test_set.
      rewrite (becomesUsable_ext _ Frt1) by (simpl; by rewrite ?length_set).
      case_decide as Hd; case_bool_decide as Hb; try done;
        simpl; rewrite ?orb_true_r, ?orb_false_r; done.
    + by rewrite IH.
Qed.

Lemma freezeOneInst_usable Inst Frt Frt' k :
  freezeOneInst Inst Frt = Some Frt' →
  test (UsableInsts Frt') k
  = test (reset (UsableInsts Frt) (getScalarId Inst)) k
    || existsb (becomesUsable Frt' k) (operands Inst).
Proof.
  intros Hfr.
  pose proof (freezeOneInst_inv _ _ _ Hfr) as (_ & _ & _ & _ & HFree & HLen).
  unfold freezeOneInst in Hfr.
  destruct (test (FreeInsts Frt) (getScalarId Inst)); [|done].
  injection Hfr as Hfr. rewrite <- Hfr at 1. rewrite freezeOneInst_fold_usable. simpl.
  f_equal. apply becomesUsable_ext; simpl.
  - by rewrite HFree.
  - by rewrite HLen, length_reset.
Qed.

Lemma markOperands_spec Inst Free US k :
  length (markOperands Inst Free US) = length US ∧
  test (markOperands Inst Free US) k
  = test US k
    || existsb (λ Operand,
                  match dyn_cast_Instruction Operand with
                  | Some I2 =>
                      inBB I2 && test Free (getScalarId I2)
                      && bool_decide (getScalarId I2 = k ∧ getScalarId I2 < length US)
                  | None => false
                  end) (operands Inst).
Proof.
  unfold markOperands. revert US. induction (operands Inst) as [|O l IH]; intros US; simpl.
  - by rewrite orb_false_r.
  - destruct (dyn_cast_Instruction O) as [I2|]; [|apply IH].
    destruct (inBB I2 && test Free (getScalarId I2)) eqn:E; [|apply IH].
    destruct (IH (set US (getScalarId I2))) as [Hl Ht]. rewrite Hl, Ht, length_set.
    split; [done|]. rewrite test_set. simpl.
    case_decide as Hd; case_bool_decide as Hb; try done;
      simpl; rewrite ?orb_true_r, ?orb_false_r; done.
Qed.

(** *** The frontiers of the last loop *)

(** What holds of a frontier without unresolved packs from which
    instructions are scalarized one at a time: the unresolved scalars and
    the usable instructions are free instructions of the block, and a free
    instruction that is a phi or whose users are all frozen is usable. *)
Definition scalar_inv (Frt : Frontier) : Prop :=
  UnresolvedPacks Frt = [] ∧
  length (UnresolvedScalars Frt) = getNumValues ∧
  length (FreeInsts Frt) = getNumValues ∧
  length (UsableInsts Frt) = getNumValues ∧
  (∀ k, test (UnresolvedScalars Frt) k = true →
        ∃ Inst, Inst ∈ insts ∧ getScalarId Inst = k ∧ isFree Frt Inst = true) ∧
  (∀ k, test (UsableInsts Frt) k = true →
        ∃ Inst, Inst ∈ insts ∧ getScalarId Inst = k ∧ isFree Frt Inst = true) ∧
  (∀ Inst, Inst ∈ insts → isFree Frt Inst = true →
           isPHI Inst = true ∨ allUsersFrozen Frt Inst = true →
           isUsable Frt Inst = true).

Lemma hasUserInside_false Inst :
  hasUserInside Inst = false →
  ∀ User, VInst User ∈ users Inst → User ∈ insts → False.
Proof using Hblk.
  intros Hno User Hin HU. apply not_true_iff_false in Hno. apply Hno.
  unfold hasUserInside. apply existsb_exists. exists (VInst User).
  split; [by apply list_elem_of_In|]. simpl. apply bool_decide_eq_true. by apply Hblk.
Qed.

Lemma hasUserInside_true Inst :
  hasUserInside Inst = true →
  ∃ User, VInst User ∈ users Inst ∧ User ∈ insts.
Proof using Hblk.
  unfold hasUserInside. intros Hex. apply existsb_exists in Hex as (U & Hin & HU).
  destruct U as [User| |]; simpl in HU; try done.
  exists User. split; [by apply list_elem_of_In|]. apply Hblk. by apply bool_decide_eq_true in HU.
Qed.

Lemma scalar_inv_ctor : scalar_inv Frontier_ctor.
Proof using Hidx Hblk.
  unfold Frontier_ctor.
  destruct (ctor_loop_spec insts (make getNumValues false) (make getNumValues false)
              getNumValues getNumValues 0 (length_make _ _) (length_make _ _))
    as (HlUS & HlUs & _ & _).
  assert (∀ Inst, Inst ∈ insts → test (make getNumValues true) (getScalarId Inst) = true)
    as Hfree.
  { intros Inst Hin. rewrite test_make. by rewrite decide_True by by apply id_lt. }
  split; [done|]. split; [done|]. split; [apply length_make|]. split; [done|].
  simpl. split; [|split].
  - intros k Hk.
    destruct (ctor_loop_spec insts (make getNumValues false) (make getNumValues false)
                getNumValues getNumValues k (length_make _ _) (length_make _ _))
      as (_ & _ & HUS & _).
    rewrite HUS, test_make in Hk. rewrite (decide_ext _ _ _ _ (reflexivity _)) in Hk.
    assert (existsb (λ Inst, hasUserOutside Inst
                             && bool_decide (getScalarId Inst = k
                                             ∧ getScalarId Inst < getNumValues)) insts = true)
      as Hex by (destruct (decide (k < getNumValues)); done).
    apply existsb_exists in Hex as (Inst & Hin & HP). apply list_elem_of_In in Hin.
    apply andb_true_iff in HP as [_ HP]. apply bool_decide_eq_true in HP as [<- _].
    exists Inst. split; [done|]. split; [done|]. by apply Hfree.
  - intros k Hk.
    destruct (ctor_loop_spec insts (make getNumValues false) (make getNumValues false)
                getNumValues getNumValues k (length_make _ _) (length_make _ _))
      as (_ & _ & _ & HUs).
    rewrite HUs, test_make in Hk.
    assert (existsb (λ Inst, (negb (hasUserInside Inst) || isPHI Inst)
                             && bool_decide (getScalarId Inst = k
                                             ∧ getScalarId Inst < getNumValues)) insts = true)
      as Hex by (destruct (decide (k < getNumValues)); done).
    apply existsb_exists in Hex as (Inst & Hin & HP). apply list_elem_of_In in Hin.
    apply andb_true_iff in HP as [_ HP]. apply bool_decide_eq_true in HP as [<- _].
    exists Inst. split; [done|]. split; [done|]. by apply Hfree.
  - intros Inst Hin _ Hor. unfold isUsable. simpl.
    destruct (ctor_loop_spec insts (make getNumValues false) (make getNumValues false)
                getNumValues getNumValues (getScalarId Inst)
                (length_make _ _) (length_make _ _))
      as (_ & _ & _ & HUs).
    rewrite HUs. apply orb_true_iff. right.
    destruct Hidx as [Hnd _].
    rewrite (existsb_id_unique (λ J, negb (hasUserInside J) || isPHI J) _ _ Hnd Hin
               (id_lt _ Hin)).
    apply orb_true_iff. destruct Hor as [HP|HA]; [by right|left].
    apply negb_true_iff. destruct (hasUserInside Inst) eqn:E; [|done].
    apply hasUserInside_true in E as (User & HU & HUin).
    rewrite allUsersFrozen_spec in HA. specialize (HA _ HU HUin).
    unfold isFree in HA. simpl in HA. rewrite Hfree in HA; done.
Qed.

Lemma isFree_reset Frt Frt' i J :
  FreeInsts Frt' = reset (FreeInsts Frt) i →
  isFree Frt' J = if decide (i = getScalarId J) then false else isFree Frt J.
Proof. intros HF. unfold isFree. by rewrite HF, test_reset. Qed.

(** Scalarizing a usable instruction costs nothing when no pack is
    unresolved, and leaves a frontier of the same kind. *)
Lemma advanceInplace_Inst_scalar TTI Inst Frt :
  scalar_inv Frt → Inst ∈ insts → isUsable Frt Inst = true →
  ∃ Frt', advanceInplace_Inst Inst TTI Frt = Some (of_int 0, Frt') ∧ scalar_inv Frt' ∧
          FreeInsts Frt' = reset (FreeInsts Frt) (getScalarId Inst) ∧
          isFree Frt Inst = true.
Proof using Hidx Hblk Hdu.
  intros (HUP & HlUS & HlF & HlUs & HUS & HUs & Hcomp) Hin Husable.
  assert (isFree Frt Inst = true) as Hfree.
  { destruct (HUs _ Husable) as (J & HJ & Hid & HJfree).
    by rewrite <- (id_inj _ _ HJ Hin Hid). }
  destruct (freezeOneInst_Some _ _ Hfree) as (Frt1 & Hfr & HBB1 & HUP1 & HUS1 & HF1 & HL1).
  pose proof (λ k, freezeOneInst_usable Inst Frt Frt1 k Hfr) as HUs1.
  unfold advanceInplace_Inst. rewrite Hfr. simpl. rewrite HUP1, HUP. simpl.
  eexists. split; [reflexivity|]. split; [|split; [done|done]].
  assert (∀ J, isFree {| BBIt := skipFrozen (FreeInsts Frt1) (BBIt Frt1);
                         UnresolvedPacks := sort_ptrs (remove [] []);
                         UnresolvedScalars :=
                           markOperands Inst (FreeInsts Frt1) (UnresolvedScalars Frt1);
                         FreeInsts := FreeInsts Frt1;
                         UsableInsts := UsableInsts Frt1 |} J
               = if decide (getScalarId Inst = getScalarId J) then false else isFree Frt J)
    as HfreeJ.
  { intros J. by apply isFree_reset. }
  split; [done|]. simpl.
  destruct (markOperands_spec Inst (FreeInsts Frt1) (UnresolvedScalars Frt1) 0) as [HlM _].
  split; [by rewrite HlM, HUS1, length_reset|].
  split; [by rewrite HF1, length_reset|].
  split; [by rewrite HL1|].
  split; [|split].
  - intros k Hk.
    destruct (markOperands_spec Inst (FreeInsts Frt1) (UnresolvedScalars Frt1) k) as [_ Ht].
    rewrite Ht in Hk. apply orb_true_iff in Hk as [Hk|Hk].
    + rewrite HUS1, test_reset in Hk. case_decide as Hd; [done|].
      destruct (HUS _ Hk) as (J & HJ & Hid & HJfree). exists J.
      split; [done|]. split; [done|]. rewrite HfreeJ.
      rewrite decide_False by congruence. done.
    + apply existsb_exists in Hk as (O & _ & HO).
      destruct (dyn_cast_Instruction O) as [I2|]; [|done].
      apply andb_true_iff in HO as [HO Hid]. apply andb_true_iff in HO as [Hb Hf].
      apply bool_decide_eq_true in Hid as [<- _].
      exists I2. split; [by apply inBB_insts|]. split; [done|]. exact Hf.
  - intros k Hk. rewrite HUs1 in Hk. apply orb_true_iff in Hk as [Hk|Hk].
    + rewrite test_reset in Hk. case_decide as Hd; [done|].
      destruct (HUs _ Hk) as (J & HJ & Hid & HJfree). exists J.
      split; [done|]. split; [done|]. rewrite HfreeJ.
      rewrite decide_False by congruence. done.
    + apply existsb_exists in Hk as (O & _ & HO). unfold becomesUsable in HO.
      destruct (dyn_cast_Instruction O) as [OI|]; [|done].
      apply andb_true_iff in HO as [HO Hid]. apply andb_true_iff in HO as [HO _].
      apply andb_true_iff in HO as [Hb Hf].
      apply bool_decide_eq_true in Hid as [<- _].
      exists OI. split; [by apply inBB_insts|]. split; [done|]. exact Hf.
  - intros J HJ HJfree Hor. rewrite HfreeJ in HJfree.
    case_decide as Hd; [done|].
    unfold isUsable. simpl. rewrite HUs1, test_reset.
    rewrite decide_False by done.
    destruct (test (UsableInsts Frt) (getScalarId J)) eqn:HJus; [done|]. simpl.
    assert (isPHI J = false ∧ allUsersFrozen Frt J = false) as [HnP HnA].
    { destruct (isPHI J) eqn:E1.
      { pose proof (Hcomp J HJ HJfree (or_introl E1)) as Hc.
        unfold isUsable in Hc. congruence. }
      destruct (allUsersFrozen Frt J) eqn:E2; [|done].
      pose proof (Hcomp J HJ HJfree (or_intror E2)) as Hc.
      unfold isUsable in Hc. congruence. }
    destruct Hor as [HP|HA]; [congruence|].
    rewrite (allUsersFrozen_ext _ Frt1) in HA by done.
    assert (VInst Inst ∈ users J) as Huser.
    { apply not_true_iff_false in HnA. destruct (decide (VInst Inst ∈ users J)); [done|].
      destruct HnA. apply allUsersFrozen_spec. intros User HU HUin.
      rewrite allUsersFrozen_spec in HA. specialize (HA _ HU HUin).
      rewrite (isFree_reset Frt Frt1 _ _ HF1) in HA.
      case_decide as Hd'; [|done]. apply (id_inj _ _ Hin HUin) in Hd'. by subst. }
    destruct Hdu as [Hops _]. specialize (Hops J Inst HJ Hin Huser).
    apply existsb_exists. exists (VInst J). split; [by apply list_elem_of_In|].
    unfold becomesUsable. simpl. rewrite HA.
    rewrite (proj2 (inBB_insts J) HJ). simpl.
    rewrite (isFree_reset Frt Frt1 _ _ HF1). rewrite decide_False by done.
    rewrite HJfree. simpl. apply bool_decide_eq_true. split; [done|].
    rewrite HL1, HlUs. by apply id_lt.
Qed.

Lemma last_such {A} (P : A → Prop) `{∀ x, Decision (P x)} (l : list A) x :
  x ∈ l → P x →
  ∃ i y, l !! i = Some y ∧ P y ∧ ∀ j z, i < j → l !! j = Some z → ¬ P z.
Proof.
  induction l as [|a l IH] using rev_ind; intros Hx HP; [by apply elem_of_nil in Hx|].
  destruct (decide (P a)) as [Ha|Ha].
  - exists (length l), a. split; [by apply list_lookup_middle|]. split; [done|].
    intros j z Hj Hz. apply lookup_lt_Some in Hz. rewrite length_app in Hz. simpl in Hz. lia.
  - apply elem_of_app in Hx as [Hx|Hx];
      [|apply list_elem_of_singleton in Hx; by subst].
    destruct (IH Hx HP) as (i & y & Hi & Hy & Hmax).
    exists i, y. split; [by apply lookup_app_l_Some|]. split; [done|].
    intros j z Hj Hz. apply lookup_app_Some in Hz as [Hz|[_ Hz]]; [by eapply Hmax|].
    apply list_lookup_singleton_Some in Hz as [_ <-]. done.
Qed.

Lemma NoDup_insts : NoDup insts.
Proof using Hidx. destruct Hidx as [Hnd _]. by apply NoDup_fmap_1 in Hnd. Qed.

(** While an instruction of the block is free, one is usable: a free phi,
    or else the last free instruction of the block. *)
Lemma exists_usable Frt I0 :
  scalar_inv Frt → I0 ∈ insts → isFree Frt I0 = true →
  ∃ Inst, Inst ∈ insts ∧ isUsable Frt Inst = true.
Proof using Hidx Hblk Hdu.
  intros (_ & _ & _ & _ & _ & _ & Hcomp) HI0 Hfree0.
  destruct (decide (Exists (λ J, isFree Frt J = true ∧ isPHI J = true) insts)) as [Hex|Hno].
  - apply Exists_exists in Hex as (J & HJ & HJfree & HJphi).
    exists J. split; [done|]. apply Hcomp; auto.
  - destruct (last_such (λ J, isFree Frt J = true) insts I0 HI0 Hfree0)
      as (i & Inst & Hi & Hfree & Hmax).
    assert (Inst ∈ insts) as Hin by by eapply list_elem_of_lookup_2.
    exists Inst. split; [done|]. apply Hcomp; [done..|]. right.
    apply allUsersFrozen_spec. intros User HU HUin.
    destruct (isFree Frt User) eqn:HUfree; [|done]. exfalso.
    assert (getOpcode User ≠ OpPHI) as HnP.
    { intros HP. apply Hno, Exists_exists. exists User.
      split; [done|]. split; [done|]. unfold isPHI. by apply bool_decide_eq_true. }
    destruct Hdu as [_ Hlater].
    destruct (Hlater Inst User Hin HUin HU HnP) as (i' & j & Hi' & Hj & Hlt).
    assert (i' = i) as -> by (eapply NoDup_lookup; [apply NoDup_insts|done..]).
    by apply (Hmax j User).
Qed.

Lemma firstUsableInst_Some Frt J :
  scalar_inv Frt → J ∈ insts → isUsable Frt J = true →
  ∃ Inst, firstUsableInst Frt = Some Inst ∧ Inst ∈ insts ∧ isUsable Frt Inst = true.
Proof using Hidx.
  intros (_ & _ & _ & _ & _ & HUs & _) HJ HJus.
  unfold firstUsableInst, usableInsts.
  destruct (set_bits (UsableInsts Frt)) as [|k0 rest] eqn:E.
  - assert (getScalarId J ∈ set_bits (UsableInsts Frt)) as Hin
      by by apply elem_of_set_bits.
    rewrite E in Hin. by apply elem_of_nil in Hin.
  - assert (test (UsableInsts Frt) k0 = true) as Hk0.
    { apply elem_of_set_bits. rewrite E. left. }
    destruct (HUs _ Hk0) as (Inst & Hin & <- & _).
    exists Inst. rewrite fmap_cons. simpl. rewrite (getScalar_id _ Hin). simpl.
    done.
Qed.

(** The number of free instructions of the block. *)
Definition freeCount (Frt : Frontier) : nat :=
  length (filter (λ Inst, isFree Frt Inst = true) insts).

Lemma freeCount_le Frt : freeCount Frt ≤ length insts.
Proof. apply length_filter. Qed.

(** The last loop terminates, and it costs nothing. *)
Lemma scalarizeAll_zero TTI fuel Frt :
  fadd (of_int 0) (of_int 0) = of_int 0 →
  scalar_inv Frt → freeCount Frt < fuel →
  ∃ Frt', scalarizeAll fuel TTI Frt (of_int 0) = Some (Frt', of_int 0).
Proof using Hidx Hblk Hdu.
  intros Hzero. revert Frt. induction fuel as [|fuel IH]; intros Frt Hinv Hfuel; [lia|].
  simpl. pose proof Hinv as (HUP & _ & _ & _ & HUS & _).
  rewrite HUP. simpl. rewrite orb_false_r.
  destruct (numUnresolvedScalars Frt =? 0) eqn:E; simpl; [by eexists|].
  apply Nat.eqb_neq, count_pos in E as [k Hk].
  destruct (HUS _ Hk) as (I0 & HI0 & _ & Hfree0).
  destruct (exists_usable _ _ Hinv HI0 Hfree0) as (J & HJ & HJus).
  destruct (firstUsableInst_Some _ _ Hinv HJ HJus) as (Inst & -> & Hin & Hus).
  destruct (advanceInplace_Inst_scalar TTI _ _ Hinv Hin Hus)
    as (Frt1 & -> & Hinv1 & HF1 & Hfree).
  simpl. rewrite Hzero. apply IH; [done|].
  assert (freeCount Frt1 < freeCount Frt); [|lia].
  unfold freeCount. apply (filter_length_lt _ _ _ Inst); [|done|done|].
  - intros y _. rewrite (isFree_reset Frt Frt1 _ _ HF1). by case_decide.
  - rewrite (isFree_reset Frt Frt1 _ _ HF1). by rewrite decide_True.
Qed.

End ScalarizeAll.

Lemma foldO_total {A B} (g : B → A → option B) l :
  (∀ b x, x ∈ l → ∃ b', g b x = Some b') → ∀ b, ∃ b', foldO g l b = Some b'.
Proof.
  induction l as [|x l IH]; intros Hg b; simpl; [by eexists|].
  destruct (Hg b x) as [b1 ->]; [left|]. simpl.
  apply IH. intros ?? Hin. apply Hg. by right.
Qed.

Lemma foldO_id {A B} (g : B → A → option B) l b :
  (∀ x, x ∈ l → g b x = Some b) → foldO g l b = Some b.
Proof.
  induction l as [|x l IH]; intros Hg; simpl; [done|].
  rewrite Hg by left. simpl. apply IH. intros ? Hin. apply Hg. by right.
Qed.

Section NoSeed.
Context {F : Type} `{FloatOps F} {Pkr : Packer F} {Ext : ExtensionSearch}.
Context {VPS : Type} {PS : PackSet VPS}.
Variable isEqual : Frontier → Frontier → bool.

(** [GetChainLen] returns when the DAG of the stores has no cycle. *)
Lemma GetChainLen_total rank fuel Inst memo :
  StoreDAG_ranked rank → rank Inst < fuel →
  ∃ n memo', GetChainLen fuel Inst memo = Some (n, memo').
Proof.
  intros Hrank. revert Inst memo. induction fuel as [|fuel IH]; intros Inst memo Hlt; [lia|].
  simpl. destruct (memo !! Inst) as [n|]; [by eexists _, _|].
  destruct (StoreDAG Inst) as [nexts|] eqn:ED; [|by eexists _, _].
  destruct (foldO_total
              (λ (st : nat * gmap InstPtr nat) Next,
                 '(n, StoreChainLen) ← GetChainLen fuel Next st.2;
                 Some (st.1 `max` n, StoreChainLen)) nexts) with (b := (0, memo))
    as [[MaxLen memo'] ->].
  - intros st Next Hin. destruct (IH Next st.2) as (n & m & ->).
    + specialize (Hrank _ _ _ ED Hin). lia.
    + by eexists.
  - simpl. by eexists _, _.
Qed.

Lemma chain_lengths_fst fuel l acc memo acc' memo' :
  foldO (λ (st : list (InstPtr * nat) * gmap InstPtr nat) SI,
           '(n, StoreChainLen) ← GetChainLen fuel SI st.2;
           Some (st.1 ++ [(SI, n)], StoreChainLen))
        l (acc, memo) = Some (acc', memo') →
  fst <$> acc' = (fst <$> acc) ++ l.
Proof.
  revert acc memo. induction l as [|SI l IH]; intros acc memo; simpl.
  - intros [= <- _]. by rewrite app_nil_r.
  - destruct (GetChainLen fuel SI memo) as [[n m]|]; [|done]. simpl.
    intros Hf. rewrite (IH _ _ Hf), fmap_app. simpl. by rewrite <- app_assoc.
Qed.

(** The sorted stores are the stores of the DAG. *)
Lemma sortedStores_total rank fuel :
  StoreDAG_ranked rank → (∀ SI, SI ∈ StoreDAG_keys → rank SI < fuel) →
  ∃ Stores, sortedStores fuel = Some Stores ∧ ∀ SI, SI ∈ Stores → SI ∈ StoreDAG_keys.
Proof.
  intros Hrank Hfuel. unfold sortedStores.
  destruct (foldO_total
              (λ (st : list (InstPtr * nat) * gmap InstPtr nat) SI,
                 '(n, StoreChainLen) ← GetChainLen fuel SI st.2;
                 Some (st.1 ++ [(SI, n)], StoreChainLen)) StoreDAG_keys)
    with (b := (@nil (InstPtr * nat), (∅ : gmap InstPtr nat)))
    as [[lens memo] Hf].
  - intros st SI Hin.
    destruct (GetChainLen_total rank fuel SI st.2 Hrank (Hfuel _ Hin)) as (n & m & ->).
    by eexists.
  - rewrite Hf. simpl. eexists. split; [done|].
    intros SI Hin. apply chain_lengths_fst in Hf. simpl in Hf. rewrite <- Hf.
    apply list_elem_of_fmap in Hin as ([SI' n] & -> & Hin).
    apply list_elem_of_fmap. exists (SI', n). split; [done|].
    by rewrite merge_sort_Permutation in Hin.
Qed.

(** The solver on a frontier without unresolved packs: no extension, at
    no cost. *)
Lemma DP_solve_no_packs fuel TTI Frt :
  UnresolvedPacks Frt = [] →
  DP_solve isEqual (S fuel) TTI Frt []
  = Some (DPSolver.mkSolution (of_int 0) None,
          [(Frt, DPSolver.mkSolution (of_int 0) None)]).
Proof.
  intros HUP. simpl. unfold estimateAllScalarCost, findExtensionPacks2.
  rewrite HUP. simpl. done.
Qed.

Lemma seedStep_no_seed fuel TTI VL (st : BUState) SI :
  getSeedStorePack fuel (BU_Frt st) SI VL = Some None →
  seedStep isEqual fuel TTI VL st SI = Some st.
Proof. intros Hno. unfold seedStep. by rewrite Hno. Qed.

(** C8. Let the block be well formed (the value index is sound, [insts]
    lists the block, definitions and uses agree and a user that is no phi
    follows its definition), let the DAG of the stores have no cycle, and
    let [0 + 0 = 0] on costs. When [getSeedStorePack] returns a null
    pointer for every store of the DAG and each of the lane counts 64, 32,
    16, 8, 4 and 2, [optimizeBottomUp] returns, given fuel for one round of
    its last loop for each instruction of the block; it has added no pack
    to [Packs], whatever [tryAdd] does, and the cost it returns is 0. *)
Theorem optimizeBottomUp_no_seed rank fuel (Packs : VPS) :
  index_ok → block_ok → def_use_ok → StoreDAG_ranked rank →
  fadd (of_int 0) (of_int 0) = of_int 0 →
  length insts < fuel →
  (∀ SI, SI ∈ StoreDAG_keys → rank SI < fuel) →
  (∀ VL SI, VL ∈ [64; 32; 16; 8; 4; 2] → SI ∈ StoreDAG_keys →
            getSeedStorePack fuel Frontier_ctor SI VL = Some None) →
  optimizeBottomUp isEqual fuel Packs = Some (Packs, of_int 0).
Proof.
  intros Hidx Hblk Hdu Hrank Hzero Hfuel Hranks Hno.
  unfold optimizeBottomUp.
  destruct (sortedStores_total rank fuel Hrank Hranks) as (Stores & -> & HStores).
  assert (∀ VL, VL ∈ [64; 32; 16; 8; 4; 2] →
                foldO (seedStep isEqual fuel getTTI VL) Stores
                      (mkBUState Frontier_ctor [] Packs (of_int 0) (of_int 0))
                = Some (mkBUState Frontier_ctor [] Packs (of_int 0) (of_int 0))) as Hseed.
  { intros VL HVL. apply foldO_id. intros SI HSI.
    apply seedStep_no_seed. simpl. apply Hno; [done|]. by apply HStores. }
  simpl. repeat (rewrite Hseed by compute_done; simpl).
  destruct fuel as [|fuel]; [lia|].
  cbn [extendLoop BU_Frt BU_Solver].
  rewrite DP_solve_no_packs by done. simpl.
  destruct (scalarizeAll_zero Hidx Hblk Hdu getTTI (S fuel) Frontier_ctor Hzero
              (scalar_inv_ctor Hidx Hblk)) as [Frt' HFrt'].
  { pose proof (freeCount_le Frontier_ctor). lia. }
  simpl in HFrt'. rewrite HFrt'. done.
Qed.

End NoSeed.

(** ** The frontiers of a search: what every transition keeps *)

Lemma Sorted_le_lookup (l : list nat) i j a b :
  Sorted (≤) l → i ≤ j → l !! i = Some a → l !! j = Some b → a ≤ b.
Proof.
  intros Hs. apply Sorted_StronglySorted in Hs; [|intros ???; lia].
  revert i j. induction Hs as [|x l Hs IH Hall]; intros i j Hij Hi Hj; [done|].
  destruct i as [|i], j as [|j]; simpl in *; try lia.
  - injection Hi as <-. injection Hj as <-. lia.
  - injection Hi as <-. rewrite Forall_forall in Hall. apply Hall.
    by eapply list_elem_of_lookup_2.
  - eapply IH; [|done..]. lia.
Qed.

(** [std::lower_bound]: the loop keeps the end of the range on an element
    that is not below [x], or on the end of the vector. *)
Lemma lower_bound_loop_end fuel l x first count :
  count ≤ fuel → first + count ≤ length l →
  (∀ y, l !! (first + count) = Some y → x ≤ y) →
  let r := lower_bound_loop fuel l x first count in
  r ≤ length l ∧ ∀ y, l !! r = Some y → x ≤ y.
Proof.
  revert first count.
  induction fuel as [|fuel IH]; intros first count Hf Hlen Hend; cbn [lower_bound_loop].
  - assert (count = 0) as -> by lia. rewrite Nat.add_0_r in Hend. split; [lia|done].
  - destruct (count =? 0) eqn:E.
    + apply Nat.eqb_eq in E as ->. rewrite Nat.add_0_r in Hend. split; [lia|done].
    + apply Nat.eqb_neq in E.
      assert (count / 2 < count) as Hhalf by (apply Nat.div_lt; lia).
      destruct (default 0 (l !! (first + count / 2)) <? x) eqn:Hlt.
      * apply IH; [lia|lia|].
        intros y Hy. apply Hend.
        replace (first + count) with (first + count / 2 + 1 + (count - (count / 2 + 1)))
          by lia. done.
      * apply IH; [lia|lia|].
        intros y Hy. rewrite Hy in Hlt. simpl in Hlt. apply Nat.ltb_ge in Hlt. done.
Qed.

(** On a sorted vector the elements before the result are below [x]. *)
Lemma lower_bound_loop_below fuel l x first count :
  Sorted (≤) l → count ≤ fuel → first + count ≤ length l →
  (∀ i y, i < first → l !! i = Some y → y < x) →
  ∀ i y, i < lower_bound_loop fuel l x first count → l !! i = Some y → y < x.
Proof.
  intros Hs. revert first count.
  induction fuel as [|fuel IH]; intros first count Hf Hlen Hbelow;
    cbn [lower_bound_loop]; [done|].
  destruct (count =? 0) eqn:E; [done|]. apply Nat.eqb_neq in E.
  assert (count / 2 < count) as Hhalf by (apply Nat.div_lt; lia).
  destruct (default 0 (l !! (first + count / 2)) <? x) eqn:Hlt.
  - apply IH; [lia|lia|].
    intros i y Hi Hy.
    destruct (lookup_lt_is_Some_2 l (first + count / 2)) as [z Hz]; [lia|].
    rewrite Hz in Hlt. simpl in Hlt. apply Nat.ltb_lt in Hlt.
    assert (y ≤ z); [|lia]. eapply (Sorted_le_lookup l i (first + count / 2)); [done| |done..].
    lia.
  - apply IH; [lia|lia|done].
Qed.

Lemma lower_bound_spec l x :
  let r := lower_bound l x in
  r ≤ length l ∧ (∀ y, l !! r = Some y → x ≤ y) ∧
  (Sorted (≤) l → ∀ i y, i < r → l !! i = Some y → y < x).
Proof.
  unfold lower_bound.
  destruct (lower_bound_loop_end (length l) l x 0 (length l)) as [Hr Hend]; [lia|lia| |].
  { intros y Hy. apply lookup_lt_Some in Hy. simpl in Hy. lia. }
  split; [done|]. split; [done|].
  intros Hs. apply lower_bound_loop_below; [done|lia|lia|]. intros; lia.
Qed.

(** [std::binary_search] never finds an element that the vector does not
    hold, sorted or not. *)
Lemma binary_search_elem_of l x : binary_search l x = true → x ∈ l.
Proof.
  unfold binary_search. destruct (lower_bound_spec l x) as (Hr & Hend & _).
  intros Hb. apply andb_true_iff in Hb as [Hne Hge].
  apply bool_decide_eq_true in Hne. apply negb_true_iff, Nat.ltb_ge in Hge.
  destruct (lookup_lt_is_Some_2 l (lower_bound l x)) as [y Hy]; [lia|].
  rewrite Hy in Hge. simpl in Hge. specialize (Hend _ Hy).
  assert (y = x) as -> by lia. by eapply list_elem_of_lookup_2.
Qed.

(** On a sorted vector it finds every element. *)
Lemma lower_bound_found l x :
  Sorted (≤) l → x ∈ l →
  lower_bound l x ≠ length l ∧ l !! lower_bound l x = Some x.
Proof.
  intros Hs Hin. destruct (lower_bound_spec l x) as (Hr & Hend & Hbelow).
  specialize (Hbelow Hs). apply list_elem_of_lookup_1 in Hin as [i Hi].
  assert (lower_bound l x ≤ i) as Hle.
  { destruct (decide (lower_bound l x ≤ i)); [done|].
    assert (x < x); [|lia]. apply (Hbelow i); [lia|done]. }
  pose proof (lookup_lt_Some _ _ _ Hi) as Hlt.
  destruct (lookup_lt_is_Some_2 l (lower_bound l x)) as [y Hy]; [lia|].
  split; [lia|]. rewrite Hy. f_equal.
  specialize (Hend _ Hy). pose proof (Sorted_le_lookup l _ _ _ _ Hs Hle Hy Hi). lia.
Qed.

(** Swapping the element at [It] with the back of the vector and popping
    the back takes that element out of the vector. *)
Lemma swap_pop_Permutation (l1 l2 : list nat) x :
  x :: take (length (l1 ++ x :: l2) - 1)
         (<[length l1 := default 0 (last (l1 ++ x :: l2))]> (l1 ++ x :: l2))
  ≡ₚ l1 ++ x :: l2.
Proof.
  destruct l2 as [|z l2 _] using rev_ind.
  - rewrite last_snoc. simpl.
    rewrite insert_app_r_alt by lia. rewrite Nat.sub_diag. simpl.
    rewrite (take_app_length' l1) by (rewrite length_app; simpl; lia).
    apply Permutation_cons_append.
  - replace (l1 ++ x :: l2 ++ [z]) with ((l1 ++ x :: l2) ++ [z])
      by (by rewrite <- app_assoc).
    rewrite last_snoc. simpl.
    rewrite <- app_assoc. simpl.
    rewrite insert_app_r_alt by lia. rewrite Nat.sub_diag. simpl.
    replace (l1 ++ z :: l2 ++ [z]) with ((l1 ++ z :: l2) ++ [z])
      by (by rewrite <- app_assoc).
    rewrite (take_app_length' (l1 ++ z :: l2))
      by (rewrite !length_app; simpl; rewrite length_app; simpl; lia).
    rewrite <- (Permutation_middle l1 l2 z).
    rewrite <- (Permutation_middle l1 (l2 ++ [z]) x).
    apply perm_skip. rewrite app_assoc. apply Permutation_cons_append.
Qed.

Section FrontierKeeps.
Context {F : Type} `{FloatOps F} {Pkr : Packer F}.
Import BitVector BitVectorFacts.

Lemma count_reset bv i : test bv i = true → count (reset bv i) + 1 = count bv.
Proof.
  revert i. induction bv as [|b bv IH]; intros i Ht.
  - by rewrite test_nil in Ht.
  - destruct i as [|i].
    + rewrite test_cons_0 in Ht. subst b. simpl. lia.
    + rewrite test_cons_S in Ht. specialize (IH _ Ht).
      change (reset (b :: bv) (S i)) with (b :: reset bv i). simpl. lia.
Qed.

Lemma skipFrozen_spec Free It :
  ∃ passed, It = passed ++ skipFrozen Free It ∧
            Forall (λ J, test Free (getScalarId J) = false) passed ∧
            match skipFrozen Free It with
            | Inst :: _ => test Free (getScalarId Inst) = true
            | [] => True
            end.
Proof.
  induction It as [|Inst It (passed & Heq & Hall & Hhd)]; simpl.
  - by exists [].
  - destruct (test Free (getScalarId Inst)) eqn:E.
    + exists []. by rewrite E.
    + exists (Inst :: passed). simpl. split; [by f_equal|]. split; [by constructor|done].
Qed.

(** The fields of the frontier after a successful scalarization. *)
Lemma advanceInplace_Inst_fields TTI Inst Frt c Frt' :
  advanceInplace_Inst Inst TTI Frt = Some (c, Frt') →
  ∃ Frt1 R,
    freezeOneInst Inst Frt = Some Frt1 ∧
    BBIt Frt' = skipFrozen (FreeInsts Frt1) (BBIt Frt1) ∧
    UnresolvedPacks Frt' = sort_ptrs (remove (UnresolvedPacks Frt1) R) ∧
    UnresolvedScalars Frt'
    = markOperands Inst (FreeInsts Frt1) (UnresolvedScalars Frt1) ∧
    FreeInsts Frt' = FreeInsts Frt1 ∧
    UsableInsts Frt' = UsableInsts Frt1.
Proof.
  unfold advanceInplace_Inst.
  destruct (freezeOneInst Inst Frt) as [Frt1|]; [|done]. simpl.
  destruct (scalarizeLoop TTI _ Inst 0 _ _ []) as [[c1 R]|]; [|done].
  simpl. intros [= <- <-]. by exists Frt1, R.
Qed.

(** The fields of the frontier after a successful commit. *)
Lemma advanceInplace_VP_fields TTI VP Frt c Frt' :
  advanceInplace_VP VP TTI Frt = Some (c, Frt') →
  ∃ Frt1 U R,
    freezeAll (sortReplaced (getReplacedInsts VP)) Frt = Some Frt1 ∧
    BBIt Frt' = skipFrozen (FreeInsts Frt1) (BBIt Frt1) ∧
    UnresolvedPacks Frt' = sort_ptrs (remove U R) ∧
    UnresolvedScalars Frt' = UnresolvedScalars Frt1 ∧
    FreeInsts Frt' = FreeInsts Frt1 ∧
    UsableInsts Frt' = UsableInsts Frt1.
Proof.
  unfold advanceInplace_VP.
  destruct (if isStore VP then _ else _) as [VecTy|]; [|done]. simpl.
  destruct (freezeAll _ Frt) as [Frt1|]; [|done]. simpl.
  destruct (if isStore VP then _ else _) as [[c2 R]|]; [|done]. simpl.
  destruct (trackOperandPacks TTI _ _ c2 _) as [[c3 U]|]; [|done].
  simpl. intros [= <- <-]. by exists Frt1, U, R.
Qed.

(** The fields of the frontier after a successful shuffle. *)
Lemma advanceInplace_ST_fields TTI (ST : ShuffleTask F) Frt c Frt' :
  advanceInplace_ST ST TTI Frt = Some (c, Frt') →
  ∃ l, BBIt Frt' = BBIt Frt ∧
       UnresolvedPacks Frt' = sort_ptrs l ∧
       UnresolvedScalars Frt' = UnresolvedScalars Frt ∧
       FreeInsts Frt' = FreeInsts Frt ∧
       UsableInsts Frt' = UsableInsts Frt.
Proof.
  unfold advanceInplace_ST. cbv zeta.
  destruct (bool_decide (lower_bound _ _ = _)); [done|].
  destruct (bool_decide (UnresolvedPacks Frt !! _ = Some (Output ST))); [|done].
  simpl. intros [= <- <-]. by eexists.
Qed.

Lemma FrontierStep_AdvanceStep TTI Frt Frt' :
  RestrictedStep TTI Frt Frt' → AdvanceStep TTI Frt Frt'.
Proof.
  intros [Inst c ?? Hadv|VP c ?? _ Hadv|ST c ?? _ Hadv].
  - by eapply adv_scalarize.
  - by eapply adv_commit.
  - by eapply adv_shuffle.
Qed.

(** The restricted transitions are transitions of a search. *)
Lemma restricted_searched TTI Frt : restricted TTI Frt → searched TTI Frt.
Proof.
  unfold restricted, searched. induction 1 as [|x y z Hstep _ IH]; [done|].
  eapply rtc_l; [|exact IH]. by apply FrontierStep_AdvanceStep.
Qed.

Lemma step_packs_sorted TTI Frt Frt' :
  AdvanceStep TTI Frt Frt' → Sorted (≤) (UnresolvedPacks Frt').
Proof.
  intros [Inst c ?? Hadv|VP c ?? Hadv|ST c ?? Hadv].
  - apply advanceInplace_Inst_fields in Hadv as (Frt1 & R & _ & _ & -> & _).
    apply sort_ptrs_Sorted.
  - apply advanceInplace_VP_fields in Hadv as (Frt1 & U & R & _ & _ & -> & _).
    apply sort_ptrs_Sorted.
  - apply advanceInplace_ST_fields in Hadv as (l & _ & -> & _).
    apply sort_ptrs_Sorted.
Qed.

Lemma searched_sorted TTI Frt : searched TTI Frt → Sorted (≤) (UnresolvedPacks Frt).
Proof.
  intros Hreach. destruct (rtc_inv_r _ _ Hreach) as [<-|(Frt0 & _ & Hstep)].
  - constructor.
  - by eapply step_packs_sorted.
Qed.

(** A transition clears bits of [FreeInsts], and sets none. *)
Lemma step_free_shrinks TTI Frt Frt' J :
  AdvanceStep TTI Frt Frt' → isFree Frt' J = true → isFree Frt J = true.
Proof.
  unfold isFree.
  intros [Inst c ?? Hadv|VP c ?? Hadv|ST c ?? Hadv].
  - apply advanceInplace_Inst_fields in Hadv as (Frt1 & R & Hfr & _ & _ & _ & -> & _).
    apply freezeOneInst_inv in Hfr as (_ & _ & _ & _ & -> & _).
    rewrite test_reset. by case_decide.
  - apply advanceInplace_VP_fields in Hadv as (Frt1 & U & R & Hfr & _ & _ & _ & -> & _).
    apply freezeAll_inv in Hfr as (_ & _ & _ & -> & _).
    intros Ht. by apply andb_true_iff in Ht as [? _].
  - apply advanceInplace_ST_fields in Hadv as (l & _ & _ & _ & -> & _). done.
Qed.

Lemma cursor_inv_skip Frt Frt1 Frt' :
  cursor_inv Frt →
  BBIt Frt1 = BBIt Frt →
  (∀ J, isFree Frt1 J = true → isFree Frt J = true) →
  BBIt Frt' = skipFrozen (FreeInsts Frt1) (BBIt Frt1) →
  FreeInsts Frt' = FreeInsts Frt1 →
  cursor_inv Frt'.
Proof.
  intros (passed & Heq & Hall & _) HBB Hsub HBB' HF'.
  destruct (skipFrozen_spec (FreeInsts Frt1) (BBIt Frt1)) as (more & Hmore & Hm & Hhd).
  exists (passed ++ more). rewrite HBB'. split; [|split].
  - rewrite <- app_assoc, <- Hmore, HBB. done.
  - apply Forall_app. split.
    + eapply Forall_impl; [exact Hall|]. intros J HJ. simpl in HJ.
      destruct (isFree Frt' J) eqn:E; [|done].
      unfold isFree in E. rewrite HF' in E. apply Hsub in E. congruence.
    + eapply Forall_impl; [exact Hm|]. intros J HJ. simpl in HJ.
      unfold isFree. by rewrite HF'.
  - destruct (skipFrozen _ _) as [|Inst rest]; [done|]. unfold isFree. by rewrite HF'.
Qed.

Lemma step_cursor_inv TTI Frt Frt' :
  AdvanceStep TTI Frt Frt' → cursor_inv Frt → cursor_inv Frt'.
Proof.
  intros Hstep Hinv.
  destruct Hstep as [Inst c Frt Frt' Hadv|VP c Frt Frt' Hadv|ST c Frt Frt' Hadv].
  - apply advanceInplace_Inst_fields in Hadv as (Frt1 & R & Hfr & HBB & _ & _ & HF & _).
    apply freezeOneInst_inv in Hfr as (_ & HBB1 & _ & _ & HF1 & _).
    apply (cursor_inv_skip Frt Frt1); [done..| |done|done].
    intros J. unfold isFree. rewrite HF1, test_reset. by case_decide.
  - apply advanceInplace_VP_fields in Hadv as (Frt1 & U & R & Hfr & HBB & _ & _ & HF & _).
    apply freezeAll_inv in Hfr as (_ & HBB1 & _ & HF1 & _).
    apply (cursor_inv_skip Frt Frt1); [done..| |done|done].
    intros J. unfold isFree. rewrite HF1. intros Ht. by apply andb_true_iff in Ht as [? _].
  - apply advanceInplace_ST_fields in Hadv as (l & HBB & _ & _ & HF & _).
    destruct Hinv as (passed & Heq & Hall & Hhd). exists passed.
    unfold isFree in *. rewrite HBB, HF. done.
Qed.

Lemma cursor_inv_ctor : index_ok → cursor_inv Frontier_ctor.
Proof.
  intros [_ Hall]. exists []. split; [done|]. split; [done|]. simpl.
  destruct (reverse insts) as [|Inst rest] eqn:E; [done|].
  assert (Inst ∈ insts) as Hin.
  { apply elem_of_reverse. rewrite E. left. }
  rewrite Forall_forall in Hall. destruct (Hall _ Hin) as [Hlt _].
  unfold isFree. simpl. rewrite test_make. by rewrite decide_True.
Qed.

Lemma searched_cursor_inv TTI Frt : index_ok → searched TTI Frt → cursor_inv Frt.
Proof.
  intros Hidx Hreach. revert Frt Hreach. apply rtc_ind_r.
  - by apply cursor_inv_ctor.
  - intros y z _ Hstep IH. by eapply step_cursor_inv.
Qed.

Lemma cursor_inv_last Frt : cursor_inv Frt → isLastFree Frt (getNextFreeInst Frt).
Proof.
  intros (passed & Heq & Hall & Hhd). unfold getNextFreeInst.
  assert (insts = reverse (BBIt Frt) ++ reverse passed) as Hinsts.
  { rewrite <- reverse_app, <- Heq. by rewrite reverse_involutive. }
  rewrite Forall_forall in Hall.
  destruct (BBIt Frt) as [|Inst rest]; simpl.
  - intros J HJ. apply Hall. rewrite Hinsts in HJ. simpl in HJ.
    by apply elem_of_reverse.
  - exists (length rest). rewrite Hinsts, reverse_cons, <- app_assoc.
    split; [|split; [done|]].
    + rewrite lookup_app_r by (rewrite length_reverse; lia).
      by rewrite length_reverse, Nat.sub_diag.
    + intros j J Hj HJ.
      rewrite lookup_app_r in HJ by (rewrite length_reverse; lia).
      rewrite length_reverse in HJ.
      destruct (j - length rest) as [|n] eqn:E; [lia|]. simpl in HJ.
      apply Hall. apply elem_of_reverse. by eapply list_elem_of_lookup_2.
Qed.

End FrontierKeeps.

Section BitSets.
Context {F : Type} `{FloatOps F} {Pkr : Packer F}.
Import BitVector BitVectorFacts.

Hypothesis Hidx : index_ok.
Hypothesis Hcl : index_closed.
Hypothesis Hblk : block_ok.
Hypothesis Hdu : def_use_ok.

Lemma free_in_block Frt Inst :
  length (FreeInsts Frt) = getNumValues → isFree Frt Inst = true → Inst ∈ insts.
Proof using Hcl.
  intros Hlen Hfree. apply Hcl. rewrite <- Hlen. by apply test_lt.
Qed.

Lemma bits_inv_ext Frt Frt' :
  UnresolvedScalars Frt' = UnresolvedScalars Frt →
  FreeInsts Frt' = FreeInsts Frt →
  UsableInsts Frt' = UsableInsts Frt →
  bits_inv Frt → bits_inv Frt'.
Proof.
  intros HUS HF HUs (H1 & H2 & H3 & H4 & H5 & H6).
  unfold bits_inv, isFree, isUsable in *. rewrite HUS, HF, HUs.
  split; [done|]. split; [done|]. split; [done|]. split; [done|]. split; [|done].
  intros Inst Hin. rewrite (allUsersFrozen_ext Frt' Frt) by done. by apply H5.
Qed.

Lemma bits_inv_ctor : bits_inv Frontier_ctor.
Proof using Hidx Hblk.
  destruct (scalar_inv_ctor Hidx Hblk) as (_ & H1 & H2 & H3 & H4 & H5 & H6).
  split; [done|]. split; [done|]. split; [done|]. split; [done|]. split.
  - intros Inst Hin.
    assert (isFree Frontier_ctor Inst = true) as Hfree.
    { unfold isFree. simpl. rewrite test_make.
      by rewrite decide_True by by apply (id_lt Hidx). }
    rewrite Hfree. simpl.
    destruct (isPHI Inst || allUsersFrozen Frontier_ctor Inst) eqn:E.
    + apply H6; [done..|]. apply orb_true_iff in E. done.
    + apply orb_false_iff in E as [HnP HnA].
      destruct (isUsable Frontier_ctor Inst) eqn:Hus; [|done].
      unfold isUsable, Frontier_ctor in Hus. simpl in Hus.
      destruct (ctor_loop_spec insts (make getNumValues false) (make getNumValues false)
                  getNumValues getNumValues (getScalarId Inst)
                  (length_make _ _) (length_make _ _))
        as (_ & _ & _ & HUs).
      rewrite HUs in Hus. rewrite test_make in Hus.
      assert (existsb (λ J, (negb (hasUserInside J) || isPHI J)
                            && bool_decide (getScalarId J = getScalarId Inst
                                            ∧ getScalarId J < getNumValues)) insts = true)
        as Hex by (destruct (decide (getScalarId Inst < getNumValues)); done).
      destruct Hidx as [Hnd _].
      rewrite (existsb_id_unique (λ J, negb (hasUserInside J) || isPHI J) _ _ Hnd Hin
                 (id_lt Hidx _ Hin)) in Hex.
      rewrite HnP, orb_false_r in Hex. apply negb_true_iff in Hex.
      apply not_true_iff_false in HnA. destruct HnA.
      apply (allUsersFrozen_spec Hblk). intros User HU HUin.
      by destruct (hasUserInside_false Hblk _ Hex User HU HUin).
  - intros k Hk. destruct (H5 _ Hk) as (Inst & Hin & Hid & _). by exists Inst.
Qed.

(** Freezing clears bits of [FreeInsts] only: an instruction whose users
    are all frozen stays so. *)
Lemma allUsersFrozen_mono Frt Frt1 J :
  (∀ K, isFree Frt1 K = true → isFree Frt K = true) →
  allUsersFrozen Frt J = true → allUsersFrozen Frt1 J = true.
Proof using Hblk.
  intros Hsub. rewrite !(allUsersFrozen_spec Hblk). intros Hall User HU HUin.
  destruct (isFree Frt1 User) eqn:E; [|done]. apply Hsub in E.
  by rewrite (Hall _ HU HUin) in E.
Qed.

Lemma freezeOneInst_bits_inv Inst Frt Frt1 :
  bits_inv Frt → freezeOneInst Inst Frt = Some Frt1 → bits_inv Frt1.
Proof using Hidx Hcl Hblk Hdu.
  intros (HlUS & HlF & HlUs & HUS & Hiff & HUs) Hfr.
  pose proof (λ k, freezeOneInst_usable Inst Frt Frt1 k Hfr) as HUs1.
  apply freezeOneInst_inv in Hfr as (Hfree & _ & _ & HUS1 & HF1 & HL1).
  assert (Inst ∈ insts) as Hin by by eapply free_in_block.
  assert (∀ J, isFree Frt1 J
               = if decide (getScalarId Inst = getScalarId J) then false else isFree Frt J)
    as HfreeJ by (intros J; by apply isFree_reset).
  assert (∀ K, isFree Frt1 K = true → isFree Frt K = true) as Hsub.
  { intros K. rewrite HfreeJ. by case_decide. }
  split; [by rewrite HUS1, length_reset|].
  split; [by rewrite HF1, length_reset|].
  split; [by rewrite HL1|].
  split; [|split].
  - intros k Hk. rewrite HUS1, test_reset in Hk. case_decide as Hd; [done|].
    destruct (HUS _ Hk) as (J & HJ & Hid & HJfree). exists J.
    split; [done|]. split; [done|]. rewrite HfreeJ.
    rewrite decide_False by congruence. done.
  - intros J HJ. unfold isUsable. rewrite HUs1, test_reset, HfreeJ.
    assert (∀ O, becomesUsable Frt1 (getScalarId J) O = true →
                 O = VInst J ∧ isFree Frt1 J = true ∧ allUsersFrozen Frt1 J = true) as Hbec.
    { intros O HO. unfold becomesUsable in HO.
      destruct O as [OI| |]; simpl in HO; try done.
      apply andb_true_iff in HO as [HO Hid]. apply andb_true_iff in HO as [HO HA].
      apply andb_true_iff in HO as [Hb Hf].
      apply bool_decide_eq_true in Hid as [Hid _].
      apply (inBB_insts Hblk) in Hb.
      apply (id_inj Hidx _ _ Hb HJ) in Hid. by subst. }
    case_decide as Hd.
    + (* the frozen instruction itself *)
      simpl. apply not_true_iff_false. intros Hex.
      apply existsb_exists in Hex as (O & _ & HO).
      apply Hbec in HO as (_ & Hf & _). rewrite HfreeJ in Hf.
      by rewrite decide_True in Hf.
    + specialize (Hiff J HJ). unfold isUsable in Hiff. rewrite Hiff.
      destruct (isFree Frt J) eqn:HJfree; simpl.
      * destruct (isPHI J) eqn:HP; simpl; [done|].
        destruct (allUsersFrozen Frt J) eqn:HA; simpl.
        { symmetry. by apply (allUsersFrozen_mono Frt). }
        destruct (allUsersFrozen Frt1 J) eqn:HA1.
        -- (* the last free user of [J] was frozen: [J] is an operand *)
           assert (VInst Inst ∈ users J) as Huser.
           { apply not_true_iff_false in HA.
             destruct (decide (VInst Inst ∈ users J)); [done|].
             destruct HA. apply (allUsersFrozen_spec Hblk). intros User HU HUin.
             rewrite (allUsersFrozen_spec Hblk) in HA1. specialize (HA1 _ HU HUin).
             rewrite HfreeJ in HA1.
             case_decide as Hd'; [|done].
             apply (id_inj Hidx _ _ Hin HUin) in Hd'. by subst. }
           destruct Hdu as [Hops _]. specialize (Hops J Inst HJ Hin Huser).
           apply existsb_exists. exists (VInst J). split; [by apply list_elem_of_In|].
           unfold becomesUsable. simpl. rewrite HA1.
           rewrite (proj2 (inBB_insts Hblk J) HJ). simpl.
           rewrite HfreeJ. rewrite decide_False by done.
           rewrite HJfree. simpl. apply bool_decide_eq_true. split; [done|].
           rewrite HL1, HlUs. by apply (id_lt Hidx).
        -- apply not_true_iff_false. intros Hex.
           apply existsb_exists in Hex as (O & _ & HO).
           apply Hbec in HO as (_ & _ & HA'). congruence.
      * apply not_true_iff_false. intros Hex.
        apply existsb_exists in Hex as (O & _ & HO).
        apply Hbec in HO as (_ & Hf & _). rewrite HfreeJ in Hf.
        rewrite decide_False in Hf by done. congruence.
  - intros k Hk. rewrite HUs1 in Hk. apply orb_true_iff in Hk as [Hk|Hk].
    + rewrite test_reset in Hk. case_decide; [done|]. by apply HUs.
    + apply existsb_exists in Hk as (O & _ & HO). unfold becomesUsable in HO.
      destruct (dyn_cast_Instruction O) as [OI|]; [|done].
      apply andb_true_iff in HO as [HO Hid]. apply andb_true_iff in HO as [HO _].
      apply andb_true_iff in HO as [Hb _].
      apply bool_decide_eq_true in Hid as [<- _].
      exists OI. split; [by apply (inBB_insts Hblk)|done].
Qed.

Lemma freezeAll_bits_inv l Frt Frt1 :
  bits_inv Frt → freezeAll l Frt = Some Frt1 → bits_inv Frt1.
Proof using Hidx Hcl Hblk Hdu.
  revert Frt. induction l as [|Inst l IH]; intros Frt Hinv; simpl.
  - by intros [= <-].
  - destruct (freezeOneInst Inst Frt) as [Frt0|] eqn:Hfr; [|done]. simpl.
    apply IH. by eapply freezeOneInst_bits_inv.
Qed.

Lemma step_bits_inv TTI Frt Frt' :
  AdvanceStep TTI Frt Frt' → bits_inv Frt → bits_inv Frt'.
Proof using Hidx Hcl Hblk Hdu.
  intros Hstep Hinv.
  destruct Hstep as [Inst c Frt Frt' Hadv|VP c Frt Frt' Hadv|ST c Frt Frt' Hadv].
  - apply advanceInplace_Inst_fields in Hadv as (Frt1 & R & Hfr & _ & _ & HUS & HF & HUs).
    pose proof (freezeOneInst_bits_inv _ _ _ Hinv Hfr) as Hinv1.
    assert (bits_inv {| BBIt := BBIt Frt'; UnresolvedPacks := UnresolvedPacks Frt';
                        UnresolvedScalars := UnresolvedScalars Frt1;
                        FreeInsts := FreeInsts Frt'; UsableInsts := UsableInsts Frt' |})
      as (H1 & H2 & H3 & H4 & H5 & H6) by (by apply (bits_inv_ext Frt1)).
    destruct (markOperands_spec Inst (FreeInsts Frt1) (UnresolvedScalars Frt1) 0) as [HlM _].
    unfold bits_inv, isFree, isUsable in *. simpl in *.
    split; [by rewrite HUS, HlM|]. split; [done|]. split; [done|].
    split; [|split; [|done]].
    + intros k Hk. rewrite HUS in Hk.
      destruct (markOperands_spec Inst (FreeInsts Frt1) (UnresolvedScalars Frt1) k)
        as [_ Ht].
      rewrite Ht in Hk. apply orb_true_iff in Hk as [Hk|Hk]; [by apply H4|].
      apply existsb_exists in Hk as (O & _ & HO).
      destruct (dyn_cast_Instruction O) as [I2|]; [|done].
      apply andb_true_iff in HO as [HO Hid]. apply andb_true_iff in HO as [Hb Hf].
      apply bool_decide_eq_true in Hid as [<- _].
      exists I2. split; [by apply (inBB_insts Hblk)|]. split; [done|]. by rewrite HF.
    + intros J HJ. by rewrite (H5 J HJ).
  - apply advanceInplace_VP_fields in Hadv
      as (Frt1 & U & R & Hfr & _ & _ & HUS & HF & HUs).
    apply (bits_inv_ext Frt1); [done..|]. by eapply freezeAll_bits_inv.
  - apply advanceInplace_ST_fields in Hadv as (l & _ & _ & HUS & HF & HUs).
    by apply (bits_inv_ext Frt).
Qed.

Lemma searched_bits_inv TTI Frt : searched TTI Frt → bits_inv Frt.
Proof using Hidx Hcl Hblk Hdu.
  intros Hreach. revert Frt Hreach. apply rtc_ind_r.
  - apply bits_inv_ctor.
  - intros y z _ Hstep IH. by eapply step_bits_inv.
Qed.

End BitSets.

Section FrontierTheorems.
Context {F : Type} `{FloatOps F} {Pkr : Packer F}.
Import BitVector BitVectorFacts.

(** X1. Whatever successful transitions led to it (scalarizations, commits
    of any pack, shuffles), the cursor of a frontier is on the free
    instruction that comes last in the block: [getNextFreeInst] returns
    that instruction, and it returns null only when every instruction of
    the block is frozen. *)
Theorem reachable_next_free_inst TTI Frt :
  index_ok → searched TTI Frt → isLastFree Frt (getNextFreeInst Frt).
Proof.
  intros Hidx Hreach. apply cursor_inv_last. by eapply searched_cursor_inv.
Qed.

(** X2. In every frontier of a search, whatever successful transitions led
    to it, an instruction of the block is usable exactly when it is free
    and either a phi or without a free user in the block. *)
Theorem reachable_usable_iff TTI Frt Inst :
  index_ok → index_closed → block_ok → def_use_ok →
  searched TTI Frt → Inst ∈ insts →
  isUsable Frt Inst = true ↔
  isFree Frt Inst = true ∧
  (isPHI Inst = true ∨
   ∀ User, VInst User ∈ users Inst → User ∈ insts → isFree Frt User = false).
Proof.
  intros Hidx Hcl Hblk Hdu Hreach Hin.
  destruct (searched_bits_inv Hidx Hcl Hblk Hdu TTI Frt Hreach)
    as (_ & _ & _ & _ & Hiff & _).
  rewrite (Hiff Inst Hin), andb_true_iff, orb_true_iff.
  by rewrite (allUsersFrozen_spec Hblk).
Qed.

(** X3. In every frontier of a search, whatever successful transitions led
    to it, an unresolved scalar is a free instruction of the block: the bit
    of a frozen instruction is never set in [UnresolvedScalars]. *)
Theorem reachable_unresolved_scalar_free TTI Frt k :
  index_ok → index_closed → block_ok → def_use_ok →
  searched TTI Frt →
  test (UnresolvedScalars Frt) k = true →
  ∃ Inst, Inst ∈ insts ∧ getScalarId Inst = k ∧ isFree Frt Inst = true.
Proof.
  intros Hidx Hcl Hblk Hdu Hreach Hk.
  destruct (searched_bits_inv Hidx Hcl Hblk Hdu TTI Frt Hreach)
    as (_ & _ & _ & HUS & _).
  by apply HUS.
Qed.

(** While an instruction of the block is free, one is usable: a free phi,
    or else the last free instruction of the block. *)
Lemma bits_inv_usable Frt I0 :
  index_ok → block_ok → def_use_ok →
  bits_inv Frt → I0 ∈ insts → isFree Frt I0 = true →
  ∃ Inst, Inst ∈ insts ∧ isUsable Frt Inst = true.
Proof.
  intros Hidx Hblk Hdu (_ & _ & _ & _ & Hiff & _) HI0 Hfree0.
  destruct (decide (Exists (λ J, isFree Frt J = true ∧ isPHI J = true) insts)) as [Hex|Hno].
  - apply Exists_exists in Hex as (J & HJ & HJfree & HJphi).
    exists J. split; [done|]. by rewrite (Hiff J HJ), HJfree, HJphi.
  - destruct (last_such (λ J, isFree Frt J = true) insts I0 HI0 Hfree0)
      as (i & Inst & Hi & Hfree & Hmax).
    assert (Inst ∈ insts) as Hin by by eapply list_elem_of_lookup_2.
    exists Inst. split; [done|]. rewrite (Hiff Inst Hin), Hfree. simpl.
    apply orb_true_iff. right.
    apply (allUsersFrozen_spec Hblk). intros User HU HUin.
    destruct (isFree Frt User) eqn:HUfree; [|done]. exfalso.
    assert (getOpcode User ≠ OpPHI) as HnP.
    { intros HP. apply Hno, Exists_exists. exists User.
      split; [done|]. split; [done|]. unfold isPHI. by apply bool_decide_eq_true. }
    destruct Hdu as [_ Hlater].
    destruct (Hlater Inst User Hin HUin HU HnP) as (i' & j & Hi' & Hj & Hlt).
    assert (i' = i) as -> by (eapply NoDup_lookup; [apply (NoDup_insts Hidx)|done..]).
    by apply (Hmax j User).
Qed.

Lemma bits_inv_firstUsableInst Frt J :
  index_ok → bits_inv Frt → J ∈ insts → isUsable Frt J = true →
  ∃ Inst, firstUsableInst Frt = Some Inst ∧ Inst ∈ insts ∧ isUsable Frt Inst = true.
Proof.
  intros Hidx (_ & _ & _ & _ & _ & HUs) HJ HJus.
  unfold firstUsableInst, usableInsts.
  destruct (set_bits (UsableInsts Frt)) as [|k0 rest] eqn:E.
  - assert (getScalarId J ∈ set_bits (UsableInsts Frt)) as Hin
      by by apply elem_of_set_bits.
    rewrite E in Hin. by apply elem_of_nil in Hin.
  - assert (test (UsableInsts Frt) k0 = true) as Hk0.
    { apply elem_of_set_bits. rewrite E. left. }
    destruct (HUs _ Hk0) as (Inst & Hin & <-).
    exists Inst. rewrite fmap_cons. simpl. rewrite (getScalar_id Hidx _ Hin). simpl.
    done.
Qed.

(** X4. A scalarization is always possible: in every frontier of a search,
    whatever successful transitions led to it, that has a free instruction
    of the block, some instruction of the block is usable, and
    [usableInsts] lists it. *)
Theorem reachable_free_has_usable TTI Frt I0 :
  index_ok → index_closed → block_ok → def_use_ok →
  searched TTI Frt → I0 ∈ insts → isFree Frt I0 = true →
  ∃ Inst, Inst ∈ insts ∧ isUsable Frt Inst = true ∧ VInst Inst ∈ usableInsts Frt.
Proof.
  intros Hidx Hcl Hblk Hdu Hreach HI0 Hfree0.
  pose proof (searched_bits_inv Hidx Hcl Hblk Hdu TTI Frt Hreach) as Hinv.
  destruct (bits_inv_usable Frt I0 Hidx Hblk Hdu Hinv HI0 Hfree0) as (Inst & Hin & Hus).
  exists Inst. split; [done|]. split; [done|].
  unfold usableInsts. apply list_elem_of_fmap. exists (getScalarId Inst).
  split; [by rewrite (getScalar_id Hidx _ Hin)|]. by apply elem_of_set_bits.
Qed.

(** The unresolved packs of a frontier reached by restricted transitions
    have a lane that holds a free instruction of the block. *)
Lemma reachable_packs_unresolved TTI Frt :
  restricted TTI Frt →
  Forall (λ p, resolved Frt (getOperandPack p) = false) (UnresolvedPacks Frt).
Proof.
  revert Frt. apply rtc_ind_r.
  - by constructor.
  - intros y z _ Hstep IH. by eapply step_keeps_invariant.
Qed.

Lemma unresolved_packTyped Frt p :
  types_ok → resolved Frt (getOperandPack p) = false → packTyped p.
Proof.
  intros Hty Hres. apply resolved_false in Hres as (Inst & Hin & _).
  unfold packTyped, getVectorType_OP.
  destruct (Ty (getOperandPack p)) as [T|] eqn:E.
  - exists T. split; [done|]. by eapply Hty.
  - destruct (omap (λ V, V) (lanes (getOperandPack p))) as [|V l] eqn:E2.
    + assert (VInst Inst ∈ omap (λ V : option Value, V) (lanes (getOperandPack p)))
        as Hx by (apply list_elem_of_omap; by exists (Some (VInst Inst))).
      rewrite E2 in Hx. by apply elem_of_nil in Hx.
    + simpl. by eexists.
Qed.

Lemma freeCount_pos Frt :
  freeCount Frt ≠ 0 → ∃ I0, I0 ∈ insts ∧ isFree Frt I0 = true.
Proof.
  unfold freeCount. intros Hne.
  destruct (filter (λ Inst, isFree Frt Inst = true) insts) as [|I0 l] eqn:E; [done|].
  assert (I0 ∈ filter (λ Inst, isFree Frt Inst = true) insts) as Hin
    by (rewrite E; left).
  apply list_elem_of_filter in Hin as [? ?]. by exists I0.
Qed.

(** One round of the loop that scalarizes what is left. While something is
    unresolved, and an instruction is free whenever a pack is unresolved,
    a first usable instruction exists and its scalarization is defined;
    the free instructions are one fewer after it, and every pack that is
    still unresolved holds a free instruction of the block. *)
Lemma scalarizeAll_round TTI Frt :
  index_ok → index_closed → block_ok → def_use_ok → types_ok →
  searched TTI Frt →
  Forall packTyped (UnresolvedPacks Frt) →
  (freeCount Frt = 0 → UnresolvedPacks Frt = []) →
  negb (numUnresolvedScalars Frt =? 0) || negb (length (UnresolvedPacks Frt) =? 0)
  = true →
  ∃ Inst c Frt1,
    firstUsableInst Frt = Some Inst ∧ Inst ∈ insts ∧
    advanceInplace_Inst Inst TTI Frt = Some (c, Frt1) ∧
    searched TTI Frt1 ∧
    Forall packTyped (UnresolvedPacks Frt1) ∧
    (freeCount Frt1 = 0 → UnresolvedPacks Frt1 = []) ∧
    freeCount Frt1 < freeCount Frt.
Proof.
  intros Hidx Hcl Hblk Hdu Hty Hreach Htyped Hfree0 Hcond.
  pose proof (searched_bits_inv Hidx Hcl Hblk Hdu TTI Frt Hreach) as Hinv.
  assert (∃ I0, I0 ∈ insts ∧ isFree Frt I0 = true) as (I0 & HI0 & HfreeI0).
  { apply orb_true_iff in Hcond as [Hc|Hc]; apply negb_true_iff, Nat.eqb_neq in Hc.
    - apply count_pos in Hc as [k Hk].
      destruct Hinv as (_ & _ & _ & HUS & _).
      destruct (HUS _ Hk) as (I0 & ? & _ & ?). by exists I0.
    - apply freeCount_pos. intros Hz. apply Hfree0 in Hz. by rewrite Hz in Hc. }
  destruct (bits_inv_usable Frt I0 Hidx Hblk Hdu Hinv HI0 HfreeI0) as (J & HJ & HJus).
  destruct (bits_inv_firstUsableInst Frt J Hidx Hinv HJ HJus) as (Inst & Hfirst & Hin & Hus).
  assert (isFree Frt Inst = true) as Hfree.
  { destruct Hinv as (_ & _ & _ & _ & Hiff & _). rewrite (Hiff Inst Hin) in Hus.
    by apply andb_true_iff in Hus as [? _]. }
  assert (∃ c Frt1, advanceInplace_Inst Inst TTI Frt = Some (c, Frt1))
    as (c & Frt1 & Hadv).
  { unfold advanceInplace_Inst.
    destruct (freezeOneInst_Some _ _ Hfree) as (Frt0 & -> & _ & HUP0 & _).
    simpl. rewrite scalarizeLoop_code; [by eexists _, _|]. by rewrite HUP0. }
  exists Inst, c, Frt1. split; [done|]. split; [done|]. split; [done|].
  split; [eapply rtc_r; [exact Hreach|]; by eapply adv_scalarize|].
  pose proof (advanceInplace_Inst_inv _ _ _ _ _ Hadv) as (_ & HF1 & HUP1).
  assert (Forall (λ p, resolved Frt1 (getOperandPack p) = false) (UnresolvedPacks Frt1))
    as Hunres.
  { apply Forall_forall. intros p Hp. rewrite HUP1 in Hp.
    apply elem_of_sort_ptrs, list_elem_of_filter in Hp as [Hl _].
    unfold leavesOnScalarize in Hl. by apply orb_false_iff in Hl as [_ ?]. }
  split; [|split].
  - eapply Forall_impl; [exact Hunres|].
    intros p Hp. exact (unresolved_packTyped Frt1 p Hty Hp).
  - intros Hz. destruct (UnresolvedPacks Frt1) as [|p ps]; [done|].
    apply Forall_cons in Hunres as [Hp _].
    apply resolved_false in Hp as (I1 & _ & Hb & Hf).
    apply (inBB_insts Hblk) in Hb. exfalso.
    assert (I1 ∈ filter (λ Inst, isFree Frt1 Inst = true) insts) as Hx
      by by apply list_elem_of_filter.
    unfold freeCount in Hz. apply length_zero_iff_nil in Hz. rewrite Hz in Hx.
    by apply elem_of_nil in Hx.
  - unfold freeCount. apply (filter_length_lt _ _ _ Inst); [|done|done|].
    + intros y _. rewrite (isFree_reset Frt Frt1 _ _ HF1). by case_decide.
    + rewrite (isFree_reset Frt Frt1 _ _ HF1). by rewrite decide_True.
Qed.

(** The loop returns when an instruction is free whenever a pack is
    unresolved. *)
Lemma scalarizeAll_Some TTI fuel Frt Cost :
  index_ok → index_closed → block_ok → def_use_ok → types_ok →
  searched TTI Frt →
  Forall packTyped (UnresolvedPacks Frt) →
  (freeCount Frt = 0 → UnresolvedPacks Frt = []) →
  freeCount Frt < fuel →
  ∃ Frt' Cost',
    scalarizeAll fuel TTI Frt Cost = Some (Frt', Cost') ∧
    searched TTI Frt' ∧
    numUnresolvedScalars Frt' = 0 ∧ UnresolvedPacks Frt' = [].
Proof.
  intros Hidx Hcl Hblk Hdu Hty. revert Frt Cost.
  induction fuel as [|fuel IH]; intros Frt Cost Hreach Htyped Hfree0 Hfuel; [lia|].
  simpl.
  destruct (negb (numUnresolvedScalars Frt =? 0)
            || negb (length (UnresolvedPacks Frt) =? 0)) eqn:Hcond.
  - destruct (scalarizeAll_round TTI Frt Hidx Hcl Hblk Hdu Hty Hreach Htyped Hfree0 Hcond)
      as (Inst & c & Frt1 & -> & _ & -> & Hreach1 & Htyped1 & Hfree1 & Hlt).
    simpl. apply IH; [done..|lia].
  - apply orb_false_iff in Hcond as [Hc1 Hc2].
    apply negb_false_iff, Nat.eqb_eq in Hc1. apply negb_false_iff, Nat.eqb_eq in Hc2.
    exists Frt, Cost. split; [done|]. split; [done|]. split; [done|].
    by apply length_zero_iff_nil.
Qed.

(** With no free instruction, no instruction is usable. *)
Lemma bits_inv_no_usable Frt :
  bits_inv Frt → freeCount Frt = 0 → firstUsableInst Frt = None.
Proof.
  intros (_ & _ & _ & _ & Hiff & HUs) Hz.
  unfold firstUsableInst, usableInsts.
  destruct (set_bits (UsableInsts Frt)) as [|k rest] eqn:E; [done|].
  assert (test (UsableInsts Frt) k = true) as Hk
    by (apply elem_of_set_bits; rewrite E; left).
  destruct (HUs _ Hk) as (Inst & Hin & <-).
  assert (isUsable Frt Inst = true) as Hus by done.
  rewrite (Hiff Inst Hin) in Hus. apply andb_true_iff in Hus as [Hfree _].
  assert (Inst ∈ filter (λ Inst, isFree Frt Inst = true) insts) as Hx
    by by apply list_elem_of_filter.
  unfold freeCount in Hz. apply length_zero_iff_nil in Hz. rewrite Hz in Hx.
  by apply elem_of_nil in Hx.
Qed.

(** X5. The loop that scalarizes what is left, from a frontier of a search
    (whatever successful transitions led to it) whose unresolved packs
    have a vector type, as the asserts of the scalarization ask. When an
    instruction is free whenever a pack is unresolved, the loop terminates
    within as many iterations as the block has free instructions, and it
    ends on a frontier without unresolved scalars and without unresolved
    packs. When no instruction is free and a pack is unresolved, which
    commits that freeze more than their lanes lead to, the loop never
    ends: it returns for no number of iterations. *)
Theorem scalarizeAll_returns TTI Frt :
  index_ok → index_closed → block_ok → def_use_ok → types_ok →
  searched TTI Frt →
  Forall packTyped (UnresolvedPacks Frt) →
  ((freeCount Frt = 0 → UnresolvedPacks Frt = []) →
   ∀ fuel Cost, freeCount Frt < fuel →
     ∃ Frt' Cost',
       scalarizeAll fuel TTI Frt Cost = Some (Frt', Cost') ∧
       searched TTI Frt' ∧
       numUnresolvedScalars Frt' = 0 ∧ UnresolvedPacks Frt' = []) ∧
  (freeCount Frt = 0 → UnresolvedPacks Frt ≠ [] →
   ∀ fuel Cost, scalarizeAll fuel TTI Frt Cost = None).
Proof.
  intros Hidx Hcl Hblk Hdu Hty Hreach Htyped. split.
  - intros Hfree0 fuel Cost Hfuel. by apply scalarizeAll_Some.
  - intros Hz Hne fuel Cost.
    pose proof (searched_bits_inv Hidx Hcl Hblk Hdu TTI Frt Hreach) as Hinv.
    pose proof (bits_inv_no_usable Frt Hinv Hz) as Hnone.
    assert (negb (length (UnresolvedPacks Frt) =? 0) = true) as Hc.
    { apply negb_true_iff, Nat.eqb_neq. intros Hl.
      by apply length_zero_iff_nil in Hl. }
    revert Cost. induction fuel as [|fuel IH]; intros Cost; [done|].
    simpl. rewrite Hc, orb_true_r, Hnone. apply IH.
Qed.

(** The packs that the loop over the operand packs of a committed pack
    leaves: none that is not resolved is missing. *)
Lemma trackOperandPacks_complete TTI Frt packs c U c' U' :
  trackOperandPacks TTI Frt packs c U = Some (c', U') →
  (∀ p, p ∈ U → p ∈ U') ∧
  ∀ p, p ∈ packs → resolved Frt (getOperandPack p) = false → p ∈ U'.
Proof.
  revert c U. induction packs as [|q packs IH]; intros c U; simpl.
  - intros [= <- <-]. split; [done|]. intros p Hp. by apply elem_of_nil in Hp.
  - destruct (getVectorType_OP (getOperandPack q)) as [vt|]; [|done]. simpl.
    intros Htr. apply IH in Htr as [Hmono Hall]. split.
    + intros p Hp. apply Hmono.
      destruct (negb _ && negb _); [|done]. apply elem_of_app. by left.
    + intros p Hp Hres. apply elem_of_cons in Hp as [->|Hp]; [|by apply Hall].
      apply Hmono. rewrite Hres. simpl.
      destruct (binary_search U q) eqn:Hbs; simpl.
      * by apply binary_search_elem_of.
      * apply elem_of_app. right. left.
Qed.

(** X6. Committing a pack tracks its operands: every operand pack of the
    committed pack that still has a lane with a free instruction of the
    block is an unresolved pack of the new frontier. *)
Theorem advanceInplace_VP_tracks_operands TTI VP Frt c Frt' p :
  advanceInplace_VP VP TTI Frt = Some (c, Frt') →
  p ∈ getOperandPacks VP →
  resolved Frt' (getOperandPack p) = false →
  p ∈ UnresolvedPacks Frt'.
Proof.
  unfold advanceInplace_VP.
  destruct (if isStore VP then _ else _) as [VecTy|]; [|done]. simpl.
  destruct (freezeAll _ Frt) as [Frt1|] eqn:Hfr; [|done]. simpl.
  apply freezeAll_inv in Hfr as Hinv. destruct Hinv as (HUP & _).
  destruct (isStore VP) eqn:Hstore; simpl.
  - destruct (trackOperandPacks TTI _ _ _ _) as [[c3 U]|] eqn:Htr; [|done].
    simpl. intros [= <- <-] Hp Hres. simpl.
    apply trackOperandPacks_complete in Htr as [_ Hall].
    rewrite remove_nil. apply elem_of_sort_ptrs. apply Hall; [done|].
    by rewrite (resolved_ext _ (advanceBBIt Frt1)) in Hres.
  - destruct (gatherLoop TTI _ VP 0 _ _ []) as [[c2 R]|] eqn:Hga; [|done].
    simpl.
    destruct (trackOperandPacks TTI _ _ c2 _) as [[c3 U]|] eqn:Htr; [|done].
    simpl. intros [= <- <-] Hp Hres. simpl.
    rewrite (resolved_ext _ (advanceBBIt Frt1)) in Hres by done.
    pose proof Htr as Htr'.
    apply trackOperandPacks_complete in Htr as [_ Hall].
    apply trackOperandPacks_spec in Htr' as (_ & added & -> & _ & _).
    apply gatherLoop_ids in Hga. simpl in *. subst R.
    rewrite (remove_flagged_tail (leavesOnCommit (advanceBBIt Frt1) VP)).
    apply elem_of_sort_ptrs.
    specialize (Hall p Hp Hres). apply elem_of_app in Hall as [Hin|Hin].
    + apply elem_of_app. left. apply list_elem_of_filter. split; [|done].
      unfold leavesOnCommit. rewrite Hres. by rewrite andb_false_r.
    + apply elem_of_app. by right.
Qed.

Lemma freezeAll_count l Frt Frt1 :
  freezeAll l Frt = Some Frt1 →
  NoDup (getScalarId <$> l) ∧
  count (FreeInsts Frt1) + length l = count (FreeInsts Frt).
Proof.
  revert Frt. induction l as [|Inst l IH]; intros Frt; simpl.
  - intros [= <-]. split; [constructor|lia].
  - destruct (freezeOneInst Inst Frt) as [Frt0|] eqn:Hfr; [|done]. simpl.
    intros Hall. pose proof Hall as Hall'.
    apply IH in Hall as [Hnd Hcount].
    apply freezeAll_inv in Hall' as (_ & _ & _ & _ & _ & Hfree).
    apply freezeOneInst_inv in Hfr as (Hfree0 & _ & _ & _ & HF0 & _).
    split.
    + constructor; [|done]. intros Hin.
      apply list_elem_of_fmap in Hin as (J & Hid & HJ).
      rewrite Forall_forall in Hfree. specialize (Hfree J HJ).
      unfold isFree in Hfree. rewrite HF0, test_reset, decide_True in Hfree; done.
    + rewrite HF0 in Hcount. pose proof (count_reset _ _ Hfree0). lia.
Qed.

(** X7. A commit freezes the instructions that the pack replaces, each of
    them once: it succeeds only when they are free and pairwise distinct,
    the free instructions of the new frontier are the others, and their
    number went down by the number of the replaced instructions. *)
Theorem advanceInplace_VP_freezes TTI VP Frt c Frt' :
  advanceInplace_VP VP TTI Frt = Some (c, Frt') →
  Forall (λ Inst, isFree Frt Inst = true) (getReplacedInsts VP) ∧
  NoDup (getScalarId <$> getReplacedInsts VP) ∧
  (∀ k, test (FreeInsts Frt') k
        = test (FreeInsts Frt) k
          && bool_decide (k ∉ (getScalarId <$> getReplacedInsts VP))) ∧
  numFree Frt' + length (getReplacedInsts VP) = numFree Frt.
Proof.
  intros Hadv.
  apply advanceInplace_VP_fields in Hadv as (Frt1 & U & R & Hfr & _ & _ & _ & HF & _).
  pose proof (freezeAll_count _ _ _ Hfr) as [Hnd Hcount].
  apply freezeAll_inv in Hfr as (_ & _ & _ & Htest & _ & Hfree).
  assert (sortReplaced (getReplacedInsts VP) ≡ₚ getReplacedInsts VP) as Hperm
    by apply merge_sort_Permutation.
  split; [by rewrite <- Hperm|]. split; [by rewrite <- Hperm|]. split.
  - intros k. rewrite HF, Htest. f_equal. apply bool_decide_ext. by rewrite Hperm.
  - unfold numFree. rewrite HF. by rewrite <- Hperm.
Qed.

(** X8. A shuffle is defined on the unresolved packs: in a frontier of a
    search, whatever successful transitions led to it, it succeeds exactly
    when its output is an unresolved pack; it then costs what the task
    costs, takes one occurrence of the output out of the unresolved packs
    and puts the inputs in, and leaves the bit sets and the cursor alone. *)
Theorem advanceInplace_ST_spec TTI (ST : ShuffleTask F) Frt :
  searched TTI Frt →
  (Output ST ∉ UnresolvedPacks Frt → advanceInplace_ST ST TTI Frt = None) ∧
  (Output ST ∈ UnresolvedPacks Frt →
   ∃ Frt', advanceInplace_ST ST TTI Frt = Some (getCost_ST ST TTI, Frt') ∧
           Output ST :: UnresolvedPacks Frt' ≡ₚ UnresolvedPacks Frt ++ Inputs ST ∧
           Sorted (≤) (UnresolvedPacks Frt') ∧
           BBIt Frt' = BBIt Frt ∧
           UnresolvedScalars Frt' = UnresolvedScalars Frt ∧
           FreeInsts Frt' = FreeInsts Frt ∧
           UsableInsts Frt' = UsableInsts Frt).
Proof.
  intros Hreach. apply searched_sorted in Hreach as Hs.
  unfold advanceInplace_ST. cbv zeta. split.
  - intros Hnot. case_bool_decide as Hend; [done|].
    case_bool_decide as Hlk; [|done].
    destruct Hnot. by eapply list_elem_of_lookup_2.
  - intros Hin. destruct (lower_bound_found _ _ Hs Hin) as [Hne Hlk].
    rewrite bool_decide_eq_false_2 by done.
    rewrite bool_decide_eq_true_2 by done. simpl.
    eexists. split; [reflexivity|]. simpl.
    split; [|split; [apply sort_ptrs_Sorted|done]].
    rewrite sort_ptrs_Permutation.
    rewrite app_comm_cons. apply Permutation_app_tail.
    apply list_elem_of_split_length in Hlk as (l1 & l2 & HUP & HIt).
    rewrite HIt, HUP. apply swap_pop_Permutation.
Qed.

(** X9. The unresolved packs of every frontier of a search are sorted by
    address, whatever successful transitions led to it: each transition
    ends by sorting them. The binary searches of the transitions rely on
    it. *)
Theorem reachable_packs_sorted TTI Frt :
  searched TTI Frt → Sorted (≤) (UnresolvedPacks Frt).
Proof. apply searched_sorted. Qed.

Lemma bits_eq (a b : list bool) :
  length a = length b → (∀ k, test a k = test b k) → a = b.
Proof.
  intros Hlen Ht. apply list_eq. intros k. specialize (Ht k). unfold test in Ht.
  destruct (a !! k) as [x|] eqn:Ea, (b !! k) as [y|] eqn:Eb; simpl in Ht.
  - by subst.
  - apply lookup_lt_Some in Ea. apply lookup_ge_None in Eb. lia.
  - apply lookup_lt_Some in Eb. apply lookup_ge_None in Ea. lia.
  - done.
Qed.

(** The usable instructions are determined by the free instructions. *)
Lemma bits_inv_usable_determined Frt Frt' :
  bits_inv Frt → bits_inv Frt' →
  FreeInsts Frt = FreeInsts Frt' → UsableInsts Frt = UsableInsts Frt'.
Proof.
  intros (_ & _ & Hlen & _ & Hiff & HUs) (_ & _ & Hlen' & _ & Hiff' & HUs') HF.
  assert (∀ Inst, Inst ∈ insts → isUsable Frt Inst = isUsable Frt' Inst) as Hsame.
  { intros Inst Hin. rewrite (Hiff Inst Hin), (Hiff' Inst Hin).
    unfold isFree. rewrite HF. by rewrite (allUsersFrozen_ext Frt Frt'). }
  apply bits_eq; [by rewrite Hlen, Hlen'|].
  intros k. destruct (test (UsableInsts Frt) k) eqn:E.
  - destruct (HUs _ E) as (Inst & Hin & <-).
    rewrite <- E. exact (Hsame Inst Hin).
  - destruct (test (UsableInsts Frt') k) eqn:E'; [|done].
    destruct (HUs' _ E') as (Inst & Hin & <-).
    rewrite <- E, <- E'. exact (Hsame Inst Hin).
Qed.

(** The cursor is determined by the free instructions. *)
Lemma cursor_inv_determined Frt Frt' :
  cursor_inv Frt → cursor_inv Frt' →
  FreeInsts Frt = FreeInsts Frt' → BBIt Frt = BBIt Frt'.
Proof.
  intros (p1 & Heq1 & Hall1 & Hhd1) (p2 & Heq2 & Hall2 & Hhd2) HF.
  assert (∀ J, isFree Frt J = isFree Frt' J) as Hfree
    by (intros J; unfold isFree; by rewrite HF).
  rewrite Heq1 in Heq2. clear Heq1.
  revert p2 Heq2 Hall2. induction p1 as [|x p1 IH]; intros p2 Heq2 Hall2.
  - destruct p2 as [|y p2]; [done|]. simpl in Heq2.
    apply Forall_cons in Hall2 as [Hy _].
    rewrite Heq2 in Hhd1. rewrite Hfree in Hhd1. congruence.
  - apply Forall_cons in Hall1 as [Hx Hall1].
    destruct p2 as [|y p2]; simpl in Heq2.
    + rewrite <- Heq2 in Hhd2. rewrite <- Hfree in Hhd2. congruence.
    + injection Heq2 as -> Heq2. apply Forall_cons in Hall2 as [_ Hall2].
      by apply (IH Hall1 p2).
Qed.

(** X29. The usable instructions of a frontier of a search are determined
    by its free instructions: two frontiers with the same free instructions
    have the same usable instructions, whatever successful transitions led
    to them. An equality of frontiers need not compare [UsableInsts]. *)
Theorem reachable_usable_determined TTI Frt Frt' :
  index_ok → index_closed → block_ok → def_use_ok →
  searched TTI Frt → searched TTI Frt' →
  FreeInsts Frt = FreeInsts Frt' →
  UsableInsts Frt = UsableInsts Frt'.
Proof.
  intros Hidx Hcl Hblk Hdu Hreach Hreach' HF.
  apply bits_inv_usable_determined; [| |done].
  - exact (searched_bits_inv Hidx Hcl Hblk Hdu TTI Frt Hreach).
  - exact (searched_bits_inv Hidx Hcl Hblk Hdu TTI Frt' Hreach').
Qed.

(** Two frontiers of a search with the same free instructions, unresolved
    packs and unresolved scalars are the same frontier. *)
Lemma searched_same_state TTI Frt Frt' :
  index_ok → index_closed → block_ok → def_use_ok →
  searched TTI Frt → searched TTI Frt' →
  FreeInsts Frt = FreeInsts Frt' →
  UnresolvedPacks Frt = UnresolvedPacks Frt' →
  UnresolvedScalars Frt = UnresolvedScalars Frt' →
  Frt = Frt'.
Proof.
  intros Hidx Hcl Hblk Hdu Hreach Hreach' HF HUP HUS.
  pose proof (bits_inv_usable_determined Frt Frt'
                (searched_bits_inv Hidx Hcl Hblk Hdu TTI Frt Hreach)
                (searched_bits_inv Hidx Hcl Hblk Hdu TTI Frt' Hreach') HF) as HUs.
  pose proof (cursor_inv_determined Frt Frt'
                (searched_cursor_inv TTI Frt Hidx Hreach)
                (searched_cursor_inv TTI Frt' Hidx Hreach') HF) as HIt.
  destruct Frt, Frt'. simpl in *. by subst.
Qed.

End FrontierTheorems.

(** ** The selection of the UCT search *)

Section UCTSelection.
Context {F St : Type} {FO : FloatOps F} {Ops : UCTNodeOps F St}.
Variables (C W : F).

Lemma isPath_snoc (s : St) from Path N T :
  isPath s from Path N → isPath s from (Path ++ [(N, T)]) (T_Next s N T).
Proof.
  revert from. induction Path as [|[P T'] Path IH]; intros from; simpl.
  - by intros ->.
  - intros [-> Hp]. split; [done|]. by apply IH.
Qed.

(** The transition that the loop over the transitions takes lies in the
    range of the loop, or it is the one the loop started with. *)
Lemma pickTransition_range (s : St) N n i BestT M b :
  pickTransition C W s N n i BestT M = Some b → b = BestT ∨ i ≤ b < i + n.
Proof.
  revert i BestT M. induction n as [|n IH]; intros i BestT M; simpl.
  - intros [= <-]. by left.
  - destruct (T_visited s N i); simpl; [|intros [= <-]; right; lia].
    destruct (ScoreTransition C W s N i) as [U|]; [|done]. simpl.
    destruct (fltb M U); intros Hp; apply IH in Hp as [->|Hp]; auto; right; lia.
Qed.

(** It is the first transition that was never visited, when there is
    one. *)
Lemma pickTransition_unvisited (s : St) N n i BestT M b j :
  pickTransition C W s N n i BestT M = Some b →
  i ≤ j < i + n → T_visited s N j = false →
  T_visited s N b = false ∧ i ≤ b ≤ j.
Proof.
  revert i BestT M. induction n as [|n IH]; intros i BestT M; simpl; [lia|].
  destruct (T_visited s N i) eqn:Hv; simpl.
  - destruct (ScoreTransition C W s N i) as [U|]; [|done]. simpl.
    intros Hp Hj Hjv.
    assert (S i ≤ j < S i + n) as Hj'.
    { destruct (decide (j = i)) as [->|]; [congruence|lia]. }
    destruct (fltb M U); destruct (IH _ _ _ Hp Hj' Hjv) as [? ?]; (split; [done|lia]).
  - intros [= <-] Hj _. split; [done|lia].
Qed.

Lemma select_spec fuel (s : St) Cur Path0 Leaf Path :
  select C W fuel s Cur Path0 = Some (Leaf, Path) →
  ∃ Path1,
    Path = Path0 ++ Path1 ∧
    expanded s Leaf = false ∧
    isPath s Cur Path1 Leaf ∧
    Forall (λ NT : UCTNodePtr * nat,
              expanded s NT.1 = true ∧ NT.2 < numTransitions s NT.1 ∧
              ∃ M, pickTransition C W s NT.1 (numTransitions s NT.1) 0 0 M = Some NT.2 ∧
                   (T_visited s NT.1 0 = true → ScoreTransition C W s NT.1 0 = Some M))
           Path1.
Proof.
  revert Cur Path0. induction fuel as [|fuel IH]; intros Cur Path0; simpl; [done|].
  destruct (expanded s Cur) eqn:Hexp.
  - destruct (numTransitions s Cur =? 0) eqn:Hn; [done|]. apply Nat.eqb_neq in Hn.
    destruct (if T_visited s Cur 0 then _ else _) as [M|] eqn:HM; [|done]. simpl.
    destruct (pickTransition C W s Cur _ 0 0 M) as [BestT|] eqn:Hpick; [|done]. simpl.
    intros Hsel. apply IH in Hsel as (Path1 & -> & Hleaf & Hpath & Hall).
    exists ((Cur, BestT) :: Path1). rewrite <- app_assoc. split; [done|].
    split; [done|]. split; [done|]. constructor; [|done]. simpl.
    split; [done|]. split.
    + apply pickTransition_range in Hpick as [->|Hp]; lia.
    + exists M. split; [done|]. intros Hv. by rewrite Hv in HM.
  - intros [= <- <-]. exists []. by rewrite app_nil_r.
Qed.

(** X10. The selection walks down the tree: the path it returns starts at
    the root, each of its transitions is a transition of an expanded node
    and starts at the node that the transition before it leads to, and the
    path ends at a node that is not expanded. *)
Theorem select_path fuel (s : St) Root Leaf Path :
  select C W fuel s Root [] = Some (Leaf, Path) →
  expanded s Leaf = false ∧
  isPath s Root Path Leaf ∧
  Forall (λ NT : UCTNodePtr * nat,
            expanded s NT.1 = true ∧ NT.2 < numTransitions s NT.1) Path.
Proof.
  intros Hsel. apply select_spec in Hsel as (Path1 & -> & Hleaf & Hpath & Hall).
  split; [done|]. split; [done|]. simpl.
  eapply Forall_impl; [exact Hall|]. intros NT (? & ? & _). done.
Qed.

(** X11. Exploration comes first: at a node that has a transition that was
    never visited, the selection takes the first such transition, whatever
    the scores of the others are. *)
Theorem select_prefers_unvisited fuel (s : St) Root Leaf Path N T j :
  select C W fuel s Root [] = Some (Leaf, Path) →
  (N, T) ∈ Path →
  j < numTransitions s N → T_visited s N j = false →
  T_visited s N T = false ∧ T ≤ j.
Proof.
  intros Hsel Hin Hj Hjv. apply select_spec in Hsel as (Path1 & -> & _ & _ & Hall).
  simpl in Hin. rewrite Forall_forall in Hall.
  destruct (Hall _ Hin) as (_ & _ & M & Hpick & _). simpl in Hpick.
  destruct (pickTransition_unvisited s N _ 0 0 M T j Hpick) as [Hv Hle]; [lia|done|].
  split; [done|lia].
Qed.

End UCTSelection.

Section UCTBest.
Context {F St : Type} {FO : FloatOps F} {Laws : CostLaws F} {Ops : UCTNodeOps F St}.
Variables (C W : F).

(** When every transition was visited, the loop keeps a transition of the
    highest score so far. *)
Lemma pickTransition_best (s : St) N n i BestT M b :
  pickTransition C W s N n i BestT M = Some b →
  (∀ j, i ≤ j < i + n → T_visited s N j = true) →
  ScoreTransition C W s N BestT = Some M →
  (∀ j sj, j < i → ScoreTransition C W s N j = Some sj → fle sj M) →
  ∃ sb, ScoreTransition C W s N b = Some sb ∧
        ∀ j sj, j < i + n → ScoreTransition C W s N j = Some sj → fle sj sb.
Proof using Laws.
  revert i BestT M. induction n as [|n IH]; intros i BestT M; simpl.
  - intros [= <-] _ HM Hmax. exists M. split; [done|].
    intros j sj Hj. apply Hmax. lia.
  - intros Hp Hvis HM Hmax. rewrite Hvis in Hp by lia. simpl in Hp.
    destruct (ScoreTransition C W s N i) as [U|] eqn:HU; [|done]. simpl in Hp.
    destruct (fltb M U) eqn:Hlt.
    + apply IH in Hp as (sb & Hsb & Hbest); [| |done|].
      * exists sb. split; [done|]. intros j sj Hj. apply Hbest. lia.
      * intros j Hj. apply Hvis. lia.
      * intros j sj Hj Hsj. destruct (decide (j = i)) as [->|Hne].
        -- rewrite HU in Hsj. injection Hsj as <-. apply fle_refl.
        -- eapply fle_trans; [apply (Hmax j); [lia|done]|]. by apply fltb_fle.
    + apply IH in Hp as (sb & Hsb & Hbest); [| |done|].
      * exists sb. split; [done|]. intros j sj Hj. apply Hbest. lia.
      * intros j Hj. apply Hvis. lia.
      * intros j sj Hj Hsj. destruct (decide (j = i)) as [->|Hne].
        -- rewrite HU in Hsj. injection Hsj as <-. exact Hlt.
        -- apply (Hmax j); [lia|done].
Qed.

(** X12. Exploitation comes next: at a node whose transitions were all
    visited, the selection takes a transition whose UCT score is the
    highest of the node. *)
Theorem select_takes_best fuel (s : St) Root Leaf Path N T :
  select C W fuel s Root [] = Some (Leaf, Path) →
  (N, T) ∈ Path →
  (∀ j, j < numTransitions s N → T_visited s N j = true) →
  ∃ sT, ScoreTransition C W s N T = Some sT ∧
        ∀ j sj, j < numTransitions s N →
                ScoreTransition C W s N j = Some sj → fle sj sT.
Proof using Laws.
  intros Hsel Hin Hvis. apply select_spec in Hsel as (Path1 & -> & _ & _ & Hall).
  simpl in Hin. rewrite Forall_forall in Hall.
  destruct (Hall _ Hin) as (_ & Hlt & M & Hpick & HM). simpl in Hpick, HM, Hlt.
  apply (pickTransition_best s N _ 0 0 M T Hpick).
  - intros j Hj. apply Hvis. lia.
  - apply HM, Hvis. lia.
  - intros; lia.
Qed.

End UCTBest.

(** ** The nodes of the factory *)

Section FactoryNodes.
Variable isEqual : Frontier → Frontier → bool.

Lemma getNode_nodes Frt fac n fac' :
  getNode isEqual Frt fac = Some (n, fac') →
  Nodes fac `prefix_of` Nodes fac' ∧ Frontiers fac `prefix_of` Frontiers fac'.
Proof.
  unfold getNode. destruct (findEntry isEqual _ Frt) as [[k m]|].
  - destruct (Nodes fac !! m) as [N|]; [|done]. simpl.
    destruct (getPartialPack N); [done|]. by intros [= <- <-].
  - intros [= <- <-]. simpl. split; by apply prefix_app_r.
Qed.

Lemma FactoryStep_nodes fac fac' :
  FactoryStep isEqual fac fac' →
  Nodes fac `prefix_of` Nodes fac' ∧ Frontiers fac `prefix_of` Frontiers fac'.
Proof.
  intros [Frt ? n ? Hget|Frt PP ? n ? Hget].
  - by eapply getNode_nodes.
  - injection Hget as <- <-. simpl. split; [by apply prefix_app_r|done].
Qed.

Lemma FactorySteps_nodes fac fac' :
  rtc (FactoryStep isEqual) fac fac' →
  Nodes fac `prefix_of` Nodes fac' ∧ Frontiers fac `prefix_of` Frontiers fac'.
Proof.
  induction 1 as [|fac fac1 fac2 Hstep _ [IH1 IH2]]; [done|].
  apply FactoryStep_nodes in Hstep as [H1 H2].
  split; by etrans.
Qed.

(** X13. The factory never drops or changes a node: whatever calls of
    [getNode] follow, a node pointer that was handed out still points to
    the node it pointed to, with the same frontier and the same partial
    pack. *)
Theorem factory_nodes_stable fac fac' n N :
  rtc (FactoryStep isEqual) fac fac' →
  Nodes fac !! n = Some N → Nodes fac' !! n = Some N.
Proof.
  intros Hsteps Hn. apply FactorySteps_nodes in Hsteps as [Hpre _].
  by eapply prefix_lookup_Some.
Qed.

Hypothesis isEqual_refl : ∀ a, isEqual a a = true.
Hypothesis isEqual_sym : ∀ a b, isEqual a b = isEqual b a.

(** X14. The node that [getNode] returns for a frontier is a node of an
    equal frontier, and it has no partial pack. *)
Theorem getNode_frontier_node fac Frt n fac' :
  reachableFactory isEqual fac →
  getNode isEqual Frt fac = Some (n, fac') →
  ∃ k, Nodes fac' !! n = Some {| getFrontier := k; getPartialPack := None |} ∧
       isEqual k Frt = true.
Proof using isEqual_refl isEqual_sym.
  intros Hreach Hget.
  pose proof (reachableFactory_ok isEqual isEqual_refl isEqual_sym fac Hreach) as Hok.
  destruct (getNode_inv isEqual isEqual_refl isEqual_sym Frt fac n fac' Hok Hget)
    as ((Hnodes & _) & _ & k & Hfind).
  apply findEntry_Some in Hfind as [Hin Heq].
  exists k. split; [by apply Hnodes|done].
Qed.

(** X15. A node that was made for a partial pack is never shared: it is a
    new node, and no later call of [getNode] on a frontier returns it. *)
Theorem getNode_PP_never_shared fac Frt PP n fac1 fac2 Frt2 m fac3 :
  reachableFactory isEqual fac →
  getNode_PP Frt PP fac = (n, fac1) →
  rtc (FactoryStep isEqual) fac1 fac2 →
  getNode isEqual Frt2 fac2 = Some (m, fac3) →
  Nodes fac !! n = None ∧
  Nodes fac3 !! n = Some {| getFrontier := Frt; getPartialPack := Some PP |} ∧
  m ≠ n.
Proof using isEqual_refl isEqual_sym.
  intros Hreach Hpp Hsteps Hget.
  assert (FactoryStep isEqual fac fac1) as Hstep1 by by eapply step_getNode_PP.
  assert (FactoryStep isEqual fac2 fac3) as Hstep3 by by eapply step_getNode.
  assert (reachableFactory isEqual fac2) as Hreach2.
  { unfold reachableFactory. etrans; [exact Hreach|]. by eapply rtc_l. }
  assert (∃ k, Nodes fac3 !! m = Some {| getFrontier := k; getPartialPack := None |})
    as (k & Hm).
  { pose proof (reachableFactory_ok isEqual isEqual_refl isEqual_sym fac2 Hreach2) as Hok.
    destruct (getNode_inv isEqual isEqual_refl isEqual_sym Frt2 fac2 m fac3 Hok Hget)
      as ((Hnodes & _) & _ & k & Hfind).
    apply findEntry_Some in Hfind as [Hin _]. exists k. by apply Hnodes. }
  injection Hpp as <- <-.
  assert (Nodes fac3 !! length (Nodes fac)
          = Some {| getFrontier := Frt; getPartialPack := Some PP |}) as Hn.
  { assert (rtc (FactoryStep isEqual)
              {| FrontierToNodeMap := FrontierToNodeMap fac;
                 Nodes := Nodes fac
                          ++ [{| getFrontier := Frt; getPartialPack := Some PP |}];
                 Frontiers := Frontiers fac |} fac3) as Hsteps3
      by (eapply rtc_r; [exact Hsteps|exact Hstep3]).
    apply FactorySteps_nodes in Hsteps3 as [Hpre _]. simpl in Hpre.
    eapply prefix_lookup_Some; [|exact Hpre]. by apply list_lookup_middle. }
  split; [by apply lookup_ge_None_2|]. split; [done|].
  intros Heq. subst m. pose proof (eq_trans (eq_sym Hm) Hn) as Hx. done.
Qed.

End FactoryNodes.

(** ** The memo tables of the heuristic solver *)

Section MemoGrows.
Context {F : Type} `{FloatOps F} {Pkr : Packer F}.

Lemma memo_le_refl (H0 : Heuristic F) : memo_le H0 H0.
Proof. by split. Qed.

Lemma memo_le_trans (H0 H1 H2 : Heuristic F) :
  memo_le H0 H1 → memo_le H1 H2 → memo_le H0 H2.
Proof. intros [? ?] [? ?]. split; by etrans. Qed.

Lemma Grows_ret {A} (a : A) : Grows (mret a : HM F A).
Proof. intros H0 a' H' [= <- <-]. apply memo_le_refl. Qed.

Lemma Grows_abort {A} : Grows (HM_abort : HM F A).
Proof. by intros H0 a' H'. Qed.

Lemma Grows_bind {A B} (m : HM F A) (k : A → HM F B) :
  Grows m → (∀ a, Grows (k a)) → Grows (m ≫= k).
Proof.
  intros Hm Hk H0 b H' Hrun. unfold mbind, HM_bind in Hrun.
  destruct (m H0) as [[a H1]|] eqn:E; [|done].
  eapply memo_le_trans; [by eapply Hm|by eapply Hk].
Qed.

Lemma Grows_foldM {A B} (f : B → A → HM F B) l :
  (∀ b x, x ∈ l → Grows (f b x)) → ∀ b, Grows (foldM f l b).
Proof.
  induction l as [|x l IH]; intros Hf b; simpl.
  - apply Grows_ret.
  - apply Grows_bind; [apply Hf; left|].
    intros b'. apply IH. intros ?? Hin. apply Hf. by right.
Qed.

Lemma getCost_V_grows fuel V : Grows (getCost_V fuel V).
Proof.
  revert V. induction fuel as [|fuel IH]; intros V; [apply Grows_abort|].
  simpl. destruct (V ≫= dyn_cast_Instruction) as [Inst|]; [|apply Grows_ret].
  case_bool_decide as Hbb; [apply Grows_ret|].
  intros H0 c H'. unfold mbind, HM_bind, getScalarCostMemo.
  destruct (ScalarCosts H0 !! Inst) as [c0|] eqn:Hmemo.
  - intros [= <- <-]. apply memo_le_refl.
  - destruct (foldM _ (operands Inst) (getScalarCost Inst) H0) as [[Cost H1]|] eqn:E;
      [|done].
    intros [= <- <-].
    assert (memo_le H0 H1) as [HS HC].
    { eapply (Grows_foldM _ (operands Inst)); [|exact E].
      intros b x _. apply Grows_bind; [apply IH|]. intros ?. apply Grows_ret. }
    split; simpl; [done|]. by apply insert_subseteq_r.
Qed.

Lemma insertStep_grows fuel acc V : Grows (insertStep fuel acc V).
Proof.
  unfold insertStep. destruct V as [V|]; [|apply Grows_ret].
  destruct (negb (isa_Constant V) && bool_decide (V ∉ acc.2)); [|apply Grows_ret].
  apply Grows_bind; [apply getCost_V_grows|]. intros ?. apply Grows_ret.
Qed.

Section Steps.
Variable g : OperandPackPtr → HM F F.
Hypothesis g_grows : ∀ OP, Grows (g OP).

Lemma getCost_VP_with_grows VP : Grows (getCost_VP_with g VP).
Proof using g_grows.
  unfold getCost_VP_with. apply Grows_foldM. intros b x _.
  apply Grows_bind; [apply g_grows|]. intros ?. apply Grows_ret.
Qed.

Lemma candidateCost_grows OP OPI ExtraCost VP :
  Grows (candidateCost g OP OPI ExtraCost VP).
Proof using g_grows.
  unfold candidateCost.
  destruct (if _ =? _ then _ else _) as [[|]|]; [| |apply Grows_abort];
    (apply Grows_bind; [apply getCost_VP_with_grows|]; intros ?; apply Grows_ret).
Qed.

Lemma candidateStep_grows OP OPI ExtraCost acc VP :
  Grows (candidateStep g OP OPI ExtraCost acc VP).
Proof using g_grows.
  unfold candidateStep. case_bool_decide; [apply Grows_ret|].
  destruct (negb (isLoad VP)); [apply Grows_ret|].
  apply Grows_bind; [apply candidateCost_grows|]. intros ?. apply Grows_ret.
Qed.

Lemma producerStep_grows ExtraCost Sol VP : Grows (producerStep g ExtraCost Sol VP).
Proof using g_grows.
  unfold producerStep. apply Grows_bind; [apply getCost_VP_with_grows|].
  intros ?. apply Grows_ret.
Qed.

Lemma elementStep_grows Cands OP OPI ExtraCost acc InstId :
  Grows (elementStep g Cands OP OPI ExtraCost acc InstId).
Proof using g_grows.
  unfold elementStep. destruct (Inst2Packs Cands !! InstId); [|apply Grows_abort].
  apply Grows_foldM. intros ???. apply candidateStep_grows.
Qed.

End Steps.

(** [solve] adds entries to the tables, and the solution it returns is the
    entry of the operand pack. *)
Lemma solve_grows_stores C fuel OP (H0 : Heuristic F) Sol H' :
  solve C fuel OP H0 = Some (Sol, H') →
  memo_le H0 H' ∧ Solutions H' !! OP = Some Sol.
Proof.
  revert OP H0 Sol H'. induction fuel as [|fuel IH]; intros OP H0 Sol H'; [done|].
  assert (∀ OP', Grows (getCost_OP_with (solve C fuel) OP')) as Hg.
  { intros OP'. unfold getCost_OP_with. apply Grows_bind; [|intros ?; apply Grows_ret].
    intros ??? Hrun. by apply IH in Hrun as [? _]. }
  assert (∀ (H1 : Heuristic F) Sol1,
            Solutions H0 !! OP = None → memo_le H0 H1 →
            memo_le H0 (mkHeuristic (<[OP := Sol1]> (Solutions H1)) (ScalarCosts H1))
            ∧ Solutions (mkHeuristic (<[OP := Sol1]> (Solutions H1)) (ScalarCosts H1)) !! OP
              = Some Sol1) as Hset.
  { intros H1 Sol1 Hnone [HS HC]. split; [|by apply lookup_insert_eq].
    split; simpl; [by apply insert_subseteq_r|done]. }
  simpl. unfold mbind at 1, HM_bind at 1, getSolutionMemo.
  destruct (Solutions H0 !! OP) as [Sol0|] eqn:Hmemo.
  { intros [= <- <-]. split; [apply memo_le_refl|done]. }
  unfold mbind at 1, HM_bind at 1.
  destruct (foldM (insertStep fuel) _ _ H0) as [[acc H1]|] eqn:E1; [|done].
  assert (memo_le H0 H1) as Hle1.
  { eapply (Grows_foldM (insertStep fuel)); [|exact E1]. intros ???. apply insertStep_grows. }
  destruct (feqb acc.1 (of_int 0)).
  { intros [= <- <-]. by apply Hset. }
  destruct (head (lanes (getOperandPack OP))) as [front|]; [|done].
  unfold mbind at 1, HM_bind at 1.
  destruct (getCost_V fuel front H1) as [[c H2]|] eqn:E2; [|done].
  assert (memo_le H0 H2) as Hle2.
  { eapply memo_le_trans; [exact Hle1|]. by eapply getCost_V_grows. }
  unfold mbind at 1, HM_bind at 1.
  destruct (foldM (producerStep _ _) _ _ H2) as [[Sol1 H3]|] eqn:E3; [|done].
  assert (memo_le H0 H3) as Hle3.
  { eapply memo_le_trans; [exact Hle2|].
    eapply (Grows_foldM (producerStep _ _)); [|exact E3].
    intros ???. by apply producerStep_grows. }
  destruct C as [Cands|].
  - unfold mbind at 1, HM_bind at 1.
    destruct (foldM (elementStep _ _ _ _ _) _ _ H3) as [[acc2 H4]|] eqn:E4; [|done].
    intros [= <- <-]. apply Hset; [done|].
    eapply memo_le_trans; [exact Hle3|].
    eapply (Grows_foldM (elementStep _ _ _ _ _)); [|exact E4].
    intros ???. by apply elementStep_grows.
  - intros [= <- <-]. by apply Hset.
Qed.

(** X16. [solve] memoises: the solution it returns is stored for the
    operand pack, no entry that the tables held is changed or dropped, and
    asking again for the same pack returns the same solution without
    touching the tables. *)
Theorem solve_memoises C fuel OP (Hr Hr1 : Heuristic F) Sol :
  solve C fuel OP Hr = Some (Sol, Hr1) →
  Solutions Hr1 !! OP = Some Sol ∧
  (∀ OP' Sol', Solutions Hr !! OP' = Some Sol' → Solutions Hr1 !! OP' = Some Sol') ∧
  (∀ Inst c, ScalarCosts Hr !! Inst = Some c → ScalarCosts Hr1 !! Inst = Some c) ∧
  ∀ fuel', solve C (S fuel') OP Hr1 = Some (Sol, Hr1).
Proof.
  intros Hrun. apply solve_grows_stores in Hrun as [[HS HC] Hst].
  split; [done|]. split; [|split].
  - intros OP' Sol' Hl. by eapply lookup_weaken.
  - intros Inst c Hl. by eapply lookup_weaken.
  - intros fuel'. simpl. unfold mbind, HM_bind, getSolutionMemo. by rewrite Hst.
Qed.

(** X17. The memo tables are transparent: on consistent tables, the
    solution that [solve] returns for an operand pack does not depend on
    what the tables hold, nor on the fuel, and the tables stay
    consistent. *)
Theorem solve_memo_independent C fuel fuel' OP (Hr Hr' Hr1 Hr1' : Heuristic F) Sol Sol' :
  memo_ok C Hr → memo_ok C Hr' →
  solve C fuel OP Hr = Some (Sol, Hr1) →
  solve C fuel' OP Hr' = Some (Sol', Hr1') →
  Sol = Sol' ∧ memo_ok C Hr1 ∧ memo_ok C Hr1'.
Proof.
  intros Hok Hok' Hrun Hrun'.
  destruct (solve_sound C fuel OP _ _ _ Hok Hrun) as [Hok1 [n Hn]].
  destruct (solve_sound C fuel' OP _ _ _ Hok' Hrun') as [Hok1' [n' Hn']].
  split; [|done].
  apply (solveO_mono C n (n `max` n')) in Hn; [|lia].
  apply (solveO_mono C n' (n `max` n')) in Hn'; [|lia].
  congruence.
Qed.

End MemoGrows.

Section SolutionShape.
Context {F : Type} `{FloatOps F} {Pkr : Packer F}.

Lemma solveO_packs C n OP Sol :
  solveO C n OP = Some Sol →
  Packs Sol = [] ∨ ∃ VP, Packs Sol = [VP] ∧ consideredFor C OP VP.
Proof.
  destruct n as [|n]; [done|]. simpl. unfold solveBodyO.
  destruct (baseSolution _ _) as [[Base Done]|] eqn:Ebase; [|done]. simpl.
  assert (Packs Base = []) as HBase.
  { unfold baseSolution in Ebase.
    destruct (foldO _ _ (of_int 0, [])) as [acc|]; [|done]. simpl in Ebase.
    destruct (feqb acc.1 (of_int 0)); [by injection Ebase as <- _|].
    destruct (head _); [|done]. simpl in Ebase.
    destruct (costV n o); [|done]. simpl in Ebase.
    injection Ebase as <- _. by destruct (_ && _). }
  destruct Done; [intros [= <-]; by left|].
  set (P := λ Sol : Solution F,
              Packs Sol = [] ∨ ∃ VP, Packs Sol = [VP] ∧ consideredFor C OP VP).
  destruct (foldO (producerStepO _ _) _ Base) as [Sol1|] eqn:Ep; [|done]. simpl.
  assert (P Sol1) as HP1.
  { revert Ep. apply (foldO_inv P); [|by left].
    intros b VP c HVP Hb. unfold producerStepO.
    destruct (costVP_with _ VP) as [c'|]; [|done]. simpl. intros [= <-].
    unfold Solution_update. destruct (fltb _ _); [|done].
    right. exists VP. split; [done|]. by left. }
  unfold candidatesLoopO. destruct C as [Cands|]; [|by intros [= <-]].
  destruct (foldO (elementStepO _ _ _ _ _) _ (Sol1, [])) as [acc|] eqn:Ee; [|done].
  simpl. intros [= <-].
  revert Ee. apply (foldO_inv (λ acc : Solution F * list VectorPackPtr, P acc.1)); [|done].
  intros b i c Hi Hb. unfold elementStepO.
  destruct (Inst2Packs Cands !! i) as [VPs|] eqn:EV; [|done]. simpl.
  revert Hb. apply (foldO_inv (λ acc : Solution F * list VectorPackPtr, P acc.1)).
  intros b' VP c' HVP Hb'. unfold candidateStepO.
  destruct (bool_decide (VP ∈ b'.2)); [intros ?; by simplify_eq|].
  destruct (isLoad VP) eqn:Hload; simpl; [|intros ?; by simplify_eq].
  destruct (candidateCostO _ _ _ _ VP) as [cc|]; [|done]. simpl.
  intros ?; simplify_eq. simpl.
  unfold Solution_update. destruct (fltb _ _); [|done].
  right. exists VP. split; [done|]. right. exists i. simpl. rewrite EV. done.
Qed.

(** X18. A solution of [solve] holds at most one pack, and that pack is one
    that [solve] looked at for the operand pack: a producer of the pack, or
    a candidate load pack of one of its elements. *)
Theorem solve_packs C fuel OP (Hr Hr1 : Heuristic F) Sol :
  memo_ok C Hr →
  solve C fuel OP Hr = Some (Sol, Hr1) →
  Packs Sol = [] ∨ ∃ VP, Packs Sol = [VP] ∧ consideredFor C OP VP.
Proof.
  intros Hok Hrun. destruct (solve_sound C fuel OP _ _ _ Hok Hrun) as [_ [n Hn]].
  by eapply solveO_packs.
Qed.

End SolutionShape.

Section InsertionBound.
Context {F : Type} {FO : FloatOps F} {Laws : CostLaws F} {Pkr : Packer F}.

Lemma producers_le co ExtraCost VPs (Sol0 Sol : Solution F) :
  foldO (producerStepO co ExtraCost) VPs Sol0 = Some Sol → fle (Cost Sol) (Cost Sol0).
Proof using Laws.
  apply (foldO_inv (λ Sol, fle (Cost Sol) (Cost Sol0))); [|apply fle_refl].
  intros b VP c _ Hb. unfold producerStepO.
  destruct (costVP_with co VP) as [c'|]; [|done]. simpl. intros [= <-].
  eapply fle_trans; [apply update_le_l|done].
Qed.

Lemma solveO_le_insertion C n OP (Sol : Solution F) :
  solveO C (S n) OP = Some Sol →
  ∃ c, insertionCost n OP = Some c ∧ fle (Cost Sol) c.
Proof using Laws.
  simpl. unfold solveBodyO, baseSolution, insertionCost.
  destruct (foldO _ _ (of_int 0, [])) as [acc|]; [|done]. simpl.
  intros Hbody. exists acc.1. split; [done|]. revert Hbody.
  destruct (feqb acc.1 (of_int 0)); simpl; [intros [= <-]; apply fle_refl|].
  destruct (head _) as [front|]; [|done]. simpl.
  destruct (costV n front) as [c|]; [|done]. simpl.
  set (Base := if _ && _ then _ else _).
  assert (fle (Cost Base) acc.1) as HBase.
  { subst Base. destruct (is_splat _); simpl; [|apply fle_refl].
    destruct (fltb _ acc.1) eqn:E; simpl; [by apply fltb_fle|apply fle_refl]. }
  destruct (foldO (producerStepO _ _) _ Base) as [Sol1|] eqn:Ep; [|done]. simpl.
  intros HC. apply candidatesLoopO_min in HC as (Hle & _).
  apply producers_le in Ep.
  eapply fle_trans; [exact Hle|]. by eapply fle_trans.
Qed.

(** X19. A solution of [solve] never costs more than building the operand
    pack by explicit insertion. *)
Theorem solve_le_insertion C fuel OP (Hr Hr1 : Heuristic F) Sol :
  memo_ok C Hr →
  solve C fuel OP Hr = Some (Sol, Hr1) →
  ∃ n c, insertionCost n OP = Some c ∧ fle (Cost Sol) c.
Proof using Laws.
  intros Hok Hrun. destruct (solve_sound C fuel OP _ _ _ Hok Hrun) as [_ [n Hn]].
  destruct n as [|n]; [done|]. exists n. by apply (solveO_le_insertion C).
Qed.

End InsertionBound.

Section SolveTerminates.
Context {F : Type} `{FloatOps F} {Pkr : Packer F}.

(** X20. [solve] terminates when the block and the packs have no cycle.
    Let a rank below [R] decrease from an instruction of the block to its
    operands in the block, and let a rank of the operand packs decrease
    from an operand pack to the operand packs of its producers and of the
    candidates of its elements; let the candidate set have an entry for
    every element, let no candidate have more values than the operand pack
    has lanes, and let zero be equal to itself. Then [solve] returns on
    every operand pack, whatever the memo tables hold, with fuel for the
    two ranks. *)
Theorem solve_terminates (rankV : InstPtr → nat) (R : nat)
    (C : option CandidatePackSet) (rankOP : OperandPackPtr → nat)
    fuel OP (Hr : Heuristic F) :
  (∀ Inst, rankV Inst < R) →
  (∀ Inst J, getParent Inst = BB → VInst J ∈ operands Inst → getParent J = BB →
             rankV J < rankV Inst) →
  (∀ OP VP OP', VP ∈ getProducers (getProducerInfo (dedup OP)) →
                OP' ∈ getOperandPacks VP → rankOP OP' < rankOP OP) →
  (∀ OP i VP OP', i ∈ BitVector.set_bits (Elements (getProducerInfo (dedup OP))) →
                  VP ∈ candidatesAt C i →
                  OP' ∈ getOperandPacks VP → rankOP OP' < rankOP OP) →
  (∀ Cands OP i, C = Some Cands →
                 i ∈ BitVector.set_bits (Elements (getProducerInfo (dedup OP))) →
                 is_Some (Inst2Packs Cands !! i)) →
  (∀ OP i VP, i ∈ BitVector.set_bits (Elements (getProducerInfo (dedup OP))) →
              VP ∈ candidatesAt C i →
              length (getOrderedValues VP) ≤ length (lanes (getOperandPack OP))) →
  feqb (of_int 0) (of_int 0) = true →
  S (R + rankOP OP) < fuel →
  ∃ Sol Hr1, solve C fuel OP Hr = Some (Sol, Hr1).
Proof.
  intros H1 H2 H3 H4 H5 H6 H7 Hfuel.
  exact (solve_returns rankV R H1 H2 C rankOP H3 H4 H5 H6 H7 fuel OP Hfuel Hr).
Qed.

End SolveTerminates.

(** ** When the transitions abort *)

Section TransitionsDefined.
Context {F : Type} `{FloatOps F} {Pkr : Packer F}.
Import BitVector BitVectorFacts.

Lemma scalarizeLoop_typed TTI Frt Inst i packs c R r :
  scalarizeLoop TTI Frt Inst i packs c R = Some r → Forall packTyped packs.
Proof.
  revert i c R. induction packs as [|p packs IH]; intros i c R; simpl; [by constructor|].
  destruct (getVectorType_OP (getOperandPack p)) as [vt|] eqn:Evt; [|done]. simpl.
  destruct (vt.2 =? length (lanes (getOperandPack p))) eqn:Elen; [|done]. simpl.
  apply Nat.eqb_eq in Elen.
  assert (packTyped p) as Hp by by exists vt.
  destruct (_ && _); intros Hloop; apply IH in Hloop; by constructor.
Qed.

(** X21. Scalarizing an instruction is defined exactly when the
    instruction is free and every unresolved pack has a vector type of as
    many elements as the pack has lanes; it aborts otherwise. *)
Theorem advanceInplace_Inst_defined_iff TTI Inst Frt :
  is_Some (advanceInplace_Inst Inst TTI Frt) ↔
  isFree Frt Inst = true ∧ Forall packTyped (UnresolvedPacks Frt).
Proof.
  split.
  - intros [[c Frt'] Hadv]. unfold advanceInplace_Inst in Hadv.
    destruct (freezeOneInst Inst Frt) as [Frt1|] eqn:Hfr; [|done]. simpl in Hadv.
    apply freezeOneInst_inv in Hfr as (Hfree & _ & HUP & _).
    destruct (scalarizeLoop TTI _ Inst 0 _ _ []) as [r|] eqn:Hloop; [|done].
    apply scalarizeLoop_typed in Hloop. simpl in Hloop. by rewrite HUP in Hloop.
  - intros [Hfree Htyped]. unfold advanceInplace_Inst.
    destruct (freezeOneInst_Some _ _ Hfree) as (Frt1 & -> & _ & HUP & _). simpl.
    rewrite scalarizeLoop_code by by rewrite HUP. done.
Qed.

Lemma trackOperandPacks_typed TTI Frt packs c U r :
  trackOperandPacks TTI Frt packs c U = Some r →
  Forall (λ p, is_Some (getVectorType_OP (getOperandPack p))) packs.
Proof.
  revert c U. induction packs as [|p packs IH]; intros c U; simpl; [by constructor|].
  destruct (getVectorType_OP (getOperandPack p)) as [vt|] eqn:Evt; [|done]. simpl.
  intros Htr. apply IH in Htr. constructor; [|done]. by rewrite Evt.
Qed.

Lemma getVectorType_VP_Some VP k :
  test (getElements VP) k = true → is_Some (getVectorType_VP VP).
Proof.
  intros Hk. unfold getVectorType_VP.
  destruct (set_bits (getElements VP)) as [|k0 rest] eqn:E; [|by eexists].
  apply elem_of_set_bits in Hk. rewrite E in Hk. by apply elem_of_nil in Hk.
Qed.

(** X22. Committing a pack that has an element (a store pack need not) is
    defined exactly when the asserts it goes through hold: the
    instructions it replaces are free and pairwise distinct
    ([freezeOneInst]) and each of its operand packs has a cached vector
    type or a lane that is not null ([getVectorType]). The loop that
    charges the extract costs never aborts. *)
Theorem advanceInplace_VP_defined_iff TTI VP Frt :
  (isStore VP = false → ∃ k, test (getElements VP) k = true) →
  is_Some (advanceInplace_VP VP TTI Frt) ↔
  Forall (λ Inst, isFree Frt Inst = true) (getReplacedInsts VP) ∧
  NoDup (getScalarId <$> getReplacedInsts VP) ∧
  Forall (λ p, is_Some (getVectorType_OP (getOperandPack p))) (getOperandPacks VP).
Proof.
  intros Helem.
  assert (isStore VP = false → is_Some (getVectorType_VP VP)) as Hty.
  { intros Hst. destruct (Helem Hst) as [k Hk]. by eapply getVectorType_VP_Some. }
  split.
  - intros [[c Frt'] Hadv]. unfold advanceInplace_VP in Hadv.
    assert (sortReplaced (getReplacedInsts VP) ≡ₚ getReplacedInsts VP) as Hperm
      by apply merge_sort_Permutation.
    destruct (isStore VP) eqn:Hstore; simpl in Hadv.
    + destruct (freezeAll _ Frt) as [Frt1|] eqn:Hfr; [|done]. simpl in Hadv.
      destruct (trackOperandPacks TTI _ _ _ _) as [r|] eqn:Htr; [|done].
      apply trackOperandPacks_typed in Htr.
      pose proof (freezeAll_count _ _ _ Hfr) as [Hnd _].
      apply freezeAll_inv in Hfr as (_ & _ & _ & _ & _ & Hfree).
      rewrite Hperm in Hnd, Hfree. done.
    + destruct (getVectorType_VP VP) as [vt|] eqn:Evt; [|done]. simpl in Hadv.
      destruct (freezeAll _ Frt) as [Frt1|] eqn:Hfr; [|done]. simpl in Hadv.
      destruct (gatherLoop TTI _ VP 0 _ _ []) as [[c2 R]|]; [|done]. simpl in Hadv.
      destruct (trackOperandPacks TTI _ _ c2 _) as [r|] eqn:Htr; [|done].
      apply trackOperandPacks_typed in Htr.
      pose proof (freezeAll_count _ _ _ Hfr) as [Hnd _].
      apply freezeAll_inv in Hfr as (_ & _ & _ & _ & _ & Hfree).
      rewrite Hperm in Hnd, Hfree. done.
  - intros (Hfree & Hnd & Hops).
    destruct (advanceInplace_VP_defined TTI VP Frt Hty Hfree Hnd Hops)
      as (c & Frt' & ->). done.
Qed.

End TransitionsDefined.

(** ** The dynamic-programming solver *)

Section DenseMap.
Context {K V : Type}.
Variable isEqual : K → K → bool.

Lemma denseFind_Some (M : list (K * V)) k v :
  denseFind isEqual M k = Some v → ∃ k', (k', v) ∈ M ∧ isEqual k' k = true.
Proof.
  unfold denseFind. destruct (List.find _ M) as [[k' v']|] eqn:E; [|done].
  simpl. intros [= <-]. apply find_some in E as [Hin Heq].
  exists k'. split; [by apply list_elem_of_In|done].
Qed.

Lemma denseFind_denseSet (M : list (K * V)) k v :
  isEqual k k = true → denseFind isEqual (denseSet isEqual M k v) k = Some v.
Proof.
  intros Hrefl. unfold denseFind. induction M as [|[k' v'] M IH]; simpl.
  - by rewrite Hrefl.
  - destruct (isEqual k' k) eqn:E; simpl; rewrite E; [done|]. exact IH.
Qed.

(** A key of the map after [M[k] = v] is [k] or a key of the map
    before. *)
Lemma denseSet_keys (M : list (K * V)) k v k' v' :
  (k', v') ∈ denseSet isEqual M k v →
  (k', v') ∈ M ∨ (v' = v ∧ (k' = k ∨ ∃ v0, (k', v0) ∈ M ∧ isEqual k' k = true)).
Proof.
  induction M as [|[k0 v0] M IH]; simpl.
  - intros Hin. apply list_elem_of_singleton in Hin as [= -> ->]. right. auto.
  - destruct (isEqual k0 k) eqn:E.
    + intros Hin. apply elem_of_cons in Hin as [[= -> ->]|Hin].
      * right. split; [done|]. right. exists v0. split; [left|done].
      * left. by right.
    + intros Hin. apply elem_of_cons in Hin as [[= -> ->]|Hin].
      * left. left.
      * apply IH in Hin as [Hin|[-> [->|(v1 & Hin & Hk)]]].
        -- left. by right.
        -- right. auto.
        -- right. split; [done|]. right. exists v1. split; [by right|done].
Qed.

End DenseMap.

Section DPSolverFacts.
Context {F : Type} {FO : FloatOps F} {Pkr : Packer F} {Ext : ExtensionSearch}.
Variable isEqual : Frontier → Frontier → bool.

(** X23. The solver memoises: the solution it returns for a frontier is
    stored for the frontier, and asking again returns it without touching
    the table. *)
Theorem DP_solve_memoises fuel TTI Frt M Sol M' :
  isEqual Frt Frt = true →
  DP_solve isEqual fuel TTI Frt M = Some (Sol, M') →
  denseFind isEqual M' Frt = Some Sol ∧
  ∀ fuel', DP_solve isEqual (S fuel') TTI Frt M' = Some (Sol, M').
Proof.
  intros Hrefl Hrun.
  assert (denseFind isEqual M' Frt = Some Sol) as Hfind.
  { destruct fuel as [|fuel]; [done|]. simpl in Hrun.
    destruct (denseFind isEqual M Frt) as [Sol0|] eqn:Hmemo.
    - by injection Hrun as <- <-.
    - destruct (estimateAllScalarCost Frt TTI) as [Cost0|]; [|done]. simpl in Hrun.
      destruct (foldO _ _ _) as [[Sol1 M1]|]; [|done]. simpl in Hrun.
      injection Hrun as <- <-. by apply denseFind_denseSet. }
  split; [done|]. intros fuel'. simpl. by rewrite Hfind.
Qed.

(** The extension that the solver returns is one that can be committed,
    when frontiers of a search that compare equal are the same. *)
Lemma DP_solve_ok fuel TTI Frt M Sol M' :
  (∀ a b, searched TTI a → searched TTI b → isEqual a b = true → a = b) →
  searched TTI Frt → dp_searched TTI M → dp_ok TTI M →
  DP_solve isEqual fuel TTI Frt M = Some (Sol, M') →
  dp_searched TTI M' ∧ dp_ok TTI M' ∧
  ∀ E, DPSolver.VP Sol = Some E →
       E ∈ findExtensionPacks2 Frt ∧ is_Some (advanceInplace_VP E TTI Frt).
Proof.
  intros Heq. revert Frt M Sol M'.
  induction fuel as [|fuel IH]; intros Frt M Sol M' Hreach Hkeys Hok; [done|]. simpl.
  destruct (denseFind isEqual M Frt) as [Sol0|] eqn:Hmemo.
  - intros [= <- <-]. split; [done|]. split; [done|]. intros E HE.
    apply denseFind_Some in Hmemo as (k & Hin & Hk).
    apply Heq in Hk as ->; [by eapply Hok | by eapply Hkeys | done].
  - destruct (estimateAllScalarCost Frt TTI) as [Cost0|]; [|done]. simpl.
    destruct (foldO _ _ _) as [[Sol1 M1]|] eqn:Hfold; [|done]. simpl.
    intros [= <- <-].
    assert (dp_searched TTI M1 ∧ dp_ok TTI M1 ∧
            ∀ E, DPSolver.VP Sol1 = Some E →
                 E ∈ findExtensionPacks2 Frt ∧ is_Some (advanceInplace_VP E TTI Frt))
      as (Hkeys1 & Hok1 & HSol1).
    { revert Hfold.
      apply (foldO_inv
               (λ st : DPSolver.Solution F * list (Frontier * DPSolver.Solution F),
                  dp_searched TTI st.2 ∧ dp_ok TTI st.2 ∧
                  ∀ E, DPSolver.VP st.1 = Some E →
                       E ∈ findExtensionPacks2 Frt
                       ∧ is_Some (advanceInplace_VP E TTI Frt))); [|by split].
      intros [Sol2 M2] ExtVP [Sol3 M3] Hin (Hkeys2 & Hok2 & HSol2). simpl in *.
      unfold advance_VP.
      destruct (advanceInplace_VP ExtVP TTI Frt) as [[LocalCost NextFrt]|] eqn:Hadv;
        [|done]. simpl.
      destruct (DP_solve isEqual fuel TTI NextFrt M2) as [[Sub M4]|] eqn:Hsub; [|done].
      simpl. intros [= <- <-].
      apply IH in Hsub as (Hkeys4 & Hok4 & _); [|by eapply rtc_r, adv_commit|done..].
      split; [done|]. split; [done|].
      destruct (fltb _ _); [|done]. simpl. intros E [= <-].
      split; [done|]. by rewrite Hadv. }
    assert (∀ k Sol, (k, Sol) ∈ denseSet isEqual M1 Frt Sol1 →
                     (k, Sol) ∈ M1 ∨ (Sol = Sol1 ∧ k = Frt)) as Hset.
    { intros k Sol Hin. apply denseSet_keys in Hin as [Hin|[-> [->|(v0 & Hin & Hk)]]];
        [by left | by right |].
      right. split; [done|]. apply Heq; [by eapply Hkeys1 | done..]. }
    split; [|split; [|done]].
    + intros k Sol Hin. apply Hset in Hin as [Hin|[-> ->]]; [by eapply Hkeys1|done].
    + intros k Sol E Hin HE. apply Hset in Hin as [Hin|[-> ->]].
      * by eapply Hok1.
      * by apply HSol1.
Qed.

(** X24. The extension pack that the solver proposes for a frontier of a
    search can be committed there: it is one of the extension packs of the
    frontier, and [advanceInplace] does not abort on it, also when the
    solution was found in the table under a frontier that compares equal.
    The equality of frontiers may be any for which equal frontiers have
    the same free instructions, unresolved packs and unresolved scalars;
    it need compare neither the cursor nor the usable instructions. This
    holds of a solver whose table started empty, whatever frontiers of
    the search it has solved since. *)
Theorem DP_solve_extension_commits fuel TTI Frt M Sol M' E :
  index_ok → index_closed → block_ok → def_use_ok →
  (∀ a b, isEqual a b = true →
          FreeInsts a = FreeInsts b ∧ UnresolvedPacks a = UnresolvedPacks b ∧
          UnresolvedScalars a = UnresolvedScalars b) →
  searched TTI Frt → dp_searched TTI M → dp_ok TTI M →
  DP_solve isEqual fuel TTI Frt M = Some (Sol, M') →
  DPSolver.VP Sol = Some E →
  E ∈ findExtensionPacks2 Frt ∧ is_Some (advanceInplace_VP E TTI Frt) ∧
  dp_searched TTI M' ∧ dp_ok TTI M'.
Proof.
  intros Hidx Hcl Hblk Hdu Hsame Hreach Hkeys Hok Hrun HE.
  assert (∀ a b, searched TTI a → searched TTI b → isEqual a b = true → a = b) as Heq.
  { intros a b Ha Hb Hab. destruct (Hsame a b Hab) as (HF & HUP & HUS).
    by eapply searched_same_state. }
  destruct (DP_solve_ok fuel TTI Frt M Sol M' Heq Hreach Hkeys Hok Hrun)
    as (Hkeys' & Hok' & HSol).
  destruct (HSol E HE) as [? ?]. done.
Qed.

End DPSolverFacts.

Section DPSolverBound.
Context {F : Type} {FO : FloatOps F} {Laws : CostLaws F} {Pkr : Packer F}
        {Ext : ExtensionSearch}.
Variable isEqual : Frontier → Frontier → bool.


End DPSolverBound.

(** ** The seed store packs of the bottom-up optimizer *)

Lemma concatMapM_elem_of {A B} (f : A → option (list B)) (l : list A) ys y :
  concatMapM f l = Some ys → y ∈ ys → ∃ x zs, x ∈ l ∧ f x = Some zs ∧ y ∈ zs.
Proof.
  revert ys. induction l as [|x l IH]; intros ys; simpl.
  - intros [= <-] Hy. by apply elem_of_nil in Hy.
  - destruct (f x) as [zs|] eqn:E; [|done]. simpl.
    destruct (concatMapM f l) as [ws|]; [|done]. simpl. intros [= <-] Hy.
    apply elem_of_app in Hy as [Hy|Hy].
    + exists x, zs. split; [left|done].
    + destruct (IH ws eq_refl Hy) as (x' & zs' & Hin & Hf & Hy').
      exists x', zs'. split; [by right|done].
Qed.

Section SeedStores.
Context {F : Type} `{FloatOps F} {Pkr : Packer F}.
Import BitVector BitVectorFacts.

Lemma consecutiveIn_snoc IsStore c back nexts y :
  consecutiveIn IsStore c → last c = Some back →
  AccessDAG IsStore back = Some nexts → y ∈ nexts →
  consecutiveIn IsStore (c ++ [y]).
Proof.
  intros Hc Hlast Hdag Hy i a b Ha Hb.
  apply lookup_app_Some in Hb as [Hb|[Hlen Hb]].
  - apply (Hc i a b); [|done].
    rewrite lookup_app_l in Ha; [done|]. apply lookup_lt_Some in Hb. lia.
  - apply list_lookup_singleton_Some in Hb as [Hi <-].
    rewrite lookup_app_l in Ha by lia.
    assert (a = back) as ->.
    { rewrite last_lookup in Hlast.
      replace (pred (length c)) with i in Hlast by lia. congruence. }
    by exists nexts.
Qed.

Lemma pairwiseIndependent_snoc c y :
  pairwiseIndependent c → Forall (λ x, independent x y) c →
  pairwiseIndependent (c ++ [y]).
Proof.
  intros Hc Hall i j a b Hij Ha Hb.
  apply lookup_app_Some in Hb as [Hb|[Hlen Hb]].
  - apply (Hc i j a b); [done| |done].
    rewrite lookup_app_l in Ha; [done|]. apply lookup_lt_Some in Hb. lia.
  - apply list_lookup_singleton_Some in Hb as [Hj <-].
    rewrite lookup_app_l in Ha by lia.
    rewrite Forall_forall in Hall. apply Hall. by eapply list_elem_of_lookup_2.
Qed.

Lemma EnumerateStores_sound fuel Frt VL SI c Seeds VP :
  dag_ids_ok true →
  head c = Some SI → consecutiveIn true c → pairwiseIndependent c →
  Forall (λ x, isUsable Frt x = true) c →
  Forall (λ x, getScalarId x < getNumValues) c →
  length c ≤ VL →
  EnumerateStores fuel Frt VL c (elementsOf c) (dependedOf c) = Some Seeds →
  VP ∈ Seeds →
  ∃ c', VP = seedPack true c' ∧ isSeedChain true SI VL c' ∧
        Forall (λ x, isUsable Frt x = true) c'.
Proof.
  intros Hdag. revert c Seeds.
  induction fuel as [|fuel IH]; intros c Seeds Hhd Hcons Hind Hus Hids Hlen; [done|].
  simpl. destruct (length c =? VL) eqn:E.
  - apply Nat.eqb_eq in E. intros [= <-] HVP.
    apply list_elem_of_singleton in HVP as ->. exists c. done.
  - apply Nat.eqb_neq in E.
    destruct (last c) as [back|] eqn:Hlast; [|done]. simpl.
    destruct (StoreDAG back) as [nexts|] eqn:Hnexts.
    + intros Hcm HVP.
      destruct (concatMapM_elem_of _ _ _ _ Hcm HVP) as (y & zs & Hy & Hf & HVPz).
      destruct (isUsable Frt y) eqn:Hyus; simpl in Hf;
        [|injection Hf as <-; by apply elem_of_nil in HVPz].
      rewrite (checkIndependence_spec c y Hids) in Hf.
      case_bool_decide as Hyind; simpl in Hf;
        [|injection Hf as <-; by apply elem_of_nil in HVPz].
      rewrite <- elementsOf_snoc, <- dependedOf_snoc in Hf.
      apply (IH (c ++ [y]) zs); try done.
      * destruct c; [done|]. done.
      * by eapply (consecutiveIn_snoc true).
      * by apply pairwiseIndependent_snoc.
      * apply Forall_app. split; [done|]. by constructor.
      * apply Forall_app. split; [done|]. constructor; [|done].
        specialize (Hdag back nexts Hnexts). rewrite Forall_forall in Hdag.
        by apply Hdag.
      * rewrite length_app. simpl. lia.
    + intros [= <-] HVP. by apply elem_of_nil in HVP.
Qed.

(** X26. Every seed store pack that the bottom-up optimizer enumerates
    from a store is the store pack of a chain of [VL] stores that starts at
    that store, follows the DAG of the stores, and whose stores are
    pairwise independent and all usable in the frontier. *)
Theorem getSeedStorePacks_sound fuel Frt SI VL Seeds VP :
  dag_ids_ok true → getScalarId SI < getNumValues → 1 ≤ VL →
  getSeedStorePacks fuel Frt SI VL = Some Seeds → VP ∈ Seeds →
  ∃ c, VP = seedPack true c ∧ isSeedChain true SI VL c ∧
       Forall (λ x, isUsable Frt x = true) c.
Proof.
  intros Hdag Hid HVL. unfold getSeedStorePacks.
  destruct (isUsable Frt SI) eqn:Hus; simpl.
  - apply (EnumerateStores_sound fuel Frt VL SI [SI]); try done.
    + intros i j a b Hij Ha Hb. destruct i, j; simpl in *; try done; lia.
    + by constructor.
    + by constructor.
  - intros [= <-] HVP. by apply elem_of_nil in HVP.
Qed.

End SeedStores.

(** ** SlotSet *)

Module SlotSetFacts.
Import SlotSet.

Lemma grow_lookup l i j :
  grow l i !! j = if decide (j < length l) then l !! j
                  else if decide (j ≤ i) then Some None else None.
Proof.
  unfold grow. destruct (length l <=? i) eqn:E.
  - apply Nat.leb_le in E. case_decide as Hj.
    + by rewrite lookup_app_l.
    + rewrite lookup_app_r by lia. case_decide as Hji.
      * apply lookup_replicate_2. lia.
      * apply lookup_replicate_None. lia.
  - apply Nat.leb_gt in E. case_decide as Hj; [done|].
    rewrite decide_False by lia. apply lookup_ge_None_2. lia.
Qed.

Lemma grow_length l i : length (grow l i) = length l `max` (i + 1).
Proof.
  unfold grow. destruct (length l <=? i) eqn:E.
  - apply Nat.leb_le in E. rewrite length_app, length_replicate. lia.
  - apply Nat.leb_gt in E. lia.
Qed.

(** The two outcomes of [try_insert]. *)
Lemma try_insert_cases i LI s :
  match try_insert i LI s with
  | (true, s') =>
      (get s i = Some (Some LI) ∨ get s i = Some None ∨ get s i = None) ∧
      get s' i = Some (Some LI) ∧
      (∀ j LJ, j ≠ i → get s' j = Some (Some LJ) ↔ get s j = Some (Some LJ)) ∧
      num_elems s' = num_elems s + 1
  | (false, s') =>
      s' = s ∧ ∃ LJ, LJ ≠ LI ∧ get s i = Some (Some LJ)
  end.
Proof.
  unfold try_insert, get, num_elems.
  destruct (Slots s !! i) as [slot|] eqn:Hi.
  - assert (i < length (Slots s)) as Hlt by by eapply lookup_lt_Some.
    assert (grow (Slots s) i = Slots s) as Hgrow.
    { unfold grow. by rewrite (proj2 (Nat.leb_gt _ _) Hlt). }
    rewrite Hgrow, Hi. simpl.
    destruct (bool_decide (slot = None) || bool_decide (slot = Some LI)) eqn:E; simpl.
    + split.
      { apply orb_true_iff in E as [E|E]; apply bool_decide_eq_true in E; subst; auto. }
      split; [by apply list_lookup_insert_eq|]. split; [|done].
      intros j LJ Hne. by rewrite list_lookup_insert_ne.
    + apply orb_false_iff in E as [E1 E2].
      apply bool_decide_eq_false in E1, E2.
      split; [by destruct s|].
      destruct slot as [LJ|]; [|done]. exists LJ. split; [congruence|done].
  - assert (length (Slots s) ≤ i) as Hge by by apply lookup_ge_None.
    rewrite grow_lookup. rewrite decide_False by lia. rewrite decide_True by lia.
    simpl. split; [auto|]. split.
    + apply list_lookup_insert_eq. rewrite grow_length. lia.
    + split; [|done]. intros j LJ Hne. rewrite list_lookup_insert_ne by done.
      rewrite grow_lookup. case_decide; [done|].
      rewrite (lookup_ge_None_2 (Slots s) j) by lia. by case_decide.
Qed.

(** X27. [try_insert] puts the load in its slot when the slot is empty or
    holds the same load, and leaves the other slots alone; it counts the
    insertion even when the slot held the load already. It fails, and
    changes nothing, when the slot holds another load. *)
Theorem try_insert_spec i LI s :
  match try_insert i LI s with
  | (true, s') =>
      (get s i = Some (Some LI) ∨ get s i = Some None ∨ get s i = None) ∧
      get s' i = Some (Some LI) ∧
      (∀ j LJ, j ≠ i → get s' j = Some (Some LJ) ↔ get s j = Some (Some LJ)) ∧
      num_elems s' = num_elems s + 1
  | (false, s') =>
      s' = s ∧ ∃ LJ, LJ ≠ LI ∧ get s i = Some (Some LJ)
  end.
Proof.
  pose proof (try_insert_cases i LI s) as Hcases.
  destruct (try_insert i LI s) as [[|] s']; exact Hcases.
Qed.

Lemma try_insert_bounds_inv i LI s :
  bounds_inv s → bounds_inv (try_insert i LI s).2.
Proof.
  intros Hinv. pose proof (try_insert_cases i LI s) as Hspec.
  destruct (try_insert i LI s) as [[|] s'] eqn:E.
  - destruct Hspec as (_ & Hi & Hothers & _). simpl.
    assert (∀ j, occupied s' j ↔ j = i ∨ occupied s j) as Hocc.
    { intros j. unfold occupied. destruct (decide (j = i)) as [->|Hne].
      - split; [by left|]. intros _. by exists LI.
      - split.
        + intros [LJ HLJ]. right. exists LJ. by apply (Hothers j LJ Hne).
        + intros [|[LJ HLJ]]; [done|]. exists LJ. by apply (Hothers j LJ Hne). }
    unfold try_insert in E.
    destruct (_ || _); [|done]. injection E as <-.
    unfold bounds_inv in *. simpl in *.
    destruct (HasValue s).
    + destruct Hinv as (Hmin & Hmax & Hall).
      split; [|split].
      * apply Hocc. destruct (decide (i ≤ MinId s)).
        -- left. lia.
        -- right. by rewrite Nat.min_r by lia.
      * apply Hocc. destruct (decide (MaxId s ≤ i)).
        -- left. lia.
        -- right. by rewrite Nat.max_r by lia.
      * intros j Hj. apply Hocc in Hj as [->|Hj]; [lia|].
        specialize (Hall j Hj). lia.
    + destruct Hinv as (_ & Hnone).
      split; [apply Hocc; by left|]. split; [apply Hocc; by left|].
      intros j Hj. apply Hocc in Hj as [->|Hj]; [lia|]. by destruct (Hnone j).
  - destruct Hspec as [-> _]. done.
Qed.

Lemma inserted_snoc l a : inserted (l ++ [a]) = (try_insert a.1 a.2 (inserted l)).2.
Proof. unfold inserted. by rewrite fold_left_app. Qed.

Lemma inserted_bounds_inv l : bounds_inv (inserted l).
Proof.
  induction l as [|a l IH] using rev_ind.
  - split; [done|]. intros i [LI Hi]. done.
  - rewrite inserted_snoc. by apply try_insert_bounds_inv.
Qed.

Lemma inserted_HasValue l : l ≠ [] → HasValue (inserted l) = true.
Proof.
  destruct l as [|a l _] using rev_ind; [done|]. intros _. rewrite inserted_snoc.
  pose proof (try_insert_cases a.1 a.2 (inserted l)) as Hspec.
  destruct (try_insert a.1 a.2 (inserted l)) as [[|] s'] eqn:E.
  - unfold try_insert in E. destruct (_ || _); [|done]. by injection E as <-.
  - destruct Hspec as [-> (LJ & _ & HLJ)]. simpl.
    pose proof (inserted_bounds_inv l) as Hinv. unfold bounds_inv in Hinv.
    destruct (HasValue (inserted l)); [done|].
    destruct Hinv as [_ Hnone]. destruct (Hnone a.1). by exists LJ.
Qed.

(** X28. Whatever insertions were made into a new set, and whether they
    succeeded or not, [minId] and [maxId] are defined as soon as one
    insertion was made, and they are the lowest and the highest slot that
    hold a load. *)
Theorem inserted_bounds l :
  l ≠ [] →
  ∃ lo hi, minId (inserted l) = Some lo ∧ maxId (inserted l) = Some hi ∧
           occupied (inserted l) lo ∧ occupied (inserted l) hi ∧
           ∀ i, occupied (inserted l) i → lo ≤ i ≤ hi.
Proof.
  intros Hne. pose proof (inserted_bounds_inv l) as Hinv.
  unfold bounds_inv, minId, maxId in *.
  rewrite (inserted_HasValue l Hne) in *. by eexists _, _.
Qed.

End SlotSetFacts.

(** ** The estimate of scalarizing everything is exact *)

Section ScalarEstimate.
Context {F : Type} `{FloatOps F} {Pkr : Packer F}.
Import BitVector BitVectorFacts.

Hypothesis fadd_assoc : ∀ a b c : F, fadd (fadd a b) c = fadd a (fadd b c).
Hypothesis fadd_comm : ∀ a b : F, fadd a b = fadd b a.
Hypothesis fadd_0_r : ∀ a : F, fadd a (of_int 0) = a.

Lemma fadd_swap (a b c : F) : fadd (fadd a b) c = fadd (fadd a c) b.
Proof using fadd_assoc fadd_comm.
  by rewrite !fadd_assoc, (fadd_comm b c).
Qed.

(** The loop over the lanes adds to the cost it starts from. *)
Lemma estimateLanes_acc TTI Frt vt OP i ls (c1 c2 : F) :
  estimateLanes TTI Frt vt OP i ls (fadd c1 c2)
  = fadd c1 (estimateLanes TTI Frt vt OP i ls c2).
Proof using fadd_assoc.
  revert i c2. induction ls as [|V ls IH]; intros i c2; simpl; [done|].
  destruct (V ≫= dyn_cast_Instruction) as [Inst|]; [|apply IH].
  destruct (negb (inBB Inst) || negb (isFree Frt Inst)); [apply IH|].
  destruct ((i =? 0) && is_splat (lanes OP)); [apply fadd_assoc|].
  rewrite fadd_assoc. apply IH.
Qed.

Lemma estimateLanes_ext TTI Frt Frt' vt OP i ls (c : F) :
  FreeInsts Frt = FreeInsts Frt' →
  estimateLanes TTI Frt vt OP i ls c = estimateLanes TTI Frt' vt OP i ls c.
Proof.
  intros HF. revert i c. induction ls as [|V ls IH]; intros i c; simpl; [done|].
  destruct (V ≫= dyn_cast_Instruction) as [Inst|]; [|apply IH].
  unfold isFree. rewrite HF.
  destruct (negb (inBB Inst) || negb _); [apply IH|].
  destruct ((i =? 0) && is_splat (lanes OP)); [done|apply IH].
Qed.

(** Lanes without a free instruction of the block add nothing. *)
Lemma estimateLanes_resolved TTI Frt vt OP i ls (c : F) :
  forallb (λ V, negb (laneIsFree Frt V)) ls = true →
  estimateLanes TTI Frt vt OP i ls c = c.
Proof.
  revert i. induction ls as [|V ls IH]; intros i; simpl; [done|].
  intros Hall. apply andb_true_iff in Hall as [HV Hall].
  destruct V as [[Inst| |]|]; simpl in *; try (by apply IH).
  apply negb_true_iff in HV.
  destruct (inBB Inst), (isFree Frt Inst); simpl in *; try done; by apply IH.
Qed.

Lemma insertLoop_none TTI vt Inst i ls (c : F) :
  Some (VInst Inst) ∉ ls → insertLoop TTI vt Inst i ls c = c.
Proof.
  revert i. induction ls as [|V ls IH]; intros i Hnot; simpl; [done|].
  rewrite bool_decide_eq_false_2.
  - apply IH. intros Hin. apply Hnot. by right.
  - intros ->. apply Hnot. left.
Qed.

Section Step.
Variables (TTI : TargetTransformInfo) (Inst : InstPtr) (Frt Frt1 : Frontier).
Hypothesis HI : inBB Inst = true.
Hypothesis HfreeI : isFree Frt Inst = true.
Hypothesis Hfree1 :
  ∀ J, inBB J = true →
       isFree Frt1 J = if decide (J = Inst) then false else isFree Frt J.

Lemma estimateLanes_other vt OP i ls (c : F) :
  Some (VInst Inst) ∉ ls →
  estimateLanes TTI Frt vt OP i ls c = estimateLanes TTI Frt1 vt OP i ls c.
Proof using Hfree1.
  revert i c. induction ls as [|V ls IH]; intros i c Hnot; simpl; [done|].
  assert (Some (VInst Inst) ∉ ls) as Hnot' by (intros Hin; apply Hnot; by right).
  destruct V as [[J| |]|]; simpl; try (by apply IH).
  destruct (inBB J) eqn:HJ; simpl; [|by apply IH].
  rewrite (Hfree1 J HJ). rewrite decide_False by (intros ->; apply Hnot; left).
  destruct (negb (isFree Frt J)); [by apply IH|].
  destruct ((i =? 0) && is_splat (lanes OP)); [done|by apply IH].
Qed.

(** A pack that is no splat: each lane is charged to the instruction that
    is scalarized, or it stays in the estimate. *)
Lemma estimateLanes_split vt OP i ls (c1 c2 : F) :
  is_splat (lanes OP) = false →
  estimateLanes TTI Frt vt OP i ls (fadd c1 c2)
  = fadd (insertLoop TTI vt Inst i ls c1) (estimateLanes TTI Frt1 vt OP i ls c2).
Proof using fadd_assoc fadd_comm HI HfreeI Hfree1.
  intros Hns. revert i c1 c2.
  induction ls as [|V ls IH]; intros i c1 c2; simpl; [done|].
  rewrite Hns, andb_false_r.
  destruct V as [[J| |]|]; simpl; try (by apply IH).
  destruct (decide (J = Inst)) as [->|Hne].
  - rewrite bool_decide_eq_true_2 by done.
    rewrite HI, HfreeI. simpl. rewrite (Hfree1 Inst HI), decide_True by done. simpl.
    rewrite <- IH. f_equal. apply fadd_swap.
  - rewrite bool_decide_eq_false_2 by congruence.
    destruct (inBB J) eqn:HJ; simpl; [|apply IH].
    rewrite (Hfree1 J HJ), decide_False by done.
    destruct (isFree Frt J); simpl; [|apply IH].
    rewrite <- IH. f_equal. apply fadd_assoc.
Qed.

Lemma splatOf_resolved OP : splatOf Inst OP → resolved Frt1 OP = true.
Proof using HI Hfree1.
  intros [_ Hall]. unfold resolved. apply forallb_forall. intros V HV.
  apply list_elem_of_In in HV. rewrite Forall_forall in Hall. rewrite (Hall V HV).
  simpl. rewrite HI, (Hfree1 Inst HI), decide_True by done. done.
Qed.

(** What the estimate holds for a pack is what scalarizing the instruction
    charges for the pack, and what the estimate holds for it after. *)
Lemma estimate_pack_step p vt (c1 c2 : F) :
  getVectorType_OP (getOperandPack p) = Some vt →
  estimateLanes TTI Frt vt (getOperandPack p) 0 (lanes (getOperandPack p)) (fadd c1 c2)
  = fadd (scalarizeStep TTI Inst (getOperandPack p) c1)
         (estimateLanes TTI Frt1 vt (getOperandPack p) 0 (lanes (getOperandPack p)) c2).
Proof using fadd_assoc fadd_comm HI HfreeI Hfree1.
  generalize (getOperandPack p). intros OP Hvt.
  unfold scalarizeStep, vectorTypeOf. rewrite Hvt. simpl.
  case_bool_decide as Hsplat.
  - rewrite (estimateLanes_resolved TTI Frt1) by (by apply splatOf_resolved).
    pose proof Hsplat as [Hne Hall].
    assert (is_splat (lanes OP) = true) as His.
    { pose proof (isSplatOf_spec Inst OP) as Hs.
      rewrite (bool_decide_eq_true_2 (splatOf Inst OP) Hsplat) in Hs.
      by apply andb_true_iff in Hs as [? _]. }
    destruct (lanes OP) as [|V ls] eqn:El; [done|].
    apply Forall_cons in Hall as [-> _]. simpl.
    rewrite HI, HfreeI. simpl. rewrite El, His. apply fadd_swap.
  - destruct (is_splat (lanes OP)) eqn:His; [|by apply estimateLanes_split].
    assert (Some (VInst Inst) ∉ lanes OP) as Hnot.
    { intros Hin. apply Hsplat.
      apply is_splat_spec in His as (x & l' & El & Hall).
      split; [by rewrite El|]. rewrite El in Hin |- *.
      assert (x = Some (VInst Inst)) as ->.
      { apply elem_of_cons in Hin as [->|Hin]; [done|].
        rewrite Forall_forall in Hall. symmetry. by apply Hall. }
      by constructor. }
    rewrite insertLoop_none by done.
    rewrite <- estimateLanes_other by done. by apply estimateLanes_acc.
Qed.

Lemma estimate_packs_step packs (c1 c2 : F) :
  Forall packTyped packs →
  estimatePacks TTI Frt packs (fadd c1 c2)
  = fadd (fold_left (λ c p, scalarizeStep TTI Inst (getOperandPack p) c) packs c1)
         (estimatePacks TTI Frt1 packs c2).
Proof using fadd_assoc fadd_comm HI HfreeI Hfree1.
  revert c1 c2. induction packs as [|p packs IH]; intros c1 c2 Hty; simpl; [done|].
  apply Forall_cons in Hty as [(vt & Hvt & _) Hty].
  assert (vectorTypeOf (getOperandPack p) = vt) as ->
    by (unfold vectorTypeOf; by rewrite Hvt).
  rewrite (estimate_pack_step p vt c1 c2 Hvt). by apply IH.
Qed.

(** The packs that leave the unresolved packs hold nothing of the
    estimate. *)
Lemma estimatePacks_filter packs (c : F) :
  estimatePacks TTI Frt1 packs c
  = estimatePacks TTI Frt1
      (filter (λ p, leavesOnScalarize Frt1 Inst p = false) packs) c.
Proof using HI Hfree1.
  revert c. induction packs as [|p packs IH]; intros c; [done|].
  rewrite filter_cons. unfold estimatePacks in *. simpl.
  destruct (leavesOnScalarize Frt1 Inst p) eqn:Hl.
  - rewrite decide_False by done.
    rewrite estimateLanes_resolved; [apply IH|].
    unfold leavesOnScalarize in Hl. apply orb_true_iff in Hl as [Hl|Hl]; [|done].
    apply bool_decide_eq_true in Hl. by apply splatOf_resolved.
  - rewrite decide_True by done. simpl. apply IH.
Qed.

End Step.

Lemma estimatePacks_Permutation TTI Frt l l' (c : F) :
  l ≡ₚ l' → estimatePacks TTI Frt l c = estimatePacks TTI Frt l' c.
Proof using fadd_assoc fadd_comm fadd_0_r.
  assert (∀ vt OP ls (a : F),
            estimateLanes TTI Frt vt OP 0 ls a
            = fadd a (estimateLanes TTI Frt vt OP 0 ls (of_int 0))) as Hacc.
  { intros vt OP ls a. rewrite <- estimateLanes_acc. by rewrite fadd_0_r. }
  intros Hperm. revert c. unfold estimatePacks.
  induction Hperm as [|x l l' _ IH|x y l|l l' l'' _ IH1 _ IH2]; intros c; simpl.
  - done.
  - apply IH.
  - f_equal.
    rewrite (Hacc _ (getOperandPack x) _ (estimateLanes _ _ _ (getOperandPack y) _ _ c)).
    rewrite (Hacc _ (getOperandPack y) _ c).
    rewrite (Hacc _ (getOperandPack y) _ (estimateLanes _ _ _ (getOperandPack x) _ _ c)).
    rewrite (Hacc _ (getOperandPack x) _ c). apply fadd_swap.
  - by rewrite IH1.
Qed.

Lemma estimatePacks_ext TTI Frt Frt' packs (c : F) :
  FreeInsts Frt = FreeInsts Frt' →
  estimatePacks TTI Frt packs c = estimatePacks TTI Frt' packs c.
Proof.
  intros HF. revert c. unfold estimatePacks.
  induction packs as [|p packs IH]; intros c; simpl; [done|].
  rewrite (estimateLanes_ext TTI Frt Frt') by done. apply IH.
Qed.

Lemma estimateAllScalarCost_typed Frt TTI :
  Forall packTyped (UnresolvedPacks Frt) →
  estimateAllScalarCost Frt TTI
  = Some (estimatePacks TTI Frt (UnresolvedPacks Frt) (of_int 0)).
Proof.
  unfold estimateAllScalarCost, estimatePacks.
  generalize (of_int 0 : F). induction (UnresolvedPacks Frt) as [|p packs IH];
    intros c Hty; simpl; [done|].
  apply Forall_cons in Hty as [(vt & Hvt & _) Hty].
  assert (vectorTypeOf (getOperandPack p) = vt) as ->
    by (unfold vectorTypeOf; by rewrite Hvt).
  rewrite Hvt. simpl. by apply IH.
Qed.

(** One scalarization: its cost is what the estimate loses. *)
Lemma estimate_step TTI Inst Frt c Frt' :
  index_ok → block_ok → Inst ∈ insts →
  Forall packTyped (UnresolvedPacks Frt) →
  advanceInplace_Inst Inst TTI Frt = Some (c, Frt') →
  estimatePacks TTI Frt (UnresolvedPacks Frt) (of_int 0)
  = fadd c (estimatePacks TTI Frt' (UnresolvedPacks Frt') (of_int 0)).
Proof using fadd_assoc fadd_comm fadd_0_r.
  intros Hidx Hblk Hin Hty Hadv.
  pose proof (advanceInplace_Inst_inv _ _ _ _ _ Hadv) as (Hfree & HF & HUP).
  assert (c = fold_left (λ c p, scalarizeStep TTI Inst (getOperandPack p) c)
                        (UnresolvedPacks Frt) (of_int 0)) as Hc.
  { unfold advanceInplace_Inst in Hadv.
    destruct (freezeOneInst_Some _ _ Hfree) as (Frt0 & Hfr & _ & HUP0 & _).
    rewrite Hfr in Hadv. simpl in Hadv.
    rewrite scalarizeLoop_code in Hadv by (by rewrite HUP0).
    simpl in Hadv. injection Hadv as <- _. by rewrite HUP0. }
  assert (inBB Inst = true) as HI by by apply (inBB_insts Hblk).
  assert (∀ J, inBB J = true →
               isFree Frt' J = if decide (J = Inst) then false else isFree Frt J) as Hfree1.
  { intros J HJ. apply (inBB_insts Hblk) in HJ.
    rewrite (isFree_reset Frt Frt' _ _ HF).
    destruct (decide (J = Inst)) as [->|Hne]; [by rewrite decide_True|].
    rewrite decide_False; [done|]. intros Hid. apply Hne. symmetry.
    by apply (id_inj Hidx). }
  rewrite HUP.
  rewrite (estimatePacks_Permutation TTI Frt' _ _ _ (sort_ptrs_Permutation _)).
  rewrite <- (estimatePacks_filter TTI Inst Frt Frt' HI Hfree1).
  rewrite Hc.
  rewrite <- (estimate_packs_step TTI Inst Frt Frt' HI Hfree Hfree1) by done.
  by rewrite fadd_0_r.
Qed.

(** X30. The estimate is exact. From a frontier of a search, whatever
    successful transitions led to it, whose unresolved packs have a vector
    type and in which an instruction is free whenever a pack is unresolved,
    the loop that scalarizes what is left returns, and the cost it adds is
    the cost that [estimateAllScalarCost] gives for the frontier, for costs
    whose addition is associative and commutative with zero as a unit. *)
Theorem scalarizeAll_cost_is_estimate TTI fuel Frt Cost :
  index_ok → index_closed → block_ok → def_use_ok → types_ok →
  searched TTI Frt →
  Forall packTyped (UnresolvedPacks Frt) →
  (freeCount Frt = 0 → UnresolvedPacks Frt = []) →
  freeCount Frt < fuel →
  ∃ Frt' e,
    scalarizeAll fuel TTI Frt Cost = Some (Frt', fadd Cost e) ∧
    estimateAllScalarCost Frt TTI = Some e.
Proof using fadd_assoc fadd_comm fadd_0_r.
  intros Hidx Hcl Hblk Hdu Hty. revert Frt Cost.
  induction fuel as [|fuel IH]; intros Frt Cost Hreach Htyped Hfree0 Hfuel; [lia|].
  rewrite (estimateAllScalarCost_typed Frt TTI Htyped).
  simpl.
  destruct (negb (numUnresolvedScalars Frt =? 0)
            || negb (length (UnresolvedPacks Frt) =? 0)) eqn:Hcond.
  - destruct (scalarizeAll_round TTI Frt Hidx Hcl Hblk Hdu Hty Hreach Htyped Hfree0 Hcond)
      as (Inst & c & Frt1 & -> & Hin & Hadv & Hreach1 & Htyped1 & Hfree1 & Hlt).
    rewrite Hadv. simpl.
    destruct (IH Frt1 (fadd Cost c) Hreach1 Htyped1 Hfree1) as (Frt' & e1 & -> & He1);
      [lia|].
    rewrite (estimateAllScalarCost_typed Frt1 TTI Htyped1) in He1.
    injection He1 as <-.
    exists Frt'. eexists. split; [|reflexivity].
    rewrite (estimate_step TTI Inst Frt c Frt1 Hidx Hblk Hin Htyped Hadv).
    by rewrite fadd_assoc.
  - exists Frt. eexists. split; [|reflexivity].
    apply orb_false_iff in Hcond as [_ Hc2].
    apply negb_false_iff, Nat.eqb_eq, length_zero_iff_nil in Hc2.
    rewrite Hc2. simpl. by rewrite fadd_0_r.
Qed.

End ScalarEstimate.

(** ** Store packs charge no extract cost *)

Section StorePacks.
Context {F : Type} `{FloatOps F} {Pkr : Packer F}.
Import BitVector BitVectorFacts.

Lemma scalars_used_ctor : scalars_used Frontier_ctor.
Proof.
  unfold scalars_used, Frontier_ctor. simpl. split.
  - by destruct (ctor_loop_spec insts (make getNumValues false) (make getNumValues false)
                   getNumValues getNumValues 0 (length_make _ _) (length_make _ _))
      as (? & _).
  - intros k Hk.
    destruct (ctor_loop_spec insts (make getNumValues false) (make getNumValues false)
                getNumValues getNumValues k (length_make _ _) (length_make _ _))
      as (_ & _ & HUS & _).
    rewrite HUS, test_make in Hk.
    assert (existsb (λ Inst, hasUserOutside Inst
                             && bool_decide (getScalarId Inst = k
                                             ∧ getScalarId Inst < getNumValues)) insts = true)
      as Hex by (destruct (decide (k < getNumValues)); done).
    apply existsb_exists in Hex as (Inst & Hin & HP). apply list_elem_of_In in Hin.
    apply andb_true_iff in HP as [Hout HP]. apply bool_decide_eq_true in HP as [<- _].
    exists Inst. split; [done|]. split; [done|]. by left.
Qed.

Lemma step_scalars_used TTI Frt Frt' :
  block_ok → AdvanceStep TTI Frt Frt' → scalars_used Frt → scalars_used Frt'.
Proof.
  intros Hblk Hstep [Hlen Hused].
  destruct Hstep as [Inst c Frt Frt' Hadv|VP c Frt Frt' Hadv|ST c Frt Frt' Hadv].
  - apply advanceInplace_Inst_fields in Hadv as (Frt1 & R & Hfr & _ & _ & HUS & _).
    apply freezeOneInst_inv in Hfr as (_ & _ & _ & HUS1 & _).
    destruct (markOperands_spec Inst (FreeInsts Frt1) (UnresolvedScalars Frt1) 0)
      as [HlM _].
    split; [by rewrite HUS, HlM, HUS1, length_reset|].
    intros k Hk. rewrite HUS in Hk.
    destruct (markOperands_spec Inst (FreeInsts Frt1) (UnresolvedScalars Frt1) k)
      as [_ Ht].
    rewrite Ht in Hk. apply orb_true_iff in Hk as [Hk|Hk].
    + rewrite HUS1, test_reset in Hk. case_decide; [done|]. by apply Hused.
    + apply existsb_exists in Hk as (O & HO & HP). apply list_elem_of_In in HO.
      destruct O as [I2| |]; simpl in HP; try done.
      apply andb_true_iff in HP as [HP Hid]. apply andb_true_iff in HP as [Hb _].
      apply bool_decide_eq_true in Hid as [<- _].
      exists I2. split; [by apply (inBB_insts Hblk)|]. split; [done|].
      right. by exists Inst.
  - apply advanceInplace_VP_fields in Hadv as (Frt1 & U & R & Hfr & _ & _ & HUS & _).
    assert (length (UnresolvedScalars Frt1) = length (UnresolvedScalars Frt)
            ∧ ∀ k, test (UnresolvedScalars Frt1) k = true
                   → test (UnresolvedScalars Frt) k = true) as [Hl1 Hsub].
    { clear -Hfr. revert Frt Hfr.
      induction (sortReplaced (getReplacedInsts VP)) as [|Inst l IH]; intros Frt; simpl.
      - by intros [= <-].
      - destruct (freezeOneInst Inst Frt) as [Frt0|] eqn:Hfr0; [|done]. simpl.
        intros Hall. apply IH in Hall as [Hl Hs].
        apply freezeOneInst_inv in Hfr0 as (_ & _ & _ & HUS0 & _).
        rewrite HUS0, length_reset in Hl. split; [done|].
        intros k Hk. apply Hs in Hk. rewrite HUS0, test_reset in Hk.
        by case_decide. }
    split; [by rewrite HUS, Hl1|].
    intros k Hk. rewrite HUS in Hk. by apply Hused, Hsub.
  - apply advanceInplace_ST_fields in Hadv as (l & _ & _ & HUS & _).
    unfold scalars_used. by rewrite HUS.
Qed.

Lemma searched_scalars_used TTI Frt : block_ok → searched TTI Frt → scalars_used Frt.
Proof.
  intros Hblk Hreach. revert Frt Hreach. apply rtc_ind_r.
  - apply scalars_used_ctor.
  - intros y z _ Hstep IH. by eapply step_scalars_used.
Qed.

(** In a frontier of a search no store is an unresolved scalar: a store
    has no user and is no operand. *)
Lemma searched_store_resolved TTI Frt Inst :
  index_ok → index_closed → block_ok → stores_unused →
  searched TTI Frt → getOpcode Inst = OpStore →
  test (UnresolvedScalars Frt) (getScalarId Inst) = false.
Proof.
  intros Hidx Hcl Hblk Hst Hreach Hop.
  destruct (searched_scalars_used TTI Frt Hblk Hreach) as [Hlen Hused].
  destruct (test (UnresolvedScalars Frt) (getScalarId Inst)) eqn:E; [|done].
  exfalso. pose proof (test_lt _ _ E) as Hlt. rewrite Hlen in Hlt.
  assert (Inst ∈ insts) as Hin by by apply Hcl.
  destruct (Hused _ E) as (J & HJ & Hid & Huse).
  apply (id_inj Hidx _ _ HJ Hin) in Hid. subst J.
  destruct (Hst Inst Hop) as [Husers Hops].
  destruct Huse as [Hout|[J HJop]].
  - unfold hasUserOutside in Hout. by rewrite Husers in Hout.
  - by apply (Hops J).
Qed.

(** C9. When a store pack was committed to a frontier of a search, the
    cost returned is the cost of the pack and the insert costs of the
    foreign lanes of its operand packs: no extract cost and no gather cost
    is part of it. The loop over the lanes that charges the extract costs
    is not guarded: it charges nothing because no lane of the pack is an
    unresolved scalar, a store having no user and being no operand. The
    loop that marks packs resolved and charges the gather costs is
    guarded: the unresolved packs afterwards are those before, with the
    operand packs of the store pack that were added. *)
Theorem advanceInplace_VP_store TTI VP Frt c Frt' :
  index_ok → index_closed → block_ok → stores_unused →
  searched TTI Frt →
  isStore VP = true → storeLanes VP →
  advanceInplace_VP VP TTI Frt = Some (c, Frt') →
  c = operandInsertTotal TTI (getOperandPacks VP) (getCost VP) ∧
  Forall (λ V, match V with
               | Some (VInst Inst) =>
                   test (UnresolvedScalars Frt) (getScalarId Inst) = false
               | _ => True
               end) (getOrderedValues VP) ∧
  (∃ added, added ⊆ getOperandPacks VP ∧
            UnresolvedPacks Frt' = sort_ptrs (UnresolvedPacks Frt ++ added)) ∧
  ∀ p, p ∈ UnresolvedPacks Frt → p ∈ UnresolvedPacks Frt'.
Proof.
  intros Hidx Hcl Hblk Hunused Hreach Hst Hlanes Hadv.
  assert (Forall (λ V, match V with
                       | Some (VInst Inst) =>
                           test (UnresolvedScalars Frt) (getScalarId Inst) = false
                       | _ => True
                       end) (getOrderedValues VP)) as Hnone.
  { eapply Forall_impl; [exact Hlanes|]. intros [[Inst| |]|] HV; try done.
    by eapply searched_store_resolved. }
  destruct (advanceInplace_VP_store_inv TTI VP Frt c Frt' Hst Hadv)
    as (Hc & Hadded & Hkeep).
  rewrite extractTotal_none in Hc by done. done.
Qed.

End StorePacks.

(** * Part III: the theorems on concrete blocks *)

(** ** A block of two loads and two stores

    [[
      0:  a = load p          (b is also read by instruction 4, in another block)
      1:  b = load q
      2:  store a, r
      3:  store b, r + 1
    ]]
    Pack 10 stores [a] and [b] (its operand pack 100 is [a, b]); pack 11
    loads them. Every insert, extract and broadcast costs 1, a permutation
    costs 3. *)

Module TwoStores.

Definition tti : TargetTransformInfo := {|
  getShuffleCost := λ k _ _, match k with SK_Broadcast => 1%Z | SK_PermuteSingleSrc => 3%Z end;
  getVectorInstrCost := λ _ _ _, 1%Z
|}.

Definition bits (l : list nat) (n : nat) : BitVector.t :=
  (λ i, bool_decide (i ∈ l)) <$> seq 0 n.

#[local] Instance pkr : Packer Q := {|
  getParent := λ i, if i <? 4 then 0 else 1;
  operands := λ i, match i with
                   | 0 => [VArg 0] | 1 => [VArg 1]
                   | 2 => [VInst 0; VArg 2] | 3 => [VInst 1; VArg 3]
                   | 4 => [VInst 1]
                   | _ => []
                   end;
  users := λ i, match i with
                | 0 => [VInst 2] | 1 => [VInst 3; VInst 4] | _ => []
                end;
  getOpcode := λ i, match i with
                    | 0 | 1 => OpLoad | 2 | 3 => OpStore | _ => OpOther
                    end;
  getType := λ _, 7;
  BB := 0;
  insts := [0; 1; 2; 3];
  getScalarId := λ i, i;
  getNumValues := 4;
  getScalar := VInst;
  getOperandPack := λ p, match p with
                         | 100 => {| lanes := [Some (VInst 0); Some (VInst 1)]; Ty := None |}
                         | 101 => {| lanes := [Some (VInst 1); Some (VInst 0)]; Ty := None |}
                         | 102 => {| lanes := [Some (VInst 0); Some (VInst 0)]; Ty := None |}
                         | _ => {| lanes := []; Ty := None |}
                         end;
  getCost := λ vp, match vp with 10 => 1%Q | 11 => 1%Q | _ => 0%Q end;
  getProducingCost := λ vp, match vp with 10 => 1%Q | 11 => 1%Q | _ => 0%Q end;
  isStore := λ vp, bool_decide (vp = 10);
  isLoad := λ vp, bool_decide (vp = 11);
  getElements := λ vp, match vp with
                       | 10 => bits [2; 3] 4 | 11 => bits [0; 1] 4 | _ => bits [] 4
                       end;
  getOrderedValues := λ vp, match vp with
                            | 10 => [Some (VInst 2); Some (VInst 3)]
                            | 11 => [Some (VInst 0); Some (VInst 1)]
                            | _ => []
                            end;
  getOperandPacks := λ vp, match vp with 10 => [100] | _ => [] end;
  getReplacedInsts := λ vp, match vp with 10 => [2; 3] | 11 => [0; 1] | _ => [] end;
  createLoadPack := λ _ _ _, 11;
  createStorePack := λ _ _ _, 10;
  dedup := λ p, p;
  getDepended := λ _, bits [] 4;
  LoadDAG := λ i, match i with 0 => Some [1] | _ => None end;
  StoreDAG := λ i, match i with 2 => Some [3] | _ => None end;
  StoreDAG_keys := [2];
  getTTI := tti;
  getScalarCost := λ _, 1%Q;
  getProducerInfo := λ p, match p with
                          | 100 => {| Feasible := true; Elements := bits [0; 1] 4;
                                      getProducers := [] |}
                          | _ => {| Feasible := false; Elements := bits [] 4;
                                    getProducers := [] |}
                          end;
  VecTy_uninit := (0, 0)
|}.

(** The frontier after the store pack 10 was committed to the initial
    frontier: both loads are free and usable, [b] has a user outside the
    block, and the operand pack [a, b] is unresolved. *)
Definition afterStores : Frontier := {|
  BBIt := [1; 0];
  UnresolvedPacks := [100];
  UnresolvedScalars := [false; true; false; false];
  FreeInsts := [true; true; false; false];
  UsableInsts := [true; true; false; false]
|}.

Lemma index_ok_pkr : index_ok.
Proof.
  split.
  - compute_done.
  - repeat constructor.
Qed.

Lemma afterStores_eq : advance_VP 10 tti Frontier_ctor = Some (1%Q, afterStores).
Proof. vm_compute. reflexivity. Qed.

Lemma afterStores_typed : Forall packTyped (UnresolvedPacks afterStores).
Proof. repeat constructor. eexists. split; reflexivity. Qed.

(** C3 on this block: the cursor is at the second store, [b] is the only
    unresolved scalar and the two stores are the usable instructions. *)
Lemma Frontier_ctor_initial_state_witness :
  index_ok ∧
  getNextFreeInst Frontier_ctor = Some 3 ∧
  UnresolvedScalars Frontier_ctor = [false; true; false; false] ∧
  (∀ Inst, Inst ∈ insts →
     isUsable Frontier_ctor Inst = negb (hasUserInside Inst) || isPHI Inst).
Proof.
  split; [exact index_ok_pkr|].
  destruct (Frontier_ctor_initial_state index_ok_pkr) as (H1 & _ & _ & _ & H5 & _).
  split; [exact H1|]. split; [reflexivity | exact H5].
Defined.

Lemma insertCostsFit_tti : insertCostsFit tti.
Proof. intros vt i. simpl. lia. Qed.

(** C1 on this block: scalarizing [a] when [[a, b]] is unresolved. *)
Lemma advanceInplace_Inst_charges_witness :
  insertCostsFit tti ∧
  isFree afterStores 0 = true ∧
  Forall packTyped (UnresolvedPacks afterStores) ∧
  ∃ Frt',
    advanceInplace_Inst 0 tti afterStores
    = Some (scalarizeCost 2 tti 0 (UnresolvedPacks afterStores), Frt') ∧
    FreeInsts Frt' = BitVector.reset (FreeInsts afterStores) (getScalarId 0) ∧
    UnresolvedPacks Frt'
    = sort_ptrs (filter (λ p, leavesOnScalarize Frt' 0 p = false)
                        (UnresolvedPacks afterStores)) ∧
    ∀ p, p ∈ UnresolvedPacks afterStores →
         (p ∉ UnresolvedPacks Frt'
          ↔ splatOf 0 (getOperandPack p)
            ∨ resolved Frt' (getOperandPack p) = true).
Proof.
  split; [exact insertCostsFit_tti|].
  split; [reflexivity|]. split; [exact afterStores_typed|].
  apply (advanceInplace_Inst_charges tti 0 afterStores);
    [exact insertCostsFit_tti | reflexivity | exact afterStores_typed].
Defined.

(** The claim C1 as it is worded charges the insert cost once for each lane
    that holds the scalarized instruction ([scalarizeCost 1]). On this
    block the pack [[a, b]] is unresolved, [a] is free and is its lane 0,
    the pack is no splat, and scalarizing [a] costs 2, not 1. *)
Lemma scalarize_charges_insert_twice :
  let a : InstPtr := 0 in
  let claimed : Q := scalarizeCost 1 tti a (UnresolvedPacks afterStores) in
  isFree afterStores a = true ∧
  100 ∈ UnresolvedPacks afterStores ∧
  lanesEqual a (getOperandPack 100) = [0] ∧
  ¬ splatOf a (getOperandPack 100) ∧
  getVectorInstrCost tti InsertElement (vectorTypeOf (getOperandPack 100)) 0 = 1%Z ∧
  Qeq claimed 1 ∧
  ∃ c Frt', advanceInplace_Inst a tti afterStores = Some (c, Frt')
            ∧ Qeq c 2 ∧ ¬ Qeq c claimed.
Proof.
  split; [reflexivity|]. split; [by apply list_elem_of_singleton|].
  split; [reflexivity|].
  split; [by intros [_ Hall]; inversion Hall as [|?? _ Hall']; inversion Hall'|].
  split; [reflexivity|]. split; [reflexivity|].
  eexists _, _. split; [vm_compute; reflexivity|].
  split; [reflexivity | by vm_compute].
Qed.

(** The insert cost is doubled as an [int]: on a target whose insert cost
    is 2^30 the product wraps around, and scalarizing [a] costs -2^31. *)
Definition bigInsert : TargetTransformInfo := {|
  getShuffleCost := λ _ _ _, 1%Z;
  getVectorInstrCost := λ _ _ _, (2 ^ 30)%Z
|}.

Lemma insert_cost_wraps :
  ∃ Frt', advanceInplace_Inst 0 bigInsert afterStores
          = Some (inject_Z (-2147483648), Frt').
Proof. eexists. vm_compute. reflexivity. Qed.

(** The same frontier with three unresolved packs: [[a, b]], [[b, a]] and
    [[a, a]]. *)
Definition threePacks : Frontier := {|
  BBIt := [1; 0];
  UnresolvedPacks := [100; 101; 102];
  UnresolvedScalars := [false; true; false; false];
  FreeInsts := [true; true; false; false];
  UsableInsts := [true; true; false; false]
|}.

Definition noPacks : Frontier := {|
  BBIt := [];
  UnresolvedPacks := [];
  UnresolvedScalars := [false; false; false; false];
  FreeInsts := [false; false; false; false];
  UsableInsts := [false; false; false; false]
|}.

Lemma threePacks_commit : advanceInplace_VP 11 tti threePacks = Some (7%Q, noPacks).
Proof. vm_compute. reflexivity. Qed.

(** C2 on this block: committing the load pack [[a, b]] costs 1 for the
    pack, 1 to extract [b], nothing to gather [[a, b]], the permute cost 3
    to gather [[b, a]] and 2 to gather [[a, a]]; the three packs are
    resolved. *)
Lemma advanceInplace_VP_gather_witness :
  advanceInplace_VP 11 tti threePacks = Some (7%Q, noPacks) ∧
  gatherCharge tti 11 (getOperandPack 100) = 0%Z ∧
  gatherCharge tti 11 (getOperandPack 101) = permuteCost tti 11 ∧
  gatherCharge tti 11 (getOperandPack 102) = 2%Z ∧
  100 ∉ UnresolvedPacks noPacks.
Proof.
  split; [exact threePacks_commit|].
  destruct (advanceInplace_VP_gather tti 11 threePacks 7%Q noPacks threePacks_commit)
    as [_ Hp]; [intros Hst; vm_compute in Hst; discriminate | by vm_compute |].
  destruct (Hp 100) as (H100 & _ & _ & Hres); [compute_done | reflexivity |].
  destruct (Hp 101) as (_ & H101 & _ & _); [compute_done | reflexivity |].
  destruct (Hp 102) as (_ & _ & H102 & _); [compute_done | reflexivity |].
  split; [by apply H100|].
  split; [apply H101; [by intros [=] | compute_done]|].
  split; [apply H102; compute_done | by apply Hres].
Defined.

(** The frontier after [a] was scalarized as well: [a] is frozen, and the
    pack [[a, b]] is still unresolved because [b] is free. *)
Definition afterScalar : Frontier := {|
  BBIt := [1; 0];
  UnresolvedPacks := [100];
  UnresolvedScalars := [false; true; false; false];
  FreeInsts := [false; true; false; false];
  UsableInsts := [false; true; false; false]
|}.

Lemma afterScalar_eq : advance_Inst 0 tti afterStores = Some (2%Q, afterScalar).
Proof. vm_compute. reflexivity. Qed.

Lemma afterScalar_restricted : restricted tti afterScalar.
Proof.
  unfold restricted.
  eapply rtc_l; [|eapply rtc_l; [|apply rtc_refl]].
  - eapply (step_commit tti 10); [|exact afterStores_eq].
    split; [by repeat constructor | intros _; constructor].
  - eapply step_scalarize. exact afterScalar_eq.
Qed.

(** C5 on this block. *)
Lemma reachable_unresolved_have_free_lane_witness :
  restricted tti afterScalar ∧ unresolvedHaveFreeLane afterScalar.
Proof.
  split; [exact afterScalar_restricted|].
  exact (reachable_unresolved_have_free_lane tti afterScalar afterScalar_restricted).
Defined.

(** The invariant as C5 words it fails on the same frontier: it is reached
    by committing the store pack and scalarizing [a], the pack [[a, b]] is
    unresolved, and its lane [a] is an instruction of the block that is
    not free. *)
Lemma unresolved_pack_holds_frozen_instruction :
  restricted tti afterScalar ∧ ¬ elementsSubsetFree afterScalar.
Proof.
  split; [exact afterScalar_restricted|].
  intros Hsub. specialize (Hsub 100 0).
  assert (isFree afterScalar 0 = true) as Hfree.
  { apply Hsub; [by apply list_elem_of_singleton | by left | reflexivity]. }
  vm_compute in Hfree. discriminate.
Qed.

(** C7 on this block: without candidates the operand pack [[a, b]] is
    built by two insertions, at a cost of 6; with the load pack 11 as a
    candidate its cost is 3/2. *)
Lemma solve_monotone_witness :
  candidates_subset None (Some (CandidateSet_of [11])) ∧
  memo_ok None newHeuristic ∧
  memo_ok (Some (CandidateSet_of [11])) newHeuristic ∧
  ∃ Sol Sol' Hr1 Hr1',
    solve None 3 100 newHeuristic = Some (Sol, Hr1) ∧
    solve (Some (CandidateSet_of [11])) 3 100 newHeuristic = Some (Sol', Hr1') ∧
    Cost Sol = 6%Q ∧ Cost Sol' = (3 # 2)%Q ∧
    fle (Cost Sol') (Cost Sol).
Proof.
  assert (candidates_subset None (Some (CandidateSet_of [11]))) as Hsub.
  { intros i VP Hin. by apply elem_of_nil in Hin. }
  split; [exact Hsub|]. split; [apply memo_ok_new|]. split; [apply memo_ok_new|].
  destruct (solve None 3 100 newHeuristic) as [[Sol Hr1]|] eqn:E;
    [|vm_compute in E; discriminate].
  destruct (solve (Some (CandidateSet_of [11])) 3 100 newHeuristic) as [[Sol' Hr1']|] eqn:E';
    [|vm_compute in E'; discriminate].
  exists Sol, Sol', Hr1, Hr1'. split; [reflexivity|]. split; [reflexivity|].
  split; [vm_compute in E; by injection E as <- _|].
  split; [vm_compute in E'; by injection E' as <- _|].
  apply (solve_monotone None (Some (CandidateSet_of [11])) 3 3 100
           newHeuristic newHeuristic Hr1 Hr1' Sol Sol' Hsub
           (memo_ok_new _) (memo_ok_new _) E E').
Defined.

End TwoStores.

(** ** A block of thirty-two consecutive loads

    Instruction [i] loads the address [p + i]; the loads do not depend on
    one another, and load [i + 1] is the successor of load [i] in the DAG
    of the loads. The pack created for a chain is numbered by the length
    of the chain and its first access. *)

Module ThirtyTwoLoads.

#[local] Instance pkr : Packer Q := {|
  getParent := λ _, 0;
  operands := λ _, [VArg 0];
  users := λ _, [];
  getOpcode := λ _, OpLoad;
  getType := λ _, 7;
  BB := 0;
  insts := seq 0 32;
  getScalarId := λ i, i;
  getNumValues := 32;
  getScalar := VInst;
  getOperandPack := λ _, {| lanes := []; Ty := None |};
  getCost := λ _, 1%Q;
  getProducingCost := λ _, 1%Q;
  isStore := λ _, false;
  isLoad := λ _, true;
  getElements := λ _, BitVector.make 32 false;
  getOrderedValues := λ _, [];
  getOperandPacks := λ _, [];
  getReplacedInsts := λ _, [];
  createLoadPack := λ l _ _, 100 * length l + default 0 (mjoin (head l));
  createStorePack := λ _ _ _, 0;
  dedup := λ p, p;
  getDepended := λ _, BitVector.make 32 false;
  LoadDAG := λ i, if i <? 31 then Some [i + 1] else None;
  StoreDAG := λ _, None;
  StoreDAG_keys := [];
  getTTI := {| getShuffleCost := λ _ _ _, 1%Z; getVectorInstrCost := λ _ _ _, 1%Z |};
  getScalarCost := λ _, 1%Q;
  getProducerInfo := λ _, {| Feasible := false; Elements := []; getProducers := [] |};
  VecTy_uninit := (0, 0)
|}.

Lemma stores_ids : dag_ids_ok true.
Proof. intros x nexts Hx. discriminate. Qed.

Lemma loads_ids : dag_ids_ok false.
Proof.
  intros x nexts Hx. simpl in Hx.
  destruct (x <? 31) eqn:E; [|discriminate].
  injection Hx as <-. apply Nat.ltb_lt in E.
  apply Forall_singleton. simpl. lia.
Qed.

Lemma insts_ids : Forall (λ Inst, getScalarId Inst < getNumValues) insts.
Proof. apply Forall_forall. intros x Hx. apply elem_of_seq in Hx. simpl. lia. Qed.

(** C4 on this block: the one chain of four loads from load 3, and the
    load packs [enumerate] returns. *)
Lemma getSeedMemPacks_chains_witness :
  dag_ids_ok true ∧ dag_ids_ok false ∧
  Forall (λ Inst, getScalarId Inst < getNumValues) insts ∧
  getSeedMemPacks 4 false 3 4 = Some [seedPack false [3; 4; 5; 6]] ∧
  isSeedChain false 3 4 [3; 4; 5; 6] ∧
  enumerate 16 = Some (seedsOf false OpLoad [2; 4; 8; 16]).
Proof.
  split; [exact stores_ids|]. split; [exact loads_ids|]. split; [exact insts_ids|].
  destruct (getSeedMemPacks_chains stores_ids loads_ids insts_ids) as (Hone & _ & Hloads).
  destruct (Hone false 3 4) as [Hfuel Hchain]; [lia | simpl; lia |].
  split; [by rewrite (Hfuel 4)|].
  split; [apply Hchain; compute_done | apply Hloads; lia].
Defined.

(** The claim C4 as it is worded asks for a seed pack for every chain of
    32 independent accesses from every memory access. Load 0 starts such a
    chain, the thirty-two loads of the block, and [getSeedMemPacks] would
    build its pack; but [enumerate] asks for no load pack of more than 16
    lanes and [improvePlan] seeds store packs only, so the pack of this
    chain is among the packs of neither. *)
Lemma no_seed_pack_of_32_loads :
  let chain : list InstPtr := seq 0 32 in
  getOpcode 0 = OpLoad ∧
  isSeedChain false 0 32 chain ∧
  getSeedMemPacks 32 false 0 32 = Some [seedPack false chain] ∧
  ∃ loadPacks storePacks,
    enumerate 32 = Some loadPacks ∧
    improvePlan_Seeds 32 = Some storePacks ∧
    (seedPack false chain ∉ loadPacks) ∧
    (seedPack false chain ∉ storePacks).
Proof.
  intros chain. split; [reflexivity|].
  split; [apply elem_of_seedChains; [lia | compute_done]|].
  split; [by vm_compute|].
  eexists _, _. split; [vm_compute; reflexivity|]. split; [vm_compute; reflexivity|].
  split; compute_done.
Qed.

End ThirtyTwoLoads.

(** ** A search tree with a forced move

    Node 0 is the root; it is expanded and its one transition leads to
    node 1, a terminal leaf. The state of the search is the number of
    calls of [update] made so far. *)

Module ForcedMove.

#[local] Instance ops : UCTNodeOps Q nat := {|
  expanded := λ _ p, p =? 0;
  isTerminal := λ _ p, p =? 1;
  visitCount := λ s _, s;
  numTransitions := λ _ p, if p =? 0 then 1 else 0;
  transitionWeight := λ _ _, [];
  score := λ _ _ _ _, 0%Q;
  update := λ s _ _, S s;
  T_visited := λ s _ _, 0 <? s;
  T_visitCount := λ s _ _, s;
  T_Next := λ _ _ _, 1;
  T_Cost := λ _ _ _, 1%Q;
  T_incrCount := λ s _ _, s;
  evalLeafNode := λ s _, (0%Q, s);
  expand := λ s _ _, s;
  Policy_getMaxNumLanes := None;
  predictAsync := λ s _, s
|}.

(** C6 on this tree: asked for a thousand iterations or for none, [run]
    executes one, which updates the leaf and the root. *)
Lemma run_forced_move_witness :
  expanded 0 0 = true ∧ numTransitions 0 0 = 1 ∧
  run 1%Q 1%Q 0 2 0 1000 0 = Some (1, 2) ∧
  run 1%Q 1%Q 0 2 0 0 0 = Some (1, 2).
Proof.
  split; [reflexivity|]. split; [reflexivity|].
  split; rewrite (run_forced_move 1%Q 1%Q 0 2 0 0); reflexivity.
Defined.

End ForcedMove.

(** ** Two equal frontiers and one node

    The equality of frontiers used here compares the cursor, the free
    instructions, the unresolved packs and the unresolved scalars. The
    frontier [afterStores'] differs from [TwoStores.afterStores] in its
    usable instructions only, so the two compare equal. *)

Module SharedNode.

Definition sameState (a b : Frontier) : bool :=
  bool_decide (BBIt a = BBIt b ∧ FreeInsts a = FreeInsts b ∧
               UnresolvedPacks a = UnresolvedPacks b ∧
               UnresolvedScalars a = UnresolvedScalars b).

Lemma sameState_refl a : sameState a a = true.
Proof. by apply bool_decide_eq_true_2. Qed.

Lemma sameState_sym a b : sameState a b = sameState b a.
Proof. unfold sameState. apply bool_decide_ext.
  split; intros (H1 & H2 & H3 & H4); by rewrite H1, H2, H3, H4.
Qed.

Lemma sameState_trans a b c :
  sameState a b = true → sameState b c = true → sameState a c = true.
Proof.
  unfold sameState. rewrite !bool_decide_eq_true.
  intros (-> & -> & -> & ->) (-> & -> & -> & ->). done.
Qed.

Definition afterStores' : Frontier := {|
  BBIt := [1; 0];
  UnresolvedPacks := [100];
  UnresolvedScalars := [false; true; false; false];
  FreeInsts := [true; true; false; false];
  UsableInsts := [true; true; true; true]
|}.

(** The factory after a node was made for [TwoStores.afterStores], and
    after a node with a partial pack was made as well. *)
Definition oneNode : UCTNodeFactory := {|
  FrontierToNodeMap := [(TwoStores.afterStores, 0)];
  Nodes := [{| getFrontier := TwoStores.afterStores; getPartialPack := None |}];
  Frontiers := [TwoStores.afterStores]
|}.

Definition twoNodes : UCTNodeFactory := {|
  FrontierToNodeMap := [(TwoStores.afterStores, 0)];
  Nodes := [{| getFrontier := TwoStores.afterStores; getPartialPack := None |};
            {| getFrontier := TwoStores.noPacks; getPartialPack := Some 5 |}];
  Frontiers := [TwoStores.afterStores]
|}.

(** C10 on these frontiers: the second call returns node 0 again. *)
Lemma getNode_same_node_witness :
  reachableFactory sameState emptyFactory ∧
  getNode sameState TwoStores.afterStores emptyFactory = Some (0, oneNode) ∧
  rtc (FactoryStep sameState) oneNode twoNodes ∧
  sameState TwoStores.afterStores afterStores' = true ∧
  getNode sameState afterStores' twoNodes = Some (0, twoNodes).
Proof.
  assert (reachableFactory sameState emptyFactory) as Hr by apply rtc_refl.
  assert (getNode sameState TwoStores.afterStores emptyFactory = Some (0, oneNode))
    as Hget by reflexivity.
  assert (rtc (FactoryStep sameState) oneNode twoNodes) as Hsteps.
  { apply rtc_once. by apply (step_getNode_PP sameState TwoStores.noPacks 5 oneNode 1). }
  assert (sameState TwoStores.afterStores afterStores' = true) as Heq by reflexivity.
  split; [exact Hr|]. split; [exact Hget|]. split; [exact Hsteps|]. split; [exact Heq|].
  destruct (getNode_same_node sameState sameState_refl sameState_sym sameState_trans
              emptyFactory Hr) as (_ & Hsame & _).
  exact (Hsame _ _ _ _ _ Hget Hsteps Heq).
Defined.

End SharedNode.

(** ** A block without seed store packs

    [[
      0:  a = load p
      1:  store a, q
      2:  b = load r          (b is also read by instruction 9, in another block)
      3:  store b, q + 1
    ]]
    The second store follows the first in the DAG of the stores, but it
    depends on it (through the load in between), so no chain of stores is
    a seed. *)

Module NoSeeds.

#[local] Instance pkr : Packer Q := {|
  getParent := λ i, if i <? 4 then 0 else 1;
  operands := λ i, match i with
                   | 0 => [VArg 0] | 1 => [VInst 0; VArg 1]
                   | 2 => [VArg 2] | 3 => [VInst 2; VArg 3]
                   | 9 => [VInst 2]
                   | _ => []
                   end;
  users := λ i, match i with
                | 0 => [VInst 1] | 2 => [VInst 3; VInst 9] | _ => []
                end;
  getOpcode := λ i, match i with
                    | 0 | 2 => OpLoad | 1 | 3 => OpStore | _ => OpOther
                    end;
  getType := λ _, 7;
  BB := 0;
  insts := [0; 1; 2; 3];
  getScalarId := λ i, i;
  getNumValues := 4;
  getScalar := VInst;
  getOperandPack := λ _, {| lanes := []; Ty := None |};
  getCost := λ _, 1%Q;
  getProducingCost := λ _, 1%Q;
  isStore := λ _, true;
  isLoad := λ _, false;
  getElements := λ _, TwoStores.bits [] 4;
  getOrderedValues := λ _, [];
  getOperandPacks := λ _, [];
  getReplacedInsts := λ _, [];
  createLoadPack := λ _ _ _, 11;
  createStorePack := λ _ _ _, 10;
  dedup := λ p, p;
  getDepended := λ i, match i with
                      | 1 => TwoStores.bits [0] 4
                      | 2 => TwoStores.bits [1] 4
                      | 3 => TwoStores.bits [0; 1; 2] 4
                      | _ => TwoStores.bits [] 4
                      end;
  LoadDAG := λ _, None;
  StoreDAG := λ i, match i with 1 => Some [3] | _ => None end;
  StoreDAG_keys := [1];
  getTTI := TwoStores.tti;
  getScalarCost := λ _, 1%Q;
  getProducerInfo := λ _, {| Feasible := false; Elements := TwoStores.bits [] 4;
                             getProducers := [] |};
  VecTy_uninit := (0, 0)
|}.

#[local] Instance ext : ExtensionSearch := {|
  findExtendingLoadPack := λ _, None;
  matchedPacks := λ _ _ _, [];
  tryCoalesceLoads := λ _ _, None
|}.

(** The set of packs is the list of the packs that were added. *)
#[local] Instance packs : PackSet (list VectorPackPtr) := {|
  tryAdd := λ P VP, P ++ [VP]
|}.

Definition rank (Inst : InstPtr) : nat := 4 - Inst.

Lemma index_ok_block : index_ok.
Proof.
  split.
  - compute_done.
  - repeat constructor.
Qed.

Lemma block_ok_block : block_ok.
Proof.
  intros Inst. simpl. destruct (Inst <? 4) eqn:E.
  - apply Nat.ltb_lt in E. split; [done|]. intros _.
    destruct Inst as [|[|[|[|Inst]]]]; [compute_done..|lia].
  - apply Nat.ltb_ge in E. split; [|done]. intros Hin.
    repeat (apply elem_of_cons in Hin as [->|Hin]; [lia|]). by apply elem_of_nil in Hin.
Qed.

Lemma def_use_ok_block : def_use_ok.
Proof.
  split.
  - intros Inst User HI HU Huse.
    repeat (apply elem_of_cons in HI as [->|HI]); try (by apply elem_of_nil in HI);
      repeat (apply elem_of_cons in HU as [->|HU]); try (by apply elem_of_nil in HU);
      first [compute_done | exfalso; revert Huse; compute_done].
  - intros Inst User HI HU Huse _.
    repeat (apply elem_of_cons in HI as [->|HI]); try (by apply elem_of_nil in HI);
      repeat (apply elem_of_cons in HU as [->|HU]); try (by apply elem_of_nil in HU);
      first [exfalso; revert Huse; compute_done
            | exists 0, 1; compute_done | exists 2, 3; compute_done].
Qed.

Lemma StoreDAG_ranked_block : StoreDAG_ranked rank.
Proof.
  intros x nexts y Hx Hy. destruct x as [|[|x]]; simpl in Hx; try done.
  injection Hx as <-. apply list_elem_of_singleton in Hy as ->. compute_done.
Qed.

Lemma no_seed_block VL SI :
  VL ∈ [64; 32; 16; 8; 4; 2] → SI ∈ StoreDAG_keys →
  getSeedStorePack 5 Frontier_ctor SI VL = Some None.
Proof.
  intros HVL HSI. apply list_elem_of_singleton in HSI as ->.
  repeat (apply elem_of_cons in HVL as [->|HVL]; [by vm_compute|]).
  by apply elem_of_nil in HVL.
Qed.

(** C8 on this block: no pack is added, and the cost is 0. *)
Lemma optimizeBottomUp_no_seed_witness :
  index_ok ∧ block_ok ∧ def_use_ok ∧ StoreDAG_ranked rank ∧
  (∀ VL SI, VL ∈ [64; 32; 16; 8; 4; 2] → SI ∈ StoreDAG_keys →
            getSeedStorePack 5 Frontier_ctor SI VL = Some None) ∧
  optimizeBottomUp SharedNode.sameState 5 ([] : list VectorPackPtr) = Some ([], 0%Q).
Proof.
  split; [exact index_ok_block|]. split; [exact block_ok_block|].
  split; [exact def_use_ok_block|]. split; [exact StoreDAG_ranked_block|].
  split; [exact no_seed_block|].
  assert (length insts < 5) as Hlen by (simpl; lia).
  assert (∀ SI, SI ∈ StoreDAG_keys → rank SI < 5) as Hranks.
  { intros SI HSI. apply list_elem_of_singleton in HSI as ->. compute_done. }
  exact (optimizeBottomUp_no_seed (F := Q) (VPS := list VectorPackPtr)
           SharedNode.sameState rank 5 []
           index_ok_block block_ok_block def_use_ok_block StoreDAG_ranked_block
           eq_refl Hlen Hranks no_seed_block).
Defined.

End NoSeeds.

(** ** The frontiers of the block of two loads and two stores *)

Module TwoStoresSearch.
Import TwoStores.

#[local] Existing Instance TwoStores.pkr.

Lemma index_closed_two_stores : index_closed.
Proof.
  intros Inst Hlt. simpl in *.
  destruct Inst as [|[|[|[|Inst]]]]; [compute_done..|lia].
Qed.

Lemma block_ok_two_stores : block_ok.
Proof.
  intros Inst. simpl. destruct (Inst <? 4) eqn:E.
  - apply Nat.ltb_lt in E. split; [done|]. intros _.
    destruct Inst as [|[|[|[|Inst]]]]; [compute_done..|lia].
  - apply Nat.ltb_ge in E. split; [|done]. intros Hin.
    repeat (apply elem_of_cons in Hin as [->|Hin]; [lia|]). by apply elem_of_nil in Hin.
Qed.

Lemma def_use_ok_two_stores : def_use_ok.
Proof.
  split.
  - intros Inst User HI HU Huse.
    repeat (apply elem_of_cons in HI as [->|HI]); try (by apply elem_of_nil in HI);
      repeat (apply elem_of_cons in HU as [->|HU]); try (by apply elem_of_nil in HU);
      first [compute_done | exfalso; revert Huse; compute_done].
  - intros Inst User HI HU Huse _.
    repeat (apply elem_of_cons in HI as [->|HI]); try (by apply elem_of_nil in HI);
      repeat (apply elem_of_cons in HU as [->|HU]); try (by apply elem_of_nil in HU);
      first [exfalso; revert Huse; compute_done
            | exists 0, 2; compute_done | exists 1, 3; compute_done].
Qed.

Lemma types_ok_two_stores : types_ok.
Proof.
  intros p T. simpl. repeat case_match; done.
Qed.

Lemma afterStores_searched : searched tti afterStores.
Proof.
  unfold searched. eapply rtc_l; [|apply rtc_refl].
  eapply (adv_commit tti 10). exact afterStores_eq.
Qed.

(** X6 on this block: the operand pack [[a, b]] of the store pack is
    unresolved after the commit. *)
Lemma advanceInplace_VP_tracks_operands_witness :
  advanceInplace_VP 10 tti Frontier_ctor = Some (1%Q, afterStores) ∧
  100 ∈ getOperandPacks 10 ∧
  resolved afterStores (getOperandPack 100) = false ∧
  100 ∈ UnresolvedPacks afterStores.
Proof.
  assert (100 ∈ getOperandPacks 10) as Hin by compute_done.
  split; [exact afterStores_eq|]. split; [exact Hin|]. split; [reflexivity|].
  exact (advanceInplace_VP_tracks_operands tti 10 Frontier_ctor 1%Q afterStores 100
           afterStores_eq Hin eq_refl).
Defined.

(** X7 on this block: the commit of the store pack freezes the two
    stores. *)
Lemma advanceInplace_VP_freezes_witness :
  advanceInplace_VP 10 tti Frontier_ctor = Some (1%Q, afterStores) ∧
  numFree Frontier_ctor = 4 ∧ numFree afterStores = 2 ∧
  numFree afterStores + length (getReplacedInsts 10) = numFree Frontier_ctor.
Proof.
  split; [exact afterStores_eq|]. split; [reflexivity|]. split; [reflexivity|].
  destruct (advanceInplace_VP_freezes tti 10 Frontier_ctor 1%Q afterStores afterStores_eq)
    as (_ & _ & _ & Hcount).
  exact Hcount.
Defined.

(** A shuffle that makes [[a, b]] out of [[b, a]]. *)
Definition swapLanes : ShuffleTask Q :=
  {| Output := 100; Inputs := [101]; getCost_ST := λ _, 3%Q |}.

(** X8 on this block: the shuffle is defined after the stores, where
    [[a, b]] is unresolved, and it leaves [[b, a]] unresolved. *)
Lemma advanceInplace_ST_spec_witness :
  searched tti afterStores ∧
  Output swapLanes ∈ UnresolvedPacks afterStores ∧
  ∃ Frt', advanceInplace_ST swapLanes tti afterStores = Some (3%Q, Frt') ∧
          UnresolvedPacks Frt' = [101] ∧
          FreeInsts Frt' = FreeInsts afterStores.
Proof.
  assert (Output swapLanes ∈ UnresolvedPacks afterStores) as Hin by compute_done.
  split; [exact afterStores_searched|]. split; [exact Hin|].
  destruct (advanceInplace_ST_spec tti swapLanes afterStores afterStores_searched)
    as [_ Hdef].
  destruct (Hdef Hin) as (Frt' & Hadv & _ & _ & _ & _ & HF & _).
  exists Frt'. split; [exact Hadv|]. split; [|exact HF].
  vm_compute in Hadv. by injection Hadv as <-.
Defined.

(** The frontier after the shuffle. *)
Definition afterShuffle : Frontier := {|
  BBIt := [1; 0];
  UnresolvedPacks := [101];
  UnresolvedScalars := [false; true; false; false];
  FreeInsts := [true; true; false; false];
  UsableInsts := [true; true; false; false]
|}.

Lemma afterShuffle_searched : searched tti afterShuffle.
Proof.
  eapply rtc_r; [exact afterStores_searched|].
  eapply (adv_shuffle tti swapLanes 3%Q). by vm_compute.
Qed.

(** X29 on this block: the frontiers before and after the shuffle have the
    same free instructions. *)
Lemma reachable_usable_determined_witness :
  index_ok ∧ index_closed ∧ block_ok ∧ def_use_ok ∧
  searched tti afterStores ∧ searched tti afterShuffle ∧
  FreeInsts afterStores = FreeInsts afterShuffle ∧
  UsableInsts afterStores = UsableInsts afterShuffle.
Proof.
  split; [exact index_ok_pkr|]. split; [exact index_closed_two_stores|].
  split; [exact block_ok_two_stores|]. split; [exact def_use_ok_two_stores|].
  split; [exact afterStores_searched|]. split; [exact afterShuffle_searched|].
  split; [reflexivity|].
  exact (reachable_usable_determined tti afterStores afterShuffle index_ok_pkr
           index_closed_two_stores block_ok_two_stores def_use_ok_two_stores
           afterStores_searched afterShuffle_searched eq_refl).
Defined.

(** Addition of rationals is associative and commutative, with zero as a
    unit, up to equality of the fractions as written. *)
Lemma Qplus_assoc_eq (a b c : Q) : fadd (fadd a b) c = fadd a (fadd b c).
Proof.
  destruct a as [a1 a2], b as [b1 b2], c as [c1 c2]. simpl. unfold Qplus. simpl.
  f_equal; [|by rewrite Pos.mul_assoc]. rewrite !Pos2Z.inj_mul. ring.
Qed.

Lemma Qplus_comm_eq (a b : Q) : fadd a b = fadd b a.
Proof.
  destruct a as [a1 a2], b as [b1 b2]. simpl. unfold Qplus. simpl.
  f_equal; [ring|by rewrite Pos.mul_comm].
Qed.

Lemma Qplus_0_r_eq (a : Q) : fadd a (of_int 0) = a.
Proof.
  destruct a as [a1 a2]. simpl. unfold Qplus. simpl.
  f_equal; [ring|by rewrite Pos.mul_1_r].
Qed.

(** X22 on this block: the load pack 11 has an element; after the stores
    its commit is defined, the two loads being free, and it is not defined
    once [a] was scalarized. *)
Lemma advanceInplace_VP_defined_iff_witness :
  (isStore 11 = false → ∃ k, BitVector.test (getElements 11) k = true) ∧
  is_Some (advanceInplace_VP 11 tti afterStores) ∧
  ¬ is_Some (advanceInplace_VP 11 tti afterScalar).
Proof.
  assert (isStore 11 = false → ∃ k, BitVector.test (getElements 11) k = true) as Helem
    by (intros _; by exists 0).
  split; [exact Helem|]. split.
  - apply (advanceInplace_VP_defined_iff tti 11 afterStores Helem).
    split; [by repeat constructor|]. split; [compute_done|]. constructor.
  - intros Hdef.
    apply (advanceInplace_VP_defined_iff tti 11 afterScalar Helem) in Hdef
      as (Hfree & _).
    apply Forall_cons in Hfree as [Hfree _]. vm_compute in Hfree. discriminate.
Defined.

(** The loop that charges the extract costs is not guarded. A frontier in
    which the store [2] is an unresolved scalar, which no search builds: the
    commit of the store pack charges the extract cost of its lane 0, on
    the vector type that the local happens to hold. *)
Definition storeFlagged : Frontier := {|
  BBIt := [3; 2; 1; 0];
  UnresolvedPacks := [];
  UnresolvedScalars := [false; true; true; false];
  FreeInsts := [true; true; true; true];
  UsableInsts := [false; false; true; true]
|}.

Lemma store_extract_is_charged :
  ∃ Frt', advanceInplace_VP 10 tti storeFlagged = Some (2%Q, Frt').
Proof. eexists. vm_compute. reflexivity. Qed.

End TwoStoresSearch.

(** ** A search tree with three moves

    Node 0 is the root; it is expanded and its three transitions lead to
    the leaves 1, 2 and 3, which are not expanded. In the state 0 only the
    first transition was visited; in the other states all three were, and
    their scores are 1, 3 and 2. *)

Module ThreeMoves.

#[local] Instance ops : UCTNodeOps Q nat := {|
  expanded := λ _ p, p =? 0;
  isTerminal := λ _ _, false;
  visitCount := λ s _, s;
  numTransitions := λ _ p, if p =? 0 then 3 else 0;
  transitionWeight := λ _ _, [];
  score := λ _ _ i _, match i with 0 => 1%Q | 1 => 3%Q | _ => 2%Q end;
  update := λ s _ _, s;
  T_visited := λ s _ i, (0 <? s) || (i =? 0);
  T_visitCount := λ s _ _, s;
  T_Next := λ _ _ i, i + 1;
  T_Cost := λ _ _ _, 1%Q;
  T_incrCount := λ s _ _, s;
  evalLeafNode := λ s _, (0%Q, s);
  expand := λ s _ _, s;
  Policy_getMaxNumLanes := None;
  predictAsync := λ s _, s
|}.

Lemma select_unvisited : select 1%Q 1%Q 2 0 0 [] = Some (2, [(0, 1)]).
Proof. reflexivity. Qed.

Lemma select_visited : select 1%Q 1%Q 2 1 0 [] = Some (2, [(0, 1)]).
Proof. reflexivity. Qed.

(** X10 on this tree: the path is the transition 1 of the root, and it
    ends at the leaf 2. *)
Lemma select_path_witness :
  select 1%Q 1%Q 2 0 0 [] = Some (2, [(0, 1)]) ∧
  expanded 0 2 = false ∧ isPath 0 0 [(0, 1)] 2.
Proof.
  split; [exact select_unvisited|].
  destruct (select_path 1%Q 1%Q 2 0 0 2 [(0, 1)] select_unvisited) as (Hleaf & Hpath & _).
  split; [exact Hleaf | exact Hpath].
Defined.

(** X11 on this tree: the transition 2 was never visited, and the
    selection takes the transition 1, the first that was never visited,
    although the transition 0 was. *)
Lemma select_prefers_unvisited_witness :
  select 1%Q 1%Q 2 0 0 [] = Some (2, [(0, 1)]) ∧
  (0, 1) ∈ [(0, 1)] ∧ 2 < numTransitions 0 0 ∧ T_visited 0 0 2 = false ∧
  T_visited 0 0 1 = false ∧ 1 ≤ 2.
Proof.
  assert ((0, 1) ∈ [(0, 1)]) as Hin by apply list_elem_of_singleton, eq_refl.
  assert (2 < numTransitions 0 0) as Hlt by (simpl; lia).
  split; [exact select_unvisited|]. split; [exact Hin|]. split; [exact Hlt|].
  split; [reflexivity|].
  exact (select_prefers_unvisited 1%Q 1%Q 2 0 0 2 [(0, 1)] 0 1 2
           select_unvisited Hin Hlt eq_refl).
Defined.

(** X12 on this tree: every transition was visited, and the selection
    takes the transition 1, whose score is 3. *)
Lemma select_takes_best_witness :
  select 1%Q 1%Q 2 1 0 [] = Some (2, [(0, 1)]) ∧
  (0, 1) ∈ [(0, 1)] ∧
  (∀ j, j < numTransitions 1 0 → T_visited 1 0 j = true) ∧
  ∃ sT, ScoreTransition 1%Q 1%Q 1 0 1 = Some sT ∧
        ∀ j sj, j < numTransitions 1 0 →
                ScoreTransition 1%Q 1%Q 1 0 j = Some sj → fle sj sT.
Proof.
  assert ((0, 1) ∈ [(0, 1)]) as Hin by apply list_elem_of_singleton, eq_refl.
  assert (∀ j, j < numTransitions 1 0 → T_visited 1 0 j = true) as Hvis by done.
  split; [exact select_visited|]. split; [exact Hin|]. split; [exact Hvis|].
  exact (select_takes_best 1%Q 1%Q 2 1 0 2 [(0, 1)] 0 1 select_visited Hin Hvis).
Defined.

End ThreeMoves.

(** ** The nodes of a factory *)

Module FactoryNodes.
Import SharedNode.

Lemma oneNode_reachable : reachableFactory sameState oneNode.
Proof.
  apply rtc_once. by apply (step_getNode sameState TwoStores.afterStores emptyFactory 0).
Qed.

Lemma oneNode_twoNodes : rtc (FactoryStep sameState) oneNode twoNodes.
Proof.
  apply rtc_once. by apply (step_getNode_PP sameState TwoStores.noPacks 5 oneNode 1).
Qed.

(** X13 on these factories: node 0 is the same node after a node with a
    partial pack was made. *)
Lemma factory_nodes_stable_witness :
  rtc (FactoryStep sameState) oneNode twoNodes ∧
  Nodes oneNode !! 0
  = Some {| getFrontier := TwoStores.afterStores; getPartialPack := None |} ∧
  Nodes twoNodes !! 0
  = Some {| getFrontier := TwoStores.afterStores; getPartialPack := None |}.
Proof.
  split; [exact oneNode_twoNodes|]. split; [reflexivity|].
  exact (factory_nodes_stable sameState oneNode twoNodes 0 _ oneNode_twoNodes eq_refl).
Defined.

(** X14 on these factories: the node returned for [afterStores'] is the
    node of the equal frontier [afterStores]. *)
Lemma getNode_frontier_node_witness :
  reachableFactory sameState oneNode ∧
  getNode sameState afterStores' oneNode = Some (0, oneNode) ∧
  ∃ k, Nodes oneNode !! 0 = Some {| getFrontier := k; getPartialPack := None |} ∧
       sameState k afterStores' = true.
Proof.
  assert (getNode sameState afterStores' oneNode = Some (0, oneNode)) as Hget
    by reflexivity.
  split; [exact oneNode_reachable|]. split; [exact Hget|].
  exact (getNode_frontier_node sameState sameState_refl sameState_sym
           oneNode afterStores' 0 oneNode oneNode_reachable Hget).
Defined.

(** X15 on these factories: node 1 was made for a partial pack, and the
    call for [afterStores'] returns node 0. *)
Lemma getNode_PP_never_shared_witness :
  reachableFactory sameState oneNode ∧
  getNode_PP TwoStores.noPacks 5 oneNode = (1, twoNodes) ∧
  rtc (FactoryStep sameState) twoNodes twoNodes ∧
  getNode sameState afterStores' twoNodes = Some (0, twoNodes) ∧
  Nodes oneNode !! 1 = None ∧
  Nodes twoNodes !! 1
  = Some {| getFrontier := TwoStores.noPacks; getPartialPack := Some 5 |} ∧
  0 ≠ 1.
Proof.
  assert (getNode_PP TwoStores.noPacks 5 oneNode = (1, twoNodes)) as Hpp by reflexivity.
  assert (rtc (FactoryStep sameState) twoNodes twoNodes) as Hsteps by apply rtc_refl.
  assert (getNode sameState afterStores' twoNodes = Some (0, twoNodes)) as Hget
    by reflexivity.
  split; [exact oneNode_reachable|]. split; [exact Hpp|]. split; [exact Hsteps|].
  split; [exact Hget|].
  exact (getNode_PP_never_shared sameState sameState_refl sameState_sym
           oneNode TwoStores.noPacks 5 1 twoNodes twoNodes afterStores' 0 twoNodes
           oneNode_reachable Hpp Hsteps Hget).
Defined.

End FactoryNodes.

(** ** The heuristic solver on the block of two loads and two stores *)

Module TwoStoresSolve.
Import TwoStores.

#[local] Existing Instance TwoStores.pkr.

Definition withLoads : option CandidatePackSet := Some (CandidateSet_of [11]).

(** X16 on this block: the solution of [[a, b]] is stored, and the second
    call returns it. *)
Lemma solve_memoises_witness :
  ∃ Sol Hr1,
    solve withLoads 3 100 newHeuristic = Some (Sol, Hr1) ∧
    Solutions Hr1 !! 100 = Some Sol ∧
    solve withLoads 1 100 Hr1 = Some (Sol, Hr1).
Proof.
  destruct (solve withLoads 3 100 newHeuristic) as [[Sol Hr1]|] eqn:E;
    [|vm_compute in E; discriminate].
  exists Sol, Hr1. split; [reflexivity|].
  destruct (solve_memoises withLoads 3 100 newHeuristic Hr1 Sol E) as (Hst & _ & _ & Hagain).
  split; [exact Hst | exact (Hagain 0)].
Defined.

(** X17 on this block: the solution of [[a, b]] is the same on new tables
    and on the tables that the solution of [[b, a]] left. *)
Lemma solve_memo_independent_witness :
  ∃ Sol Sol' Sol0 Hr1 Hr' Hr1',
    memo_ok withLoads newHeuristic ∧
    solve withLoads 3 101 newHeuristic = Some (Sol0, Hr') ∧
    memo_ok withLoads Hr' ∧
    solve withLoads 3 100 newHeuristic = Some (Sol, Hr1) ∧
    solve withLoads 3 100 Hr' = Some (Sol', Hr1') ∧
    Sol = Sol'.
Proof.
  pose proof (memo_ok_new withLoads) as Hnew.
  destruct (solve withLoads 3 101 newHeuristic) as [[Sol0 Hr']|] eqn:E0;
    [|vm_compute in E0; discriminate].
  destruct (solve withLoads 3 100 newHeuristic) as [[Sol Hr1]|] eqn:E;
    [|vm_compute in E; discriminate].
  destruct (solve withLoads 3 100 Hr') as [[Sol' Hr1']|] eqn:E';
    [|vm_compute in E0; injection E0 as <- <-; vm_compute in E'; discriminate].
  destruct (solve_memo_independent withLoads 3 3 101 newHeuristic newHeuristic Hr' Hr'
              Sol0 Sol0 Hnew Hnew E0 E0) as (_ & Hok' & _).
  exists Sol, Sol', Sol0, Hr1, Hr', Hr1'.
  split; [exact Hnew|]. split; [reflexivity|]. split; [exact Hok'|].
  split; [reflexivity|]. split; [exact E'|].
  destruct (solve_memo_independent withLoads 3 3 100 newHeuristic Hr' Hr1 Hr1'
              Sol Sol' Hnew Hok' E E') as (Heq & _).
  exact Heq.
Defined.

(** X18 on this block: the solution of [[a, b]] holds the load pack 11, a
    candidate of its elements. *)
Lemma solve_packs_witness :
  ∃ Sol Hr1,
    memo_ok withLoads newHeuristic ∧
    solve withLoads 3 100 newHeuristic = Some (Sol, Hr1) ∧
    Packs Sol = [11] ∧
    (Packs Sol = [] ∨ ∃ VP, Packs Sol = [VP] ∧ consideredFor withLoads 100 VP).
Proof.
  pose proof (memo_ok_new withLoads) as Hnew.
  destruct (solve withLoads 3 100 newHeuristic) as [[Sol Hr1]|] eqn:E;
    [|vm_compute in E; discriminate].
  exists Sol, Hr1. split; [exact Hnew|]. split; [reflexivity|].
  split; [vm_compute in E; by injection E as <- _|].
  exact (solve_packs withLoads 3 100 newHeuristic Hr1 Sol Hnew E).
Defined.

(** X19 on this block: the solution of [[a, b]] costs 3/2, and building
    the pack by insertion costs 6. *)
Lemma solve_le_insertion_witness :
  ∃ Sol Hr1,
    memo_ok withLoads newHeuristic ∧
    solve withLoads 3 100 newHeuristic = Some (Sol, Hr1) ∧
    Cost Sol = (3 # 2)%Q ∧ insertionCost 2 100 = Some 6%Q ∧
    ∃ n c, insertionCost n 100 = Some c ∧ fle (Cost Sol) c.
Proof.
  pose proof (memo_ok_new withLoads) as Hnew.
  destruct (solve withLoads 3 100 newHeuristic) as [[Sol Hr1]|] eqn:E;
    [|vm_compute in E; discriminate].
  exists Sol, Hr1. split; [exact Hnew|]. split; [reflexivity|].
  split; [vm_compute in E; by injection E as <- _|]. split; [by vm_compute|].
  exact (solve_le_insertion withLoads 3 100 newHeuristic Hr1 Sol Hnew E).
Defined.

(** The ranks of the block: an instruction of the block has the rank of
    its position, and no pack has operand packs that have producers. *)
Definition rankV (Inst : InstPtr) : nat := Inst `min` 4.
Definition rankOP (OP : OperandPackPtr) : nat := 0.

Lemma rankV_bound Inst : rankV Inst < 5.
Proof. unfold rankV. lia. Qed.

Lemma rankV_operands Inst J :
  getParent Inst = BB → VInst J ∈ operands Inst → getParent J = BB →
  rankV J < rankV Inst.
Proof.
  intros HI HJ _. simpl in HI.
  destruct Inst as [|[|[|[|Inst]]]]; simpl in HJ;
    repeat (apply elem_of_cons in HJ as [HJ|HJ]; [try done; injection HJ as ->|]);
    try (by apply elem_of_nil in HJ); try (compute; lia).
  simpl in HI. done.
Qed.

Lemma no_producers OP VP : VP ∉ getProducers (getProducerInfo (dedup OP)).
Proof. simpl. intros Hin. repeat case_match; by apply elem_of_nil in Hin. Qed.

Lemma candidates_loads i VP : VP ∈ candidatesAt withLoads i → VP = 11.
Proof.
  intros Hin. apply candidatesAt_CandidateSet_of in Hin as [Hin _].
  by apply list_elem_of_singleton in Hin.
Qed.

Lemma elements_of_pack OP i :
  i ∈ BitVector.set_bits (Elements (getProducerInfo (dedup OP))) → OP = 100 ∧ i < 4.
Proof.
  intros Hi. apply BitVectorFacts.elem_of_set_bits in Hi.
  destruct (decide (OP = 100)) as [->|Hne].
  - split; [done|]. by apply BitVectorFacts.test_lt in Hi.
  - exfalso. simpl in Hi. repeat case_match; try done;
      destruct i as [|[|[|[|i]]]]; done.
Qed.

(** X20 on this block: [solve] returns the solution of [[a, b]]. *)
Lemma solve_terminates_witness :
  (∀ Inst, rankV Inst < 5) ∧
  S (5 + rankOP 100) < 7 ∧
  ∃ Sol Hr1, solve withLoads 7 100 newHeuristic = Some (Sol, Hr1).
Proof.
  split; [exact rankV_bound|]. split; [unfold rankOP; lia|].
  apply (solve_terminates rankV 5 withLoads rankOP 7 100 newHeuristic).
  - exact rankV_bound.
  - exact rankV_operands.
  - intros OP VP OP' HVP. by destruct (no_producers OP VP).
  - intros OP i VP OP' _ HVP HOP'. apply candidates_loads in HVP as ->.
    by apply elem_of_nil in HOP'.
  - intros Cands OP i [= <-] Hi. apply elements_of_pack in Hi as [_ Hi].
    apply lookup_lt_is_Some_2. exact Hi.
  - intros OP i VP Hi HVP. apply elements_of_pack in Hi as [-> _].
    apply candidates_loads in HVP as ->. simpl. lia.
  - reflexivity.
  - unfold rankOP. lia.
Defined.

(** X26 on this block: the one seed of two stores from the first store is
    the store pack of the chain of the two stores. *)
Lemma getSeedStorePacks_sound_witness :
  dag_ids_ok true ∧ getScalarId 2 < getNumValues ∧ 1 ≤ 2 ∧
  getSeedStorePacks 3 Frontier_ctor 2 2 = Some [10] ∧
  ∃ c, 10 = seedPack true c ∧ isSeedChain true 2 2 c ∧
       Forall (λ x, isUsable Frontier_ctor x = true) c.
Proof.
  assert (dag_ids_ok true) as Hdag.
  { intros x nexts Hx. simpl in Hx.
    destruct x as [|[|[|x]]]; try done. injection Hx as <-.
    apply Forall_singleton. simpl. lia. }
  assert (getScalarId 2 < getNumValues) as Hid by (simpl; lia).
  assert (getSeedStorePacks 3 Frontier_ctor 2 2 = Some [10]) as Hseeds by reflexivity.
  split; [exact Hdag|]. split; [exact Hid|]. split; [lia|]. split; [exact Hseeds|].
  apply (getSeedStorePacks_sound 3 Frontier_ctor 2 2 [10] 10 Hdag Hid);
    [lia | exact Hseeds | apply list_elem_of_singleton, eq_refl].
Defined.

End TwoStoresSolve.

(** ** The dynamic-programming solver on the same block

    The load pack 11 extends the operand pack [[a, b]]. *)

Module TwoStoresDP.
Import TwoStores.

#[local] Existing Instance TwoStores.pkr.

#[local] Instance ext : ExtensionSearch := {|
  findExtendingLoadPack := λ p, if p =? 100 then Some 11 else None;
  matchedPacks := λ _ _ _, [];
  tryCoalesceLoads := λ _ _, None
|}.

#[local] Instance Frontier_eq_dec : EqDecision Frontier.
Proof. solve_decision. Defined.

Definition same (a b : Frontier) : bool := bool_decide (a = b).

Lemma same_refl a : same a a = true.
Proof. by apply bool_decide_eq_true. Qed.

Definition best : DPSolver.Solution Q := DPSolver.mkSolution 2%Q (Some 11).

Lemma solved : ∃ M', DP_solve same 3 tti afterStores [] = Some (best, M').
Proof. eexists. vm_compute. reflexivity. Qed.

(** X23 on this block. *)
Lemma DP_solve_memoises_witness :
  same afterStores afterStores = true ∧
  ∃ M', DP_solve same 3 tti afterStores [] = Some (best, M') ∧
        denseFind same M' afterStores = Some best ∧
        DP_solve same 1 tti afterStores M' = Some (best, M').
Proof.
  split; [apply same_refl|]. destruct solved as [M' Hrun]. exists M'.
  split; [exact Hrun|].
  destruct (DP_solve_memoises same 3 tti afterStores [] best M' (same_refl _) Hrun)
    as [Hfind Hagain].
  split; [exact Hfind | exact (Hagain 0)].
Defined.

Lemma dp_ok_nil : dp_ok tti [].
Proof. intros k Sol E Hin. by apply elem_of_nil in Hin. Qed.

(** The equality of frontiers that compares the cursor, the free
    instructions, the unresolved packs and the unresolved scalars
    ([SharedNode.sameState]) is one that the solver may use. *)
Definition sameFields : Frontier → Frontier → bool := SharedNode.sameState.

Lemma sameFields_spec a b :
  sameFields a b = true →
  FreeInsts a = FreeInsts b ∧ UnresolvedPacks a = UnresolvedPacks b ∧
  UnresolvedScalars a = UnresolvedScalars b.
Proof.
  unfold sameFields, SharedNode.sameState. rewrite bool_decide_eq_true.
  by intros (_ & ? & ? & ?).
Qed.

Lemma solved_fields : ∃ M', DP_solve sameFields 3 tti afterStores [] = Some (best, M').
Proof. eexists. vm_compute. reflexivity. Qed.

Lemma dp_searched_nil : dp_searched tti [].
Proof. intros k Sol Hin. by apply elem_of_nil in Hin. Qed.

(** X24 on this block: the solver proposes the load pack 11 after the
    stores, and the pack can be committed there; asked again, it finds the
    solution in its table, and the pack can still be committed. *)
Lemma DP_solve_extension_commits_witness :
  index_ok ∧ index_closed ∧ block_ok ∧ def_use_ok ∧
  (∀ a b, sameFields a b = true →
          FreeInsts a = FreeInsts b ∧ UnresolvedPacks a = UnresolvedPacks b ∧
          UnresolvedScalars a = UnresolvedScalars b) ∧
  searched tti afterStores ∧ dp_searched tti [] ∧ dp_ok tti [] ∧
  ∃ M', DP_solve sameFields 3 tti afterStores [] = Some (best, M') ∧
        DP_solve sameFields 1 tti afterStores M' = Some (best, M') ∧
        DPSolver.VP best = Some 11 ∧
        11 ∈ findExtensionPacks2 afterStores ∧
        is_Some (advanceInplace_VP 11 tti afterStores).
Proof.
  split; [exact index_ok_pkr|].
  split; [exact TwoStoresSearch.index_closed_two_stores|].
  split; [exact TwoStoresSearch.block_ok_two_stores|].
  split; [exact TwoStoresSearch.def_use_ok_two_stores|].
  split; [exact sameFields_spec|].
  split; [exact TwoStoresSearch.afterStores_searched|].
  split; [exact dp_searched_nil|]. split; [exact dp_ok_nil|].
  destruct solved_fields as [M' Hrun]. exists M'.
  split; [exact Hrun|].
  destruct (DP_solve_extension_commits sameFields 3 tti afterStores [] best M' 11
              index_ok_pkr TwoStoresSearch.index_closed_two_stores
              TwoStoresSearch.block_ok_two_stores TwoStoresSearch.def_use_ok_two_stores
              sameFields_spec TwoStoresSearch.afterStores_searched
              dp_searched_nil dp_ok_nil Hrun eq_refl) as (_ & _ & Hkeys & Hok).
  assert (DP_solve sameFields 1 tti afterStores M' = Some (best, M')) as Hagain.
  { vm_compute in Hrun. injection Hrun as <-. vm_compute. reflexivity. }
  split; [exact Hagain|]. split; [reflexivity|].
  destruct (DP_solve_extension_commits sameFields 1 tti afterStores M' best M' 11
              index_ok_pkr TwoStoresSearch.index_closed_two_stores
              TwoStoresSearch.block_ok_two_stores TwoStoresSearch.def_use_ok_two_stores
              sameFields_spec TwoStoresSearch.afterStores_searched
              Hkeys Hok Hagain eq_refl) as (Hin & Hadv & _).
  split; [exact Hin | exact Hadv].
Defined.


End TwoStoresDP.

(** ** A set of slots *)

Module ThreeSlots.
Import SlotSet.

(** X28 on three insertions: the load 7 goes to the slot 2, the load 8 to
    the slot 0, and the load 9 finds the slot 2 taken. *)
Lemma inserted_bounds_witness :
  [(2, 7); (0, 8); (2, 9)] ≠ [] ∧
  minId (inserted [(2, 7); (0, 8); (2, 9)]) = Some 0 ∧
  maxId (inserted [(2, 7); (0, 8); (2, 9)]) = Some 2 ∧
  get (inserted [(2, 7); (0, 8); (2, 9)]) 2 = Some (Some 7) ∧
  ∃ lo hi, minId (inserted [(2, 7); (0, 8); (2, 9)]) = Some lo ∧
           maxId (inserted [(2, 7); (0, 8); (2, 9)]) = Some hi ∧
           occupied (inserted [(2, 7); (0, 8); (2, 9)]) lo ∧
           occupied (inserted [(2, 7); (0, 8); (2, 9)]) hi ∧
           ∀ i, occupied (inserted [(2, 7); (0, 8); (2, 9)]) i → lo ≤ i ≤ hi.
Proof.
  assert ([(2, 7); (0, 8); (2, 9)] ≠ ([] : list (nat * InstPtr))) as Hne by done.
  split; [exact Hne|]. split; [reflexivity|]. split; [reflexivity|].
  split; [reflexivity|].
  exact (SlotSetFacts.inserted_bounds [(2, 7); (0, 8); (2, 9)] Hne).
Defined.

End ThreeSlots.

(** ** A pack that replaces more than its lanes

    [[
      0:  a = load p          (a is also read by instruction 9, in another block)
      1:  t = mul a, a
      2:  u = add t, a
      3:  store u, r
      4:  store t, s
    ]]
    Pack 20 stores [t] (its operand pack 1 is [[t]]). Pack 21 is a
    general pack whose one lane matches [u = add (mul a a) a]: its element
    is [u], it replaces the instructions of the match, [t] and [u], and its
    operand pack 2 is [[a]]. Pack 22 loads [a], and pack 23 stores [u]
    (its operand pack 3 is [[u]]). *)

Module GeneralPack.

#[local] Instance pkr : Packer Q := {|
  getParent := λ i, if i <? 5 then 0 else 1;
  operands := λ i, match i with
                   | 0 => [VArg 0]
                   | 1 => [VInst 0; VInst 0]
                   | 2 => [VInst 1; VInst 0]
                   | 3 => [VInst 2; VArg 1]
                   | 4 => [VInst 1; VArg 2]
                   | 9 => [VInst 0]
                   | _ => []
                   end;
  users := λ i, match i with
                | 0 => [VInst 1; VInst 2; VInst 9]
                | 1 => [VInst 2; VInst 4]
                | 2 => [VInst 3]
                | _ => []
                end;
  getOpcode := λ i, match i with
                    | 0 => OpLoad | 3 | 4 => OpStore | _ => OpOther
                    end;
  getType := λ _, 7;
  BB := 0;
  insts := [0; 1; 2; 3; 4];
  getScalarId := λ i, i;
  getNumValues := 5;
  getScalar := VInst;
  getOperandPack := λ p, match p with
                         | 1 => {| lanes := [Some (VInst 1)]; Ty := None |}
                         | 2 => {| lanes := [Some (VInst 0)]; Ty := None |}
                         | 3 => {| lanes := [Some (VInst 2)]; Ty := None |}
                         | _ => {| lanes := []; Ty := None |}
                         end;
  getCost := λ _, 1%Q;
  getProducingCost := λ _, 1%Q;
  isStore := λ vp, bool_decide (vp = 20 ∨ vp = 23);
  isLoad := λ vp, bool_decide (vp = 22);
  getElements := λ vp, match vp with
                       | 20 => TwoStores.bits [4] 5
                       | 21 => TwoStores.bits [2] 5
                       | 22 => TwoStores.bits [0] 5
                       | 23 => TwoStores.bits [3] 5
                       | _ => TwoStores.bits [] 5
                       end;
  getOrderedValues := λ vp, match vp with
                            | 20 => [Some (VInst 4)]
                            | 21 => [Some (VInst 2)]
                            | 22 => [Some (VInst 0)]
                            | 23 => [Some (VInst 3)]
                            | _ => []
                            end;
  getOperandPacks := λ vp, match vp with
                           | 20 => [1] | 21 => [2] | 23 => [3] | _ => []
                           end;
  getReplacedInsts := λ vp, match vp with
                            | 20 => [4] | 21 => [2; 1] | 22 => [0] | 23 => [3]
                            | _ => []
                            end;
  createLoadPack := λ _ _ _, 22;
  createStorePack := λ _ _ _, 20;
  dedup := λ p, p;
  getDepended := λ _, TwoStores.bits [] 5;
  LoadDAG := λ _, None;
  StoreDAG := λ _, None;
  StoreDAG_keys := [];
  getTTI := TwoStores.tti;
  getScalarCost := λ _, 1%Q;
  getProducerInfo := λ _, {| Feasible := false; Elements := TwoStores.bits [] 5;
                             getProducers := [] |};
  VecTy_uninit := (0, 0)
|}.


Lemma index_ok_general : index_ok.
Proof.
  split.
  - compute_done.
  - repeat constructor.
Qed.

Lemma index_closed_general : index_closed.
Proof.
  intros Inst Hlt. simpl in *.
  destruct Inst as [|[|[|[|[|Inst]]]]]; [compute_done..|lia].
Qed.

Lemma block_ok_general : block_ok.
Proof.
  intros Inst. simpl. destruct (Inst <? 5) eqn:E.
  - apply Nat.ltb_lt in E. split; [done|]. intros _.
    destruct Inst as [|[|[|[|[|Inst]]]]]; [compute_done..|lia].
  - apply Nat.ltb_ge in E. split; [|done]. intros Hin.
    repeat (apply elem_of_cons in Hin as [->|Hin]; [lia|]). by apply elem_of_nil in Hin.
Qed.

Lemma def_use_ok_general : def_use_ok.
Proof.
  split.
  - intros Inst User HI HU Huse.
    repeat (apply elem_of_cons in HI as [->|HI]); try (by apply elem_of_nil in HI);
      repeat (apply elem_of_cons in HU as [->|HU]); try (by apply elem_of_nil in HU);
      first [compute_done | exfalso; revert Huse; compute_done].
  - intros Inst User HI HU Huse _.
    repeat (apply elem_of_cons in HI as [->|HI]); try (by apply elem_of_nil in HI);
      repeat (apply elem_of_cons in HU as [->|HU]); try (by apply elem_of_nil in HU);
      first [exfalso; revert Huse; compute_done
            | exists 0, 1; compute_done | exists 0, 2; compute_done
            | exists 1, 2; compute_done | exists 1, 4; compute_done
            | exists 2, 3; compute_done].
Qed.

Lemma types_ok_general : types_ok.
Proof.
  intros p T. simpl. repeat case_match; done.
Qed.

(** The frontier after the store of [t] was committed, and after the
    general pack was committed as well: the pack froze [t], which it does
    not produce, and the operand pack [[t]] of the store stays unresolved
    with no free lane. *)
Definition afterT : Frontier := {|
  BBIt := [3; 2; 1; 0];
  UnresolvedPacks := [1];
  UnresolvedScalars := [true; false; false; false; false];
  FreeInsts := [true; true; true; true; false];
  UsableInsts := [false; false; false; true; false]
|}.

Definition afterMatch : Frontier := {|
  BBIt := [3; 2; 1; 0];
  UnresolvedPacks := [1; 2];
  UnresolvedScalars := [true; false; false; false; false];
  FreeInsts := [true; false; false; true; false];
  UsableInsts := [true; false; false; true; false]
|}.

Lemma afterT_eq : advance_VP 20 TwoStores.tti Frontier_ctor = Some (1%Q, afterT).
Proof. vm_compute. reflexivity. Qed.

Lemma afterMatch_eq : advance_VP 21 TwoStores.tti afterT = Some (1%Q, afterMatch).
Proof. vm_compute. reflexivity. Qed.

Lemma afterMatch_searched : searched TwoStores.tti afterMatch.
Proof.
  eapply rtc_l; [|eapply rtc_l; [|apply rtc_refl]].
  - eapply (adv_commit TwoStores.tti 20). exact afterT_eq.
  - eapply (adv_commit TwoStores.tti 21). exact afterMatch_eq.
Qed.

Lemma afterMatch_typed : Forall packTyped (UnresolvedPacks afterMatch).
Proof. repeat constructor; eexists; split; reflexivity. Qed.

(** The pack 21 is not [packOk], and the frontier after it is not reached
    by restricted transitions: its unresolved pack [[t]] has no free
    lane. *)
Lemma afterMatch_not_restricted : ¬ restricted TwoStores.tti afterMatch.
Proof.
  intros Hreach. apply reachable_packs_unresolved in Hreach.
  apply Forall_cons in Hreach as [Hp _]. vm_compute in Hp. discriminate.
Qed.

(** The frontier after the load of [a] and the store of [u] were committed
    too: every instruction is frozen, and [[t]] is still unresolved. *)
Definition stuck : Frontier := {|
  BBIt := [];
  UnresolvedPacks := [1];
  UnresolvedScalars := [false; false; false; false; false];
  FreeInsts := [false; false; false; false; false];
  UsableInsts := [false; false; false; false; false]
|}.

Lemma stuck_searched : searched TwoStores.tti stuck.
Proof.
  eapply rtc_r; [eapply rtc_r; [exact afterMatch_searched|]|].
  - eapply (adv_commit TwoStores.tti 22). vm_compute. reflexivity.
  - eapply (adv_commit TwoStores.tti 23). vm_compute. reflexivity.
Qed.

Lemma stuck_typed : Forall packTyped (UnresolvedPacks stuck).
Proof. repeat constructor; eexists; split; reflexivity. Qed.

(** X1 on this block: after the general pack the cursor is on the store of
    [u], the last free instruction. *)
Lemma reachable_next_free_inst_witness :
  index_ok ∧ searched TwoStores.tti afterMatch ∧
  getNextFreeInst afterMatch = Some 3 ∧
  isLastFree afterMatch (getNextFreeInst afterMatch).
Proof.
  split; [exact index_ok_general|]. split; [exact afterMatch_searched|].
  split; [reflexivity|].
  exact (reachable_next_free_inst TwoStores.tti afterMatch index_ok_general
           afterMatch_searched).
Defined.

(** X2 on this block: [a] is usable, it is free and its users [t] and [u]
    are frozen. *)
Lemma reachable_usable_iff_witness :
  index_ok ∧ index_closed ∧ block_ok ∧ def_use_ok ∧
  searched TwoStores.tti afterMatch ∧ 0 ∈ insts ∧
  isUsable afterMatch 0 = true ∧
  (isUsable afterMatch 0 = true ↔
   isFree afterMatch 0 = true ∧
   (isPHI 0 = true ∨
    ∀ User, VInst User ∈ users 0 → User ∈ insts → isFree afterMatch User = false)).
Proof.
  assert (0 ∈ insts) as Hin by compute_done.
  split; [exact index_ok_general|]. split; [exact index_closed_general|].
  split; [exact block_ok_general|]. split; [exact def_use_ok_general|].
  split; [exact afterMatch_searched|]. split; [exact Hin|]. split; [reflexivity|].
  exact (reachable_usable_iff TwoStores.tti afterMatch 0 index_ok_general
           index_closed_general block_ok_general def_use_ok_general
           afterMatch_searched Hin).
Defined.

(** X3 on this block: the unresolved scalar [a] is free. *)
Lemma reachable_unresolved_scalar_free_witness :
  index_ok ∧ index_closed ∧ block_ok ∧ def_use_ok ∧
  searched TwoStores.tti afterMatch ∧
  BitVector.test (UnresolvedScalars afterMatch) 0 = true ∧
  ∃ Inst, Inst ∈ insts ∧ getScalarId Inst = 0 ∧ isFree afterMatch Inst = true.
Proof.
  split; [exact index_ok_general|]. split; [exact index_closed_general|].
  split; [exact block_ok_general|]. split; [exact def_use_ok_general|].
  split; [exact afterMatch_searched|]. split; [reflexivity|].
  exact (reachable_unresolved_scalar_free TwoStores.tti afterMatch 0 index_ok_general
           index_closed_general block_ok_general def_use_ok_general
           afterMatch_searched eq_refl).
Defined.

(** X4 on this block: the store of [u] is free, so an instruction is
    usable. *)
Lemma reachable_free_has_usable_witness :
  index_ok ∧ index_closed ∧ block_ok ∧ def_use_ok ∧
  searched TwoStores.tti afterMatch ∧ 3 ∈ insts ∧ isFree afterMatch 3 = true ∧
  ∃ Inst, Inst ∈ insts ∧ isUsable afterMatch Inst = true
          ∧ VInst Inst ∈ usableInsts afterMatch.
Proof.
  assert (3 ∈ insts) as Hin by compute_done.
  split; [exact index_ok_general|]. split; [exact index_closed_general|].
  split; [exact block_ok_general|]. split; [exact def_use_ok_general|].
  split; [exact afterMatch_searched|]. split; [exact Hin|]. split; [reflexivity|].
  exact (reachable_free_has_usable TwoStores.tti afterMatch 3 index_ok_general
           index_closed_general block_ok_general def_use_ok_general
           afterMatch_searched Hin eq_refl).
Defined.

(** X5 on this block. After the general pack two instructions are free:
    the loop scalarizes them and stops, and the pack [[t]] is resolved on
    the way. Once every instruction is frozen by commits, [[t]] is still
    unresolved, and the loop returns for no number of iterations. *)
Lemma scalarizeAll_returns_witness :
  index_ok ∧ index_closed ∧ block_ok ∧ def_use_ok ∧ types_ok ∧
  searched TwoStores.tti afterMatch ∧ Forall packTyped (UnresolvedPacks afterMatch) ∧
  freeCount afterMatch = 2 ∧
  (∃ Frt' Cost',
     scalarizeAll 3 TwoStores.tti afterMatch 1%Q = Some (Frt', Cost') ∧
     searched TwoStores.tti Frt' ∧
     numUnresolvedScalars Frt' = 0 ∧ UnresolvedPacks Frt' = []) ∧
  searched TwoStores.tti stuck ∧ Forall packTyped (UnresolvedPacks stuck) ∧
  freeCount stuck = 0 ∧ UnresolvedPacks stuck ≠ [] ∧
  ∀ fuel Cost, scalarizeAll fuel TwoStores.tti stuck Cost = None.
Proof.
  assert (freeCount afterMatch = 2) as Hfree by reflexivity.
  assert (freeCount stuck = 0) as Hzero by reflexivity.
  assert (UnresolvedPacks stuck ≠ []) as Hne by done.
  split; [exact index_ok_general|]. split; [exact index_closed_general|].
  split; [exact block_ok_general|]. split; [exact def_use_ok_general|].
  split; [exact types_ok_general|].
  split; [exact afterMatch_searched|]. split; [exact afterMatch_typed|].
  split; [exact Hfree|]. split.
  - destruct (scalarizeAll_returns TwoStores.tti afterMatch index_ok_general
                index_closed_general block_ok_general def_use_ok_general
                types_ok_general afterMatch_searched afterMatch_typed)
      as [Hret _].
    apply Hret; [intros Hz; rewrite Hfree in Hz; discriminate | rewrite Hfree; lia].
  - split; [exact stuck_searched|]. split; [exact stuck_typed|].
    split; [exact Hzero|]. split; [exact Hne|].
    destruct (scalarizeAll_returns TwoStores.tti stuck index_ok_general
                index_closed_general block_ok_general def_use_ok_general
                types_ok_general stuck_searched stuck_typed)
      as [_ Hnever].
    exact (Hnever Hzero Hne).
Defined.

(** X9 on this block. *)
Lemma reachable_packs_sorted_witness :
  searched TwoStores.tti afterMatch ∧ Sorted (≤) (UnresolvedPacks afterMatch).
Proof.
  split; [exact afterMatch_searched|].
  exact (reachable_packs_sorted TwoStores.tti afterMatch afterMatch_searched).
Defined.

(** X30 on this block: after the general pack the estimate is the cost of
    broadcasting [a], and scalarizing what is left costs that. *)
Lemma scalarizeAll_cost_is_estimate_witness :
  index_ok ∧ index_closed ∧ block_ok ∧ def_use_ok ∧ types_ok ∧
  searched TwoStores.tti afterMatch ∧ Forall packTyped (UnresolvedPacks afterMatch) ∧
  freeCount afterMatch = 2 ∧
  estimateAllScalarCost afterMatch TwoStores.tti = Some 1%Q ∧
  ∃ Frt' e,
    scalarizeAll 3 TwoStores.tti afterMatch 1%Q = Some (Frt', fadd 1%Q e) ∧
    estimateAllScalarCost afterMatch TwoStores.tti = Some e.
Proof.
  assert (freeCount afterMatch = 2) as Hfree by reflexivity.
  split; [exact index_ok_general|]. split; [exact index_closed_general|].
  split; [exact block_ok_general|]. split; [exact def_use_ok_general|].
  split; [exact types_ok_general|].
  split; [exact afterMatch_searched|]. split; [exact afterMatch_typed|].
  split; [exact Hfree|]. split; [by vm_compute|].
  apply (scalarizeAll_cost_is_estimate TwoStoresSearch.Qplus_assoc_eq
           TwoStoresSearch.Qplus_comm_eq TwoStoresSearch.Qplus_0_r_eq
           TwoStores.tti 3 afterMatch 1%Q index_ok_general
           index_closed_general block_ok_general def_use_ok_general
           types_ok_general afterMatch_searched afterMatch_typed);
    [intros Hz; rewrite Hfree in Hz; discriminate | rewrite Hfree; lia].
Defined.

Lemma stores_unused_general : stores_unused.
Proof.
  intros Inst Hop. simpl in Hop.
  destruct Inst as [|[|[|[|[|Inst]]]]]; try done.
  - split; [done|]. intros J. simpl. repeat case_match; compute_done.
  - split; [done|]. intros J. simpl. repeat case_match; compute_done.
Qed.

(** The frontier after the store of [u] was committed as well. *)
Definition afterStoreU : Frontier := {|
  BBIt := [0];
  UnresolvedPacks := [1; 2];
  UnresolvedScalars := [true; false; false; false; false];
  FreeInsts := [true; false; false; false; false];
  UsableInsts := [true; false; false; false; false]
|}.

Lemma afterStoreU_eq :
  advanceInplace_VP 23 TwoStores.tti afterMatch = Some (1%Q, afterStoreU).
Proof. vm_compute. reflexivity. Qed.

(** C9 on this block: after the general pack, where two packs are
    unresolved and [a] is an unresolved scalar, committing the store of
    [u] costs the pack alone, and the unresolved packs stay. *)
Lemma advanceInplace_VP_store_witness :
  index_ok ∧ index_closed ∧ block_ok ∧ stores_unused ∧
  searched TwoStores.tti afterMatch ∧ isStore 23 = true ∧ storeLanes 23 ∧
  advanceInplace_VP 23 TwoStores.tti afterMatch = Some (1%Q, afterStoreU) ∧
  numUnresolvedScalars afterMatch = 1 ∧
  1%Q = operandInsertTotal TwoStores.tti (getOperandPacks 23) (getCost 23) ∧
  ∀ p, p ∈ UnresolvedPacks afterMatch → p ∈ UnresolvedPacks afterStoreU.
Proof.
  assert (isStore 23 = true) as Hst by reflexivity.
  assert (storeLanes 23) as Hlanes by (by repeat constructor).
  split; [exact index_ok_general|]. split; [exact index_closed_general|].
  split; [exact block_ok_general|]. split; [exact stores_unused_general|].
  split; [exact afterMatch_searched|]. split; [exact Hst|]. split; [exact Hlanes|].
  split; [exact afterStoreU_eq|]. split; [reflexivity|].
  destruct (advanceInplace_VP_store TwoStores.tti 23 afterMatch 1%Q afterStoreU
              index_ok_general index_closed_general block_ok_general
              stores_unused_general afterMatch_searched Hst Hlanes afterStoreU_eq)
    as (Hc & _ & _ & Hkeep).
  split; [exact Hc | exact Hkeep].
Defined.

End GeneralPack.
